(** * Glitch-Eyes: the mirror canvas, its history buffer and scene generator

    A shallow embedding of
    - [src/utils/math.ts]: [distance], [lerp], [calculateEAR], [randomRange],
      [generateId] and the landmark indices;
    - the scene generator ([src/unnamed/part_000]): [generateNewScene];
    - the [MirrorCanvas] component ([src/unnamed/part_002]; line numbers in
      the comments below refer to that file): [resetScene], [extractEye],
      [onResults] and [renderScene].  [src/unnamed/part_003] is a variant of
      the component with the same bodies for these four functions, except
      that its [onResults] has no [isMountedRef] test.

    Conventions of the embedding.
    - There are two models of a JavaScript [number].  In the component a
      number is a real number and arithmetic is exact; this is the model of
      the control flow, the history buffer, the counters and the layout,
      none of which depends on the last bit of a number.  The one place
      where the source can leave the finite numbers there, the unguarded
      division of [calculateEAR], is modelled with the IEEE special values
      ([Infinity], [NaN]) written out.  Module [Double] has
      [src/utils/math.ts], the scene generator and the smoothing of the
      head position once more on binary64 numbers, rounding included: the
      ranges of [randomRange], the fixed point of [lerp] and the laws of
      [distance] do depend on the last bit, and are stated and proved
      there.  Counters that only ever hold integers ([blinkCooldownRef],
      [delayFrames], array indices) are [Z].
    - [Math.random()] is a stream of draws read through a cursor, [nat -> R]
      in the first model and [nat -> float] in module [Double].
    - An [ImageBitmap] is a handle; the session state records every call of
      [close()] in a log, and every call of [resetScene] in a counter.
    - Reading a property of [undefined] raises a [TypeError]; functions that
      can do so return a [Completion]. *)

From Stdlib Require Import Floats.
From Stdlib Require Import Reals Lra Lia ZArith List String Ascii Bool.
Import ListNotations.

Open Scope R_scope.

(** ** Numbers *)

(** Boolean readings of the comparison operators of the source. *)
Definition Rltb (a b : R) : bool := if Rlt_dec a b then true else false.
Definition Rleb (a b : R) : bool := if Rle_dec a b then true else false.
Definition Rgtb (a b : R) : bool := Rltb b a.
Definition Reqb (a b : R) : bool := if Req_dec_T a b then true else false.

(** The value of a JavaScript division: finite, or one of the IEEE special
    values that a zero denominator produces. *)
Inductive Number : Type :=
| Finite (r : R)
| Infinity
| NegInfinity
| NaN.

(** [a / b] on finite operands (the denominator is never a negative zero in
    the source: it is the result of [Math.sqrt]). *)
Definition divide (a b : R) : Number :=
  if Reqb b 0 then
    if Reqb a 0 then NaN
    else if Rltb 0 a then Infinity else NegInfinity
  else Finite (a / b).

(** [q < t] for a finite right operand; every comparison with [NaN] is false. *)
Definition lessThan (q : Number) (t : R) : bool :=
  match q with
  | Finite r => Rltb r t
  | Infinity => false
  | NegInfinity => true
  | NaN => false
  end.

(** [Math.floor]. *)
Definition floor (r : R) : Z := Int_part r.

(** ** Completions: a value, or a thrown [TypeError] *)

Inductive Completion (A : Type) : Type :=
| Normal (a : A)
| Throw.
Arguments Normal {A} a.
Arguments Throw {A}.

Definition bindC {A B : Type} (c : Completion A) (k : A -> Completion B) : Completion B :=
  match c with
  | Normal a => k a
  | Throw => Throw
  end.

Notation "x <-! c ;; k" := (bindC c (fun x => k))
  (at level 61, c at next level, right associativity).

(** [arr[i]] followed by a property access: [undefined] makes it throw. *)
Definition at_ {A : Type} (arr : list A) (i : nat) : Completion A :=
  match nth_error arr i with
  | Some a => Normal a
  | None => Throw
  end.

(** ** src/types.ts *)

Module Point.
Record t : Type := mk { x : R; y : R }.
End Point.
Abbreviation Point := Point.t.

(** A handle to an [ImageBitmap]. *)
Definition ImageBitmap : Type := nat.

Module Bounds.
Record t : Type := mk { x : R; y : R; width : R; height : R }.
End Bounds.

Module EyeData.
Record t : Type := mk {
  image : option ImageBitmap;
  timestamp : R;
  bounds : Bounds.t
}.
End EyeData.
Abbreviation EyeData := EyeData.t.

Module FrameHistory.
Record t : Type := mk { leftEye : EyeData; rightEye : EyeData }.
End FrameHistory.
Abbreviation FrameHistory := FrameHistory.t.

Inductive ShapeType : Type := rect | circle | triangle | slice.

Inductive GlitchMode : Type := rgb_split | pixel_sort | invert.

Module GeometricFrame.
Record t : Type := mk {
  id : string;
  type : ShapeType;
  delayFrames : Z;
  x : R;
  y : R;
  scale : R;
  rotation : R;
  rotationSpeed : R;
  color : string;
  glitchIntensity : R
}.
End GeometricFrame.
Abbreviation GeometricFrame := GeometricFrame.t.

Module SceneParams.
Record t : Type := mk {
  backgroundColor : string;
  shapes : list GeometricFrame;
  primaryColor : string;
  secondaryColor : string;
  glitchMode : GlitchMode
}.
End SceneParams.
Abbreviation SceneParams := SceneParams.t.

(** ** src/utils/math.ts *)

Definition distance (p1 p2 : Point) : R :=
  sqrt ((Point.x p1 - Point.x p2) ^ 2 + (Point.y p1 - Point.y p2) ^ 2).

Definition lerp (start end_ t : R) : R := start * (1 - t) + end_ * t.

(** Calculate Eye Aspect Ratio; indices: [left, right, top, bottom]. *)
Definition calculateEAR (landmarks : list Point) (indices : list nat) : Completion Number :=
  i2 <-! at_ indices 2 ;;
  i3 <-! at_ indices 3 ;;
  p2 <-! at_ landmarks i2 ;;
  p3 <-! at_ landmarks i3 ;;
  let v1 := distance p2 p3 in
  i0 <-! at_ indices 0 ;;
  i1 <-! at_ indices 1 ;;
  p0 <-! at_ landmarks i0 ;;
  p1 <-! at_ landmarks i1 ;;
  let h1 := distance p0 p1 in
  Normal (divide v1 h1).

Definition LEFT_EYE_INDICES : list nat := [33; 133; 159; 145]%nat.
Definition RIGHT_EYE_INDICES : list nat := [362; 263; 386; 374]%nat.
Definition HEAD_NOSE_INDEX : nat := 1.

Definition BLINK_THRESHOLD : R := 0.18.
Definition MAX_HISTORY : nat := 60.

(** ** Math.random

    A computation that draws from [Math.random()] reads the stream of draws
    at a cursor and advances it. *)

Definition Rand (A : Type) : Type := (nat -> R) -> nat -> A * nat.

Definition ret {A : Type} (a : A) : Rand A := fun _ n => (a, n).

Definition bind {A B : Type} (m : Rand A) (k : A -> Rand B) : Rand B :=
  fun draws n => let (a, n') := m draws n in k a draws n'.

Notation "x <-? c ;; k" := (bind c (fun x => k))
  (at level 61, c at next level, right associativity).

Definition random : Rand R := fun draws n => (draws n, S n).

Definition randomRange (min max : R) : Rand R :=
  r <-? random ;; ret (r * (max - min) + min).

(** ** The scene generator (src/unnamed/part_000) *)

Module Palette.
Record t : Type := mk { primary : string; secondary : string; bg : string }.
End Palette.

Definition PALETTES : list Palette.t := [
  Palette.mk "#00FF41" "#003B00" "#000000";
  Palette.mk "#FF0055" "#550011" "#050002";
  Palette.mk "#00F0FF" "#003344" "#000508";
  Palette.mk "#FFFFFF" "#444444" "#111111";
  Palette.mk "#FFD700" "#332200" "#0A0500";
  Palette.mk "#9D00FF" "#220033" "#05000A";
  Palette.mk "#FF4400" "#330D00" "#050100";
  Palette.mk "#FF00FF" "#440044" "#0A000A"
].

Section Generator.

(** [Number.prototype.toString(36)], a function of the platform. *)
Variable toString36 : R -> string.

Definition generateId : Rand string :=
  r <-? random ;; ret (substring 2 9 (toString36 r)).

(** The object literal of the loop body; its properties are evaluated in
    source order, which fixes the order of the draws. *)
Definition newShape (palette : Palette.t) (i : nat) : Rand GeometricFrame :=
  let isMain := Nat.eqb i 0 in
  id <-? generateId ;;
  d <-? randomRange 2 45 ;;
  x <-? (if isMain then ret 0.5 else randomRange 0.05 0.95) ;;
  y <-? (if isMain then ret 0.5 else randomRange 0.05 0.95) ;;
  scale <-? (if isMain then randomRange 1.8 2.5 else randomRange 0.3 1.4) ;;
  c <-? random ;;
  g <-? randomRange 0.1 0.9 ;;
  ret (GeometricFrame.mk id rect (floor d) x y scale 0 0
         (if Rgtb c 0.3 then Palette.primary palette else "#FFFFFF") g).

(** [for (let i = 0; i < shapeCount; i++) shapes.push(...)], with [todo]
    iterations left. *)
Fixpoint pushShapes (palette : Palette.t) (todo i : nat) : Rand (list GeometricFrame) :=
  match todo with
  | O => ret []
  | S todo' =>
      s <-? newShape palette i ;;
      rest <-? pushShapes palette todo' (S i) ;;
      ret (s :: rest)
  end.

(** [PALETTES[k]] for the [k] that [generateNewScene] computes.  The index
    lies inside the table for every draw that [Math.random] can return
    (lemma [palette_index_in_table]); the default is never read. *)
Definition paletteAt (k : Z) : Palette.t :=
  nth (Z.to_nat k) PALETTES (Palette.mk "" "" "").

Definition generateNewScene : Rand SceneParams :=
  r <-? random ;;
  let palette := paletteAt (floor (r * INR (List.length PALETTES))) in
  n <-? randomRange 20 35 ;;
  let shapeCount := floor n in
  shapes <-? pushShapes palette (Z.to_nat shapeCount) 0 ;;
  m <-? random ;;
  ret (SceneParams.mk (Palette.bg palette) shapes (Palette.primary palette)
         (Palette.secondary palette) (if Rgtb m 0.5 then rgb_split else invert)).

End Generator.

(** ** The mirror canvas (src/unnamed/part_002): eye extraction *)

(** The running bounding box of [extractEye]. *)
Module Box.
Record t : Type := mk { minX : R; minY : R; maxX : R; maxY : R }.
End Box.

(** The source rectangle [(sx, sy, sw, sh)] handed to [createImageBitmap]. *)
Module Crop.
Record t : Type := mk { sx : R; sy : R; sw : R; sh : R }.
End Crop.

(** One round of the [indices.forEach] body. *)
Definition include (b : Box.t) (p : Point) : Box.t :=
  Box.mk
    (if Rltb (Point.x p) (Box.minX b) then Point.x p else Box.minX b)
    (if Rltb (Point.y p) (Box.minY b) then Point.y p else Box.minY b)
    (if Rgtb (Point.x p) (Box.maxX b) then Point.x p else Box.maxX b)
    (if Rgtb (Point.y p) (Box.maxY b) then Point.y p else Box.maxY b).

Fixpoint forEachIndex (landmarks : list Point) (indices : list nat) (b : Box.t)
  : Completion Box.t :=
  match indices with
  | [] => Normal b
  | idx :: rest =>
      p <-! at_ landmarks idx ;;
      forEachIndex landmarks rest (include b p)
  end.

(** The box after padding and clamping to the unit square. *)
Definition padded (b : Box.t) : Box.t :=
  let paddingX := (Box.maxX b - Box.minX b) * 0.6 in
  let paddingY := (Box.maxY b - Box.minY b) * 1.0 in
  Box.mk (Rmax 0 (Box.minX b - paddingX)) (Rmax 0 (Box.minY b - paddingY))
         (Rmin 1 (Box.maxX b + paddingX)) (Rmin 1 (Box.maxY b + paddingY)).

Definition toPixels (b : Box.t) (width height : R) : Crop.t :=
  Crop.mk (Box.minX b * width) (Box.minY b * height)
          ((Box.maxX b - Box.minX b) * width) ((Box.maxY b - Box.minY b) * height).

(** [extractEye]: [None] is the [null] result, [Some c] the call
    [createImageBitmap(image, sx, sy, sw, sh)]. *)
Definition extractEye (landmarks : list Point) (indices : list nat) (width height : R)
  : Completion (option Crop.t) :=
  b <-! forEachIndex landmarks indices (Box.mk 1 1 0 0) ;;
  let c := toPixels (padded b) width height in
  if Rleb (Crop.sw c) 0 || Rleb (Crop.sh c) 0 then Normal None
  else Normal (Some c).

(** ** The mirror canvas: session state *)

(** The refs of the component that [onResults] and [renderScene] read and
    write, with the instrumentation: [closed] logs the calls of
    [ImageBitmap.close()], [resets] counts the calls of [resetScene], and
    [created] counts the bitmaps made so far (the next fresh handle). *)
Record Session : Type := mkSession {
  historyRef : list FrameHistory;
  sceneParamsRef : SceneParams;
  headPosRef : Point;
  targetHeadPosRef : Point;
  blinkCooldownRef : Z;
  resetFlashRef : R;
  closed : list ImageBitmap;
  resets : nat;
  created : nat
}.

Definition setHistory (h : list FrameHistory) (s : Session) : Session :=
  mkSession h (sceneParamsRef s) (headPosRef s) (targetHeadPosRef s)
    (blinkCooldownRef s) (resetFlashRef s) (closed s) (resets s) (created s).

Definition setTargetHeadPos (p : Point) (s : Session) : Session :=
  mkSession (historyRef s) (sceneParamsRef s) (headPosRef s) p
    (blinkCooldownRef s) (resetFlashRef s) (closed s) (resets s) (created s).

Definition setHeadPos (p : Point) (s : Session) : Session :=
  mkSession (historyRef s) (sceneParamsRef s) p (targetHeadPosRef s)
    (blinkCooldownRef s) (resetFlashRef s) (closed s) (resets s) (created s).

Definition setBlinkCooldown (c : Z) (s : Session) : Session :=
  mkSession (historyRef s) (sceneParamsRef s) (headPosRef s) (targetHeadPosRef s)
    c (resetFlashRef s) (closed s) (resets s) (created s).

Definition setResetFlash (f : R) (s : Session) : Session :=
  mkSession (historyRef s) (sceneParamsRef s) (headPosRef s) (targetHeadPosRef s)
    (blinkCooldownRef s) f (closed s) (resets s) (created s).

(** [image?.close()] *)
Definition close (image : option ImageBitmap) (s : Session) : Session :=
  match image with
  | Some b =>
      mkSession (historyRef s) (sceneParamsRef s) (headPosRef s) (targetHeadPosRef s)
        (blinkCooldownRef s) (resetFlashRef s) (closed s ++ [b]) (resets s) (created s)
  | None => s
  end.

(** What one invocation of [onResults] receives from the tracker and the
    platform. *)
Record Tick : Type := mkTick {
  isMounted : bool;
  (** [canvasRef.current], [videoRef.current] and the 2d context exist *)
  surface : bool;
  now : R;
  multiFaceLandmarks : option (list (list Point));
  videoWidth : R;
  videoHeight : R;
  canvasWidth : R;
  canvasHeight : R;
  (** whether the promise of [createImageBitmap] for a rectangle resolves *)
  resolves : Crop.t -> bool;
  (** the draws of [Math.random()] that a scene generated in this tick reads *)
  draws : nat -> R
}.

(** *** The history buffer *)

(** [Array.prototype.pop] *)
Definition pop {A : Type} (l : list A) : option A * list A :=
  (nth_error l (List.length l - 1), removelast l).

(** Lines 250-255: [unshift] the new frame, then evict the oldest one. *)
Definition pushHistory (newFrame : FrameHistory) (s : Session) : Session :=
  let s1 := setHistory (newFrame :: historyRef s) s in
  if (MAX_HISTORY <? List.length (historyRef s1))%nat then
    let (old, rest) := pop (historyRef s1) in
    let s2 := setHistory rest s1 in
    match old with
    | Some o =>
        close (EyeData.image (FrameHistory.rightEye o))
          (close (EyeData.image (FrameHistory.leftEye o)) s2)
    | None => s2
    end
  else s1.

(** *** renderScene

    Of the six stages of the compositor the embedding keeps what decides the
    data flow: the placement pass (stage 2), the choice of the eye bitmap of
    every placed shape (stage 4) and the decay of the reset flash (stage 5).
    The calls on the 2d context are not modelled. *)

(** [arr[i]] for an integer [i]: [None] is [undefined]. *)
Definition index {A : Type} (arr : list A) (i : Z) : option A :=
  if (i <? 0)%Z then None else nth_error arr (Z.to_nat i).

Definition historyIndex (history : list FrameHistory) (delayFrames : Z) : Z :=
  Z.min delayFrames (Z.of_nat (List.length history) - 1).

(** Lines 316-319: the history frame of a shape, or nothing when the shape
    is to be skipped. *)
Definition frameData (history : list FrameHistory) (delayFrames : Z)
  : option FrameHistory :=
  let i := historyIndex history delayFrames in
  if (i <? 0)%Z then None else index history i.

Module RenderedShape.
Record t : Type := mk { x : R; y : R; size : R; shape : GeometricFrame }.
End RenderedShape.

(** The body of [params.shapes.forEach] in stage 2. *)
Definition placeShape (history : list FrameHistory) (head : Point) (width height : R)
  (shape : GeometricFrame) : option RenderedShape.t :=
  match frameData history (GeometricFrame.delayFrames shape) with
  | None => None
  | Some _ =>
      let parallaxX := (Point.x head - 0.5) * width in
      let parallaxY := (Point.y head - 0.5) * height in
      let depth := GeometricFrame.scale shape * 0.5 in
      let gazeDriftX :=
        (Point.x head - 0.5) * width * 0.4 * GeometricFrame.glitchIntensity shape in
      let gazeDriftY :=
        (Point.y head - 0.5) * height * 0.4 * GeometricFrame.glitchIntensity shape in
      let centerX := GeometricFrame.x shape * width + parallaxX * depth + gazeDriftX in
      let centerY := GeometricFrame.y shape * height + parallaxY * depth + gazeDriftY in
      let size := 120 * GeometricFrame.scale shape in
      Some (RenderedShape.mk centerX centerY size shape)
  end.

Fixpoint placeShapes (history : list FrameHistory) (head : Point) (width height : R)
  (shapes : list GeometricFrame) : list RenderedShape.t :=
  match shapes with
  | [] => []
  | shape :: rest =>
      match placeShape history head width height shape with
      | Some r => r :: placeShapes history head width height rest
      | None => placeShapes history head width height rest
      end
  end.

(** [shape.id.charCodeAt(0) % 2 === 0]; the code of an empty id is [NaN]. *)
Definition useLeftEye (id : string) : bool :=
  match id with
  | String c _ => Nat.even (nat_of_ascii c)
  | EmptyString => false
  end.

(** Lines 360-364: the bitmap that stage 4 draws for a placed shape;
    [Normal None] is the early [return] on a missing image. *)
Definition eyeImg (history : list FrameHistory) (item : RenderedShape.t)
  : Completion (option ImageBitmap) :=
  let shape := RenderedShape.shape item in
  match index history (historyIndex history (GeometricFrame.delayFrames shape)) with
  | None => Throw
  | Some frame =>
      Normal (if useLeftEye (GeometricFrame.id shape)
              then EyeData.image (FrameHistory.leftEye frame)
              else EyeData.image (FrameHistory.rightEye frame))
  end.

Fixpoint drawShapes (history : list FrameHistory) (items : list RenderedShape.t)
  : Completion (list (RenderedShape.t * ImageBitmap)) :=
  match items with
  | [] => Normal []
  | item :: rest =>
      img <-! eyeImg history item ;;
      drawn <-! drawShapes history rest ;;
      Normal (match img with
              | Some b => (item, b) :: drawn
              | None => drawn
              end)
  end.

(** Stage 5, lines 451-484: the update of [resetFlashRef]. *)
Definition decayFlash (flash : R) : R :=
  if Rgtb flash 0.001 then flash * 0.85 else 0.

(** What one call of [renderScene] puts on the canvas. *)
Module Composite.
Record t : Type := mk {
  placed : list RenderedShape.t;
  drawn : list (RenderedShape.t * ImageBitmap);
  flash : R
}.
End Composite.

Definition renderScene (width height : R) (s : Session)
  : Completion (Session * Composite.t) :=
  let params := sceneParamsRef s in
  let head := headPosRef s in
  let renderedShapes :=
    placeShapes (historyRef s) head width height (SceneParams.shapes params) in
  drawn <-! drawShapes (historyRef s) renderedShapes ;;
  Normal (setResetFlash (decayFlash (resetFlashRef s)) s,
          Composite.mk renderedShapes drawn (resetFlashRef s)).

(** *** onResults *)

Section Canvas.

Variable toString36 : R -> string.

Definition resetScene (draws : nat -> R) (s : Session) : Session :=
  mkSession (historyRef s) (fst (generateNewScene toString36 draws 0%nat))
    (headPosRef s) (targetHeadPosRef s) (blinkCooldownRef s) 1.0
    (closed s) (S (resets s)) (created s).

(** The state of a freshly mounted component. *)
Definition initialSession (draws : nat -> R) : Session :=
  mkSession [] (fst (generateNewScene toString36 draws 0%nat))
    (Point.mk 0.5 0.5) (Point.mk 0.5 0.5) 0 0 [] 0 0.

(** [results.multiFaceLandmarks && results.multiFaceLandmarks.length > 0],
    then [results.multiFaceLandmarks[0]]. *)
Definition firstFace (t : Tick) : option (list Point) :=
  match multiFaceLandmarks t with
  | Some (landmarks :: _) => Some landmarks
  | _ => None
  end.

(** The settled value of one element of the [Promise.all] array. *)
Inductive Settled : Type :=
| Resolved (bmp : option ImageBitmap)
| Rejected.

(** [createImageBitmap] on the result of [extractEye]: [null] passes
    through; a rectangle becomes a fresh bitmap, or a rejected promise. *)
Definition settle (t : Tick) (e : option Crop.t) (s : Session) : Settled * Session :=
  match e with
  | None => (Resolved None, s)
  | Some c =>
      if resolves t c then
        (Resolved (Some (created s)),
         mkSession (historyRef s) (sceneParamsRef s) (headPosRef s)
           (targetHeadPosRef s) (blinkCooldownRef s) (resetFlashRef s)
           (closed s) (resets s) (S (created s)))
      else (Rejected, s)
  end.

Definition newFrame (t : Tick) (leftEyeBmp rightEyeBmp : ImageBitmap) : FrameHistory :=
  FrameHistory.mk
    (EyeData.mk (Some leftEyeBmp) (now t) (Bounds.mk 0 0 0 0))
    (EyeData.mk (Some rightEyeBmp) (now t) (Bounds.mk 0 0 0 0)).

(** Lines 238-259, the [try] block: every exception and every rejection
    ends the block without a push. *)
Definition capture (t : Tick) (landmarks : list Point) (s : Session) : Session :=
  match extractEye landmarks LEFT_EYE_INDICES (videoWidth t) (videoHeight t) with
  | Throw => s
  | Normal l =>
      let (leftEyeBmp, s1) := settle t l s in
      match extractEye landmarks RIGHT_EYE_INDICES (videoWidth t) (videoHeight t) with
      | Throw => s1
      | Normal r =>
          let (rightEyeBmp, s2) := settle t r s1 in
          match leftEyeBmp, rightEyeBmp with
          | Resolved (Some lb), Resolved (Some rb) => pushHistory (newFrame t lb rb) s2
          | _, _ => s2
          end
      end
  end.

(** Lines 231-236. *)
Definition detectBlink (t : Tick) (leftEAR rightEAR : Number) (s : Session) : Session :=
  if lessThan leftEAR BLINK_THRESHOLD && lessThan rightEAR BLINK_THRESHOLD then
    if (blinkCooldownRef s <=? 0)%Z then resetScene (draws t) (setBlinkCooldown 25 s)
    else s
  else s.

(** Lines 264-268: the end of every tick that gets that far.  The second
    component is the rendered frame, [None] when [renderScene] threw. *)
Definition finish (t : Tick) (s : Session) : Session * option Composite.t :=
  let s1 :=
    if (0 <? blinkCooldownRef s)%Z then setBlinkCooldown (blinkCooldownRef s - 1) s
    else s in
  let head := headPosRef s1 in
  let target := targetHeadPosRef s1 in
  let s2 :=
    setHeadPos (Point.mk (lerp (Point.x head) (Point.x target) 0.08)
                         (lerp (Point.y head) (Point.y target) 0.08)) s1 in
  match renderScene (canvasWidth t) (canvasHeight t) s2 with
  | Normal (s3, frame) => (s3, Some frame)
  | Throw => (s2, None)
  end.

(** One invocation of the tracker callback.  The frame-rate bookkeeping
    ([frameCountRef], [lastTimeRef], [setFps]) is left out.  An exception
    outside the [try] block rejects the promise of [onResults]: the writes
    made so far stay, nothing is rendered. *)
Definition onResults (t : Tick) (s : Session) : Session * option Composite.t :=
  if negb (isMounted t) then (s, None)
  else if negb (surface t) then (s, None)
  else
    match firstFace t with
    | Some landmarks =>
        match at_ landmarks HEAD_NOSE_INDEX with
        | Throw => (s, None)
        | Normal nose =>
            let s1 := setTargetHeadPos (Point.mk (1 - Point.x nose) (Point.y nose)) s in
            match calculateEAR landmarks LEFT_EYE_INDICES with
            | Throw => (s1, None)
            | Normal leftEAR =>
                match calculateEAR landmarks RIGHT_EYE_INDICES with
                | Throw => (s1, None)
                | Normal rightEAR =>
                    finish t (capture t landmarks (detectBlink t leftEAR rightEAR s1))
                end
            end
        end
    | None => finish t (setTargetHeadPos (Point.mk 0.5 0.5) s)
    end.

(** The session after a sequence of tracker callbacks. *)
Definition run (ticks : list Tick) (s : Session) : Session :=
  fold_left (fun s t => fst (onResults t s)) ticks s.

End Canvas.


(** ** The rest of the compositor and of the callback

    The stages of [renderScene] that the data flow above leaves out, each as
    a function of the values it reads.  What reaches the canvas is returned
    as data; the calls on the 2d context that only set styles are left out. *)

(** *** Stage 3, lines 332-353: connections *)

Module Link.
Record t : Type := mk { s1 : RenderedShape.t; s2 : RenderedShape.t; alpha : R }.
End Link.

(** Lines 339-350, the body of the inner loop; [Rmin] is [Math.min], the
    last field is the alpha channel of the stroke style. *)
Definition connect (width height : R) (s1 s2 : RenderedShape.t) : option Link.t :=
  let d := distance (Point.mk (RenderedShape.x s1) (RenderedShape.y s1))
                    (Point.mk (RenderedShape.x s2) (RenderedShape.y s2)) in
  if Rltb d (Rmin width height * 0.4) then
    let opacity := 1 - d / (Rmin width height * 0.4) in
    Some (Link.mk s1 s2 (opacity * 0.8))
  else None.

(** [for (let j = i + 1; j < renderedShapes.length; j++)] for a fixed [i]:
    [s1] is [renderedShapes[i]], [rest] the elements behind it. *)
Fixpoint connectFrom (width height : R) (s1 : RenderedShape.t)
  (rest : list RenderedShape.t) : list Link.t :=
  match rest with
  | [] => []
  | s2 :: rest' =>
      match connect width height s1 s2 with
      | Some l => l :: connectFrom width height s1 rest'
      | None => connectFrom width height s1 rest'
      end
  end.

(** [for (let i = 0; i < renderedShapes.length; i++)]. *)
Fixpoint connections (width height : R) (renderedShapes : list RenderedShape.t)
  : list Link.t :=
  match renderedShapes with
  | [] => []
  | s1 :: rest => connectFrom width height s1 rest ++ connections width height rest
  end.

(** *** Stage 4, lines 366-447: the trail layers of one shape *)

Module Layer.
Record t : Type := mk {
  k : nat;
  x : R;
  y : R;
  alpha : R;
  jitter : option R;
  tint : string;
  lineWidth : R;
  isMain : bool
}.
End Layer.

(** The body of the loop over [k].  [x] and [y] are the arguments of the
    first [translate], [jitter] the argument of the second one when it
    happens, [tint] the fill style of the overlay rectangle.  The operands
    of [&&] are evaluated left to right, so the main layer draws no number
    for its extra dimming and none for its tint. *)
Definition layer (parallaxX parallaxY : R) (item : RenderedShape.t) (k : nat)
  : Rand Layer.t :=
  let shape := RenderedShape.shape item in
  let isMain := Nat.eqb k 0 in
  let isTrail := negb isMain in
  let lagIntensity := 0.08 * INR k * (0.8 + GeometricFrame.glitchIntensity shape) in
  let trailX := if isMain then 0 else - (parallaxX * lagIntensity) in
  let trailY := if isMain then 0 else - (parallaxY * lagIntensity) in
  let alpha := if isMain then 1.0 else 0.4 / (INR k + 0.5) in
  let instability := GeometricFrame.glitchIntensity shape in
  let flickerChance := if isTrail then 0.25 else 0.02 in
  flicker <-? random ;;
  alpha <-? (if Rltb flicker (flickerChance + instability * 0.1) then
               f <-? random ;;
               let alpha := alpha * (0.2 + f * 0.7) in
               if isTrail then
                 g <-? random ;;
                 ret (if Rgtb g 0.8 then alpha * 0.1 else alpha)
               else ret alpha
             else ret alpha) ;;
  shake <-? random ;;
  jitter <-? (if Rltb shake (0.05 + instability * 0.05) then
                j <-? random ;;
                ret (Some ((j - 0.5) * 6 * instability))
              else ret None) ;;
  tint <-? (if isTrail then
              w <-? random ;;
              ret (if Rltb w 0.05 then "#FFFFFF"%string else GeometricFrame.color shape)
            else ret (GeometricFrame.color shape)) ;;
  ret (Layer.mk k (RenderedShape.x item + trailX) (RenderedShape.y item + trailY)
         alpha jitter tint (if isMain then 2 else 1) isMain).

(** [for (let k = trailCount; k >= 0; k--)], entered at [k]. *)
Fixpoint trail (parallaxX parallaxY : R) (item : RenderedShape.t) (k : nat)
  : Rand (list Layer.t) :=
  match k with
  | O =>
      l <-? layer parallaxX parallaxY item 0 ;;
      ret [l]
  | S k' =>
      l <-? layer parallaxX parallaxY item k ;;
      rest <-? trail parallaxX parallaxY item k' ;;
      ret (l :: rest)
  end.

Definition trailCount : nat := 2.

(** The layers of every shape that stage 4 draws, in drawing order. *)
Fixpoint paintShapes (parallaxX parallaxY : R)
  (drawn : list (RenderedShape.t * ImageBitmap)) : Rand (list (list Layer.t)) :=
  match drawn with
  | [] => ret []
  | (item, _) :: rest =>
      layers <-? trail parallaxX parallaxY item trailCount ;;
      more <-? paintShapes parallaxX parallaxY rest ;;
      ret (layers :: more)
  end.

(** *** Stage 5, lines 450-484: the scramble overlay *)

Module Strip.
Record t : Type := mk { y : R; h : R }.
End Strip.

(** [for (let i = 0; i < numStrips; i++)] with [todo] iterations left; the
    result lists the strips that are filled. *)
Fixpoint strips (height intensity : R) (todo : nat) : Rand (list Strip.t) :=
  match todo with
  | O => ret []
  | S todo' =>
      h <-? random ;;
      y <-? random ;;
      c <-? random ;;
      rest <-? strips height intensity todo' ;;
      let stripH := h * 60 * intensity in
      let stripY := y * height in
      ret (if Rgtb c 0.5 then Strip.mk stripY stripH :: rest else rest)
  end.

Module Scramble.
Record t : Type := mk {
  screen : R;
  stripAlpha : R;
  filled : list Strip.t;
  banner : option string
}.
End Scramble.

Definition numStrips : nat := 8.

(** What stage 5 paints: nothing in the [else] branch; otherwise the alpha
    of the white screen, the alpha of the strips, the strips, and the fill
    style of the [[ SYSTEM_SCRAMBLE ]] text when it is written. *)
Definition scramble (height : R) (params : SceneParams) (flash : R)
  : Rand (option Scramble.t) :=
  if Rgtb flash 0.001 then
    let intensity := flash in
    filled <-? strips height intensity numStrips ;;
    banner <-? (if Rgtb intensity 0.2 then
                  c <-? random ;;
                  ret (Some (if Rgtb c 0.5 then SceneParams.primaryColor params
                             else "#FFFFFF"%string))
                else ret None) ;;
    ret (Some (Scramble.mk (intensity * 0.3) (intensity * 0.6) filled banner))
  else ret None.

(** The random part of one call of [renderScene] on the session [s] that
    drew [drawn]: stage 4, then stage 5, on one stream. *)
Definition paint (width height : R) (s : Session)
  (drawn : list (RenderedShape.t * ImageBitmap))
  : Rand (list (list Layer.t) * option Scramble.t) :=
  let head := headPosRef s in
  let parallaxX := (Point.x head - 0.5) * width in
  let parallaxY := (Point.y head - 0.5) * height in
  layers <-? paintShapes parallaxX parallaxY drawn ;;
  overlay <-? scramble height (sceneParamsRef s) (resetFlashRef s) ;;
  ret (layers, overlay).

(** *** Lines 212-218: the frame counter *)

Module Meter.
Record t : Type := mk { frameCount : Z; lastTime : R }.
End Meter.

(** The second component is the argument of [setFps] when it is called. *)
Definition countFrame (now : R) (m : Meter.t) : Meter.t * option Z :=
  let (m1, shown) :=
    if Rleb 1000 (now - Meter.lastTime m)
    then (Meter.mk 0 now, Some (Meter.frameCount m))
    else (m, None) in
  (Meter.mk (Meter.frameCount m1 + 1) (Meter.lastTime m1), shown).

(** The counter of a freshly mounted component. *)
Definition initialMeter : Meter.t := Meter.mk 0 0.

(** The counter after callbacks at the times [nows], and the calls of
    [setFps] made on the way, each with the time of its callback. *)
Fixpoint countFrames (nows : list R) (m : Meter.t) : Meter.t * list (R * Z) :=
  match nows with
  | [] => (m, [])
  | now :: rest =>
      let (m1, shown) := countFrame now m in
      let (m2, reports) := countFrames rest m1 in
      (m2, match shown with
           | Some n => (now, n) :: reports
           | None => reports
           end)
  end.

(** *** Stages 1 and 6: the remainders *)

(** [Math.trunc]. *)
Definition trunc (r : R) : Z :=
  if Rleb 0 r then Int_part r else (- Int_part (- r))%Z.

(** [a % b] on finite numbers: the result has the sign of [a]; a zero
    divisor gives [NaN]. *)
Definition remainder (a b : R) : Number :=
  if Reqb b 0 then NaN else Finite (a - b * IZR (trunc (a / b))).

(** [n - r] for a finite [r]. *)
Definition minus (n : Number) (r : R) : Number :=
  match n with
  | Finite a => Finite (a - r)
  | other => other
  end.

(** Lines 297-301 and 305: the coordinate of the first grid line for a
    parallax of [parallax] pixels. *)
Definition gridStart (parallax : R) : Number :=
  let gridSize := 100 in
  let gridOffset := parallax * 0.1 in
  remainder gridOffset gridSize.

(** Lines 495-497: the top of the moving bar at the clock reading [clock]. *)
Definition barTop (clock height : R) : Number :=
  let time := clock * 0.0003 in
  let barHeight := height * 0.25 in
  minus (remainder (time * height * 0.8) (height + barHeight)) barHeight.

(** ** IEEE doubles

    [src/utils/math.ts], the scene generator and the smoothing of the head
    position once more, on the binary64 numbers of the source: [float] is
    the primitive type of the kernel, whose operations round to nearest,
    ties to even, as those of JavaScript do.  The definitions of module
    [Double] are the definitions above with every [number] a [float]; they
    can be evaluated, and they are what the ranges, the smoothing and the
    laws of the distance are proved of.  The definitions on real numbers
    remain the model of everything whose statement does not depend on the
    last bit. *)

(** *** The value of a double *)

Definition bpow (e : Z) : R := powerRZ 2 e.

(** The exponent of the last place of a number below [2^e]. *)
Definition fexp64 (e : Z) : Z := Z.max (e - 53) (-1074).

(** The value of a finite number; [0] for the others. *)
Definition SF2R (f : spec_float) : R :=
  match f with
  | S754_finite s m e => (if s then -1 else 1) * IZR (Z.pos m) * bpow e
  | _ => 0
  end.

(** Zero, or positive and finite. *)
Definition nonneg (f : spec_float) : Prop :=
  match f with
  | S754_zero _ => True
  | S754_finite false _ _ => True
  | _ => False
  end.

(** [Math.floor] on a finite number. *)
Definition SFfloor (f : spec_float) : Z :=
  match f with
  | S754_finite s m e => Z.shiftl (cond_Zopp s (Z.pos m)) e
  | _ => 0%Z
  end.

(** Decimal literals denote the nearest double, as in the source. *)
Set Warnings "-inexact-float".

Module Double.

Local Open Scope float_scope.

Definition B2R (x : float) : R := SF2R (Prim2SF x).

(** [Math.floor(x)] for a finite [x], as an integer. *)
Definition floor (x : float) : Z := SFfloor (Prim2SF x).

(** The draws of [Math.random()] are doubles. *)
Definition Rand (A : Type) : Type := (nat -> float) -> nat -> A * nat.

Definition ret {A : Type} (a : A) : Rand A := fun _ n => (a, n).

Definition bind {A B : Type} (m : Rand A) (k : A -> Rand B) : Rand B :=
  fun draws n => let (a, n') := m draws n in k a draws n'.

Notation "x <~ c ;; k" := (bind c (fun x => k))
  (at level 61, c at next level, right associativity).

Definition random : Rand float := fun draws n => (draws n, S n).

(** [src/utils/math.ts], line 27. *)
Definition randomRange (min max : float) : Rand float :=
  r <~ random ;; ret (r * (max - min) + min).

(** [src/utils/math.ts], lines 7-9. *)
Definition lerp (start end_ t : float) : float := start * (1 - t) + end_ * t.

Module GeometricFrame.
Record t : Type := mk {
  id : string;
  type : ShapeType;
  delayFrames : Z;
  x : float;
  y : float;
  scale : float;
  rotation : float;
  rotationSpeed : float;
  color : string;
  glitchIntensity : float
}.
End GeometricFrame.

Module SceneParams.
Record t : Type := mk {
  backgroundColor : string;
  shapes : list GeometricFrame.t;
  primaryColor : string;
  secondaryColor : string;
  glitchMode : GlitchMode
}.
End SceneParams.

Section Generator.

Variable toString36 : float -> string.

Definition generateId : Rand string :=
  r <~ random ;; ret (substring 2 9 (toString36 r)).

Definition newShape (palette : Palette.t) (i : nat) : Rand GeometricFrame.t :=
  let isMain := Nat.eqb i 0 in
  id <~ generateId ;;
  d <~ randomRange 2 45 ;;
  x <~ (if isMain then ret 0.5 else randomRange 0.05 0.95) ;;
  y <~ (if isMain then ret 0.5 else randomRange 0.05 0.95) ;;
  scale <~ (if isMain then randomRange 1.8 2.5 else randomRange 0.3 1.4) ;;
  c <~ random ;;
  g <~ randomRange 0.1 0.9 ;;
  ret (GeometricFrame.mk id rect (floor d) x y scale 0 0
         (if 0.3 <? c then Palette.primary palette else "#FFFFFF"%string) g).

Fixpoint pushShapes (palette : Palette.t) (todo i : nat)
  : Rand (list GeometricFrame.t) :=
  match todo with
  | O => ret []
  | S todo' =>
      s <~ newShape palette i ;;
      rest <~ pushShapes palette todo' (S i) ;;
      ret (s :: rest)
  end.

Definition generateNewScene : Rand SceneParams.t :=
  r <~ random ;;
  let palette := paletteAt (floor (r * 8)) in
  n <~ randomRange 20 35 ;;
  let shapeCount := floor n in
  shapes <~ pushShapes palette (Z.to_nat shapeCount) 0 ;;
  m <~ random ;;
  ret (SceneParams.mk (Palette.bg palette) shapes (Palette.primary palette)
         (Palette.secondary palette) (if 0.5 <? m then rgb_split else invert)).

End Generator.

Module Point.
Record t : Type := mk { x : float; y : float }.
End Point.

(** [src/unnamed/part_002], lines 265-266: one tick of smoothing of the
    head position, and [k] ticks with the target held fixed. *)
Definition smoothHead (target head : Point.t) : Point.t :=
  Point.mk (lerp (Point.x head) (Point.x target) 0.08)
           (lerp (Point.y head) (Point.y target) 0.08).

Definition smoothedHead (target head : Point.t) (k : nat) : Point.t :=
  Nat.iter k (smoothHead target) head.

(** [src/utils/math.ts], lines 3-5.  [Math.pow(d, 2)] is taken to be the
    rounded product [d * d], which is what the power function of the
    engines returns for an exponent of 2. *)
Definition distance (p1 p2 : Point.t) : float :=
  let dx := Point.x p1 - Point.x p2 in
  let dy := Point.y p1 - Point.y p2 in
  PrimFloat.sqrt (dx * dx + dy * dy).

(** [src/utils/math.ts], lines 12-19; indices: [left, right, top, bottom]. *)
Definition calculateEAR (landmarks : list Point.t) (indices : list nat)
  : Completion float :=
  i2 <-! at_ indices 2 ;;
  i3 <-! at_ indices 3 ;;
  p2 <-! at_ landmarks i2 ;;
  p3 <-! at_ landmarks i3 ;;
  let v1 := distance p2 p3 in
  i0 <-! at_ indices 0 ;;
  i1 <-! at_ indices 1 ;;
  p0 <-! at_ landmarks i0 ;;
  p1 <-! at_ landmarks i1 ;;
  let h1 := distance p0 p1 in
  Normal (v1 / h1).

(** [src/unnamed/part_002], line 14. *)
Definition BLINK_THRESHOLD : float := 0.18.

(** What these do to one axis. *)
Definition smooth (target current : float) : float := lerp current target 0.08.

Definition smoothed (target current : float) (k : nat) : float :=
  Nat.iter k (smooth target) current.

(** *** Vocabulary *)

(** Zero or positive, and finite. *)
Definition good (x : float) : Prop := nonneg (Prim2SF x).

(** The largest double below 1. *)
Definition pred1 : float := 0x1.fffffffffffffp-1.

(** Every draw of the stream is a double in [0,1). *)
Definition unitDraws (draws : nat -> float) : Prop :=
  forall k, (0 <=? draws k) = true /\ (draws k <? 1) = true.

(** The ranges of the generator, read with the comparisons of the source:
    every bound is the double that the literal denotes. *)
Definition focal (shape : GeometricFrame.t) : Prop :=
  GeometricFrame.x shape = 0.5 /\ GeometricFrame.y shape = 0.5 /\
  (1.8 <=? GeometricFrame.scale shape) = true /\
  (GeometricFrame.scale shape <=? 2.5) = true.

Definition fragment (shape : GeometricFrame.t) : Prop :=
  (0.05 <=? GeometricFrame.x shape) = true /\
  (GeometricFrame.x shape <? 0.95) = true /\
  (0.05 <=? GeometricFrame.y shape) = true /\
  (GeometricFrame.y shape <? 0.95) = true /\
  (0.3 <=? GeometricFrame.scale shape) = true /\
  (GeometricFrame.scale shape <? 1.4) = true.

Definition delayed (shape : GeometricFrame.t) : Prop :=
  (2 <= GeometricFrame.delayFrames shape < 45)%Z /\
  (0.1 <=? GeometricFrame.glitchIntensity shape) = true /\
  (GeometricFrame.glitchIntensity shape <? 0.9) = true.

(** The body of [randomRange] at the draw [r]. *)
Definition spread (min max r : float) : float := r * (max - min) + min.

(** A stream that returns [r] at every position. *)
Definition constantDraws (r : float) : nat -> float := fun _ => r.

Definition sampleToString36 : float -> string := fun _ => "0.4fzzzxjylrx"%string.

(** The landmark that [landmarks[indices[k]]] reads, if there is one. *)
Definition corner (landmarks : list Point.t) (indices : list nat) (k : nat)
  : option Point.t :=
  match nth_error indices k with
  | Some i => nth_error landmarks i
  | None => None
  end.

(** [Number.isFinite]: neither [NaN] nor an infinity. *)
Definition finite (x : float) : Prop := (PrimFloat.abs x <? infinity) = true.

(** The position in the unit interval. *)
Definition inUnit (x : float) : Prop := (0 <=? x) = true /\ (x <=? 1) = true.

End Double.

(** *** Signs *)

(** Not negative: [NaN], or a number whose sign bit is clear. *)
Definition signless (f : spec_float) : Prop :=
  match f with
  | S754_nan => True
  | S754_zero s | S754_infinity s | S754_finite s _ _ => s = false
  end.

(** Equal, or opposite. *)
Definition alike (f g : spec_float) : Prop := f = g \/ f = SFopp g.

(** *** Rounding *)

(** Half of the weight of the bits that [n] shifts to the right drop. *)
Definition half (n : nat) : Z := (2 ^ Z.of_nat n / 2)%Z.

(** [r] is the binary64 rounding of the positive number [v], overflow
    apart: a multiple of the unit in the last place of the binade of [v],
    at most half a unit from [v], with an even mantissa in a tie. *)
Definition rounded (v r : R) : Prop :=
  exists mag N : Z,
    bpow (mag - 1) <= v < bpow mag /\ (0 <= N)%Z /\
    r = IZR N * bpow (fexp64 mag) /\
    2 * Rabs (r - v) <= bpow (fexp64 mag) /\
    (2 * Rabs (r - v) = bpow (fexp64 mag) -> Z.even N = true).

(** * Vocabulary of the statements *)

(** A history frame that holds a bitmap for each eye. *)
Definition bothImages (f : FrameHistory) : Prop :=
  exists l r, EyeData.image (FrameHistory.leftEye f) = Some l /\
              EyeData.image (FrameHistory.rightEye f) = Some r.

(** The invariant of the history buffer. *)
Definition bounded (s : Session) : Prop :=
  (List.length (historyRef s) <= MAX_HISTORY)%nat /\ Forall bothImages (historyRef s).

(** ** What a tick feeds to the blink detector and to the smoothing *)

(** The two eye aspect ratios of a tick that reaches the blink test. *)
Definition ears (t : Tick) : option (Number * Number) :=
  if isMounted t && surface t then
    match firstFace t with
    | Some landmarks =>
        match at_ landmarks HEAD_NOSE_INDEX,
              calculateEAR landmarks LEFT_EYE_INDICES,
              calculateEAR landmarks RIGHT_EYE_INDICES with
        | Normal _, Normal l, Normal r => Some (l, r)
        | _, _, _ => None
        end
    | None => None
    end
  else None.

(** Both eye aspect ratios of the tick are below [BLINK_THRESHOLD]. *)
Definition blinks (t : Tick) : bool :=
  match ears t with
  | Some (l, r) => lessThan l BLINK_THRESHOLD && lessThan r BLINK_THRESHOLD
  | None => false
  end.

(** The target head position that a tick writes before it smooths the head
    position: the mirrored nose, or the centre when no face is seen. *)
Definition targetOf (t : Tick) : option Point :=
  if isMounted t && surface t then
    match firstFace t with
    | Some landmarks =>
        match at_ landmarks HEAD_NOSE_INDEX,
              calculateEAR landmarks LEFT_EYE_INDICES,
              calculateEAR landmarks RIGHT_EYE_INDICES with
        | Normal nose, Normal _, Normal _ =>
            Some (Point.mk (1 - Point.x nose) (Point.y nose))
        | _, _, _ => None
        end
    | None => Some (Point.mk 0.5 0.5)
    end
  else None.

(** The part of the session that the history buffer does not touch. *)
Definition control (s : Session)
  : Z * R * nat * SceneParams * Point * Point :=
  (blinkCooldownRef s, resetFlashRef s, resets s, sceneParamsRef s,
   headPosRef s, targetHeadPosRef s).

(** The blink debounce read off [detectBlink] and [finish]: cooldown and
    number of resets after a tick whose eyes are closed. *)
Definition debounce (st : Z * nat) : Z * nat :=
  let (c, n) := st in
  let (c1, n1) := if (c <=? 0)%Z then (25%Z, S n) else (c, n) in
  (if (0 <? c1)%Z then (c1 - 1)%Z else c1, n1).

(** ** The shapes of a scene *)

(** The focal shape: centred, with the large scale range. *)
Definition focal (shape : GeometricFrame) : Prop :=
  GeometricFrame.x shape = 0.5 /\ GeometricFrame.y shape = 0.5 /\
  1.8 <= GeometricFrame.scale shape < 2.5.

(** Every other shape: scattered, with the small scale range. *)
Definition fragment (shape : GeometricFrame) : Prop :=
  0.05 <= GeometricFrame.x shape < 0.95 /\
  0.05 <= GeometricFrame.y shape < 0.95 /\
  0.3 <= GeometricFrame.scale shape < 1.4.

(** What holds of every shape. *)
Definition delayed (shape : GeometricFrame) : Prop :=
  (2 <= GeometricFrame.delayFrames shape < 45)%Z /\
  0.1 <= GeometricFrame.glitchIntensity shape < 0.9.

(** Every draw of the stream is a value that [Math.random()] can return. *)
Definition unitDraws (draws : nat -> R) : Prop := forall k, 0 <= draws k < 1.


(** ** Eye extraction *)

(** A point in normalized image coordinates. *)
Definition inUnit (p : Point) : Prop :=
  0 <= Point.x p <= 1 /\ 0 <= Point.y p <= 1.

(** [pts] are the landmarks that [indices] select. *)
Definition selects (landmarks : list Point) (indices : list nat) (pts : list Point) : Prop :=
  Forall2 (fun idx p => nth_error landmarks idx = Some p) indices pts.

(** [b] is the axis-aligned bounding box of [pts]: each side passes through
    a point and no point lies outside. *)
Definition boundingBox (b : Box.t) (pts : list Point) : Prop :=
  In (Box.minX b) (map Point.x pts) /\ In (Box.maxX b) (map Point.x pts) /\
  In (Box.minY b) (map Point.y pts) /\ In (Box.maxY b) (map Point.y pts) /\
  Forall (fun p => Box.minX b <= Point.x p <= Box.maxX b /\
                   Box.minY b <= Point.y p <= Box.maxY b) pts.

(** The running minimum and maximum of [extractEye], one coordinate at a
    time. *)
Definition lowest (vs : list R) (m : R) : R :=
  fold_left (fun m v => if Rltb v m then v else m) vs m.

Definition highest (vs : list R) (m : R) : R :=
  fold_left (fun m v => if Rgtb v m then v else m) vs m.

(** ** Bitmap lifetimes *)

Definition bitmapsOf (f : FrameHistory) : list ImageBitmap :=
  match EyeData.image (FrameHistory.leftEye f) with Some b => [b] | None => [] end ++
  match EyeData.image (FrameHistory.rightEye f) with Some b => [b] | None => [] end.

(** The bitmaps that the history buffer holds. *)
Definition held (s : Session) : list ImageBitmap := flat_map bitmapsOf (historyRef s).

(** Every bitmap that the session holds or has closed was created before. *)
Definition tracked (s : Session) : Prop :=
  Forall (fun b => (b < created s)%nat) (held s) /\
  Forall (fun b => (b < created s)%nat) (closed s).

(** A bitmap that exists, is not in the history buffer and was not closed. *)
Definition leaked (b : ImageBitmap) (s : Session) : Prop :=
  (b < created s)%nat /\ ~ In b (held s) /\ ~ In b (closed s).

(** How a step may change the bitmaps of a session: it creates new ones,
    holds old or new ones, and closes only what was held or new. *)
Definition grows (s s' : Session) : Prop :=
  (created s <= created s')%nat /\
  (forall b, In b (held s') -> In b (held s) \/ (created s <= b < created s')%nat) /\
  (forall b, In b (closed s') ->
     In b (closed s) \/ In b (held s) \/ (created s <= b < created s')%nat).

(** ** Sample inputs *)

Definition sampleFrame (l r : ImageBitmap) : FrameHistory :=
  FrameHistory.mk (EyeData.mk (Some l) 0 (Bounds.mk 0 0 0 0))
                  (EyeData.mk (Some r) 0 (Bounds.mk 0 0 0 0)).

Definition sampleShape (delay : Z) : GeometricFrame :=
  GeometricFrame.mk "4fzzzxjyl" rect delay 0.5 0.5 2 0 0 "#FFFFFF" 0.5.

(** A face given by a function from landmark index to point. *)
Definition tabulate (f : nat -> Point) (n : nat) : list Point := map f (seq 0 n).

(** A face with both eyes nearly shut: each eye is 0.10 wide and 0.01 high,
    so both eye aspect ratios are 0.10. *)
Definition closedEyes (i : nat) : Point :=
  if Nat.eqb i 33 then Point.mk 0.30 0.40
  else if Nat.eqb i 133 then Point.mk 0.40 0.40
  else if Nat.eqb i 159 then Point.mk 0.35 0.395
  else if Nat.eqb i 145 then Point.mk 0.35 0.405
  else if Nat.eqb i 362 then Point.mk 0.60 0.40
  else if Nat.eqb i 263 then Point.mk 0.70 0.40
  else if Nat.eqb i 386 then Point.mk 0.65 0.395
  else if Nat.eqb i 374 then Point.mk 0.65 0.405
  else Point.mk 0.5 0.5.

(** A face whose left eye has its two corners on one point (an eye seen
    edge-on) and whose right-eye landmarks all fall on the default point. *)
Definition pinchedEye (i : nat) : Point :=
  if Nat.eqb i 33 then Point.mk 0.35 0.40
  else if Nat.eqb i 133 then Point.mk 0.35 0.40
  else if Nat.eqb i 159 then Point.mk 0.35 0.39
  else if Nat.eqb i 145 then Point.mk 0.35 0.41
  else Point.mk 0.5 0.5.

Definition constantDraws (r : R) : nat -> R := fun _ => r.

Definition tickWith (face : option (list (list Point))) : Tick :=
  mkTick true true 0 face 1280 720 1280 720 (fun _ => true) (constantDraws 0.5).

Definition closedEyesTick : Tick := tickWith (Some [tabulate closedEyes 478]).

Definition pinchedEyeTick : Tick := tickWith (Some [tabulate pinchedEye 478]).

(** A face with the left eye of [closedEyes] and a right eye whose landmarks
    all fall on one point. *)
Definition oneEye (i : nat) : Point :=
  if Nat.eqb i 33 then Point.mk 0.30 0.40
  else if Nat.eqb i 133 then Point.mk 0.40 0.40
  else if Nat.eqb i 159 then Point.mk 0.35 0.395
  else if Nat.eqb i 145 then Point.mk 0.35 0.405
  else Point.mk 0.65 0.40.

Definition oneEyeTick : Tick := tickWith (Some [tabulate oneEye 478]).

Definition noFaceTick : Tick := tickWith (Some []).

Definition sampleToString36 : R -> string := fun _ => "0.4fzzzxjylrx"%string.

(** ** Further vocabulary *)

(** The bitmaps of a session are accounted for: each one held or closed was
    created before, none is held twice, none is closed twice, and none is
    both held and closed. *)
Definition sound (s : Session) : Prop :=
  tracked s /\ NoDup (held s) /\ NoDup (closed s) /\
  (forall b, In b (held s) -> ~ In b (closed s)).

(** The tick gets both eye bitmaps: it reaches the [try] block, both
    extractions return a rectangle and both promises resolve. *)
Definition pushes (t : Tick) : bool :=
  match ears t, firstFace t with
  | Some _, Some face =>
      match extractEye face LEFT_EYE_INDICES (videoWidth t) (videoHeight t),
            extractEye face RIGHT_EYE_INDICES (videoWidth t) (videoHeight t) with
      | Normal (Some cl), Normal (Some cr) => resolves t cl && resolves t cr
      | _, _ => false
      end
  | _, _ => false
  end.

(** The tick runs to the end of [onResults]: it is not cut short by an
    early [return] or by a [TypeError]. *)
Definition completes (t : Tick) : bool :=
  match targetOf t with
  | Some _ => true
  | None => false
  end.

(** The scene reset of a tick on a session: closed eyes and no cooldown. *)
Definition fires (t : Tick) (s : Session) : bool :=
  blinks t && (blinkCooldownRef s <=? 0)%Z.

(** The nose landmark of the first face of a tick, when there is one. *)
Definition noseOf (t : Tick) : option Point :=
  match firstFace t with
  | Some landmarks => nth_error landmarks HEAD_NOSE_INDEX
  | None => None
  end.

Definition noseInUnit (t : Tick) : Prop :=
  match noseOf t with
  | Some nose => inUnit nose
  | None => True
  end.

(** The position in the stream of the draw that becomes the id of shape [k]
    of a scene generated from cursor [n]. *)
Definition idDraw (n k : nat) : nat :=
  match k with
  | O => n + 2
  | S _ => n + 7 * k
  end.

(** The fields of a shape that the generator never varies, and its two
    possible colours. *)
Definition plain (scene : SceneParams) (shape : GeometricFrame) : Prop :=
  GeometricFrame.type shape = rect /\
  GeometricFrame.rotation shape = 0 /\
  GeometricFrame.rotationSpeed shape = 0 /\
  (GeometricFrame.color shape = SceneParams.primaryColor scene \/
   GeometricFrame.color shape = "#FFFFFF"%string).

(** ** The rest of the compositor *)

(** The distance between the centres of two placed shapes. *)
Definition apart (a b : RenderedShape.t) : R :=
  distance (Point.mk (RenderedShape.x a) (RenderedShape.y a))
           (Point.mk (RenderedShape.x b) (RenderedShape.y b)).

(** The reach of a connection on a canvas. *)
Definition reach (width height : R) : R := Rmin width height * 0.4.

(** A link as stage 3 strokes it. *)
Definition faint (width height : R) (l : Link.t) : Prop :=
  0 < reach width height /\
  apart (Link.s1 l) (Link.s2 l) < reach width height /\
  Link.alpha l =
    (1 - apart (Link.s1 l) (Link.s2 l) / reach width height) * 0.8 /\
  0 < Link.alpha l <= 0.8.

(** A layer of the shape of [item] as stage 4 may paint it. *)
Definition visible (item : RenderedShape.t) (l : Layer.t) : Prop :=
  let shape := RenderedShape.shape item in
  0 < Layer.alpha l <= 1 /\
  match Layer.jitter l with
  | Some j => Rabs j <= 3 * Rabs (GeometricFrame.glitchIntensity shape)
  | None => True
  end /\
  (Layer.tint l = GeometricFrame.color shape \/ Layer.tint l = "#FFFFFF"%string).

(** The layer that carries the label and the corner marks: its first
    [translate] goes to the centre of the shape. *)
Definition onTop (item : RenderedShape.t) (l : Layer.t) : Prop :=
  Layer.isMain l = true /\
  Layer.x l = RenderedShape.x item /\ Layer.y l = RenderedShape.y item /\
  0.2 <= Layer.alpha l /\
  Layer.tint l = GeometricFrame.color (RenderedShape.shape item) /\
  Layer.lineWidth l = 2.

(** Where a layer is drawn: the origin after the first [translate] and,
    when the jitter happens, the second one, which is horizontal. *)
Definition drawnAt (l : Layer.t) : R * R :=
  (match Layer.jitter l with
   | Some j => Layer.x l + j
   | None => Layer.x l
   end, Layer.y l).

(** A strip of the scramble overlay on a canvas of the given height. *)
Definition thin (height intensity : R) (st : Strip.t) : Prop :=
  0 <= Strip.y st <= height /\ 0 <= Strip.h st <= 60 * intensity /\ Strip.h st < 60.

(** What stage 5 paints for a flash in (0.001, 1], and what it reads from
    the stream that starts at [n] and ends at [n']. *)
Definition flashing (height : R) (params : SceneParams) (flash : R) (n n' : nat)
  (o : Scramble.t) : Prop :=
  Scramble.screen o = flash * 0.3 /\ Scramble.stripAlpha o = flash * 0.6 /\
  (List.length (Scramble.filled o) <= numStrips)%nat /\
  Forall (thin height flash) (Scramble.filled o) /\
  match Scramble.banner o with
  | Some c =>
      0.2 < flash /\ n' = (n + 25)%nat /\
      (c = SceneParams.primaryColor params \/ c = "#FFFFFF"%string)
  | None => flash <= 0.2 /\ n' = (n + 24)%nat
  end.

(** The text of the overlay is written. *)
Definition bannered (o : option Scramble.t) : Prop :=
  exists x c, o = Some x /\ Scramble.banner x = Some c.

(** The layers painted for a drawn shape. *)
Definition layered (d : RenderedShape.t * ImageBitmap) (layers : list Layer.t) : Prop :=
  map Layer.k layers = [2; 1; 0]%nat /\
  Forall (visible (fst d)) layers /\
  exists main, nth_error layers 2 = Some main /\ onTop (fst d) main.

(** ** The frame counter *)

(** Every time of [times] is at least 1000 ms after the one before it, the
    first one after [last]. *)
Fixpoint spaced (last : R) (times : list R) : Prop :=
  match times with
  | [] => True
  | now :: rest => 1000 <= now - last /\ spaced now rest
  end.

Definition total (counts : list Z) : Z := fold_right Z.add 0%Z counts.

(** ** Time stamps of the history buffer *)

(** The times of a sequence of callbacks never go back. *)
Fixpoint ascending (times : list R) : Prop :=
  match times with
  | [] => True
  | time :: rest => Forall (fun later => time <= later) rest /\ ascending rest
  end.

(** No time of [times] is later than the one before it, the first one not
    later than [top]. *)
Fixpoint falling (top : R) (times : list R) : Prop :=
  match times with
  | [] => True
  | time :: rest => time <= top /\ falling time rest
  end.

Definition stamps (history : list FrameHistory) : list R :=
  map (fun f => EyeData.timestamp (FrameHistory.leftEye f)) history.

(** A frame as [onResults] stores it at the time [time]. *)
Definition stamped (time : R) (f : FrameHistory) : Prop :=
  EyeData.timestamp (FrameHistory.leftEye f) = time /\
  EyeData.timestamp (FrameHistory.rightEye f) = time /\
  EyeData.bounds (FrameHistory.leftEye f) = Bounds.mk 0 0 0 0 /\
  EyeData.bounds (FrameHistory.rightEye f) = Bounds.mk 0 0 0 0.
(** * Properties *)

(** ** Comparisons and floor *)

Lemma Rltb_true (a b : R) : Rltb a b = true <-> a < b.
Proof. unfold Rltb; destruct (Rlt_dec a b); split; intros; try discriminate; tauto. Qed.

Lemma Rltb_false (a b : R) : Rltb a b = false <-> b <= a.
Proof.
  unfold Rltb; destruct (Rlt_dec a b); split; intros; try discriminate;
    try reflexivity; lra.
Qed.

Lemma Rleb_true (a b : R) : Rleb a b = true <-> a <= b.
Proof. unfold Rleb; destruct (Rle_dec a b); split; intros; try discriminate; tauto. Qed.

Lemma Rleb_false (a b : R) : Rleb a b = false <-> b < a.
Proof.
  unfold Rleb; destruct (Rle_dec a b); split; intros; try discriminate;
    try reflexivity; lra.
Qed.

Lemma Reqb_true (a b : R) : Reqb a b = true <-> a = b.
Proof. unfold Reqb; destruct (Req_dec_T a b); split; intros; try discriminate; tauto. Qed.

Lemma Reqb_false (a b : R) : Reqb a b = false <-> a <> b.
Proof.
  unfold Reqb; destruct (Req_dec_T a b); split; intros; try discriminate;
    try reflexivity; tauto.
Qed.

Lemma floor_spec (r : R) : IZR (floor r) <= r < IZR (floor r) + 1.
Proof. unfold floor. destruct (base_Int_part r). lra. Qed.

Lemma floor_bounds (r : R) (lo hi : Z) :
  IZR lo <= r < IZR hi -> (lo <= floor r < hi)%Z.
Proof.
  intros [Hlo Hhi]. destruct (floor_spec r) as [H1 H2]. split.
  - apply Z.lt_succ_r. apply lt_IZR. rewrite succ_IZR. lra.
  - apply lt_IZR. lra.
Qed.

(** Decide a comparison between numerals. *)
Ltac cmp :=
  repeat match goal with
  | |- context [Rltb ?a ?b] =>
      first [ replace (Rltb a b) with true by (symmetry; apply Rltb_true; lra)
            | replace (Rltb a b) with false by (symmetry; apply Rltb_false; lra) ]
  | |- context [Rleb ?a ?b] =>
      first [ replace (Rleb a b) with true by (symmetry; apply Rleb_true; lra)
            | replace (Rleb a b) with false by (symmetry; apply Rleb_false; lra) ]
  | |- context [Reqb ?a ?b] =>
      first [ replace (Reqb a b) with true by (symmetry; apply Reqb_true; lra)
            | replace (Reqb a b) with false by (symmetry; apply Reqb_false; intro; lra) ]
  end.

(** ** The history buffer *)


Lemma pop_snoc {A : Type} (l : list A) (a : A) : pop (l ++ [a]) = (Some a, l).
Proof.
  unfold pop. rewrite removelast_last. f_equal.
  rewrite length_app. simpl. replace (List.length l + 1 - 1)%nat with (List.length l) by lia.
  rewrite nth_error_app2 by lia. rewrite Nat.sub_diag. reflexivity.
Qed.

Lemma pushHistory_below (f : FrameHistory) (s : Session) :
  (List.length (historyRef s) < MAX_HISTORY)%nat ->
  pushHistory f s = setHistory (f :: historyRef s) s.
Proof.
  intros H. unfold pushHistory. cbn [historyRef setHistory List.length].
  destruct (Nat.ltb_spec MAX_HISTORY (S (List.length (historyRef s)))); [lia | reflexivity].
Qed.

Lemma pushHistory_full (f old : FrameHistory) (kept : list FrameHistory) (s : Session) :
  historyRef s = kept ++ [old] ->
  (MAX_HISTORY <= List.length (historyRef s))%nat ->
  pushHistory f s =
    close (EyeData.image (FrameHistory.rightEye old))
      (close (EyeData.image (FrameHistory.leftEye old))
         (setHistory (f :: kept) s)).
Proof.
  intros Hh Hlen. unfold pushHistory. cbn [historyRef setHistory List.length].
  destruct (Nat.ltb_spec MAX_HISTORY (S (List.length (historyRef s)))); [| lia].
  rewrite Hh. change (f :: kept ++ [old]) with ((f :: kept) ++ [old]).
  rewrite pop_snoc. reflexivity.
Qed.


Lemma exists_last_of_length {A : Type} (l : list A) (n : nat) :
  List.length l = S n -> exists kept old, l = kept ++ [old] /\ List.length kept = n.
Proof.
  intros H. destruct (exists_last (l := l)) as [kept [old Hl]].
  - intros ->. discriminate.
  - exists kept, old. split; [assumption |].
    rewrite Hl, length_app in H. simpl in H. lia.
Qed.

Lemma pushHistory_bounded (f : FrameHistory) (s : Session) :
  bounded s -> bothImages f -> bounded (pushHistory f s).
Proof.
  intros [Hlen Hall] Hf.
  destruct (Nat.lt_ge_cases (List.length (historyRef s)) MAX_HISTORY) as [Hlt | Hge].
  - rewrite pushHistory_below by assumption. split; cbn [historyRef setHistory List.length].
    + lia.
    + constructor; assumption.
  - assert (Heq : List.length (historyRef s) = S 59) by (unfold MAX_HISTORY in *; lia).
    destruct (exists_last_of_length _ _ Heq) as [kept [old [Hh Hk]]].
    rewrite (pushHistory_full f old kept s Hh Hge).
    rewrite Hh in Hall. apply Forall_app in Hall. destruct Hall as [Hkept _].
    unfold close.
    destruct (EyeData.image (FrameHistory.leftEye old)),
             (EyeData.image (FrameHistory.rightEye old));
      split; cbn [historyRef setHistory List.length];
      try (unfold MAX_HISTORY; lia); constructor; assumption.
Qed.

Section Frames.
Variable toString36 : R -> string.

Lemma settle_history (t : Tick) (e : option Crop.t) (s : Session) :
  historyRef (snd (settle t e s)) = historyRef s.
Proof. unfold settle. destruct e as [c |]; [destruct (resolves t c) |]; reflexivity. Qed.

Lemma newFrame_bothImages (t : Tick) (l r : ImageBitmap) : bothImages (newFrame t l r).
Proof. exists l, r. split; reflexivity. Qed.

Lemma capture_bounded (t : Tick) (landmarks : list Point) (s : Session) :
  bounded s -> bounded (capture t landmarks s).
Proof.
  intros Hs. unfold capture.
  destruct (extractEye landmarks LEFT_EYE_INDICES _ _) as [l |]; [| assumption].
  destruct (settle t l s) as [lb s1] eqn:E1.
  assert (H1 : bounded s1).
  { pose proof (settle_history t l s) as H. rewrite E1 in H. simpl in H.
    unfold bounded. rewrite H. assumption. }
  destruct (extractEye landmarks RIGHT_EYE_INDICES _ _) as [r |]; [| assumption].
  destruct (settle t r s1) as [rb s2] eqn:E2.
  assert (H2 : bounded s2).
  { pose proof (settle_history t r s1) as H. rewrite E2 in H. simpl in H.
    unfold bounded. rewrite H. assumption. }
  destruct lb as [[lb |] |]; try assumption.
  destruct rb as [[rb |] |]; try assumption.
  apply pushHistory_bounded; [assumption | apply newFrame_bothImages].
Qed.

Lemma detectBlink_history (t : Tick) (l r : Number) (s : Session) :
  historyRef (detectBlink toString36 t l r s) = historyRef s.
Proof.
  unfold detectBlink.
  destruct (lessThan l BLINK_THRESHOLD && lessThan r BLINK_THRESHOLD);
    [destruct (blinkCooldownRef s <=? 0)%Z |]; reflexivity.
Qed.

Lemma finish_history (t : Tick) (s : Session) :
  historyRef (fst (finish t s)) = historyRef s.
Proof.
  unfold finish, renderScene.
  destruct (0 <? blinkCooldownRef s)%Z; cbn [historyRef setHeadPos setBlinkCooldown];
    match goal with |- context [drawShapes ?h ?i] => destruct (drawShapes h i) end;
    reflexivity.
Qed.

Lemma onResults_bounded (t : Tick) (s : Session) :
  bounded s -> bounded (fst (onResults toString36 t s)).
Proof.
  intros Hs. unfold onResults.
  destruct (negb (isMounted t)); [assumption |].
  destruct (negb (surface t)); [assumption |].
  destruct (firstFace t) as [landmarks |].
  - destruct (at_ landmarks HEAD_NOSE_INDEX) as [nose |]; [| assumption].
    destruct (calculateEAR landmarks LEFT_EYE_INDICES) as [l |]; [| assumption].
    destruct (calculateEAR landmarks RIGHT_EYE_INDICES) as [r |]; [| assumption].
    unfold bounded. rewrite finish_history. apply capture_bounded.
    unfold bounded. rewrite detectBlink_history. assumption.
  - unfold bounded. rewrite finish_history. assumption.
Qed.

Lemma run_bounded (ticks : list Tick) (s : Session) :
  bounded s -> bounded (run toString36 ticks s).
Proof.
  revert s. induction ticks as [| t ticks IH]; intros s Hs; [assumption |].
  apply IH. apply onResults_bounded. assumption.
Qed.

Lemma initial_bounded (draws : nat -> R) : bounded (initialSession toString36 draws).
Proof. split; [cbn; unfold MAX_HISTORY; lia | constructor]. Qed.

End Frames.

(** C1. In every state that the session reaches from its start, the history
    buffer holds at most [MAX_HISTORY] = 60 frames.  A push puts the new
    frame at the front; while fewer than 60 frames are stored nothing is
    removed and nothing is closed; once 60 are stored the push removes
    exactly the last (oldest) frame and calls [close()] on its left and on
    its right bitmap, and on nothing else. *)
Theorem history_bounded_and_evicts_oldest
  (toString36 : R -> string) (draws0 : nat -> R) (ticks : list Tick) (f : FrameHistory) :
  let s := run toString36 ticks (initialSession toString36 draws0) in
  let s' := pushHistory f s in
  (List.length (historyRef s) <= MAX_HISTORY)%nat /\
  (List.length (historyRef s') <= MAX_HISTORY)%nat /\
  if (List.length (historyRef s) <? MAX_HISTORY)%nat then
    historyRef s' = f :: historyRef s /\ closed s' = closed s
  else
    exists kept old lb rb,
      historyRef s = kept ++ [old] /\
      EyeData.image (FrameHistory.leftEye old) = Some lb /\
      EyeData.image (FrameHistory.rightEye old) = Some rb /\
      historyRef s' = f :: kept /\
      closed s' = closed s ++ [lb; rb].
Proof.
  intros s s'.
  assert (Hs : bounded s) by (apply run_bounded, initial_bounded).
  destruct Hs as [Hlen Hall]. split; [assumption |].
  destruct (Nat.ltb_spec (List.length (historyRef s)) MAX_HISTORY) as [Hlt | Hge].
  - subst s'. rewrite pushHistory_below by assumption.
    cbn [historyRef setHistory closed List.length]. repeat split; try reflexivity. lia.
  - assert (Heq : List.length (historyRef s) = S 59) by (unfold MAX_HISTORY in *; lia).
    destruct (exists_last_of_length _ _ Heq) as [kept [old [Hh Hk]]].
    pose proof Hall as Hall'. rewrite Hh in Hall'. apply Forall_app in Hall'.
    destruct Hall' as [_ Hold]. inversion Hold as [| ? ? [lb [rb [Hl Hr]]] _]; subst.
    subst s'. rewrite (pushHistory_full f old kept s Hh Hge). rewrite Hl, Hr.
    cbn [close historyRef setHistory closed List.length]. split.
    + unfold MAX_HISTORY. lia.
    + exists kept, old, lb, rb. repeat split; try assumption.
      rewrite <- app_assoc. reflexivity.
Qed.

(** ** The history lookup of the compositor *)

Lemma historyIndex_nonempty (history : list FrameHistory) (d : Z) :
  (0 <= d)%Z -> history <> [] ->
  (0 <= historyIndex history d)%Z /\
  Z.to_nat (historyIndex history d) = Nat.min (Z.to_nat d) (List.length history - 1) /\
  (Z.to_nat (historyIndex history d) < List.length history)%nat.
Proof.
  intros Hd Hne. unfold historyIndex.
  assert (0 < List.length history)%nat.
  { destruct history; [congruence | simpl; lia]. }
  lia.
Qed.

Lemma frameData_index (history : list FrameHistory) (d : Z) :
  frameData history d = index history (historyIndex history d).
Proof.
  unfold frameData, index. destruct (historyIndex history d <? 0)%Z; reflexivity.
Qed.

Lemma frameData_empty (d : Z) : frameData [] d = None.
Proof.
  unfold frameData, historyIndex, index. cbn [List.length Z.of_nat].
  destruct (Z.ltb_spec (Z.min d (0 - 1)) 0); [reflexivity | lia].
Qed.

Lemma frameData_nonempty (history : list FrameHistory) (d : Z) :
  (0 <= d)%Z -> history <> [] ->
  exists frame,
    nth_error history (Nat.min (Z.to_nat d) (List.length history - 1)) = Some frame /\
    frameData history d = Some frame.
Proof.
  intros Hd Hne.
  destruct (historyIndex_nonempty history d Hd Hne) as [H0 [Hmin Hlt]].
  destruct (nth_error history (Z.to_nat (historyIndex history d))) as [frame |] eqn:E.
  - exists frame. rewrite <- Hmin. split; [assumption |].
    unfold frameData, index.
    destruct (Z.ltb_spec (historyIndex history d) 0); [lia | assumption].
  - apply nth_error_None in E. lia.
Qed.

(** Stage 4 reads the frame that stage 2 found: it never meets [undefined]. *)
Lemma eyeImg_of_placed (history : list FrameHistory) (head : Point) (width height : R)
  (shape : GeometricFrame) (item : RenderedShape.t) :
  placeShape history head width height shape = Some item ->
  RenderedShape.shape item = shape /\
  exists frame,
    frameData history (GeometricFrame.delayFrames shape) = Some frame /\
    eyeImg history item =
      Normal (if useLeftEye (GeometricFrame.id shape)
              then EyeData.image (FrameHistory.leftEye frame)
              else EyeData.image (FrameHistory.rightEye frame)).
Proof.
  unfold placeShape.
  destruct (frameData history (GeometricFrame.delayFrames shape)) as [frame |] eqn:E;
    [| discriminate].
  intros H. inversion H; subst; clear H. split; [reflexivity |].
  exists frame. split; [reflexivity |].
  unfold eyeImg. cbn [RenderedShape.shape].
  rewrite <- frameData_index, E. reflexivity.
Qed.

Lemma drawShapes_placed (history : list FrameHistory) (head : Point) (width height : R)
  (shapes : list GeometricFrame) :
  exists drawn,
    drawShapes history (placeShapes history head width height shapes) = Normal drawn.
Proof.
  induction shapes as [| shape rest [drawn IH]]; [exists []; reflexivity |].
  cbn [placeShapes].
  destruct (placeShape history head width height shape) as [item |] eqn:E;
    [| exists drawn; assumption].
  destruct (eyeImg_of_placed _ _ _ _ _ _ E) as [_ [frame [_ Himg]]].
  cbn [drawShapes]. rewrite Himg, IH. cbn [bindC].
  eexists. reflexivity.
Qed.

(** [renderScene] never throws; it decays the flash and leaves the rest of
    the session alone. *)
Lemma renderScene_normal (width height : R) (s : Session) :
  exists frame,
    renderScene width height s =
      Normal (setResetFlash (decayFlash (resetFlashRef s)) s, frame).
Proof.
  unfold renderScene.
  destruct (drawShapes_placed (historyRef s) (headPosRef s) width height
              (SceneParams.shapes (sceneParamsRef s))) as [drawn H].
  rewrite H. cbn [bindC]. eexists. reflexivity.
Qed.

(** C2. For a history buffer of length L and a shape whose [delayFrames] is
    not negative, the lookup of the compositor yields the entry at index
    min(delayFrames, L-1) when L >= 1, in the placement pass and again in
    the drawing pass; when L = 0 it yields nothing and the shape is
    skipped. *)
Theorem history_lookup_clamps (history : list FrameHistory) (head : Point)
  (width height : R) (shape : GeometricFrame) :
  (0 <= GeometricFrame.delayFrames shape)%Z ->
  let delayIndex := GeometricFrame.delayFrames shape in
  let L := List.length history in
  match history with
  | [] =>
      frameData history delayIndex = None /\
      placeShape history head width height shape = None
  | _ :: _ =>
      exists frame item,
        nth_error history (Nat.min (Z.to_nat delayIndex) (L - 1)) = Some frame /\
        frameData history delayIndex = Some frame /\
        placeShape history head width height shape = Some item /\
        RenderedShape.shape item = shape /\
        eyeImg history item =
          Normal (if useLeftEye (GeometricFrame.id shape)
                  then EyeData.image (FrameHistory.leftEye frame)
                  else EyeData.image (FrameHistory.rightEye frame))
  end.
Proof.
  intros Hd delayIndex L. destruct history as [| f0 history'] eqn:Eh.
  - split; [apply frameData_empty |].
    unfold placeShape. fold delayIndex. rewrite frameData_empty. reflexivity.
  - rewrite <- Eh. assert (Hne : history <> []) by (rewrite Eh; discriminate).
    destruct (frameData_nonempty history delayIndex Hd Hne) as [frame [Hnth Hfd]].
    destruct (placeShape history head width height shape) as [item |] eqn:Ep.
    + destruct (eyeImg_of_placed _ _ _ _ _ _ Ep) as [Hshape [frame' [Hfd' Himg]]].
      fold delayIndex in Hfd'. rewrite Hfd in Hfd'. inversion Hfd'; subst frame'.
      exists frame, item. subst L. rewrite <- Eh. repeat split; assumption.
    + exfalso. unfold placeShape in Ep. fold delayIndex in Ep. rewrite Hfd in Ep.
      discriminate.
Qed.



(** A shape that asks for frame 5 of a three-frame history gets frame 2. *)
Lemma history_lookup_clamps_witness :
  let history := [sampleFrame 4 5; sampleFrame 2 3; sampleFrame 0 1]%nat in
  frameData history 5 = Some (sampleFrame 0 1)%nat /\
  exists item,
    placeShape history (Point.mk 0.5 0.5) 640 480 (sampleShape 5) = Some item /\
    eyeImg history item = Normal (Some 0%nat).
Proof.
  intros history.
  destruct (history_lookup_clamps history (Point.mk 0.5 0.5) 640 480 (sampleShape 5))
    as [frame [item [Hnth [Hfd [Hp [_ Himg]]]]]].
  - cbn. lia.
  - cbn in Hnth. inversion Hnth; subst frame. split; [exact Hfd |].
    exists item. split; [exact Hp | exact Himg].
Defined.

(** ** What a tick leaves alone *)

Lemma settle_control (t : Tick) (e : option Crop.t) (s : Session) :
  control (snd (settle t e s)) = control s.
Proof. unfold settle. destruct e as [c |]; [destruct (resolves t c) |]; reflexivity. Qed.

Lemma pushHistory_control (f : FrameHistory) (s : Session) :
  control (pushHistory f s) = control s.
Proof.
  unfold pushHistory.
  destruct (MAX_HISTORY <? _)%nat; [| reflexivity].
  destruct (pop _) as [[old |] rest]; [| reflexivity].
  unfold close.
  destruct (EyeData.image (FrameHistory.leftEye old)),
           (EyeData.image (FrameHistory.rightEye old)); reflexivity.
Qed.

Lemma capture_control (t : Tick) (landmarks : list Point) (s : Session) :
  control (capture t landmarks s) = control s.
Proof.
  unfold capture.
  destruct (extractEye landmarks LEFT_EYE_INDICES _ _) as [l |]; [| reflexivity].
  pose proof (settle_control t l s) as H1.
  destruct (settle t l s) as [lb s1]. cbn [snd] in H1.
  destruct (extractEye landmarks RIGHT_EYE_INDICES _ _) as [r |]; [| assumption].
  pose proof (settle_control t r s1) as H2.
  destruct (settle t r s1) as [rb s2]. cbn [snd] in H2.
  rewrite <- H1, <- H2.
  destruct lb as [[lb |] |]; try reflexivity.
  destruct rb as [[rb |] |]; try reflexivity.
  apply pushHistory_control.
Qed.

(** The end of a tick, with [renderScene] known not to throw. *)
Lemma finish_eq (t : Tick) (s : Session) :
  exists frame,
    finish t s =
      (let s1 := if (0 <? blinkCooldownRef s)%Z
                 then setBlinkCooldown (blinkCooldownRef s - 1) s else s in
       let s2 := setHeadPos
                   (Point.mk
                      (lerp (Point.x (headPosRef s1)) (Point.x (targetHeadPosRef s1)) 0.08)
                      (lerp (Point.y (headPosRef s1)) (Point.y (targetHeadPosRef s1)) 0.08))
                   s1 in
       (setResetFlash (decayFlash (resetFlashRef s2)) s2, Some frame)).
Proof.
  unfold finish. cbv zeta.
  match goal with
  | |- context [renderScene ?w ?h ?s2] =>
      destruct (renderScene_normal w h s2) as [frame H]; rewrite H
  end.
  exists frame. reflexivity.
Qed.

Lemma finish_control (t : Tick) (s : Session) :
  control (fst (finish t s)) =
    (if (0 <? blinkCooldownRef s)%Z then (blinkCooldownRef s - 1)%Z else blinkCooldownRef s,
     decayFlash (resetFlashRef s), resets s, sceneParamsRef s,
     Point.mk (lerp (Point.x (headPosRef s)) (Point.x (targetHeadPosRef s)) 0.08)
              (lerp (Point.y (headPosRef s)) (Point.y (targetHeadPosRef s)) 0.08),
     targetHeadPosRef s).
Proof.
  destruct (finish_eq t s) as [frame H]. rewrite H. cbv zeta.
  destruct (0 <? blinkCooldownRef s)%Z; reflexivity.
Qed.

Lemma control_eq (s s' : Session) :
  control s = control s' ->
  blinkCooldownRef s = blinkCooldownRef s' /\ resetFlashRef s = resetFlashRef s' /\
  resets s = resets s' /\ sceneParamsRef s = sceneParamsRef s' /\
  headPosRef s = headPosRef s' /\ targetHeadPosRef s = targetHeadPosRef s'.
Proof. unfold control. intros H. inversion H. repeat split; assumption. Qed.

Section Blink.

Variable toString36 : R -> string.

(** A tick that reaches the blink test runs all of [onResults]. *)
Lemma onResults_ears (t : Tick) (l r : Number) (s : Session) :
  ears t = Some (l, r) ->
  exists landmarks nose,
    firstFace t = Some landmarks /\
    at_ landmarks HEAD_NOSE_INDEX = Normal nose /\
    calculateEAR landmarks LEFT_EYE_INDICES = Normal l /\
    calculateEAR landmarks RIGHT_EYE_INDICES = Normal r /\
    onResults toString36 t s =
      finish t (capture t landmarks
                  (detectBlink toString36 t l r
                     (setTargetHeadPos (Point.mk (1 - Point.x nose) (Point.y nose)) s))).
Proof.
  unfold ears, onResults.
  destruct (isMounted t); [| discriminate].
  destruct (surface t); [| discriminate]. cbn [andb negb].
  destruct (firstFace t) as [landmarks |]; [| discriminate].
  destruct (at_ landmarks HEAD_NOSE_INDEX) as [nose |] eqn:En; [| discriminate].
  destruct (calculateEAR landmarks LEFT_EYE_INDICES) as [l' |] eqn:El; [| discriminate].
  destruct (calculateEAR landmarks RIGHT_EYE_INDICES) as [r' |] eqn:Er; [| discriminate].
  intros H. inversion H; subst. exists landmarks, nose.
  rewrite En, El, Er. repeat split; reflexivity.
Qed.

(** The control part of the session after a tick with closed eyes. *)
Lemma onResults_blinks (t : Tick) (s : Session) :
  blinks t = true ->
  let fire := (blinkCooldownRef s <=? 0)%Z in
  let s' := fst (onResults toString36 t s) in
  (blinkCooldownRef s', resets s') = debounce (blinkCooldownRef s, resets s) /\
  resetFlashRef s' = decayFlash (if fire then 1 else resetFlashRef s) /\
  sceneParamsRef s' =
    (if fire then fst (generateNewScene toString36 (draws t) 0%nat)
     else sceneParamsRef s).
Proof.
  intros Hb fire s'. unfold blinks in Hb.
  destruct (ears t) as [[l r] |] eqn:E; [| discriminate]. subst s'.
  destruct (onResults_ears t l r s E) as [landmarks [nose [_ [_ [_ [_ H]]]]]].
  rewrite H.
  match goal with |- context [finish t ?x] => pose proof (finish_control t x) as Hf end.
  match type of Hf with context [capture t landmarks ?x] =>
    pose proof (capture_control t landmarks x) as Hc end.
  apply control_eq in Hc. destruct Hc as [Hc1 [Hc2 [Hc3 [Hc4 [Hc5 Hc6]]]]].
  rewrite Hc1, Hc2, Hc3, Hc4, Hc5, Hc6 in Hf. clear Hc1 Hc2 Hc3 Hc4 Hc5 Hc6.
  unfold control in Hf. inversion Hf as [[H1 H2 H3 H4 H5 H6]]. clear Hf H5 H6.
  rewrite H1, H2, H3, H4. clear H1 H2 H3 H4.
  unfold detectBlink. rewrite Hb. unfold debounce. subst fire.
  cbn [setTargetHeadPos blinkCooldownRef resets resetFlashRef sceneParamsRef].
  destruct (blinkCooldownRef s <=? 0)%Z eqn:Ec;
    cbn [resetScene setBlinkCooldown setTargetHeadPos blinkCooldownRef resets
         resetFlashRef sceneParamsRef];
    repeat split; try reflexivity.
  f_equal. lra.
Qed.

End Blink.

(** ** Evaluating the sample inputs *)

Lemma at_tabulate (f : nat -> Point) (n i : nat) :
  (i < n)%nat -> at_ (tabulate f n) i = Normal (f i).
Proof.
  intros H. unfold at_, tabulate.
  rewrite nth_error_map, nth_error_seq.
  destruct (Nat.ltb_spec i n); [reflexivity | lia].
Qed.

Lemma distance_vertical (x y1 y2 : R) :
  y1 <= y2 -> distance (Point.mk x y1) (Point.mk x y2) = y2 - y1.
Proof.
  intros H. unfold distance. cbn [Point.x Point.y].
  replace ((x - x) ^ 2 + (y1 - y2) ^ 2) with ((y2 - y1) ^ 2) by ring.
  apply sqrt_pow2. lra.
Qed.

Lemma distance_horizontal (x1 x2 y : R) :
  x1 <= x2 -> distance (Point.mk x1 y) (Point.mk x2 y) = x2 - x1.
Proof.
  intros H. unfold distance. cbn [Point.x Point.y].
  replace ((x1 - x2) ^ 2 + (y - y) ^ 2) with ((x2 - x1) ^ 2) by ring.
  apply sqrt_pow2. lra.
Qed.

Lemma distance_same (p : Point) : distance p p = 0.
Proof.
  unfold distance.
  replace ((Point.x p - Point.x p) ^ 2 + (Point.y p - Point.y p) ^ 2) with 0 by ring.
  apply sqrt_0.
Qed.

Lemma divide_finite (a b q : R) : b <> 0 -> a = q * b -> divide a b = Finite q.
Proof.
  intros Hb Ha. unfold divide.
  replace (Reqb b 0) with false by (symmetry; apply Reqb_false; assumption).
  f_equal. subst a. field. assumption.
Qed.

Lemma closedEyes_left :
  calculateEAR (tabulate closedEyes 478) LEFT_EYE_INDICES = Normal (Finite 0.10).
Proof.
  unfold calculateEAR, LEFT_EYE_INDICES. cbn [at_ nth_error bindC].
  rewrite !at_tabulate by lia. cbn [bindC closedEyes Nat.eqb].
  rewrite distance_vertical, distance_horizontal by lra.
  f_equal. apply divide_finite; lra.
Qed.

Lemma closedEyes_right :
  calculateEAR (tabulate closedEyes 478) RIGHT_EYE_INDICES = Normal (Finite 0.10).
Proof.
  unfold calculateEAR, RIGHT_EYE_INDICES. cbn [at_ nth_error bindC].
  rewrite !at_tabulate by lia. cbn [bindC closedEyes Nat.eqb].
  rewrite distance_vertical, distance_horizontal by lra.
  f_equal. apply divide_finite; lra.
Qed.

Lemma closedEyesTick_ears : ears closedEyesTick = Some (Finite 0.10, Finite 0.10).
Proof.
  unfold ears, closedEyesTick, tickWith, HEAD_NOSE_INDEX.
  cbn [isMounted surface andb firstFace multiFaceLandmarks].
  rewrite closedEyes_left, closedEyes_right, at_tabulate by lia. reflexivity.
Qed.

Lemma closedEyesTick_blinks : blinks closedEyesTick = true.
Proof.
  unfold blinks. rewrite closedEyesTick_ears. unfold lessThan, BLINK_THRESHOLD.
  cmp. reflexivity.
Qed.

(** ** The blink debounce *)

Section Debounce.

Variable toString36 : R -> string.

Lemma run_cons (t : Tick) (ticks : list Tick) (s : Session) :
  run toString36 (t :: ticks) s = run toString36 ticks (fst (onResults toString36 t s)).
Proof. reflexivity. Qed.

Lemma run_app (ticks1 ticks2 : list Tick) (s : Session) :
  run toString36 (ticks1 ++ ticks2) s = run toString36 ticks2 (run toString36 ticks1 s).
Proof. unfold run. apply fold_left_app. Qed.

(** Cooldown and reset count over a run of ticks with closed eyes follow
    [debounce]. *)
Lemma run_blinks (ticks : list Tick) (s : Session) :
  Forall (fun t => blinks t = true) ticks ->
  (blinkCooldownRef (run toString36 ticks s), resets (run toString36 ticks s)) =
    Nat.iter (List.length ticks) debounce (blinkCooldownRef s, resets s).
Proof.
  revert s. induction ticks as [| t ticks IH]; intros s Hall; [reflexivity |].
  inversion Hall as [| ? ? Ht Hrest]; subst.
  rewrite run_cons, IH by assumption.
  destruct (onResults_blinks toString36 t s Ht) as [Hd _]. rewrite Hd.
  cbn [List.length]. rewrite Nat.iter_succ_r. reflexivity.
Qed.

(** The first thirty steps of the debounce from a cooldown of zero. *)
Lemma debounce_thirty (n r : nat) :
  Nat.iter (Nat.min n 30) debounce (0%Z, r) =
    ((if (n =? 0)%nat then 0
      else if (n <=? 25)%nat then 25 - Z.of_nat n
      else 50 - Z.of_nat (Nat.min n 30))%Z,
     ((if (n =? 0)%nat then 0 else if (n <=? 25)%nat then 1 else 2) + r)%nat).
Proof.
  do 30 (destruct n as [| n]; [reflexivity |]).
  rewrite Nat.min_r by lia. reflexivity.
Qed.

Lemma run_thirty_blinks (ticks : list Tick) (s : Session) (n : nat) :
  List.length ticks = 30%nat ->
  Forall (fun t => blinks t = true) ticks ->
  blinkCooldownRef s = 0%Z ->
  blinkCooldownRef (run toString36 (firstn n ticks) s) =
    (if (n =? 0)%nat then 0
     else if (n <=? 25)%nat then 25 - Z.of_nat n
     else 50 - Z.of_nat (Nat.min n 30))%Z /\
  resets (run toString36 (firstn n ticks) s) =
    (resets s + (if (n =? 0)%nat then 0 else if (n <=? 25)%nat then 1 else 2))%nat.
Proof.
  intros Hlen Hall Hc.
  assert (Hpre : Forall (fun t => blinks t = true) (firstn n ticks)).
  { pose proof Hall as Hsplit. rewrite <- (firstn_skipn n ticks) in Hsplit.
    apply Forall_app in Hsplit. tauto. }
  pose proof (run_blinks (firstn n ticks) s Hpre) as H.
  rewrite length_firstn, Hlen, Hc, debounce_thirty in H.
  apply pair_equal_spec in H. destruct H as [H1 H2]. split; [exact H1 | lia].
Qed.

(** Three ticks with closed eyes from a cooldown of zero. *)
Lemma run_three_blinks (t1 t2 t3 : Tick) (s : Session) :
  blinks t1 = true -> blinks t2 = true -> blinks t3 = true ->
  blinkCooldownRef s = 0%Z ->
  let s' := run toString36 [t1; t2; t3] s in
  resets s' = S (resets s) /\
  sceneParamsRef s' = fst (generateNewScene toString36 (draws t1) 0%nat) /\
  blinkCooldownRef s' = 22%Z /\
  resetFlashRef s' = 1.0 * 0.85 ^ 3.
Proof.
  intros H1 H2 H3 Hc s'. subst s'. rewrite !run_cons. cbn [run fold_left].
  destruct (onResults_blinks toString36 t1 s H1) as [Hd1 [Hf1 Hs1]].
  set (s1 := fst (onResults toString36 t1 s)) in *.
  destruct (onResults_blinks toString36 t2 s1 H2) as [Hd2 [Hf2 Hs2]].
  set (s2 := fst (onResults toString36 t2 s1)) in *.
  destruct (onResults_blinks toString36 t3 s2 H3) as [Hd3 [Hf3 Hs3]].
  set (s3 := fst (onResults toString36 t3 s2)) in *.
  rewrite Hc in *. cbn in Hd1. inversion Hd1 as [[Hc1 Hr1]].
  rewrite Hc1, Hr1 in *. cbn in Hd2. inversion Hd2 as [[Hc2 Hr2]].
  rewrite Hc2, Hr2 in *. cbn in Hd3. inversion Hd3 as [[Hc3 Hr3]].
  cbn [Z.leb Z.compare] in Hf1, Hs1, Hf2, Hs2, Hf3, Hs3.
  repeat split.
  - rewrite Hs3, Hs2, Hs1. reflexivity.
  - rewrite Hf3, Hf2, Hf1. unfold decayFlash, Rgtb.
    replace (Rltb 0.001 1) with true by (symmetry; apply Rltb_true; lra).
    replace (Rltb 0.001 (1 * 0.85)) with true by (symmetry; apply Rltb_true; lra).
    replace (Rltb 0.001 (1 * 0.85 * 0.85)) with true by (symmetry; apply Rltb_true; lra).
    lra.
Qed.

End Debounce.

(** C3 (as the code behaves). From a cooldown of zero, thirty consecutive
    ticks with both eye aspect ratios below [BLINK_THRESHOLD] fire exactly
    two resets, on the first tick and on the twenty-sixth: after n of the
    thirty ticks the reset count has grown by 0 for n = 0, by 1 for n from 1
    to 25 (the cooldown, 25 - n, blocks every reset on ticks 2 to 25) and
    by 2 for n from 26 on. *)
Theorem blink_debounce_thirty_ticks (toString36 : R -> string)
  (ticks : list Tick) (s : Session) (n : nat) :
  List.length ticks = 30%nat ->
  Forall (fun t => blinks t = true) ticks ->
  blinkCooldownRef s = 0%Z ->
  resets (run toString36 ticks s) = (resets s + 2)%nat /\
  resets (run toString36 (firstn n ticks) s) =
    (resets s + (if (n =? 0)%nat then 0 else if (n <=? 25)%nat then 1 else 2))%nat /\
  blinkCooldownRef (run toString36 (firstn n ticks) s) =
    (if (n =? 0)%nat then 0
     else if (n <=? 25)%nat then 25 - Z.of_nat n
     else 50 - Z.of_nat (Nat.min n 30))%Z.
Proof.
  intros Hlen Hall Hc.
  destruct (run_thirty_blinks toString36 ticks s n Hlen Hall Hc) as [H1 H2].
  destruct (run_thirty_blinks toString36 ticks s 30 Hlen Hall Hc) as [_ H3].
  rewrite <- Hlen, firstn_all in H3. rewrite Hlen in H3.
  repeat split; assumption.
Qed.

Lemma closedEyes_thirty :
  Forall (fun t => blinks t = true) (repeat closedEyesTick 30).
Proof. apply Forall_forall. intros t Hin. apply repeat_spec in Hin. subst t.
  apply closedEyesTick_blinks. Qed.

(** Thirty ticks of the closed-eyes face from a fresh session: the reset
    count goes from 0 to 2, it is 1 after 25 ticks and 2 after 26. *)
Lemma blink_debounce_thirty_ticks_witness :
  let ticks := repeat closedEyesTick 30 in
  let s := initialSession sampleToString36 (constantDraws 0.5) in
  resets (run sampleToString36 ticks s) = 2%nat /\
  resets (run sampleToString36 (firstn 26 ticks) s) = 2%nat /\
  blinkCooldownRef (run sampleToString36 (firstn 26 ticks) s) = 24%Z.
Proof.
  intros ticks s.
  exact (blink_debounce_thirty_ticks sampleToString36 ticks s 26
           (repeat_length closedEyesTick 30) closedEyes_thirty eq_refl).
Defined.

(** The claim as written, exactly one reset in the thirty ticks, fails on
    the closed-eyes face: two resets fire. *)
Lemma single_reset_in_thirty_ticks_fails :
  let ticks := repeat closedEyesTick 30 in
  let s := initialSession sampleToString36 (constantDraws 0.5) in
  List.length ticks = 30%nat /\
  Forall (fun t => blinks t = true) ticks /\
  blinkCooldownRef s = 0%Z /\
  resets (run sampleToString36 ticks s) = (resets s + 2)%nat /\
  resets (run sampleToString36 ticks s) <> (resets s + 1)%nat.
Proof.
  intros ticks s.
  assert (H : resets (run sampleToString36 ticks s) = (resets s + 2)%nat).
  { destruct (run_thirty_blinks sampleToString36 ticks s 30
                (repeat_length closedEyesTick 30) closedEyes_thirty eq_refl) as [_ H].
    exact H. }
  repeat split; try assumption.
  - apply closedEyes_thirty.
  - rewrite H. lia.
Qed.

(** C4 (as the code behaves). From a cooldown of zero, three consecutive
    ticks with both eye aspect ratios equal to 0.10 generate exactly one new
    scene (the one drawn on the first tick), leave the cooldown at
    25 - 3 = 22 and the reset flash at 1.0 * 0.85^3. *)
Theorem three_closed_eye_ticks (toString36 : R -> string) (t1 t2 t3 : Tick)
  (s : Session) :
  ears t1 = Some (Finite 0.10, Finite 0.10) ->
  ears t2 = Some (Finite 0.10, Finite 0.10) ->
  ears t3 = Some (Finite 0.10, Finite 0.10) ->
  blinkCooldownRef s = 0%Z ->
  let s' := run toString36 [t1; t2; t3] s in
  resets s' = S (resets s) /\
  sceneParamsRef s' = fst (generateNewScene toString36 (draws t1) 0%nat) /\
  blinkCooldownRef s' = 22%Z /\
  resetFlashRef s' = 1.0 * 0.85 ^ 3.
Proof.
  intros H1 H2 H3 Hc.
  assert (Hb : forall t, ears t = Some (Finite 0.10, Finite 0.10) -> blinks t = true).
  { intros t Ht. unfold blinks. rewrite Ht. unfold lessThan, BLINK_THRESHOLD.
    cmp. reflexivity. }
  apply run_three_blinks; auto.
Qed.

Lemma three_closed_eye_ticks_witness :
  let s := initialSession sampleToString36 (constantDraws 0.5) in
  let s' := run sampleToString36 [closedEyesTick; closedEyesTick; closedEyesTick] s in
  resets s' = 1%nat /\
  sceneParamsRef s' = fst (generateNewScene sampleToString36 (constantDraws 0.5) 0%nat) /\
  blinkCooldownRef s' = 22%Z /\
  resetFlashRef s' = 1.0 * 0.85 ^ 3.
Proof.
  intros s.
  exact (three_closed_eye_ticks sampleToString36 closedEyesTick closedEyesTick
           closedEyesTick s closedEyesTick_ears closedEyesTick_ears
           closedEyesTick_ears eq_refl).
Defined.

(** The claim as written, a cooldown of 23 after the third tick, fails on
    the closed-eyes face: the cooldown is 22. *)
Lemma cooldown_after_three_ticks_is_not_23 :
  let s := initialSession sampleToString36 (constantDraws 0.5) in
  let s' := run sampleToString36 [closedEyesTick; closedEyesTick; closedEyesTick] s in
  ears closedEyesTick = Some (Finite 0.10, Finite 0.10) /\
  blinkCooldownRef s = 0%Z /\
  blinkCooldownRef s' = 22%Z /\
  blinkCooldownRef s' <> 23%Z.
Proof.
  intros s s'.
  destruct (run_three_blinks sampleToString36 closedEyesTick closedEyesTick
              closedEyesTick s closedEyesTick_blinks closedEyesTick_blinks
              closedEyesTick_blinks eq_refl) as [_ [_ [H _]]].
  fold s' in H. repeat split.
  - apply closedEyesTick_ears.
  - exact H.
  - rewrite H. discriminate.
Qed.

(** ** The scene generator *)

Lemma range_bounds (r lo hi : R) :
  0 <= r < 1 -> lo < hi -> lo <= r * (hi - lo) + lo < hi.
Proof. intros [H0 H1] Hlt. split; nra. Qed.

Lemma palette_index_in_table (r : R) :
  0 <= r < 1 ->
  (Z.to_nat (floor (r * INR (List.length PALETTES))) < List.length PALETTES)%nat.
Proof.
  intros Hr. cbn [List.length PALETTES].
  assert (H : (0 <= floor (r * INR 8) < 8)%Z).
  { apply floor_bounds. cbn [INR]. lra. }
  lia.
Qed.

Section SceneProperties.

Variable toString36 : R -> string.
Variable draws : nat -> R.
Hypothesis draws_unit : unitDraws draws.

Lemma newShape_spec (palette : Palette.t) (i n : nat) :
  let shape := fst (newShape toString36 palette i draws n) in
  delayed shape /\ (if Nat.eqb i 0 then focal shape else fragment shape).
Proof.
  unfold newShape, generateId, randomRange, random, bind, ret.
  destruct (Nat.eqb i 0); cbn [fst snd]; unfold delayed, focal, fragment;
    cbn [GeometricFrame.delayFrames GeometricFrame.glitchIntensity GeometricFrame.x
         GeometricFrame.y GeometricFrame.scale].
  - repeat split; try reflexivity;
      try (apply (floor_bounds _ 2 45));
      match goal with
      | |- context [draws ?k] => pose proof (draws_unit k); (lra || nra)
      end.
  - repeat split;
      try (apply (floor_bounds _ 2 45));
      match goal with
      | |- context [draws ?k] => pose proof (draws_unit k); (lra || nra)
      end.
Qed.

Lemma pushShapes_cons (palette : Palette.t) (todo i n : nat) :
  fst (pushShapes toString36 palette (S todo) i draws n) =
    fst (newShape toString36 palette i draws n) ::
    fst (pushShapes toString36 palette todo (S i) draws
           (snd (newShape toString36 palette i draws n))).
Proof.
  cbn [pushShapes]. unfold bind at 1.
  destruct (newShape toString36 palette i draws n) as [shape n1]. cbn [fst snd].
  unfold bind at 1.
  destruct (pushShapes toString36 palette todo (S i) draws n1) as [rest n2].
  reflexivity.
Qed.

Lemma pushShapes_length (palette : Palette.t) (todo i n : nat) :
  List.length (fst (pushShapes toString36 palette todo i draws n)) = todo.
Proof.
  revert i n. induction todo as [| todo IH]; intros i n; [reflexivity |].
  rewrite pushShapes_cons. cbn [List.length]. rewrite IH. reflexivity.
Qed.

Lemma pushShapes_delayed (palette : Palette.t) (todo i n : nat) :
  Forall delayed (fst (pushShapes toString36 palette todo i draws n)).
Proof.
  revert i n. induction todo as [| todo IH]; intros i n; [constructor |].
  rewrite pushShapes_cons. constructor; [| apply IH].
  apply (newShape_spec palette i n).
Qed.

Lemma pushShapes_fragments (palette : Palette.t) (todo i n : nat) :
  Forall fragment (fst (pushShapes toString36 palette todo (S i) draws n)).
Proof.
  revert i n. induction todo as [| todo IH]; intros i n; [constructor |].
  rewrite pushShapes_cons. constructor; [| apply IH].
  apply (newShape_spec palette (S i) n).
Qed.

Lemma generateNewScene_shapes (n : nat) :
  let shapes := SceneParams.shapes (fst (generateNewScene toString36 draws n)) in
  (20 <= List.length shapes < 35)%nat /\
  exists first others,
    shapes = first :: others /\ focal first /\
    Forall fragment others /\ Forall delayed shapes.
Proof.
  unfold generateNewScene, randomRange, random, bind, ret. cbn [fst snd].
  set (palette := paletteAt _).
  set (count := Z.to_nat (floor (draws (S n) * (35 - 20) + 20))).
  assert (Hcount : (20 <= count < 35)%nat).
  { assert (H : (20 <= floor (draws (S n) * (35 - 20) + 20) < 35)%Z).
    { apply floor_bounds. pose proof (draws_unit (S n)). lra. }
    subst count. lia. }
  destruct (pushShapes toString36 palette count 0 draws (S (S n))) as [shapes n1] eqn:E.
  cbn [fst snd SceneParams.shapes].
  assert (Hs : shapes = fst (pushShapes toString36 palette count 0 draws (S (S n))))
    by (rewrite E; reflexivity).
  split.
  - rewrite Hs, pushShapes_length. assumption.
  - destruct count as [| todo]; [lia |].
    rewrite pushShapes_cons in Hs.
    eexists. eexists. split; [exact Hs |]. split; [| split].
    + apply (newShape_spec palette 0 (S (S n))).
    + apply pushShapes_fragments.
    + rewrite Hs. rewrite <- pushShapes_cons. apply pushShapes_delayed.
Qed.

End SceneProperties.

Lemma constantDraws_unit : unitDraws (constantDraws 0.5).
Proof. intros k. unfold constantDraws. lra. Qed.


(** ** The head position through blink detection *)

Section Smoothing.

Variable toString36 : R -> string.

Lemma detectBlink_head (t : Tick) (l r : Number) (s : Session) :
  headPosRef (detectBlink toString36 t l r s) = headPosRef s /\
  targetHeadPosRef (detectBlink toString36 t l r s) = targetHeadPosRef s.
Proof.
  unfold detectBlink.
  destruct (lessThan l BLINK_THRESHOLD && lessThan r BLINK_THRESHOLD);
    [destruct (blinkCooldownRef s <=? 0)%Z |]; split; reflexivity.
Qed.

End Smoothing.


(** ** The decay of the reset flash *)

Lemma decayFlash_above (f : R) : 0.001 < f -> decayFlash f = f * 0.85.
Proof.
  intros H. unfold decayFlash, Rgtb.
  replace (Rltb 0.001 f) with true by (symmetry; apply Rltb_true; assumption).
  reflexivity.
Qed.

Lemma decayFlash_below (f : R) : f <= 0.001 -> decayFlash f = 0.
Proof.
  intros H. unfold decayFlash, Rgtb.
  replace (Rltb 0.001 f) with false by (symmetry; apply Rltb_false; assumption).
  reflexivity.
Qed.

Lemma decayFlash_le (f : R) : 0 <= f -> 0 <= decayFlash f <= f.
Proof.
  intros H. destruct (Rlt_le_dec 0.001 f) as [Ha | Hb].
  - rewrite decayFlash_above by assumption. lra.
  - rewrite decayFlash_below by assumption. lra.
Qed.

Lemma decay_nonneg (f : R) (n : nat) : 0 <= f -> 0 <= Nat.iter n decayFlash f.
Proof.
  intros H. induction n as [| n IH]; [exact H |].
  rewrite Nat.iter_succ. apply decayFlash_le. exact IH.
Qed.

(** After [n] renders the flash is either already zero or has been
    multiplied [n] times. *)
Lemma decay_shape (f : R) (n : nat) :
  Nat.iter n decayFlash f = 0 \/ Nat.iter n decayFlash f = 0.85 ^ n * f.
Proof.
  induction n as [| n IH]; [right; cbn; lra |].
  rewrite Nat.iter_succ. destruct IH as [IH | IH].
  - left. rewrite IH. apply decayFlash_below. lra.
  - destruct (Rlt_le_dec 0.001 (Nat.iter n decayFlash f)) as [Ha | Hb].
    + right. rewrite decayFlash_above by assumption. rewrite IH. cbn [pow]. ring.
    + left. apply decayFlash_below. assumption.
Qed.

Lemma decay_zero (n : nat) : Nat.iter n decayFlash 0 = 0.
Proof.
  induction n as [| n IH]; [reflexivity |].
  rewrite Nat.iter_succ. rewrite IH. apply decayFlash_below. lra.
Qed.

Lemma pow_085_43 : 0.85 ^ 43 < 0.001.
Proof.
  assert (H4 : 0.85 ^ 4 < 0.5221) by (cbn [pow]; lra).
  assert (H0 : 0 < 0.85 ^ 4) by (cbn [pow]; lra).
  assert (H8 : 0.85 ^ 8 < 0.2726).
  { replace (0.85 ^ 8) with (0.85 ^ 4 * 0.85 ^ 4) by (cbn [pow]; ring). nra. }
  assert (H08 : 0 < 0.85 ^ 8) by (apply pow_lt; lra).
  assert (H16 : 0.85 ^ 16 < 0.0744).
  { replace (0.85 ^ 16) with (0.85 ^ 8 * 0.85 ^ 8) by (cbn [pow]; ring). nra. }
  assert (H016 : 0 < 0.85 ^ 16) by (apply pow_lt; lra).
  assert (H32 : 0.85 ^ 32 < 0.00554).
  { replace (0.85 ^ 32) with (0.85 ^ 16 * 0.85 ^ 16) by (cbn [pow]; ring). nra. }
  assert (H032 : 0 < 0.85 ^ 32) by (apply pow_lt; lra).
  assert (H40 : 0.85 ^ 40 < 0.001511).
  { replace (0.85 ^ 40) with (0.85 ^ 32 * 0.85 ^ 8) by (cbn [pow]; ring). nra. }
  assert (H040 : 0 < 0.85 ^ 40) by (apply pow_lt; lra).
  replace (0.85 ^ 43) with (0.85 ^ 40 * (0.85 * 0.85 * 0.85)) by (cbn [pow]; ring).
  nra.
Qed.

Lemma decay_dies (f : R) (n : nat) :
  0 <= f <= 1 -> Nat.iter (44 + n) decayFlash f = 0.
Proof.
  intros Hf. rewrite Nat.add_comm, Nat.iter_add.
  replace (Nat.iter 44 decayFlash f) with 0; [apply decay_zero |].
  symmetry. change 44%nat with (S 43). rewrite Nat.iter_succ.
  apply decayFlash_below.
  destruct (decay_shape f 43) as [H | H]; rewrite H; [lra |].
  pose proof pow_085_43. assert (0 < 0.85 ^ 43) by (apply pow_lt; lra). nra.
Qed.

Lemma pow_085_42 : 0.001 < 0.85 ^ 42.
Proof.
  assert (H4 : 0.522 < 0.85 ^ 4) by (cbn [pow]; lra).
  assert (H8 : 0.2724 < 0.85 ^ 8).
  { replace (0.85 ^ 8) with (0.85 ^ 4 * 0.85 ^ 4) by (cbn [pow]; ring). nra. }
  assert (H16 : 0.0742 < 0.85 ^ 16).
  { replace (0.85 ^ 16) with (0.85 ^ 8 * 0.85 ^ 8) by (cbn [pow]; ring). nra. }
  assert (H32 : 0.0055 < 0.85 ^ 32).
  { replace (0.85 ^ 32) with (0.85 ^ 16 * 0.85 ^ 16) by (cbn [pow]; ring). nra. }
  assert (H40 : 0.001498 < 0.85 ^ 40).
  { replace (0.85 ^ 40) with (0.85 ^ 32 * 0.85 ^ 8) by (cbn [pow]; ring). nra. }
  replace (0.85 ^ 42) with (0.85 ^ 40 * (0.85 * 0.85)) by (cbn [pow]; ring).
  nra.
Qed.

(** While the product stays above the epsilon the flash is multiplied on
    every render. *)
Lemma decay_alive (f : R) (n : nat) :
  0 < f -> 0.001 < 0.85 ^ n * f ->
  Nat.iter (S n) decayFlash f = 0.85 ^ S n * f.
Proof.
  intros Hf. induction n as [| n IH]; intros Hn.
  - cbn [pow] in *. rewrite Nat.iter_succ. cbn [Nat.iter nat_rect].
    rewrite decayFlash_above by lra. lra.
  - rewrite Nat.iter_succ, IH.
    + rewrite decayFlash_above by exact Hn. cbn [pow]. ring.
    + cbn [pow] in Hn. assert (0 < 0.85 ^ n) by (apply pow_lt; lra). nra.
Qed.

(** C7. From any starting value in (0, 1] the reset flash never grows from
    one render to the next and never becomes negative; every render
    multiplies it by 0.85 while it is above 0.001 and sets it to 0 otherwise;
    it is exactly 0 after 44 renders and stays 0 from then on.  The bound is
    met from the value 1.0: after 43 renders the flash is 0.85^43, which is
    positive and below 0.001, and the 44th render clamps it to 0. *)
Theorem reset_flash_decays (f0 : R) (n : nat) :
  0 < f0 <= 1 ->
  let flash := fun k => Nat.iter k decayFlash f0 in
  (forall width height s, exists frame,
     renderScene width height s =
       Normal (setResetFlash (decayFlash (resetFlashRef s)) s, frame)) /\
  flash (S n) = (if Rgtb (flash n) 0.001 then flash n * 0.85 else 0) /\
  0 <= flash (S n) <= flash n /\
  flash (44 + n)%nat = 0 /\
  Nat.iter 43 decayFlash 1 = 0.85 ^ 43 /\
  0 < 0.85 ^ 43 < 0.001.
Proof.
  intros Hf flash. subst flash. cbv beta.
  split; [intros; apply renderScene_normal |].
  split; [rewrite Nat.iter_succ; reflexivity |].
  split; [rewrite Nat.iter_succ; apply decayFlash_le, decay_nonneg; lra |].
  split; [apply decay_dies; lra |].
  split.
  - rewrite (decay_alive 1 42); [lra | lra |]. pose proof pow_085_42. lra.
  - split; [apply pow_lt; lra | apply pow_085_43].
Qed.

(** From a flash of 1.0: one render gives 0.85, and 44 renders give 0. *)
Lemma reset_flash_decays_witness :
  Nat.iter 1 decayFlash 1 = (if Rgtb (Nat.iter 0 decayFlash 1) 0.001
                             then Nat.iter 0 decayFlash 1 * 0.85 else 0) /\
  Nat.iter 44 decayFlash 1 = 0.
Proof.
  destruct (reset_flash_decays 1 0) as [_ [H1 [_ [H44 _]]]].
  - lra.
  - split; [exact H1 | exact H44].
Defined.

(** ** The eye aspect ratio *)

Lemma nth_error_tabulate (f : nat -> Point) (n i : nat) :
  (i < n)%nat -> nth_error (tabulate f n) i = Some (f i).
Proof.
  intros H. unfold tabulate. rewrite nth_error_map, nth_error_seq.
  destruct (Nat.ltb_spec i n); [reflexivity | lia].
Qed.

Lemma distance_nonneg (p q : Point) : 0 <= distance p q.
Proof. unfold distance. apply sqrt_pos. Qed.

Lemma distance_zero (p q : Point) : distance p q = 0 <-> p = q.
Proof.
  split.
  - unfold distance. intros H.
    apply sqrt_eq_0 in H; [| apply Rplus_le_le_0_compat; apply pow2_ge_0].
    destruct p as [px py], q as [qx qy]. cbn [Point.x Point.y] in H.
    rewrite <- !Rsqr_pow2 in H. apply Rplus_sqr_eq_0 in H.
    f_equal; lra.
  - intros ->. apply distance_same.
Qed.

Lemma calculateEAR_found (landmarks : list Point) (left right top bottom : nat)
  (pl pr pt pb : Point) :
  nth_error landmarks left = Some pl ->
  nth_error landmarks right = Some pr ->
  nth_error landmarks top = Some pt ->
  nth_error landmarks bottom = Some pb ->
  calculateEAR landmarks [left; right; top; bottom] =
    Normal (divide (distance pt pb) (distance pl pr)).
Proof.
  intros Hl Hr Ht Hb. unfold calculateEAR. cbn [at_ nth_error bindC].
  unfold at_. rewrite Ht, Hb, Hl, Hr. reflexivity.
Qed.

Lemma pinchedEye_left :
  calculateEAR (tabulate pinchedEye 478) LEFT_EYE_INDICES = Normal Infinity.
Proof.
  unfold LEFT_EYE_INDICES.
  rewrite (calculateEAR_found _ 33 133 159 145 (pinchedEye 33) (pinchedEye 133)
             (pinchedEye 159) (pinchedEye 145))
    by (apply nth_error_tabulate; lia).
  cbn [pinchedEye Nat.eqb]. rewrite distance_same, distance_vertical by lra.
  unfold divide. cmp. reflexivity.
Qed.

Lemma pinchedEye_right :
  calculateEAR (tabulate pinchedEye 478) RIGHT_EYE_INDICES = Normal NaN.
Proof.
  unfold RIGHT_EYE_INDICES.
  rewrite (calculateEAR_found _ 362 263 386 374 (pinchedEye 362) (pinchedEye 263)
             (pinchedEye 386) (pinchedEye 374))
    by (apply nth_error_tabulate; lia).
  cbn [pinchedEye Nat.eqb]. rewrite !distance_same.
  unfold divide. cmp. reflexivity.
Qed.

(** C8. When the four indexed landmarks exist, [calculateEAR] returns the
    distance between the top and bottom landmarks divided by the distance
    between the left and right ones.  Nothing guards the denominator: when
    the left and right landmarks differ the result is the finite quotient,
    and when they coincide the denominator is zero and the result is
    [Infinity] or [NaN]; both happen on a face that the function accepts. *)
Theorem ear_is_unguarded_ratio (landmarks : list Point) (left right top bottom : nat)
  (pl pr pt pb : Point) :
  nth_error landmarks left = Some pl ->
  nth_error landmarks right = Some pr ->
  nth_error landmarks top = Some pt ->
  nth_error landmarks bottom = Some pb ->
  let v1 := distance pt pb in
  let h1 := distance pl pr in
  calculateEAR landmarks [left; right; top; bottom] = Normal (divide v1 h1) /\
  (pl <> pr -> h1 <> 0 /\ divide v1 h1 = Finite (v1 / h1)) /\
  (pl = pr -> h1 = 0 /\ divide v1 h1 = (if Reqb v1 0 then NaN else Infinity)) /\
  (exists face,
     nth_error face 33 = nth_error face 133 /\
     calculateEAR face LEFT_EYE_INDICES = Normal Infinity /\
     calculateEAR face RIGHT_EYE_INDICES = Normal NaN).
Proof.
  intros Hl Hr Ht Hb v1 h1.
  split; [apply calculateEAR_found; assumption |]. split; [| split].
  - intros Hne.
    assert (Hh : h1 <> 0) by (intros H; apply distance_zero in H; contradiction).
    split; [exact Hh |]. unfold divide.
    replace (Reqb h1 0) with false by (symmetry; apply Reqb_false; exact Hh).
    reflexivity.
  - intros Heq.
    assert (Hh : h1 = 0) by (apply distance_zero; exact Heq).
    split; [exact Hh |]. unfold divide. rewrite Hh.
    replace (Reqb 0 0) with true by (symmetry; apply Reqb_true; reflexivity).
    destruct (Reqb v1 0) eqn:Ev; [reflexivity |].
    apply Reqb_false in Ev. pose proof (distance_nonneg pt pb). fold v1 in H.
    replace (Rltb 0 v1) with true by (symmetry; apply Rltb_true; lra).
    reflexivity.
  - exists (tabulate pinchedEye 478). split; [| split].
    + rewrite !nth_error_tabulate by lia. reflexivity.
    + apply pinchedEye_left.
    + apply pinchedEye_right.
Qed.

(** The left eye of the pinched face: its corners coincide, the denominator
    is zero and the ratio is [Infinity]. *)
Lemma ear_is_unguarded_ratio_witness :
  let face := tabulate pinchedEye 478 in
  calculateEAR face [33; 133; 159; 145]%nat =
    Normal (divide (distance (pinchedEye 159) (pinchedEye 145))
                   (distance (pinchedEye 33) (pinchedEye 133))) /\
  distance (pinchedEye 33) (pinchedEye 133) = 0.
Proof.
  intros face.
  destruct (ear_is_unguarded_ratio face 33 133 159 145
              (pinchedEye 33) (pinchedEye 133) (pinchedEye 159) (pinchedEye 145))
    as [H [_ [Hz _]]]; try (apply nth_error_tabulate; lia).
  split; [exact H |]. apply Hz. reflexivity.
Defined.

(** ** Eye extraction *)

Lemma lowest_spec (vs : list R) (m : R) :
  lowest vs m <= m /\
  Forall (fun v => lowest vs m <= v) vs /\
  (lowest vs m = m \/ In (lowest vs m) vs).
Proof.
  revert m. induction vs as [| v vs IH]; intros m.
  - cbn. repeat split; [lra | constructor | left; reflexivity].
  - unfold lowest. cbn [fold_left]. fold (lowest vs (if Rltb v m then v else m)).
    destruct (IH (if Rltb v m then v else m)) as [H1 [H2 H3]].
    destruct (Rltb v m) eqn:E;
      [apply Rltb_true in E | apply Rltb_false in E].
    + split; [lra |]. split; [constructor; assumption |].
      right. destruct H3 as [H3 | H3]; [left; symmetry; exact H3 | right; exact H3].
    + split; [lra |]. split; [constructor; [lra | assumption] |].
      destruct H3 as [H3 | H3]; [left; exact H3 | right; right; exact H3].
Qed.

Lemma highest_spec (vs : list R) (m : R) :
  m <= highest vs m /\
  Forall (fun v => v <= highest vs m) vs /\
  (highest vs m = m \/ In (highest vs m) vs).
Proof.
  revert m. induction vs as [| v vs IH]; intros m.
  - cbn. repeat split; [lra | constructor | left; reflexivity].
  - unfold highest. cbn [fold_left]. fold (highest vs (if Rgtb v m then v else m)).
    destruct (IH (if Rgtb v m then v else m)) as [H1 [H2 H3]].
    unfold Rgtb in *.
    destruct (Rltb m v) eqn:E;
      [apply Rltb_true in E | apply Rltb_false in E].
    + split; [lra |]. split; [constructor; assumption |].
      right. destruct H3 as [H3 | H3]; [left; symmetry; exact H3 | right; exact H3].
    + split; [lra |]. split; [constructor; [lra | assumption] |].
      destruct H3 as [H3 | H3]; [left; exact H3 | right; right; exact H3].
Qed.

(** From the initial [1], over values of [0, 1], the running minimum is the
    minimum of the values. *)
Lemma lowest_unit (vs : list R) :
  vs <> [] -> Forall (fun v => 0 <= v <= 1) vs ->
  In (lowest vs 1) vs /\ Forall (fun v => lowest vs 1 <= v) vs.
Proof.
  intros Hne Hunit. destruct (lowest_spec vs 1) as [H1 [H2 H3]].
  split; [| exact H2].
  destruct H3 as [H3 | H3]; [| exact H3].
  destruct vs as [| v vs]; [congruence |].
  inversion H2 as [| ? ? Hv _]; subst. inversion Hunit as [| ? ? Hu _]; subst.
  left. lra.
Qed.

Lemma highest_unit (vs : list R) :
  vs <> [] -> Forall (fun v => 0 <= v <= 1) vs ->
  In (highest vs 0) vs /\ Forall (fun v => v <= highest vs 0) vs.
Proof.
  intros Hne Hunit. destruct (highest_spec vs 0) as [H1 [H2 H3]].
  split; [| exact H2].
  destruct H3 as [H3 | H3]; [| exact H3].
  destruct vs as [| v vs]; [congruence |].
  inversion H2 as [| ? ? Hv _]; subst. inversion Hunit as [| ? ? Hu _]; subst.
  left. lra.
Qed.

Lemma forEachIndex_selects (landmarks : list Point) (indices : list nat)
  (pts : list Point) (b : Box.t) :
  selects landmarks indices pts ->
  forEachIndex landmarks indices b = Normal (fold_left include pts b).
Proof.
  intros H. revert b. induction H as [| idx p indices pts Hp _ IH]; intros b;
    [reflexivity |].
  cbn [forEachIndex fold_left]. unfold at_. rewrite Hp. cbn [bindC]. apply IH.
Qed.

Lemma fold_include (pts : list Point) (b : Box.t) :
  fold_left include pts b =
    Box.mk (lowest (map Point.x pts) (Box.minX b)) (lowest (map Point.y pts) (Box.minY b))
           (highest (map Point.x pts) (Box.maxX b)) (highest (map Point.y pts) (Box.maxY b)).
Proof.
  revert b. induction pts as [| p pts IH]; intros b; [destruct b; reflexivity |].
  cbn [fold_left map]. rewrite IH. reflexivity.
Qed.

Lemma forEachIndex_boundingBox (landmarks : list Point) (indices : list nat)
  (pts : list Point) :
  selects landmarks indices pts -> pts <> [] -> Forall inUnit pts ->
  exists b,
    forEachIndex landmarks indices (Box.mk 1 1 0 0) = Normal b /\ boundingBox b pts.
Proof.
  intros Hsel Hne Hunit.
  rewrite (forEachIndex_selects _ _ _ _ Hsel), fold_include. cbn [Box.minX Box.minY Box.maxX Box.maxY].
  eexists. split; [reflexivity |].
  assert (Hx : Forall (fun v => 0 <= v <= 1) (map Point.x pts)).
  { apply Forall_map. eapply Forall_impl; [| exact Hunit]. intros p [H _]. exact H. }
  assert (Hy : Forall (fun v => 0 <= v <= 1) (map Point.y pts)).
  { apply Forall_map. eapply Forall_impl; [| exact Hunit]. intros p [_ H]. exact H. }
  assert (Hnx : map Point.x pts <> []) by (destruct pts; [congruence | discriminate]).
  assert (Hny : map Point.y pts <> []) by (destruct pts; [congruence | discriminate]).
  destruct (lowest_unit _ Hnx Hx) as [A1 A2]. destruct (highest_unit _ Hnx Hx) as [B1 B2].
  destruct (lowest_unit _ Hny Hy) as [C1 C2]. destruct (highest_unit _ Hny Hy) as [D1 D2].
  unfold boundingBox. cbn [Box.minX Box.minY Box.maxX Box.maxY].
  repeat (split; [assumption |]).
  rewrite Forall_map in A2, B2, C2, D2. rewrite Forall_forall in *.
  intros p Hp. specialize (A2 p Hp). specialize (B2 p Hp).
  specialize (C2 p Hp). specialize (D2 p Hp). lra.
Qed.

(** A tick in which one extraction yields [null] pushes nothing and closes
    nothing. *)
Lemma capture_null (t : Tick) (landmarks : list Point) (s : Session) :
  extractEye landmarks LEFT_EYE_INDICES (videoWidth t) (videoHeight t) = Normal None \/
  extractEye landmarks RIGHT_EYE_INDICES (videoWidth t) (videoHeight t) = Normal None ->
  historyRef (capture t landmarks s) = historyRef s /\
  closed (capture t landmarks s) = closed s.
Proof.
  intros H. unfold capture.
  destruct (extractEye landmarks LEFT_EYE_INDICES _ _) as [l |]; [| split; reflexivity].
  destruct (extractEye landmarks RIGHT_EYE_INDICES _ _) as [r |].
  - destruct l as [cl |], r as [cr |]; cbn [settle];
      try (destruct H; discriminate);
      repeat match goal with
             | |- context [resolves t ?c] => destruct (resolves t c)
             end; split; reflexivity.
  - destruct l as [cl |]; cbn [settle];
      repeat match goal with
             | |- context [resolves t ?c] => destruct (resolves t c)
             end; split; reflexivity.
Qed.

Lemma finish_closed (t : Tick) (s : Session) :
  closed (fst (finish t s)) = closed s /\ created (fst (finish t s)) = created s /\
  exists frame, snd (finish t s) = Some frame.
Proof.
  destruct (finish_eq t s) as [frame H]. rewrite H. cbv zeta.
  destruct (0 <? blinkCooldownRef s)%Z; repeat split; exists frame; reflexivity.
Qed.

Lemma detectBlink_closed (toString36 : R -> string) (t : Tick) (l r : Number)
  (s : Session) :
  closed (detectBlink toString36 t l r s) = closed s /\
  created (detectBlink toString36 t l r s) = created s.
Proof.
  unfold detectBlink.
  destruct (lessThan l BLINK_THRESHOLD && lessThan r BLINK_THRESHOLD);
    [destruct (blinkCooldownRef s <=? 0)%Z |]; split; reflexivity.
Qed.

Lemma extractEye_selects (landmarks : list Point) (indices : list nat)
  (pts : list Point) (width height : R) :
  selects landmarks indices pts ->
  extractEye landmarks indices width height =
    let c := toPixels (padded (fold_left include pts (Box.mk 1 1 0 0))) width height in
    Normal (if Rleb (Crop.sw c) 0 || Rleb (Crop.sh c) 0 then None else Some c).
Proof.
  intros H. unfold extractEye. rewrite (forEachIndex_selects _ _ _ _ H).
  cbn [bindC]. cbv zeta.
  destruct (Rleb _ 0 || Rleb _ 0); reflexivity.
Qed.

(** C9. For landmarks in normalized coordinates, [extractEye] computes the
    axis-aligned bounding box of the indexed landmarks, pads it by 60% of
    its width on either side in x and by 100% of its height on either side
    in y, clamps the padded box to [0,1] on both axes, scales it by the
    frame's width and height, and returns [null] exactly when the pixel
    width or the pixel height is not positive.  A tick in which an
    extraction returns [null] leaves the history buffer as it was, closes
    nothing, and still renders its frame. *)
Theorem eye_extraction_pads_clamps_and_skips (toString36 : R -> string)
  (landmarks : list Point) (indices : list nat) (pts : list Point)
  (width height : R) (t : Tick) (s : Session) :
  selects landmarks indices pts -> pts <> [] -> Forall inUnit pts ->
  (exists b,
     forEachIndex landmarks indices (Box.mk 1 1 0 0) = Normal b /\
     boundingBox b pts /\
     let w := Box.maxX b - Box.minX b in
     let h := Box.maxY b - Box.minY b in
     let x0 := Rmax 0 (Box.minX b - w * 0.6) in
     let x1 := Rmin 1 (Box.maxX b + w * 0.6) in
     let y0 := Rmax 0 (Box.minY b - h * 1.0) in
     let y1 := Rmin 1 (Box.maxY b + h * 1.0) in
     let sw := (x1 - x0) * width in
     let sh := (y1 - y0) * height in
     (0 <= x0 <= 1 /\ 0 <= x1 <= 1 /\ 0 <= y0 <= 1 /\ 0 <= y1 <= 1) /\
     (sw <= 0 \/ sh <= 0 ->
      extractEye landmarks indices width height = Normal None) /\
     (0 < sw /\ 0 < sh ->
      extractEye landmarks indices width height =
        Normal (Some (Crop.mk (x0 * width) (y0 * height) sw sh)))) /\
  (forall face l r,
     firstFace t = Some face -> ears t = Some (l, r) ->
     extractEye face LEFT_EYE_INDICES (videoWidth t) (videoHeight t) = Normal None \/
     extractEye face RIGHT_EYE_INDICES (videoWidth t) (videoHeight t) = Normal None ->
     historyRef (fst (onResults toString36 t s)) = historyRef s /\
     closed (fst (onResults toString36 t s)) = closed s /\
     exists frame, snd (onResults toString36 t s) = Some frame).
Proof.
  intros Hsel Hne Hunit. split.
  - destruct (forEachIndex_boundingBox landmarks indices pts Hsel Hne Hunit)
      as [b [Hb Hbox]].
    exists b. split; [exact Hb |]. split; [exact Hbox |]. cbv zeta.
    assert (Hfold : fold_left include pts (Box.mk 1 1 0 0) = b).
    { rewrite (forEachIndex_selects _ _ _ _ Hsel) in Hb. inversion Hb. reflexivity. }
    assert (Hin : 0 <= Box.minX b <= Box.maxX b /\ Box.maxX b <= 1 /\
                  0 <= Box.minY b <= Box.maxY b /\ Box.maxY b <= 1).
    { destruct Hbox as [A [B [C [D Hall]]]].
      rewrite Forall_forall in Hunit, Hall.
      apply in_map_iff in A. destruct A as [pa [Ea Ia]].
      apply in_map_iff in B. destruct B as [pb [Eb Ib]].
      apply in_map_iff in C. destruct C as [pc [Ec Ic]].
      apply in_map_iff in D. destruct D as [pd [Ed Id]].
      pose proof (Hunit pa Ia) as [Ua _]. pose proof (Hunit pb Ib) as [Ub _].
      pose proof (Hunit pc Ic) as [_ Uc]. pose proof (Hunit pd Id) as [_ Ud].
      pose proof (Hall pa Ia). lra. }
    split; [| split].
    + unfold Rmax, Rmin.
      repeat match goal with |- context [Rle_dec ?a ?b] => destruct (Rle_dec a b) end;
        lra.
    + intros Hle. rewrite (extractEye_selects _ _ _ _ _ Hsel), Hfold. cbv zeta.
      unfold toPixels, padded. cbn [Box.minX Box.minY Box.maxX Box.maxY Crop.sw Crop.sh].
      destruct Hle as [Hle | Hle].
      * replace (Rleb _ 0) with true at 1 by (symmetry; apply Rleb_true; exact Hle).
        reflexivity.
      * match goal with |- context [Rleb ?a 0 || Rleb ?b 0] =>
          replace (Rleb b 0) with true by (symmetry; apply Rleb_true; exact Hle)
        end.
        rewrite orb_true_r. reflexivity.
    + intros [Hw Hh]. rewrite (extractEye_selects _ _ _ _ _ Hsel), Hfold. cbv zeta.
      unfold toPixels, padded. cbn [Box.minX Box.minY Box.maxX Box.maxY Crop.sw Crop.sh].
      match goal with |- context [Rleb ?a 0 || Rleb ?b 0] =>
        replace (Rleb a 0) with false by (symmetry; apply Rleb_false; exact Hw);
        replace (Rleb b 0) with false by (symmetry; apply Rleb_false; exact Hh)
      end.
      reflexivity.
  - intros face l r Hface Hears Hnull.
    destruct (onResults_ears toString36 t l r s Hears)
      as [face' [nose [Hface' [_ [_ [_ Hrun]]]]]].
    rewrite Hface in Hface'. inversion Hface'; subst face'. rewrite Hrun.
    match goal with |- context [finish t ?x] =>
      destruct (finish_closed t x) as [Hc [_ Hf]];
      pose proof (finish_history t x) as Hh
    end.
    rewrite Hc, Hh.
    match goal with |- context [capture t face ?x] =>
      destruct (capture_null t face x Hnull) as [Hh' Hc']
    end.
    rewrite Hh', Hc'.
    rewrite detectBlink_history.
    match goal with |- context [detectBlink toString36 t l r ?x] =>
      destruct (detectBlink_closed toString36 t l r x) as [Hc'' _]
    end.
    rewrite Hc''. repeat split. exact Hf.
Qed.

Lemma pinchedEyeTick_ears : ears pinchedEyeTick = Some (Infinity, NaN).
Proof.
  unfold ears, pinchedEyeTick, tickWith, HEAD_NOSE_INDEX.
  cbn [isMounted surface andb firstFace multiFaceLandmarks].
  rewrite pinchedEye_left, pinchedEye_right, at_tabulate by lia. reflexivity.
Qed.

Lemma pinchedEye_selects :
  selects (tabulate pinchedEye 478) LEFT_EYE_INDICES
    [pinchedEye 33; pinchedEye 133; pinchedEye 159; pinchedEye 145].
Proof. repeat constructor; apply nth_error_tabulate; lia. Qed.

Lemma pinchedEye_inUnit :
  Forall inUnit [pinchedEye 33; pinchedEye 133; pinchedEye 159; pinchedEye 145].
Proof. repeat constructor; cbn [pinchedEye Nat.eqb Point.x Point.y]; lra. Qed.

(** The pinched face: the four landmarks of the left eye have the same x, the
    box has no width, the extraction returns [null], the tick pushes nothing
    and renders. *)
Lemma eye_extraction_pads_clamps_and_skips_witness :
  let face := tabulate pinchedEye 478 in
  let s := initialSession sampleToString36 (constantDraws 0.5) in
  extractEye face LEFT_EYE_INDICES 1280 720 = Normal None /\
  historyRef (fst (onResults sampleToString36 pinchedEyeTick s)) = [] /\
  exists frame, snd (onResults sampleToString36 pinchedEyeTick s) = Some frame.
Proof.
  intros face s.
  destruct (eye_extraction_pads_clamps_and_skips sampleToString36 face
              LEFT_EYE_INDICES
              [pinchedEye 33; pinchedEye 133; pinchedEye 159; pinchedEye 145]
              1280 720 pinchedEyeTick s pinchedEye_selects)
    as [[b [_ [Hbox [_ [Hnull _]]]]] Htick].
  - discriminate.
  - exact pinchedEye_inUnit.
  - assert (Hn : extractEye face LEFT_EYE_INDICES 1280 720 = Normal None).
    { apply Hnull. left.
      destruct Hbox as [A [B _]]. cbn [map pinchedEye Nat.eqb Point.x In] in A, B.
      assert (Ha : Box.minX b = 0.35) by (intuition lra).
      assert (Hb : Box.maxX b = 0.35) by (intuition lra).
      rewrite Ha, Hb. unfold Rmax, Rmin.
      repeat match goal with |- context [Rle_dec ?a ?b] => destruct (Rle_dec a b) end;
        lra. }
    split; [exact Hn |].
    destruct (Htick face Infinity NaN eq_refl pinchedEyeTick_ears (or_introl Hn))
      as [Hh [_ Hf]].
    split; [exact Hh | exact Hf].
Defined.

(** ** Bitmap lifetimes *)

Lemma grows_refl (s : Session) : grows s s.
Proof. repeat split; [lia | intros; left; assumption | intros; left; assumption]. Qed.

Lemma grows_trans (s1 s2 s3 : Session) : grows s1 s2 -> grows s2 s3 -> grows s1 s3.
Proof.
  intros [A1 [A2 A3]] [B1 [B2 B3]]. repeat split.
  - lia.
  - intros b Hb. destruct (B2 b Hb) as [H | H].
    + destruct (A2 b H) as [H' | H']; [left; exact H' | right; lia].
    + right. lia.
  - intros b Hb. destruct (B3 b Hb) as [H | [H | H]].
    + destruct (A3 b H) as [H' | [H' | H']]; [tauto | tauto | right; right; lia].
    + destruct (A2 b H) as [H' | H']; [tauto | right; right; lia].
    + right. right. lia.
Qed.

(** A step that leaves the history buffer, the log and the counter alone. *)
Lemma grows_same (s s' : Session) :
  historyRef s' = historyRef s -> closed s' = closed s -> created s' = created s ->
  grows s s'.
Proof.
  intros Hh Hc Hn. unfold grows, held. rewrite Hh, Hc, Hn.
  repeat split; [lia | intros; left; assumption | intros; left; assumption].
Qed.

Lemma tracked_grows (s s' : Session) : tracked s -> grows s s' -> tracked s'.
Proof.
  intros [T1 T2] [G1 [G2 G3]]. rewrite Forall_forall in T1, T2.
  split; apply Forall_forall; intros b Hb.
  - destruct (G2 b Hb) as [H | H]; [specialize (T1 b H); lia | lia].
  - destruct (G3 b Hb) as [H | [H | H]];
      [specialize (T2 b H); lia | specialize (T1 b H); lia | lia].
Qed.

Lemma leaked_grows (b : ImageBitmap) (s s' : Session) :
  leaked b s -> grows s s' -> leaked b s'.
Proof.
  intros [L1 [L2 L3]] [G1 [G2 G3]]. repeat split.
  - lia.
  - intros Hb. destruct (G2 b Hb) as [H | H]; [contradiction | lia].
  - intros Hb. destruct (G3 b Hb) as [H | [H | H]]; [contradiction | contradiction | lia].
Qed.

Lemma held_cons (f : FrameHistory) (h : list FrameHistory) (s : Session) :
  held (setHistory (f :: h) s) = bitmapsOf f ++ flat_map bitmapsOf h.
Proof. reflexivity. Qed.

(** A push holds the new frame and otherwise only what was held; it closes
    only what was held. *)
Lemma pushHistory_bitmaps (f : FrameHistory) (s : Session) :
  created (pushHistory f s) = created s /\
  (forall b, In b (held (pushHistory f s)) -> In b (bitmapsOf f) \/ In b (held s)) /\
  (forall b, In b (closed (pushHistory f s)) -> In b (closed s) \/ In b (held s)).
Proof.
  destruct (Nat.lt_ge_cases (List.length (historyRef s)) MAX_HISTORY) as [Hlt | Hge].
  - rewrite pushHistory_below by assumption. repeat split.
    + intros b Hb. rewrite held_cons in Hb. apply in_app_or in Hb. exact Hb.
    + intros b Hb. left. exact Hb.
  - destruct (exists_last (l := historyRef s)) as [kept [old Hh]].
    { intros E. rewrite E in Hge. cbn in Hge. unfold MAX_HISTORY in Hge. lia. }
    rewrite (pushHistory_full f old kept s Hh Hge).
    assert (Hheld : forall b, In b (bitmapsOf f ++ flat_map bitmapsOf kept) ->
                              In b (bitmapsOf f) \/ In b (held s)).
    { intros b Hb. apply in_app_or in Hb. destruct Hb as [Hb | Hb]; [left; exact Hb |].
      right. unfold held. rewrite Hh, flat_map_app. apply in_or_app. left. exact Hb. }
    assert (Hold : forall b, In b (bitmapsOf old) -> In b (held s)).
    { intros b Hb. unfold held. rewrite Hh, flat_map_app. apply in_or_app. right.
      cbn [flat_map]. rewrite app_nil_r. exact Hb. }
    unfold bitmapsOf in Hold. unfold close.
    destruct (EyeData.image (FrameHistory.leftEye old)) as [lb |],
             (EyeData.image (FrameHistory.rightEye old)) as [rb |];
      (split; [reflexivity |]); (split; [exact Hheld |]);
      cbn [closed setHistory]; intros b Hb;
      repeat (apply in_app_or in Hb; destruct Hb as [Hb | Hb]);
      try (left; exact Hb);
      right; apply Hold; cbn [In app] in *; tauto.
Qed.

Lemma settle_bitmaps (t : Tick) (e : option Crop.t) (s : Session) :
  let (bmp, s') := settle t e s in
  historyRef s' = historyRef s /\ closed s' = closed s /\
  (created s <= created s')%nat /\
  match bmp with
  | Resolved (Some b) => b = created s /\ created s' = S (created s)
  | _ => created s' = created s
  end.
Proof.
  unfold settle. destruct e as [c |]; [destruct (resolves t c) |];
    cbn [historyRef closed created]; repeat split; lia.
Qed.

Lemma capture_grows (t : Tick) (landmarks : list Point) (s : Session) :
  grows s (capture t landmarks s).
Proof.
  unfold capture.
  destruct (extractEye landmarks LEFT_EYE_INDICES _ _) as [l |]; [| apply grows_refl].
  pose proof (settle_bitmaps t l s) as H1.
  destruct (settle t l s) as [lb s1]. destruct H1 as [Hh1 [Hc1 [Hn1 Hb1]]].
  assert (G1 : grows s s1).
  { unfold grows, held. rewrite Hh1, Hc1.
    repeat split; [exact Hn1 | intros; left; assumption | intros; left; assumption]. }
  destruct (extractEye landmarks RIGHT_EYE_INDICES _ _) as [r |]; [| exact G1].
  pose proof (settle_bitmaps t r s1) as H2.
  destruct (settle t r s1) as [rb s2]. destruct H2 as [Hh2 [Hc2 [Hn2 Hb2]]].
  assert (G2 : grows s s2).
  { unfold grows, held. rewrite Hh2, Hc2, Hh1, Hc1.
    repeat split; [lia | intros; left; assumption | intros; left; assumption]. }
  destruct lb as [[lb |] |]; try exact G2.
  destruct rb as [[rb |] |]; try exact G2.
  destruct Hb1 as [El En1]. destruct Hb2 as [Er En2].
  destruct (pushHistory_bitmaps (newFrame t lb rb) s2) as [P1 [P2 P3]].
  assert (Hheld2 : held s2 = held s) by (unfold held; rewrite Hh2, Hh1; reflexivity).
  unfold grows. rewrite P1. repeat split.
  - lia.
  - intros b Hb. destruct (P2 b Hb) as [H | H].
    + right. cbn [bitmapsOf newFrame FrameHistory.leftEye FrameHistory.rightEye
                  EyeData.image app In] in H. lia.
    + left. rewrite <- Hheld2. exact H.
  - intros b Hb. destruct (P3 b Hb) as [H | H].
    + left. rewrite <- Hc1, <- Hc2. exact H.
    + right. left. rewrite <- Hheld2. exact H.
Qed.

Section Leak.

Variable toString36 : R -> string.

Lemma onResults_grows (t : Tick) (s : Session) :
  grows s (fst (onResults toString36 t s)).
Proof.
  unfold onResults.
  destruct (negb (isMounted t)); [apply grows_refl |].
  destruct (negb (surface t)); [apply grows_refl |].
  destruct (firstFace t) as [landmarks |].
  - destruct (at_ landmarks HEAD_NOSE_INDEX) as [nose |]; [| apply grows_refl].
    destruct (calculateEAR landmarks LEFT_EYE_INDICES) as [l |];
      [| apply grows_same; reflexivity].
    destruct (calculateEAR landmarks RIGHT_EYE_INDICES) as [r |];
      [| apply grows_same; reflexivity].
    match goal with |- context [finish t ?x] =>
      destruct (finish_closed t x) as [Hc [Hn _]];
      pose proof (finish_history t x) as Hh
    end.
    eapply grows_trans; [| apply grows_same; [exact Hh | exact Hc | exact Hn]].
    eapply grows_trans; [| apply capture_grows].
    apply grows_same.
    + rewrite detectBlink_history. reflexivity.
    + match goal with |- context [detectBlink toString36 t l r ?x] =>
        destruct (detectBlink_closed toString36 t l r x) as [H _] end.
      rewrite H. reflexivity.
    + match goal with |- context [detectBlink toString36 t l r ?x] =>
        destruct (detectBlink_closed toString36 t l r x) as [_ H] end.
      rewrite H. reflexivity.
  - match goal with |- context [finish t ?x] =>
      destruct (finish_closed t x) as [Hc [Hn _]];
      pose proof (finish_history t x) as Hh
    end.
    apply grows_same; [rewrite Hh | rewrite Hc | rewrite Hn]; reflexivity.
Qed.

Lemma run_grows (ticks : list Tick) (s : Session) : grows s (run toString36 ticks s).
Proof.
  revert s. induction ticks as [| t ticks IH]; intros s; [apply grows_refl |].
  rewrite run_cons. eapply grows_trans; [apply onResults_grows | apply IH].
Qed.

Lemma initial_tracked (draws : nat -> R) : tracked (initialSession toString36 draws).
Proof. split; constructor. Qed.

Lemma run_tracked (ticks : list Tick) (draws : nat -> R) :
  tracked (run toString36 ticks (initialSession toString36 draws)).
Proof. eapply tracked_grows; [apply initial_tracked | apply run_grows]. Qed.

(** The [try] block when one extraction resolves to a bitmap and the other
    returns [null]: a bitmap is created and nothing else happens. *)
Lemma capture_one_sided (t : Tick) (face : list Point) (c : Crop.t) (s : Session) :
  (extractEye face LEFT_EYE_INDICES (videoWidth t) (videoHeight t) = Normal (Some c) /\
   extractEye face RIGHT_EYE_INDICES (videoWidth t) (videoHeight t) = Normal None) \/
  (extractEye face LEFT_EYE_INDICES (videoWidth t) (videoHeight t) = Normal None /\
   extractEye face RIGHT_EYE_INDICES (videoWidth t) (videoHeight t) = Normal (Some c)) ->
  resolves t c = true ->
  historyRef (capture t face s) = historyRef s /\
  closed (capture t face s) = closed s /\
  created (capture t face s) = S (created s).
Proof.
  intros [[Hl Hr] | [Hl Hr]] Hc; unfold capture; rewrite Hl, Hr; cbn [settle];
    rewrite Hc; repeat split.
Qed.

End Leak.

(** C10. In a tick in which one eye extraction resolves to a bitmap and the
    other returns [null], the history buffer is left as it was and nothing
    is closed; one bitmap has been created, it is not in the history buffer,
    and no later sequence of ticks ever calls [close()] on it. *)
Theorem one_sided_extraction_leaks (toString36 : R -> string) (draws0 : nat -> R)
  (earlier later : list Tick) (t : Tick) (face : list Point) (l r : Number)
  (c : Crop.t) :
  firstFace t = Some face ->
  ears t = Some (l, r) ->
  (extractEye face LEFT_EYE_INDICES (videoWidth t) (videoHeight t) = Normal (Some c) /\
   extractEye face RIGHT_EYE_INDICES (videoWidth t) (videoHeight t) = Normal None) \/
  (extractEye face LEFT_EYE_INDICES (videoWidth t) (videoHeight t) = Normal None /\
   extractEye face RIGHT_EYE_INDICES (videoWidth t) (videoHeight t) = Normal (Some c)) ->
  resolves t c = true ->
  let s := run toString36 earlier (initialSession toString36 draws0) in
  let s' := fst (onResults toString36 t s) in
  let bmp := created s in
  historyRef s' = historyRef s /\
  closed s' = closed s /\
  created s' = S bmp /\
  ~ In bmp (held s') /\
  ~ In bmp (closed (run toString36 later s')) /\
  ~ In bmp (held (run toString36 later s')).
Proof.
  intros Hface Hears Hone Hres s s' bmp.
  assert (Htr : tracked s) by apply run_tracked.
  destruct (onResults_ears toString36 t l r s Hears)
    as [face' [nose [Hface' [_ [_ [_ Hrun]]]]]].
  rewrite Hface in Hface'. inversion Hface'; subst face'.
  assert (Hfields : historyRef s' = historyRef s /\ closed s' = closed s /\
                    created s' = S bmp).
  { subst s' bmp. rewrite Hrun.
    match goal with |- context [finish t ?x] =>
      destruct (finish_closed t x) as [Hc [Hn _]];
      pose proof (finish_history t x) as Hh
    end.
    rewrite Hc, Hh, Hn.
    match goal with |- context [capture t face ?x] =>
      destruct (capture_one_sided t face c x Hone Hres) as [Hh' [Hc' Hn']]
    end.
    rewrite Hh', Hc', Hn', detectBlink_history.
    match goal with |- context [detectBlink toString36 t l r ?x] =>
      destruct (detectBlink_closed toString36 t l r x) as [Hc'' Hn'']
    end.
    rewrite Hc'', Hn''. repeat split. }
  destruct Hfields as [Hh [Hc Hn]].
  assert (Hleak : leaked bmp s').
  { destruct Htr as [T1 T2]. rewrite Forall_forall in T1, T2.
    unfold leaked, held. rewrite Hh, Hc, Hn. repeat split.
    - lia.
    - intros Hb. specialize (T1 bmp Hb). subst bmp. lia.
    - intros Hb. specialize (T2 bmp Hb). subst bmp. lia. }
  pose proof (leaked_grows bmp s' (run toString36 later s') Hleak
                (run_grows toString36 later s')) as [_ [L2 L3]].
  destruct Hleak as [_ [L0 _]].
  repeat split; assumption.
Qed.

Lemma oneEye_left :
  calculateEAR (tabulate oneEye 478) LEFT_EYE_INDICES = Normal (Finite 0.10).
Proof.
  unfold LEFT_EYE_INDICES.
  rewrite (calculateEAR_found _ 33 133 159 145 (oneEye 33) (oneEye 133)
             (oneEye 159) (oneEye 145))
    by (apply nth_error_tabulate; lia).
  cbn [oneEye Nat.eqb]. rewrite distance_vertical, distance_horizontal by lra.
  f_equal. apply divide_finite; lra.
Qed.

Lemma oneEye_right :
  calculateEAR (tabulate oneEye 478) RIGHT_EYE_INDICES = Normal NaN.
Proof.
  unfold RIGHT_EYE_INDICES.
  rewrite (calculateEAR_found _ 362 263 386 374 (oneEye 362) (oneEye 263)
             (oneEye 386) (oneEye 374))
    by (apply nth_error_tabulate; lia).
  cbn [oneEye Nat.eqb]. rewrite !distance_same.
  unfold divide. cmp. reflexivity.
Qed.

Lemma oneEyeTick_ears : ears oneEyeTick = Some (Finite 0.10, NaN).
Proof.
  unfold ears, oneEyeTick, tickWith, HEAD_NOSE_INDEX.
  cbn [isMounted surface andb firstFace multiFaceLandmarks].
  rewrite oneEye_left, oneEye_right, at_tabulate by lia. reflexivity.
Qed.

(** The left eye of the one-eyed face is cropped at (307.2, 277.2) with a
    size of 281.6 by 21.6 pixels. *)
Lemma oneEye_left_crop :
  extractEye (tabulate oneEye 478) LEFT_EYE_INDICES 1280 720 =
    Normal (Some (toPixels (padded (Box.mk 0.30 0.395 0.40 0.405)) 1280 720)).
Proof.
  rewrite (extractEye_selects _ _ [oneEye 33; oneEye 133; oneEye 159; oneEye 145])
    by (repeat constructor; apply nth_error_tabulate; lia).
  cbv zeta.
  assert (Hbox : fold_left include [oneEye 33; oneEye 133; oneEye 159; oneEye 145]
                   (Box.mk 1 1 0 0) = Box.mk 0.30 0.395 0.40 0.405).
  { cbn [fold_left oneEye Nat.eqb]. unfold include, Rgtb.
    cbn [Point.x Point.y Box.minX Box.minY Box.maxX Box.maxY].
    repeat (cmp; cbn [Point.x Point.y Box.minX Box.minY Box.maxX Box.maxY]).
    reflexivity. }
  rewrite Hbox. unfold toPixels, padded.
  cbn [Box.minX Box.minY Box.maxX Box.maxY Crop.sw Crop.sh].
  rewrite !Rmax_right, !Rmin_right by lra. cmp. reflexivity.
Qed.

Lemma oneEye_right_null :
  extractEye (tabulate oneEye 478) RIGHT_EYE_INDICES 1280 720 = Normal None.
Proof.
  rewrite (extractEye_selects _ _ [oneEye 362; oneEye 263; oneEye 386; oneEye 374])
    by (repeat constructor; apply nth_error_tabulate; lia).
  cbv zeta.
  assert (Hbox : fold_left include [oneEye 362; oneEye 263; oneEye 386; oneEye 374]
                   (Box.mk 1 1 0 0) = Box.mk 0.65 0.40 0.65 0.40).
  { cbn [fold_left oneEye Nat.eqb]. unfold include, Rgtb.
    cbn [Point.x Point.y Box.minX Box.minY Box.maxX Box.maxY].
    repeat (cmp; cbn [Point.x Point.y Box.minX Box.minY Box.maxX Box.maxY]).
    reflexivity. }
  rewrite Hbox. unfold toPixels, padded.
  cbn [Box.minX Box.minY Box.maxX Box.maxY Crop.sw Crop.sh].
  rewrite !Rmax_right, !Rmin_right by lra. cmp. reflexivity.
Qed.

(** The one-eyed face on a fresh session, followed by two ticks of the
    closed-eyes face: bitmap 0 is created on the first tick, the history
    stays empty on that tick, and bitmap 0 is never closed. *)
Lemma one_sided_extraction_leaks_witness :
  let s := initialSession sampleToString36 (constantDraws 0.5) in
  let s' := fst (onResults sampleToString36 oneEyeTick s) in
  historyRef s' = [] /\
  closed s' = [] /\
  created s' = 1%nat /\
  ~ In 0%nat (closed (run sampleToString36 [closedEyesTick; closedEyesTick] s')).
Proof.
  intros s s'.
  destruct (one_sided_extraction_leaks sampleToString36 (constantDraws 0.5) []
              [closedEyesTick; closedEyesTick] oneEyeTick (tabulate oneEye 478)
              (Finite 0.10) NaN
              (toPixels (padded (Box.mk 0.30 0.395 0.40 0.405)) 1280 720)
              eq_refl oneEyeTick_ears
              (or_introl (conj oneEye_left_crop oneEye_right_null)) eq_refl)
    as [Hh [Hc [Hn [_ [Hl _]]]]].
  repeat split; assumption.
Defined.

(** ** The eviction is reached *)

Lemma closedEyes_left_crop :
  extractEye (tabulate closedEyes 478) LEFT_EYE_INDICES 1280 720 =
    Normal (Some (toPixels (padded (Box.mk 0.30 0.395 0.40 0.405)) 1280 720)).
Proof.
  rewrite (extractEye_selects _ _
             [closedEyes 33; closedEyes 133; closedEyes 159; closedEyes 145])
    by (repeat constructor; apply nth_error_tabulate; lia).
  cbv zeta.
  assert (Hbox : fold_left include
                   [closedEyes 33; closedEyes 133; closedEyes 159; closedEyes 145]
                   (Box.mk 1 1 0 0) = Box.mk 0.30 0.395 0.40 0.405).
  { cbn [fold_left closedEyes Nat.eqb]. unfold include, Rgtb.
    cbn [Point.x Point.y Box.minX Box.minY Box.maxX Box.maxY].
    repeat (cmp; cbn [Point.x Point.y Box.minX Box.minY Box.maxX Box.maxY]).
    reflexivity. }
  rewrite Hbox. unfold toPixels, padded.
  cbn [Box.minX Box.minY Box.maxX Box.maxY Crop.sw Crop.sh].
  rewrite !Rmax_right, !Rmin_right by lra. cmp. reflexivity.
Qed.

Lemma closedEyes_right_crop :
  extractEye (tabulate closedEyes 478) RIGHT_EYE_INDICES 1280 720 =
    Normal (Some (toPixels (padded (Box.mk 0.60 0.395 0.70 0.405)) 1280 720)).
Proof.
  rewrite (extractEye_selects _ _
             [closedEyes 362; closedEyes 263; closedEyes 386; closedEyes 374])
    by (repeat constructor; apply nth_error_tabulate; lia).
  cbv zeta.
  assert (Hbox : fold_left include
                   [closedEyes 362; closedEyes 263; closedEyes 386; closedEyes 374]
                   (Box.mk 1 1 0 0) = Box.mk 0.60 0.395 0.70 0.405).
  { cbn [fold_left closedEyes Nat.eqb]. unfold include, Rgtb.
    cbn [Point.x Point.y Box.minX Box.minY Box.maxX Box.maxY].
    repeat (cmp; cbn [Point.x Point.y Box.minX Box.minY Box.maxX Box.maxY]).
    reflexivity. }
  rewrite Hbox. unfold toPixels, padded.
  cbn [Box.minX Box.minY Box.maxX Box.maxY Crop.sw Crop.sh].
  rewrite !Rmax_right, !Rmin_right by lra. cmp. reflexivity.
Qed.

Section Eviction.

Variable toString36 : R -> string.

(** A tick of the closed-eyes face creates two bitmaps and pushes them. *)
Lemma closedEyesTick_pushes (s : Session) :
  let s' := fst (onResults toString36 closedEyesTick s) in
  exists s2,
    historyRef s2 = historyRef s /\ closed s2 = closed s /\
    created s2 = S (S (created s)) /\
    historyRef s' =
      historyRef (pushHistory (newFrame closedEyesTick (created s) (S (created s))) s2) /\
    closed s' =
      closed (pushHistory (newFrame closedEyesTick (created s) (S (created s))) s2) /\
    created s' = S (S (created s)).
Proof.
  cbv zeta.
  destruct (onResults_ears toString36 closedEyesTick _ _ s closedEyesTick_ears)
    as [face [nose [Hface [_ [_ [_ Hrun]]]]]].
  inversion Hface; subst face. rewrite Hrun.
  match goal with |- context [finish closedEyesTick ?x] =>
    destruct (finish_closed closedEyesTick x) as [Hc [Hn _]];
    pose proof (finish_history closedEyesTick x) as Hh
  end.
  rewrite Hc, Hh, Hn. clear Hc Hh Hn.
  match goal with |- context [detectBlink toString36 closedEyesTick ?l ?r ?x] =>
    destruct (detectBlink_closed toString36 closedEyesTick l r x) as [Dc Dn];
    pose proof (detectBlink_history toString36 closedEyesTick l r x) as Dh;
    set (s1 := detectBlink toString36 closedEyesTick l r x) in *
  end.
  cbn [setTargetHeadPos historyRef closed created] in Dc, Dn, Dh.
  unfold capture. change (videoWidth closedEyesTick) with 1280.
  change (videoHeight closedEyesTick) with 720.
  rewrite closedEyes_left_crop, closedEyes_right_crop.
  cbn [settle resolves closedEyesTick tickWith historyRef closed created
       sceneParamsRef headPosRef targetHeadPosRef blinkCooldownRef resetFlashRef resets].
  rewrite Dn.
  eexists. split; [| split; [| split; [| split; [reflexivity | split;
    [reflexivity |]]]]].
  - cbn [historyRef]. exact Dh.
  - cbn [closed]. exact Dc.
  - reflexivity.
  - destruct (pushHistory_bitmaps
                (newFrame closedEyesTick (created s) (S (created s)))
                (mkSession (historyRef s1) (sceneParamsRef s1) (headPosRef s1)
                   (targetHeadPosRef s1) (blinkCooldownRef s1) (resetFlashRef s1)
                   (closed s1) (resets s1) (S (S (created s))))) as [P _].
    exact P.
Qed.

(** The first sixty ticks fill the buffer and close nothing. *)
Lemma closedEyes_fill (n : nat) (draws0 : nat -> R) :
  (n <= MAX_HISTORY)%nat ->
  let s := run toString36 (repeat closedEyesTick n) (initialSession toString36 draws0) in
  historyRef s =
    map (fun k => newFrame closedEyesTick (2 * k)%nat (S (2 * k))) (rev (seq 0 n)) /\
  closed s = [] /\ created s = (2 * n)%nat.
Proof.
  induction n as [| n IH]; intros Hn; cbv zeta.
  - repeat split.
  - replace (repeat closedEyesTick (S n)) with (repeat closedEyesTick n ++ [closedEyesTick])
      by (rewrite <- repeat_cons; reflexivity).
    rewrite run_app. cbn [run fold_left].
    fold (run toString36 (repeat closedEyesTick n) (initialSession toString36 draws0)).
    destruct IH as [Ih [Ic In_]]; [lia |].
    set (s := run toString36 (repeat closedEyesTick n) (initialSession toString36 draws0))
      in *.
    destruct (closedEyesTick_pushes s) as [s2 [Hh2 [Hc2 [Hn2 [Hh [Hc Hcr]]]]]].
    rewrite pushHistory_below in Hh, Hc
      by (rewrite Hh2, Ih, length_map, length_rev, length_seq; lia).
    cbn [historyRef closed setHistory] in Hh, Hc.
    rewrite Hh, Hc, Hcr, Hh2, Hc2, Ih, Ic, In_.
    repeat split; [| lia].
    rewrite seq_S, rev_app_distr. cbn [rev app map Nat.add]. reflexivity.
Qed.

End Eviction.

(** Sixty-one ticks of the closed-eyes face: the buffer holds sixty frames,
    the frame of the first tick is gone and exactly its two bitmaps, 0 and 1,
    have been closed. *)
Lemma eviction_after_sixty_one_ticks :
  let s := run sampleToString36 (repeat closedEyesTick 61)
             (initialSession sampleToString36 (constantDraws 0.5)) in
  List.length (historyRef s) = 60%nat /\
  closed s = [0; 1]%nat /\
  ~ In 0%nat (held s) /\ ~ In 1%nat (held s).
Proof.
  cbv zeta.
  replace (repeat closedEyesTick 61) with (repeat closedEyesTick 60 ++ [closedEyesTick])
    by (rewrite <- repeat_cons; reflexivity).
  rewrite run_app. cbn [run fold_left].
  fold (run sampleToString36 (repeat closedEyesTick 60)
          (initialSession sampleToString36 (constantDraws 0.5))).
  destruct (closedEyes_fill sampleToString36 60 (constantDraws 0.5)) as [Ih [Ic In_]];
    [unfold MAX_HISTORY; lia |].
  set (s := run sampleToString36 (repeat closedEyesTick 60)
              (initialSession sampleToString36 (constantDraws 0.5))) in *.
  destruct (closedEyesTick_pushes sampleToString36 s) as [s2 [Hh2 [Hc2 [Hn2 [Hh [Hc Hcr]]]]]].
  assert (Hsplit : historyRef s2 =
            map (fun k => newFrame closedEyesTick (2 * k)%nat (S (2 * k))) (rev (seq 1 59)) ++
            [newFrame closedEyesTick 0%nat 1%nat]).
  { rewrite Hh2, Ih. change (seq 0 60) with (0%nat :: seq 1 59).
    cbn [rev]. rewrite map_app. reflexivity. }
  rewrite (pushHistory_full _ _ _ s2 Hsplit) in Hh, Hc
    by (rewrite Hsplit, length_app, length_map, length_rev, length_seq;
        unfold MAX_HISTORY; cbn; lia).
  cbn [close newFrame FrameHistory.leftEye FrameHistory.rightEye EyeData.image
       historyRef closed setHistory] in Hh, Hc.
  unfold held. rewrite Hh, Hc, Hc2, Ic.
  split; [cbn [List.length]; rewrite length_map, length_rev, length_seq; reflexivity |].
  split; [reflexivity |].
  rewrite In_. cbn [flat_map]. rewrite flat_map_concat_map, map_map.
  split; intros Hin; apply in_app_or in Hin; destruct Hin as [Hin | Hin];
    try (cbn in Hin; lia);
    apply in_concat in Hin; destruct Hin as [l [Hl Hb]];
    apply in_map_iff in Hl; destruct Hl as [k [Hk Hin']];
    apply in_rev, in_seq in Hin'; subst l; cbn in Hb; lia.
Qed.

(** * Further properties *)

(** ** Bitmaps are never used after [close()] *)

Lemma NoDup_app_disjoint {A : Type} (l1 l2 : list A) :
  NoDup (l1 ++ l2) -> forall a, In a l1 -> ~ In a l2.
Proof.
  induction l1 as [| x l1 IH]; intros H a Ha; [contradiction |].
  cbn [app] in H. inversion H as [| ? ? Hx Hrest]; subst.
  destruct Ha as [-> | Ha].
  - intros Hin. apply Hx. apply in_or_app. right. exact Hin.
  - apply IH; assumption.
Qed.

Lemma close_fields (image : option ImageBitmap) (s : Session) :
  historyRef (close image s) = historyRef s /\
  closed (close image s) =
    closed s ++ match image with Some b => [b] | None => [] end /\
  created (close image s) = created s.
Proof.
  destruct image; cbn [close historyRef closed created]; repeat split.
  rewrite app_nil_r. reflexivity.
Qed.

(** The two cases of a push in one shape: the frames kept, and the frames
    evicted (none or one). *)
Lemma pushHistory_shape (f : FrameHistory) (s : Session) :
  exists kept evicted,
    historyRef s = kept ++ evicted /\
    historyRef (pushHistory f s) = f :: kept /\
    closed (pushHistory f s) = closed s ++ flat_map bitmapsOf evicted /\
    created (pushHistory f s) = created s /\
    (List.length (historyRef s) < MAX_HISTORY -> evicted = [])%nat /\
    (MAX_HISTORY <= List.length (historyRef s) -> List.length evicted = 1)%nat.
Proof.
  destruct (Nat.lt_ge_cases (List.length (historyRef s)) MAX_HISTORY) as [Hlt | Hge].
  - exists (historyRef s), []. rewrite pushHistory_below by assumption.
    cbn [historyRef closed created setHistory flat_map]. rewrite !app_nil_r.
    repeat split; trivial. lia.
  - destruct (exists_last (l := historyRef s)) as [kept [old Hh]].
    { intros E. rewrite E in Hge. cbn in Hge. unfold MAX_HISTORY in Hge. lia. }
    exists kept, [old]. rewrite (pushHistory_full f old kept s Hh Hge).
    destruct (close_fields (EyeData.image (FrameHistory.rightEye old))
                (close (EyeData.image (FrameHistory.leftEye old))
                   (setHistory (f :: kept) s))) as [H1 [H2 H3]].
    destruct (close_fields (EyeData.image (FrameHistory.leftEye old))
                (setHistory (f :: kept) s)) as [H4 [H5 H6]].
    rewrite H1, H2, H3, H4, H5, H6. cbn [historyRef closed created setHistory flat_map].
    rewrite app_nil_r. unfold bitmapsOf. rewrite <- app_assoc.
    repeat split; trivial. lia.
Qed.

Lemma sound_same (s s' : Session) :
  historyRef s' = historyRef s -> closed s' = closed s ->
  (created s <= created s')%nat ->
  sound s -> sound s'.
Proof.
  intros Hh Hc Hn [[T1 T2] [N1 [N2 D]]]. unfold sound, tracked, held in *.
  rewrite Hh, Hc. repeat split; try assumption.
  - eapply Forall_impl; [| exact T1]. cbv beta. intros; lia.
  - eapply Forall_impl; [| exact T2]. cbv beta. intros; lia.
Qed.

(** Pushing two fresh bitmaps keeps the accounts. *)
Lemma pushHistory_sound (t : Tick) (lb rb : ImageBitmap) (s0 s : Session) :
  sound s0 ->
  historyRef s = historyRef s0 -> closed s = closed s0 ->
  (created s0 <= lb)%nat -> (lb < rb)%nat -> (rb < created s)%nat ->
  sound (pushHistory (newFrame t lb rb) s).
Proof.
  intros [[T1 T2] [N1 [N2 D]]] Hh Hc Hl Hlr Hr.
  destruct (pushHistory_shape (newFrame t lb rb) s)
    as [kept [evicted [Hs [Hh' [Hc' [Hn' _]]]]]].
  unfold sound, tracked, held in *. rewrite Hh', Hc', Hn', Hc.
  rewrite Hh in Hs. rewrite Hs, flat_map_app in T1, N1, D.
  rewrite Forall_forall in T1, T2.
  assert (Hk : forall b, In b (flat_map bitmapsOf kept) -> (b < created s0)%nat).
  { intros b Hb. apply T1. apply in_or_app. left. exact Hb. }
  assert (He : forall b, In b (flat_map bitmapsOf evicted) -> (b < created s0)%nat).
  { intros b Hb. apply T1. apply in_or_app. right. exact Hb. }
  cbn [flat_map bitmapsOf newFrame FrameHistory.leftEye FrameHistory.rightEye
       EyeData.image app].
  repeat split.
  - apply Forall_forall. intros b [<- | [<- | Hb]]; try lia.
    specialize (Hk b Hb). lia.
  - apply Forall_forall. intros b Hb. apply in_app_or in Hb. destruct Hb as [Hb | Hb].
    + specialize (T2 b Hb). lia.
    + specialize (He b Hb). lia.
  - constructor.
    + intros [E | Hb]; [lia | specialize (Hk lb Hb); lia].
    + constructor.
      * intros Hb. specialize (Hk rb Hb). lia.
      * eapply NoDup_app_remove_r. exact N1.
  - apply NoDup_app; [exact N2 | eapply NoDup_app_remove_l; exact N1 |].
    intros b Hb He'. apply (D b); [apply in_or_app; right; exact He' | exact Hb].
  - intros b [<- | [<- | Hb]] Hin; apply in_app_or in Hin; destruct Hin as [Hin | Hin];
      try (specialize (T2 _ Hin); lia); try (specialize (He _ Hin); lia).
    + apply (D b); [apply in_or_app; left; exact Hb | exact Hin].
    + apply (NoDup_app_disjoint _ _ N1 b Hb Hin).
Qed.

Lemma capture_sound (t : Tick) (landmarks : list Point) (s : Session) :
  sound s -> sound (capture t landmarks s).
Proof.
  intros Hs. unfold capture.
  destruct (extractEye landmarks LEFT_EYE_INDICES _ _) as [l |]; [| exact Hs].
  pose proof (settle_bitmaps t l s) as H1.
  destruct (settle t l s) as [lb s1]. destruct H1 as [Hh1 [Hc1 [Hn1 Hb1]]].
  assert (S1 : sound s1) by (apply (sound_same s); assumption).
  destruct (extractEye landmarks RIGHT_EYE_INDICES _ _) as [r |]; [| exact S1].
  pose proof (settle_bitmaps t r s1) as H2.
  destruct (settle t r s1) as [rb s2]. destruct H2 as [Hh2 [Hc2 [Hn2 Hb2]]].
  assert (S2 : sound s2) by (apply (sound_same s1); assumption).
  destruct lb as [[lb |] |]; try exact S2.
  destruct rb as [[rb |] |]; try exact S2.
  destruct Hb1 as [El En1]. destruct Hb2 as [Er En2].
  apply (pushHistory_sound t lb rb s); try lia; try assumption; congruence.
Qed.

Section Accounts.

Variable toString36 : R -> string.

Lemma onResults_sound (t : Tick) (s : Session) :
  sound s -> sound (fst (onResults toString36 t s)).
Proof.
  intros Hs. unfold onResults.
  destruct (negb (isMounted t)); [exact Hs |].
  destruct (negb (surface t)); [exact Hs |].
  destruct (firstFace t) as [landmarks |].
  - destruct (at_ landmarks HEAD_NOSE_INDEX) as [nose |]; [| exact Hs].
    destruct (calculateEAR landmarks LEFT_EYE_INDICES) as [l |];
      [| apply (sound_same s); trivial].
    destruct (calculateEAR landmarks RIGHT_EYE_INDICES) as [r |];
      [| apply (sound_same s); trivial].
    match goal with |- context [finish t ?x] =>
      destruct (finish_closed t x) as [Hc [Hn _]];
      pose proof (finish_history t x) as Hh;
      apply (sound_same x); [exact Hh | exact Hc | rewrite Hn; lia |]
    end.
    apply capture_sound.
    match goal with |- context [detectBlink toString36 t l r ?x] =>
      destruct (detectBlink_closed toString36 t l r x) as [Dc Dn];
      pose proof (detectBlink_history toString36 t l r x) as Dh
    end.
    apply (sound_same s); [rewrite Dh | rewrite Dc | rewrite Dn |]; trivial.
  - match goal with |- context [finish t ?x] =>
      destruct (finish_closed t x) as [Hc [Hn _]];
      pose proof (finish_history t x) as Hh
    end.
    apply (sound_same s); [rewrite Hh | rewrite Hc | rewrite Hn |]; trivial.
Qed.

Lemma run_sound (ticks : list Tick) (s : Session) :
  sound s -> sound (run toString36 ticks s).
Proof.
  revert s. induction ticks as [| t ticks IH]; intros s Hs; [exact Hs |].
  rewrite run_cons. apply IH, onResults_sound, Hs.
Qed.

Lemma initial_sound (draws : nat -> R) : sound (initialSession toString36 draws).
Proof.
  split; [apply initial_tracked |]. split; [constructor |]. split; [constructor |].
  intros b [].
Qed.

End Accounts.

Lemma held_length (h : list FrameHistory) :
  Forall bothImages h -> List.length (flat_map bitmapsOf h) = (2 * List.length h)%nat.
Proof.
  induction 1 as [| f h [l [r [Hl Hr]]] _ IH]; [reflexivity |].
  cbn [flat_map List.length]. rewrite length_app, IH. unfold bitmapsOf.
  rewrite Hl, Hr. cbn [List.length app]. lia.
Qed.

(** X1. In every session reached from the start, the history buffer holds
    exactly two bitmaps per frame (at most 120), all distinct; no bitmap of
    the buffer has been closed, and no bitmap has been closed twice. *)
Theorem no_use_after_close (toString36 : R -> string) (draws0 : nat -> R)
  (ticks : list Tick) :
  let s := run toString36 ticks (initialSession toString36 draws0) in
  List.length (held s) = (2 * List.length (historyRef s))%nat /\
  (List.length (held s) <= 2 * MAX_HISTORY)%nat /\
  NoDup (held s) /\
  NoDup (closed s) /\
  (forall b, In b (held s) -> ~ In b (closed s)) /\
  (forall b, In b (held s) \/ In b (closed s) -> (b < created s)%nat).
Proof.
  intros s.
  assert (Hs : sound s) by apply run_sound, initial_sound.
  assert (Hb : bounded s) by apply run_bounded, initial_bounded.
  destruct Hs as [[T1 T2] [N1 [N2 D]]]. destruct Hb as [Hlen Hall].
  pose proof (held_length (historyRef s) Hall) as Hl. fold (held s) in Hl.
  repeat split; try assumption.
  - rewrite Hl. lia.
  - rewrite Forall_forall in T1, T2. intros b [Hb | Hb]; auto.
Qed.

(** ** When the history buffer changes *)

Lemma pushHistory_firstn (f : FrameHistory) (s : Session) :
  (List.length (historyRef s) <= MAX_HISTORY)%nat ->
  historyRef (pushHistory f s) = f :: firstn (MAX_HISTORY - 1) (historyRef s).
Proof.
  intros Hlen.
  destruct (pushHistory_shape f s) as [kept [evicted [Hs [Hh [_ [_ [Hlt Hge]]]]]]].
  rewrite Hh. f_equal.
  destruct (Nat.lt_ge_cases (List.length (historyRef s)) MAX_HISTORY) as [H | H].
  - rewrite (Hlt H), app_nil_r in Hs. rewrite firstn_all2 by lia. symmetry. exact Hs.
  - specialize (Hge H). rewrite Hs in Hlen, H |- *. rewrite length_app in Hlen, H.
    rewrite firstn_app, firstn_all2 by lia.
    replace (MAX_HISTORY - 1 - List.length kept)%nat with 0%nat by lia.
    cbn [firstn]. rewrite app_nil_r. reflexivity.
Qed.

Section Push.

Variable toString36 : R -> string.

(** A tick that does not reach the [try] block leaves the bitmaps alone. *)
Lemma onResults_no_ears (t : Tick) (s : Session) :
  ears t = None ->
  historyRef (fst (onResults toString36 t s)) = historyRef s /\
  closed (fst (onResults toString36 t s)) = closed s /\
  created (fst (onResults toString36 t s)) = created s.
Proof.
  unfold ears, onResults.
  destruct (isMounted t); cbn [andb negb]; [| repeat split].
  destruct (surface t); cbn [andb negb]; [| repeat split].
  destruct (firstFace t) as [landmarks |].
  - destruct (at_ landmarks HEAD_NOSE_INDEX) as [nose |]; [| repeat split].
    destruct (calculateEAR landmarks LEFT_EYE_INDICES) as [l |]; [| repeat split].
    destruct (calculateEAR landmarks RIGHT_EYE_INDICES) as [r |]; [| repeat split].
    discriminate.
  - intros _.
    match goal with |- context [finish t ?x] =>
      destruct (finish_closed t x) as [Hc [Hn _]];
      pose proof (finish_history t x) as Hh
    end.
    rewrite Hh, Hc, Hn. repeat split.
Qed.

(** The bitmaps after a tick that reaches the [try] block are those that
    the block leaves. *)
Lemma onResults_capture (t : Tick) (l r : Number) (s : Session) :
  ears t = Some (l, r) ->
  exists face s1,
    firstFace t = Some face /\
    historyRef s1 = historyRef s /\ closed s1 = closed s /\ created s1 = created s /\
    historyRef (fst (onResults toString36 t s)) = historyRef (capture t face s1) /\
    closed (fst (onResults toString36 t s)) = closed (capture t face s1) /\
    created (fst (onResults toString36 t s)) = created (capture t face s1).
Proof.
  intros He.
  destruct (onResults_ears toString36 t l r s He) as [face [nose [Hf [_ [_ [_ Hrun]]]]]].
  rewrite Hrun.
  match goal with |- context [finish t ?x] =>
    destruct (finish_closed t x) as [Hc [Hn _]];
    pose proof (finish_history t x) as Hh
  end.
  rewrite Hh, Hc, Hn.
  match goal with |- context [capture t face ?x] => exists face, x end.
  match goal with |- context [detectBlink toString36 t l r ?x] =>
    destruct (detectBlink_closed toString36 t l r x) as [Dc Dn];
    pose proof (detectBlink_history toString36 t l r x) as Dh
  end.
  repeat split; assumption.
Qed.

End Push.

(** X2. A tick changes the history buffer exactly when it gets both eye
    bitmaps.  Then the new frame, holding the two bitmaps just created, is
    at the front, followed by the 59 newest of the frames stored before;
    otherwise the buffer and the log of closed bitmaps stay as they were and
    at most one bitmap has been created. *)
Theorem history_changes_exactly_on_full_capture (toString36 : R -> string)
  (draws0 : nat -> R) (ticks : list Tick) (t : Tick) :
  let s := run toString36 ticks (initialSession toString36 draws0) in
  let s' := fst (onResults toString36 t s) in
  if pushes t then
    historyRef s' =
      newFrame t (created s) (S (created s))
      :: firstn (MAX_HISTORY - 1) (historyRef s) /\
    created s' = S (S (created s))
  else
    historyRef s' = historyRef s /\ closed s' = closed s /\
    (created s <= created s' <= S (created s))%nat.
Proof.
  intros s s'.
  assert (Hb : bounded s) by apply run_bounded, initial_bounded.
  destruct Hb as [Hlen _].
  unfold pushes. destruct (ears t) as [[l r] |] eqn:He.
  - destruct (onResults_capture toString36 t l r s He)
      as [face [s1 [Hf [Hh1 [Hc1 [Hn1 [Hh [Hc Hn]]]]]]]].
    fold s' in Hh, Hc, Hn. rewrite Hf, Hh, Hc, Hn. clear Hh Hc Hn.
    rewrite <- Hh1, <- Hc1, <- Hn1. rewrite <- Hh1 in Hlen.
    unfold capture.
    destruct (extractEye face LEFT_EYE_INDICES (videoWidth t) (videoHeight t))
      as [[cl |] |];
      destruct (extractEye face RIGHT_EYE_INDICES (videoWidth t) (videoHeight t))
        as [[cr |] |];
      cbn [settle];
      repeat match goal with
             | |- context [resolves t ?c] => destruct (resolves t c)
             end;
      cbn [andb historyRef closed created]; try (repeat split; lia).
    split.
    + rewrite pushHistory_firstn by exact Hlen. reflexivity.
    + destruct (pushHistory_shape (newFrame t (created s1) (S (created s1)))
                  (mkSession (historyRef s1) (sceneParamsRef s1) (headPosRef s1)
                     (targetHeadPosRef s1) (blinkCooldownRef s1) (resetFlashRef s1)
                     (closed s1) (resets s1) (S (S (created s1)))))
        as [kept [evicted [_ [_ [_ [Hn _]]]]]].
      exact Hn.
  - destruct (onResults_no_ears toString36 t s He) as [Hh [Hc Hn]].
    fold s' in Hh, Hc, Hn. rewrite Hh, Hc, Hn. repeat split; lia.
Qed.

(** ** What a rendered frame shows *)

Lemma placeShapes_empty (head : Point) (width height : R) (shapes : list GeometricFrame) :
  placeShapes [] head width height shapes = [].
Proof.
  induction shapes as [| shape rest IH]; [reflexivity |].
  cbn [placeShapes]. unfold placeShape. rewrite frameData_empty. exact IH.
Qed.

Lemma placeShapes_all (history : list FrameHistory) (head : Point) (width height : R)
  (shapes : list GeometricFrame) :
  history <> [] ->
  Forall (fun shape => (0 <= GeometricFrame.delayFrames shape)%Z) shapes ->
  map RenderedShape.shape (placeShapes history head width height shapes) = shapes.
Proof.
  intros Hne Hall. induction Hall as [| shape rest Hd _ IH]; [reflexivity |].
  cbn [placeShapes]. unfold placeShape at 1.
  destruct (frameData_nonempty history _ Hd Hne) as [frame [_ Hf]]. rewrite Hf.
  cbn [map RenderedShape.shape]. rewrite IH. reflexivity.
Qed.

(** With a bitmap for each eye in every frame, stage 4 draws every placed
    shape, with a bitmap of the buffer. *)
Lemma drawShapes_all (history : list FrameHistory) (head : Point) (width height : R)
  (shapes : list GeometricFrame) :
  Forall bothImages history ->
  exists drawn,
    drawShapes history (placeShapes history head width height shapes) = Normal drawn /\
    map fst drawn = placeShapes history head width height shapes /\
    Forall (fun d => In (snd d) (flat_map bitmapsOf history)) drawn.
Proof.
  intros Hboth. induction shapes as [| shape rest [drawn [IH1 [IH2 IH3]]]].
  - exists []. repeat split. constructor.
  - cbn [placeShapes].
    destruct (placeShape history head width height shape) as [item |] eqn:E;
      [| exists drawn; repeat split; assumption].
    destruct (eyeImg_of_placed _ _ _ _ _ _ E) as [_ [frame [Hfd Himg]]].
    assert (Hin : In frame history).
    { rewrite frameData_index in Hfd. unfold index in Hfd.
      destruct (historyIndex history (GeometricFrame.delayFrames shape) <? 0)%Z;
        [discriminate |].
      eapply nth_error_In. exact Hfd. }
    rewrite Forall_forall in Hboth. destruct (Hboth frame Hin) as [l [r [Hl Hr]]].
    assert (Hbits : forall b, In b (bitmapsOf frame) -> In b (flat_map bitmapsOf history)).
    { intros b Hb. apply in_flat_map. exists frame. split; assumption. }
    cbn [drawShapes]. rewrite Himg, IH1. cbn [bindC].
    destruct (useLeftEye (GeometricFrame.id shape)).
    + rewrite Hl. eexists. split; [reflexivity |]. cbn [map fst]. rewrite IH2.
      split; [reflexivity |]. constructor; [| exact IH3].
      apply Hbits. unfold bitmapsOf. rewrite Hl. left. reflexivity.
    + rewrite Hr. eexists. split; [reflexivity |]. cbn [map fst]. rewrite IH2.
      split; [reflexivity |]. constructor; [| exact IH3].
      apply Hbits. unfold bitmapsOf. rewrite Hr. apply in_or_app. right. left. reflexivity.
Qed.

(** The frame that the end of a tick renders. *)
Lemma finish_frame (t : Tick) (s : Session) (frame : Composite.t) :
  snd (finish t s) = Some frame ->
  let s' := fst (finish t s) in
  historyRef s' = historyRef s /\ closed s' = closed s /\
  sceneParamsRef s' = sceneParamsRef s /\
  Composite.flash frame = resetFlashRef s /\
  Composite.placed frame =
    placeShapes (historyRef s) (headPosRef s') (canvasWidth t) (canvasHeight t)
      (SceneParams.shapes (sceneParamsRef s)) /\
  drawShapes (historyRef s) (Composite.placed frame) = Normal (Composite.drawn frame).
Proof.
  unfold finish. cbv zeta.
  match goal with |- context [renderScene ?w ?h ?x] =>
    unfold renderScene; set (s2 := x)
  end.
  destruct (drawShapes (historyRef s2) _) as [drawn |] eqn:E; cbn [bindC fst snd];
    [| discriminate].
  intros H. inversion H; subst frame; clear H.
  cbn [Composite.flash Composite.placed Composite.drawn historyRef closed
       sceneParamsRef headPosRef setResetFlash].
  subst s2.
  destruct (0 <? blinkCooldownRef s)%Z;
    cbn [historyRef closed sceneParamsRef headPosRef resetFlashRef setHeadPos
         setBlinkCooldown] in *; repeat split; exact E.
Qed.

Section Frames2.

Variable toString36 : R -> string.

(** A tick that renders a frame went through [finish]. *)
Lemma onResults_frame (t : Tick) (s : Session) (frame : Composite.t) :
  snd (onResults toString36 t s) = Some frame ->
  exists x, onResults toString36 t s = finish t x.
Proof.
  unfold onResults.
  destruct (negb (isMounted t)); [discriminate |].
  destruct (negb (surface t)); [discriminate |].
  destruct (firstFace t) as [landmarks |]; [| eexists; reflexivity].
  destruct (at_ landmarks HEAD_NOSE_INDEX) as [nose |]; [| discriminate].
  destruct (calculateEAR landmarks LEFT_EYE_INDICES) as [l |]; [| discriminate].
  destruct (calculateEAR landmarks RIGHT_EYE_INDICES) as [r |]; [| discriminate].
  eexists. reflexivity.
Qed.

(** The scene of a session is the old one or one generated in the tick. *)
Lemma onResults_scene (t : Tick) (s : Session) :
  sceneParamsRef (fst (onResults toString36 t s)) = sceneParamsRef s \/
  sceneParamsRef (fst (onResults toString36 t s)) =
    fst (generateNewScene toString36 (draws t) 0%nat).
Proof.
  unfold onResults.
  destruct (negb (isMounted t)); [left; reflexivity |].
  destruct (negb (surface t)); [left; reflexivity |].
  destruct (firstFace t) as [landmarks |].
  - destruct (at_ landmarks HEAD_NOSE_INDEX) as [nose |]; [| left; reflexivity].
    destruct (calculateEAR landmarks LEFT_EYE_INDICES) as [l |]; [| left; reflexivity].
    destruct (calculateEAR landmarks RIGHT_EYE_INDICES) as [r |]; [| left; reflexivity].
    match goal with |- context [finish t ?x] => pose proof (finish_control t x) as Hf end.
    match type of Hf with context [capture t landmarks ?x] =>
      pose proof (capture_control t landmarks x) as Hc end.
    apply control_eq in Hc. destruct Hc as [_ [_ [_ [Hc4 _]]]].
    unfold control in Hf. apply pair_equal_spec in Hf. destruct Hf as [Hf _].
    apply pair_equal_spec in Hf. destruct Hf as [Hf _].
    apply pair_equal_spec in Hf. destruct Hf as [_ H4].
    rewrite H4, Hc4. unfold detectBlink.
    destruct (lessThan l BLINK_THRESHOLD && lessThan r BLINK_THRESHOLD);
      [destruct (blinkCooldownRef _ <=? 0)%Z |]; [right | left | left]; reflexivity.
  - match goal with |- context [finish t ?x] => pose proof (finish_control t x) as Hf end.
    unfold control in Hf. apply pair_equal_spec in Hf. destruct Hf as [Hf _].
    apply pair_equal_spec in Hf. destruct Hf as [Hf _].
    apply pair_equal_spec in Hf. destruct Hf as [_ H4].
    rewrite H4. left. reflexivity.
Qed.

Lemma run_scene_delayed (draws0 : nat -> R) (ticks : list Tick) :
  unitDraws draws0 -> Forall (fun t => unitDraws (draws t)) ticks ->
  Forall delayed
    (SceneParams.shapes
       (sceneParamsRef (run toString36 ticks (initialSession toString36 draws0)))).
Proof.
  intros H0 Hall.
  assert (Hgen : forall s, Forall delayed (SceneParams.shapes (sceneParamsRef s)) ->
                 Forall delayed
                   (SceneParams.shapes (sceneParamsRef (run toString36 ticks s)))).
  { induction Hall as [| t ticks Ht _ IH]; intros s Hs; [exact Hs |].
    rewrite run_cons. apply IH.
    destruct (onResults_scene t s) as [E | E]; rewrite E; [exact Hs |].
    destruct (generateNewScene_shapes toString36 (draws t) Ht 0) as [_ [? [? [_ [_ [_ H]]]]]].
    exact H. }
  apply Hgen. cbn [initialSession sceneParamsRef].
  destruct (generateNewScene_shapes toString36 draws0 H0 0) as [_ [? [? [_ [_ [_ H]]]]]].
  exact H.
Qed.

End Frames2.

(** X3. With draws in [0,1), the frame that a tick renders shows the scene
    in full as soon as the history buffer holds one frame: every shape of
    the scene is placed, in scene order, every placed shape is drawn, and
    every bitmap drawn is one the buffer holds and has not been closed.
    While the buffer is empty nothing is placed and nothing is drawn. *)
Theorem frame_draws_every_shape (toString36 : R -> string) (draws0 : nat -> R)
  (ticks : list Tick) (t : Tick) (frame : Composite.t) :
  unitDraws draws0 ->
  Forall (fun t => unitDraws (draws t)) (ticks ++ [t]) ->
  let s := run toString36 ticks (initialSession toString36 draws0) in
  let s' := fst (onResults toString36 t s) in
  snd (onResults toString36 t s) = Some frame ->
  match historyRef s' with
  | [] => Composite.placed frame = [] /\ Composite.drawn frame = []
  | _ :: _ =>
      map RenderedShape.shape (Composite.placed frame) =
        SceneParams.shapes (sceneParamsRef s') /\
      map fst (Composite.drawn frame) = Composite.placed frame /\
      Forall (fun d => In (snd d) (held s') /\ ~ In (snd d) (closed s'))
        (Composite.drawn frame)
  end.
Proof.
  intros H0 Hall s s' Hframe.
  assert (Hreach : s' = run toString36 (ticks ++ [t]) (initialSession toString36 draws0)).
  { rewrite run_app. reflexivity. }
  assert (Hb : bounded s') by (rewrite Hreach; apply run_bounded, initial_bounded).
  assert (Hs : sound s') by (rewrite Hreach; apply run_sound, initial_sound).
  assert (Hd : Forall delayed (SceneParams.shapes (sceneParamsRef s')))
    by (rewrite Hreach; apply run_scene_delayed; assumption).
  destruct (onResults_frame toString36 t s frame Hframe) as [x Hx].
  unfold s' in *. rewrite Hx in *. clear Hx.
  destruct (finish_frame t x frame Hframe) as [Hh [Hc [Hsc [_ [Hp Hdr]]]]].
  set (y := fst (finish t x)) in *.
  destruct Hb as [_ Hboth]. destruct Hs as [_ [_ [_ Hdisj]]].
  rewrite <- Hh, <- Hsc in Hp. rewrite <- Hh in Hdr.
  destruct (historyRef y) as [| f0 h] eqn:Ey.
  - rewrite placeShapes_empty in Hp. rewrite Hp in Hdr. cbn in Hdr.
    inversion Hdr. split; [exact Hp | reflexivity].
  - rewrite <- Ey in *. assert (Hne : historyRef y <> []) by (rewrite Ey; discriminate).
    destruct (drawShapes_all (historyRef y) (headPosRef y) (canvasWidth t)
                (canvasHeight t) (SceneParams.shapes (sceneParamsRef y)) Hboth)
      as [drawn [D1 [D2 D3]]].
    rewrite <- Hp in D1, D2. rewrite Hdr in D1. inversion D1; subst drawn.
    split; [| split].
    + rewrite Hp. apply placeShapes_all; [exact Hne |].
      eapply Forall_impl; [| exact Hd]. intros shape [[H _] _]. lia.
    + exact D2.
    + eapply Forall_impl; [| exact D3]. intros d Hin. split; [exact Hin |].
      apply Hdisj. exact Hin.
Qed.

Lemma closedEyesTick_renders (toString36 : R -> string) (s : Session) :
  (exists frame, snd (onResults toString36 closedEyesTick s) = Some frame) /\
  historyRef (fst (onResults toString36 closedEyesTick s)) <> [].
Proof.
  split.
  - destruct (onResults_ears toString36 closedEyesTick _ _ s closedEyesTick_ears)
      as [face [nose [_ [_ [_ [_ Hrun]]]]]].
    rewrite Hrun.
    match goal with |- context [finish closedEyesTick ?x] =>
      destruct (finish_closed closedEyesTick x) as [_ [_ Hf]]
    end.
    exact Hf.
  - destruct (closedEyesTick_pushes toString36 s) as [s2 [_ [_ [_ [Hh _]]]]].
    rewrite Hh.
    destruct (pushHistory_shape
                (newFrame closedEyesTick (created s) (S (created s))) s2)
      as [kept [evicted [_ [Hk _]]]].
    rewrite Hk. discriminate.
Qed.

(** The first tick of the closed-eyes face on a fresh session: the frame
    shows every shape of the scene. *)
Lemma frame_draws_every_shape_witness :
  let s := initialSession sampleToString36 (constantDraws 0.5) in
  let s' := fst (onResults sampleToString36 closedEyesTick s) in
  exists frame,
    snd (onResults sampleToString36 closedEyesTick s) = Some frame /\
    map RenderedShape.shape (Composite.placed frame) =
      SceneParams.shapes (sceneParamsRef s') /\
    map fst (Composite.drawn frame) = Composite.placed frame.
Proof.
  intros s s'.
  destruct (closedEyesTick_renders sampleToString36 s) as [[frame Hf] Hne].
  exists frame. split; [exact Hf |].
  pose proof (frame_draws_every_shape sampleToString36 (constantDraws 0.5) []
                closedEyesTick frame constantDraws_unit
                (Forall_cons closedEyesTick constantDraws_unit (Forall_nil _)) Hf) as H.
  cbv zeta in H. cbn [run fold_left] in H. fold s in H. fold s' in H.
  destruct (historyRef s') as [| f0 h] eqn:E; [exfalso; apply Hne; exact E |].
  destruct H as [H1 [H2 _]]. split; assumption.
Defined.

(** ** When the scene is reset *)

Lemma finish_fields (t : Tick) (x : Session) :
  blinkCooldownRef (fst (finish t x)) =
    (if 0 <? blinkCooldownRef x then blinkCooldownRef x - 1 else blinkCooldownRef x)%Z /\
  resetFlashRef (fst (finish t x)) = decayFlash (resetFlashRef x) /\
  resets (fst (finish t x)) = resets x /\
  sceneParamsRef (fst (finish t x)) = sceneParamsRef x.
Proof.
  pose proof (finish_control t x) as Hf. unfold control in Hf.
  apply pair_equal_spec in Hf. destruct Hf as [Hf _].
  apply pair_equal_spec in Hf. destruct Hf as [Hf _].
  apply pair_equal_spec in Hf. destruct Hf as [Hf H4].
  apply pair_equal_spec in Hf. destruct Hf as [Hf H3].
  apply pair_equal_spec in Hf. destruct Hf as [H1 H2].
  repeat split; assumption.
Qed.

Section Resets.

Variable toString36 : R -> string.

Lemma blinks_completes (t : Tick) : blinks t = true -> completes t = true.
Proof.
  unfold blinks, completes, ears, targetOf.
  destruct (isMounted t && surface t); [| discriminate].
  destruct (firstFace t) as [landmarks |]; [| discriminate].
  destruct (at_ landmarks HEAD_NOSE_INDEX); [| discriminate].
  destruct (calculateEAR landmarks LEFT_EYE_INDICES); [| discriminate].
  destruct (calculateEAR landmarks RIGHT_EYE_INDICES); [| discriminate].
  reflexivity.
Qed.

(** Cooldown, flash, reset count and scene after any tick. *)
Lemma onResults_blink_state (t : Tick) (s : Session) :
  let s' := fst (onResults toString36 t s) in
  if completes t then
    blinkCooldownRef s' =
      (let c1 := if fires t s then 25 else blinkCooldownRef s in
       if 0 <? c1 then c1 - 1 else c1)%Z /\
    resetFlashRef s' = decayFlash (if fires t s then 1 else resetFlashRef s) /\
    resets s' = (if fires t s then S (resets s) else resets s) /\
    sceneParamsRef s' =
      (if fires t s then fst (generateNewScene toString36 (draws t) 0%nat)
       else sceneParamsRef s)
  else
    blinkCooldownRef s' = blinkCooldownRef s /\ resetFlashRef s' = resetFlashRef s /\
    resets s' = resets s /\ sceneParamsRef s' = sceneParamsRef s.
Proof.
  cbv zeta. unfold completes, fires, blinks, ears, targetOf, onResults.
  destruct (isMounted t); cbn [andb negb]; [| repeat split].
  destruct (surface t); cbn [andb negb]; [| repeat split].
  destruct (firstFace t) as [landmarks |].
  - destruct (at_ landmarks HEAD_NOSE_INDEX) as [nose |]; [| repeat split].
    destruct (calculateEAR landmarks LEFT_EYE_INDICES) as [l |]; [| repeat split].
    destruct (calculateEAR landmarks RIGHT_EYE_INDICES) as [r |]; [| repeat split].
    match goal with |- context [finish t ?x] =>
      destruct (finish_fields t x) as [H1 [H2 [H3 H4]]];
      match x with context [capture t landmarks ?y] =>
        pose proof (capture_control t landmarks y) as Hc
      end
    end.
    apply control_eq in Hc. destruct Hc as [Hc1 [Hc2 [Hc3 [Hc4 _]]]].
    rewrite Hc1, Hc2, Hc3, Hc4 in *. clear Hc1 Hc2 Hc3 Hc4.
    rewrite H1, H2, H3, H4. clear H1 H2 H3 H4.
    unfold detectBlink.
    destruct (lessThan l BLINK_THRESHOLD && lessThan r BLINK_THRESHOLD);
      cbn [andb setTargetHeadPos blinkCooldownRef resets resetFlashRef sceneParamsRef];
      [| repeat split].
    destruct (blinkCooldownRef s <=? 0)%Z;
      cbn [resetScene setBlinkCooldown setTargetHeadPos blinkCooldownRef resets
           resetFlashRef sceneParamsRef];
      repeat split.
    f_equal. lra.
  - match goal with |- context [finish t ?x] =>
      destruct (finish_fields t x) as [H1 [H2 [H3 H4]]]
    end.
    rewrite H1, H2, H3, H4.
    cbn [andb setTargetHeadPos blinkCooldownRef resets resetFlashRef sceneParamsRef].
    repeat split.
Qed.

End Resets.

(** X4. A tick resets the scene exactly when both eye aspect ratios are
    below the threshold and the cooldown has run out.  Such a tick installs
    the scene generated from its draws, counts one reset, and ends with a
    cooldown of 24 and a flash of 0.85; every other tick keeps the scene and
    the reset count. *)
Theorem reset_exactly_on_blink_without_cooldown (toString36 : R -> string)
  (t : Tick) (s : Session) :
  let s' := fst (onResults toString36 t s) in
  if blinks t && (blinkCooldownRef s <=? 0)%Z then
    resets s' = S (resets s) /\
    sceneParamsRef s' = fst (generateNewScene toString36 (draws t) 0%nat) /\
    blinkCooldownRef s' = 24%Z /\
    resetFlashRef s' = 0.85
  else
    resets s' = resets s /\ sceneParamsRef s' = sceneParamsRef s.
Proof.
  intros s'. pose proof (onResults_blink_state toString36 t s) as H.
  cbv zeta in H. fold s' in H. unfold fires in H.
  destruct (blinks t) eqn:Hb.
  - rewrite (blinks_completes t Hb) in H. cbn [andb] in *.
    destruct (blinkCooldownRef s <=? 0)%Z.
    + destruct H as [H1 [H2 [H3 H4]]]. cbn in H1.
      repeat split; try assumption.
      rewrite H2. rewrite decayFlash_above by lra. lra.
    + tauto.
  - cbn [andb] in *. destruct (completes t); tauto.
Qed.

Section Rate.

Variable toString36 : R -> string.

(** One tick raises 25 * resets - cooldown by at most one. *)
Lemma onResults_potential (t : Tick) (s : Session) :
  (0 <= blinkCooldownRef s <= 24)%Z ->
  let s' := fst (onResults toString36 t s) in
  (0 <= blinkCooldownRef s' <= 24)%Z /\
  (resets s <= resets s')%nat /\
  (25 * Z.of_nat (resets s') - blinkCooldownRef s' <=
   25 * Z.of_nat (resets s) - blinkCooldownRef s + 1)%Z.
Proof.
  intros Hc s'. pose proof (onResults_blink_state toString36 t s) as H.
  cbv zeta in H. fold s' in H.
  destruct (completes t).
  - destruct H as [H1 [_ [H3 _]]]. rewrite H1, H3. unfold fires.
    destruct (blinks t); cbn [andb].
    + destruct (Z.leb_spec (blinkCooldownRef s) 0).
      * cbv zeta. change (0 <? 25)%Z with true. cbv iota. lia.
      * destruct (Z.ltb_spec 0 (blinkCooldownRef s)); lia.
    + destruct (Z.ltb_spec 0 (blinkCooldownRef s)); lia.
  - destruct H as [H1 [_ [H3 _]]]. rewrite H1, H3. lia.
Qed.

Lemma run_potential (ticks : list Tick) (s : Session) :
  (0 <= blinkCooldownRef s <= 24)%Z ->
  let s' := run toString36 ticks s in
  (0 <= blinkCooldownRef s' <= 24)%Z /\
  (resets s <= resets s')%nat /\
  (25 * Z.of_nat (resets s') - blinkCooldownRef s' <=
   25 * Z.of_nat (resets s) - blinkCooldownRef s + Z.of_nat (List.length ticks))%Z.
Proof.
  revert s. induction ticks as [| t ticks IH]; intros s Hc; cbv zeta.
  - cbn [run fold_left List.length]. lia.
  - rewrite run_cons.
    destruct (onResults_potential t s Hc) as [H1 [H2 H3]].
    destruct (IH _ H1) as [I1 [I2 I3]]. cbn [List.length]. lia.
Qed.

Lemma pow_085_antitone (m n : nat) : (m <= n)%nat -> 0.85 ^ n <= 0.85 ^ m.
Proof.
  induction 1 as [| n _ IH]; [lra |].
  cbn [pow]. assert (0 < 0.85 ^ n) by (apply pow_lt; lra). nra.
Qed.

(** While the cooldown runs, completed ticks only count down and fade. *)
Lemma run_window (window : list Tick) (s : Session) (j : nat) :
  Forall (fun t => completes t = true) window ->
  (j + List.length window <= 24)%nat ->
  blinkCooldownRef s = (24 - Z.of_nat j)%Z ->
  resetFlashRef s = 0.85 ^ S j ->
  let s' := run toString36 window s in
  resets s' = resets s /\
  sceneParamsRef s' = sceneParamsRef s /\
  blinkCooldownRef s' = (24 - Z.of_nat (j + List.length window))%Z /\
  resetFlashRef s' = 0.85 ^ S (j + List.length window).
Proof.
  intros Hall. revert s j. induction Hall as [| t window Ht _ IH];
    intros s j Hlen Hc Hf; cbv zeta.
  - cbn [run fold_left List.length]. rewrite Nat.add_0_r. repeat split; assumption.
  - cbn [List.length] in Hlen |- *. rewrite run_cons.
    pose proof (onResults_blink_state toString36 t s) as H. cbv zeta in H.
    rewrite Ht in H. unfold fires in H.
    replace (blinkCooldownRef s <=? 0)%Z with false in H
      by (symmetry; apply Z.leb_gt; lia).
    rewrite andb_false_r in H. destruct H as [H1 [H2 [H3 H4]]].
    replace (0 <? blinkCooldownRef s)%Z with true in H1
      by (symmetry; apply Z.ltb_lt; lia).
    assert (Hbig : 0.001 < 0.85 ^ S j).
    { apply Rlt_le_trans with (0.85 ^ 42); [apply pow_085_42 |].
      apply pow_085_antitone. lia. }
    rewrite Hf, decayFlash_above in H2 by exact Hbig.
    destruct (IH (fst (onResults toString36 t s)) (S j)) as [I1 [I2 [I3 I4]]].
    + lia.
    + rewrite H1, Hc. lia.
    + rewrite H2. cbn [pow]. ring.
    + rewrite I1, I2, I3, I4, H3, H4.
      replace (S j + List.length window)%nat with (j + S (List.length window))%nat by lia.
      repeat split.
Qed.

End Rate.

(** X5. Resets cannot come faster than one per 25 ticks, whatever the
    tracker sends: over any sequence of ticks from a cooldown between 0 and
    24, the quantity 25 * resets - cooldown grows by at most the number of
    ticks, the cooldown stays between 0 and 24, and the reset count never
    goes down. *)
Theorem reset_rate_bounded (toString36 : R -> string) (ticks : list Tick)
  (s : Session) :
  (0 <= blinkCooldownRef s <= 24)%Z ->
  let s' := run toString36 ticks s in
  (resets s <= resets s')%nat /\
  (0 <= blinkCooldownRef s' <= 24)%Z /\
  (25 * (Z.of_nat (resets s') - Z.of_nat (resets s)) <=
   Z.of_nat (List.length ticks) + blinkCooldownRef s' - blinkCooldownRef s)%Z /\
  (25 * (Z.of_nat (resets s') - Z.of_nat (resets s)) <=
   Z.of_nat (List.length ticks) + 24)%Z.
Proof.
  intros Hc s'.
  destruct (run_potential toString36 ticks s Hc) as [H1 [H2 H3]]. fold s' in H1, H2, H3.
  repeat split; lia.
Qed.

(** Thirty ticks of the closed-eyes face from a fresh session: at most two
    resets. *)
Lemma reset_rate_bounded_witness :
  let s := initialSession sampleToString36 (constantDraws 0.5) in
  let s' := run sampleToString36 (repeat closedEyesTick 30) s in
  (25 * (Z.of_nat (resets s') - Z.of_nat (resets s)) <= 30 + 24)%Z.
Proof.
  intros s s'.
  destruct (reset_rate_bounded sampleToString36 (repeat closedEyesTick 30) s)
    as [_ [_ [_ H]]].
  - cbn. lia.
  - rewrite repeat_length in H. exact H.
Defined.

(** X6. In every session reached from the start the cooldown is between 0
    and 24 and the reset flash between 0 and 0.85. *)
Theorem cooldown_and_flash_stay_in_range (toString36 : R -> string)
  (draws0 : nat -> R) (ticks : list Tick) :
  let s := run toString36 ticks (initialSession toString36 draws0) in
  (0 <= blinkCooldownRef s <= 24)%Z /\ 0 <= resetFlashRef s <= 0.85.
Proof.
  cbv zeta. split.
  - destruct (run_potential toString36 ticks (initialSession toString36 draws0))
      as [H _]; [cbn; lia | exact H].
  - assert (Hgen : forall s, 0 <= resetFlashRef s <= 0.85 ->
                   0 <= resetFlashRef (run toString36 ticks s) <= 0.85).
    { induction ticks as [| t ticks IH]; intros s Hs; [exact Hs |].
      rewrite run_cons. apply IH.
      pose proof (onResults_blink_state toString36 t s) as H. cbv zeta in H.
      destruct (completes t).
      - destruct H as [_ [H2 _]]. rewrite H2.
        destruct (fires t s).
        + rewrite decayFlash_above by lra. lra.
        + pose proof (decayFlash_le (resetFlashRef s)). lra.
      - destruct H as [_ [H2 _]]. rewrite H2. exact Hs. }
    apply Hgen. cbn [initialSession resetFlashRef]. lra.
Qed.

(** X7. After a reset the cooldown shields the scene for the next 24
    completed ticks, whatever the eyes do: over up to 24 such ticks there is
    no further reset, the scene stays the one generated by the reset, the
    cooldown after k of them is 24 - k and the flash is 0.85^(k+1). *)
Theorem cooldown_window (toString36 : R -> string) (t0 : Tick) (window : list Tick)
  (s : Session) :
  blinks t0 = true ->
  (blinkCooldownRef s <= 0)%Z ->
  Forall (fun t => completes t = true) window ->
  (List.length window <= 24)%nat ->
  let s' := run toString36 (t0 :: window) s in
  resets s' = S (resets s) /\
  sceneParamsRef s' = fst (generateNewScene toString36 (draws t0) 0%nat) /\
  blinkCooldownRef s' = (24 - Z.of_nat (List.length window))%Z /\
  resetFlashRef s' = 0.85 ^ S (List.length window).
Proof.
  intros Hb Hc Hall Hlen s'. subst s'. rewrite run_cons.
  pose proof (onResults_blink_state toString36 t0 s) as H. cbv zeta in H.
  rewrite (blinks_completes t0 Hb) in H. unfold fires in H. rewrite Hb in H.
  replace (blinkCooldownRef s <=? 0)%Z with true in H
    by (symmetry; apply Z.leb_le; exact Hc).
  cbn [andb] in H. destruct H as [H1 [H2 [H3 H4]]]. cbn in H1.
  rewrite decayFlash_above in H2 by lra.
  destruct (run_window toString36 window (fst (onResults toString36 t0 s)) 0 Hall)
    as [I1 [I2 [I3 I4]]].
  - lia.
  - rewrite H1. reflexivity.
  - rewrite H2. cbn [pow]. lra.
  - cbn [Nat.add] in I3, I4. rewrite I1, I2, I3, I4, H3, H4. repeat split.
Qed.

Lemma noFaceTick_completes : completes noFaceTick = true.
Proof. reflexivity. Qed.

(** A blink followed by three ticks without a face. *)
Lemma cooldown_window_witness :
  let s := initialSession sampleToString36 (constantDraws 0.5) in
  let s' := run sampleToString36 [closedEyesTick; noFaceTick; noFaceTick; noFaceTick] s in
  resets s' = 1%nat /\ blinkCooldownRef s' = 21%Z /\ resetFlashRef s' = 0.85 ^ 4.
Proof.
  intros s s'.
  destruct (cooldown_window sampleToString36 closedEyesTick
              [noFaceTick; noFaceTick; noFaceTick] s closedEyesTick_blinks)
    as [H1 [_ [H3 H4]]].
  - cbn. lia.
  - repeat constructor.
  - cbn. lia.
  - repeat split; assumption.
Defined.

(** ** The head position stays on the canvas *)

Lemma lerp_unit (a b : R) : 0 <= a <= 1 -> 0 <= b <= 1 -> 0 <= lerp a b 0.08 <= 1.
Proof. unfold lerp. intros Ha Hb. lra. Qed.

Lemma finish_head (t : Tick) (x : Session) :
  headPosRef (fst (finish t x)) =
    Point.mk (lerp (Point.x (headPosRef x)) (Point.x (targetHeadPosRef x)) 0.08)
             (lerp (Point.y (headPosRef x)) (Point.y (targetHeadPosRef x)) 0.08) /\
  targetHeadPosRef (fst (finish t x)) = targetHeadPosRef x.
Proof.
  pose proof (finish_control t x) as Hf. unfold control in Hf.
  apply pair_equal_spec in Hf. destruct Hf as [Hf H6].
  apply pair_equal_spec in Hf. destruct Hf as [_ H5].
  split; assumption.
Qed.

Section Head.

Variable toString36 : R -> string.

Lemma onResults_unit (t : Tick) (s : Session) :
  inUnit (headPosRef s) -> inUnit (targetHeadPosRef s) -> noseInUnit t ->
  inUnit (headPosRef (fst (onResults toString36 t s))) /\
  inUnit (targetHeadPosRef (fst (onResults toString36 t s))).
Proof.
  intros Hh Ht Hn. unfold noseInUnit, noseOf in Hn. unfold onResults.
  destruct (negb (isMounted t)); [split; assumption |].
  destruct (negb (surface t)); [split; assumption |].
  destruct (firstFace t) as [landmarks |].
  - unfold at_. destruct (nth_error landmarks HEAD_NOSE_INDEX) as [nose |];
      [| split; assumption].
    assert (Hm : inUnit (Point.mk (1 - Point.x nose) (Point.y nose))).
    { destruct Hn as [Hx Hy]. split; cbn [Point.x Point.y]; lra. }
    destruct (calculateEAR landmarks LEFT_EYE_INDICES) as [l |]; [| split; assumption].
    destruct (calculateEAR landmarks RIGHT_EYE_INDICES) as [r |]; [| split; assumption].
    match goal with |- context [finish t ?x] =>
      destruct (finish_head t x) as [F1 F2];
      match x with context [capture t landmarks ?y] =>
        pose proof (capture_control t landmarks y) as Hc
      end
    end.
    apply control_eq in Hc. destruct Hc as [_ [_ [_ [_ [Hc5 Hc6]]]]].
    rewrite F1, F2, Hc5, Hc6.
    match goal with |- context [detectBlink toString36 t l r ?x] =>
      destruct (detectBlink_head toString36 t l r x) as [D1 D2]
    end.
    rewrite D1, D2. cbn [setTargetHeadPos headPosRef targetHeadPosRef].
    split; [| exact Hm].
    destruct Hh as [Hx Hy], Hm as [Mx My].
    split; cbn [Point.x Point.y] in *; apply lerp_unit; assumption.
  - match goal with |- context [finish t ?x] => destruct (finish_head t x) as [F1 F2] end.
    rewrite F1, F2. cbn [setTargetHeadPos headPosRef targetHeadPosRef].
    destruct Hh as [Hx Hy].
    split; split; cbn [Point.x Point.y]; try apply lerp_unit; try assumption; lra.
Qed.

End Head.

(** X8. As long as the nose landmarks lie in normalized coordinates, the
    smoothed head position and its target never leave the unit square, so
    the parallax displacement of [renderScene] is at most half the canvas in
    each direction. *)
Theorem head_stays_in_unit_square (toString36 : R -> string) (ticks : list Tick)
  (s : Session) (width height : R) :
  inUnit (headPosRef s) -> inUnit (targetHeadPosRef s) ->
  Forall noseInUnit ticks ->
  0 <= width -> 0 <= height ->
  let s' := run toString36 ticks s in
  inUnit (headPosRef s') /\ inUnit (targetHeadPosRef s') /\
  Rabs ((Point.x (headPosRef s') - 0.5) * width) <= width / 2 /\
  Rabs ((Point.y (headPosRef s') - 0.5) * height) <= height / 2.
Proof.
  intros Hh Ht Hall Hw Hhe s'.
  assert (Hinv : inUnit (headPosRef s') /\ inUnit (targetHeadPosRef s')).
  { subst s'. revert s Hh Ht. induction Hall as [| t ticks Hn _ IH]; intros s Hh Ht.
    - split; assumption.
    - rewrite run_cons. destruct (onResults_unit toString36 t s Hh Ht Hn) as [H1 H2].
      apply IH; assumption. }
  destruct Hinv as [[Hx Hy] Htarget].
  split; [split; assumption |]. split; [exact Htarget |].
  split; apply Rabs_le; split; nra.
Qed.

Lemma closedEyesTick_noseInUnit : noseInUnit closedEyesTick.
Proof.
  unfold noseInUnit, noseOf, closedEyesTick, tickWith, HEAD_NOSE_INDEX.
  cbn [firstFace multiFaceLandmarks]. rewrite nth_error_tabulate by lia.
  split; cbn [closedEyes Nat.eqb Point.x Point.y]; lra.
Qed.

(** Two ticks of the closed-eyes face from a fresh session on a canvas of
    1280 by 720. *)
Lemma head_stays_in_unit_square_witness :
  let s := initialSession sampleToString36 (constantDraws 0.5) in
  let s' := run sampleToString36 [closedEyesTick; closedEyesTick] s in
  inUnit (headPosRef s') /\
  Rabs ((Point.x (headPosRef s') - 0.5) * 1280) <= 1280 / 2.
Proof.
  intros s s'.
  destruct (head_stays_in_unit_square sampleToString36
              [closedEyesTick; closedEyesTick] s 1280 720) as [H1 [_ [H3 _]]].
  - split; cbn; lra.
  - split; cbn; lra.
  - repeat (constructor; [apply closedEyesTick_noseInUnit |]). constructor.
  - lra.
  - lra.
  - split; assumption.
Defined.

(** ** The crop rectangle *)

(** The clamped box keeps the bounding box inside and stays in the unit
    square. *)
Lemma padded_encloses (b : Box.t) :
  0 <= Box.minX b <= Box.maxX b -> Box.maxX b <= 1 ->
  0 <= Box.minY b <= Box.maxY b -> Box.maxY b <= 1 ->
  0 <= Box.minX (padded b) <= Box.minX b /\
  Box.maxX b <= Box.maxX (padded b) <= 1 /\
  0 <= Box.minY (padded b) <= Box.minY b /\
  Box.maxY b <= Box.maxY (padded b) <= 1 /\
  (Box.minX b = Box.maxX b -> Box.minX (padded b) = Box.maxX (padded b)) /\
  (Box.minY b = Box.maxY b -> Box.minY (padded b) = Box.maxY (padded b)).
Proof.
  intros Hx Hx1 Hy Hy1. unfold padded. cbn [Box.minX Box.minY Box.maxX Box.maxY].
  unfold Rmax, Rmin.
  repeat match goal with |- context [Rle_dec ?a ?b] => destruct (Rle_dec a b) end;
    repeat split; intros; lra.
Qed.

Lemma boundingBox_unit (b : Box.t) (pts : list Point) :
  boundingBox b pts -> Forall inUnit pts ->
  0 <= Box.minX b <= Box.maxX b /\ Box.maxX b <= 1 /\
  0 <= Box.minY b <= Box.maxY b /\ Box.maxY b <= 1.
Proof.
  intros [A [B [C [D Hall]]]] Hunit. rewrite Forall_forall in Hunit, Hall.
  apply in_map_iff in A. destruct A as [pa [Ea Ia]].
  apply in_map_iff in B. destruct B as [pb [Eb Ib]].
  apply in_map_iff in C. destruct C as [pc [Ec Ic]].
  apply in_map_iff in D. destruct D as [pd [Ed Id]].
  pose proof (Hunit pa Ia) as [Ua _]. pose proof (Hunit pb Ib) as [Ub _].
  pose proof (Hunit pc Ic) as [_ Uc]. pose proof (Hunit pd Id) as [_ Ud].
  pose proof (Hall pa Ia). lra.
Qed.

(** [extractEye] in terms of the bounding box of the selected landmarks. *)
Lemma extractEye_box (landmarks : list Point) (indices : list nat) (pts : list Point)
  (width height : R) :
  selects landmarks indices pts -> pts <> [] -> Forall inUnit pts ->
  exists b,
    boundingBox b pts /\
    extractEye landmarks indices width height =
      Normal (if Rleb (Crop.sw (toPixels (padded b) width height)) 0
                 || Rleb (Crop.sh (toPixels (padded b) width height)) 0
              then None else Some (toPixels (padded b) width height)).
Proof.
  intros Hsel Hne Hunit.
  destruct (forEachIndex_boundingBox landmarks indices pts Hsel Hne Hunit)
    as [b [Hb Hbox]].
  exists b. split; [exact Hbox |].
  rewrite (extractEye_selects _ _ _ _ _ Hsel). cbv zeta.
  rewrite (forEachIndex_selects _ _ _ _ Hsel) in Hb. inversion Hb as [Hfold].
  reflexivity.
Qed.

(** X9. A rectangle that [extractEye] hands to [createImageBitmap] has
    positive width and height, lies inside the video frame and contains the
    pixel position of every landmark of the eye. *)
Theorem crop_lies_in_frame (landmarks : list Point) (indices : list nat)
  (pts : list Point) (width height : R) (c : Crop.t) :
  selects landmarks indices pts -> pts <> [] -> Forall inUnit pts ->
  0 <= width -> 0 <= height ->
  extractEye landmarks indices width height = Normal (Some c) ->
  0 <= Crop.sx c /\ 0 < Crop.sw c /\ Crop.sx c + Crop.sw c <= width /\
  0 <= Crop.sy c /\ 0 < Crop.sh c /\ Crop.sy c + Crop.sh c <= height /\
  Forall (fun p =>
            Crop.sx c <= Point.x p * width <= Crop.sx c + Crop.sw c /\
            Crop.sy c <= Point.y p * height <= Crop.sy c + Crop.sh c) pts.
Proof.
  intros Hsel Hne Hunit Hw Hh Hc.
  destruct (extractEye_box landmarks indices pts width height Hsel Hne Hunit)
    as [b [Hbox He]].
  rewrite He in Hc. clear He.
  destruct (boundingBox_unit b pts Hbox Hunit) as [Bx [Bx1 [By By1]]].
  destruct (padded_encloses b Bx Bx1 By By1) as [Px [Px1 [Py [Py1 _]]]].
  destruct (Rleb (Crop.sw (toPixels (padded b) width height)) 0) eqn:Ew;
    [discriminate |].
  destruct (Rleb (Crop.sh (toPixels (padded b) width height)) 0) eqn:Eh;
    [discriminate |].
  cbn [orb] in Hc. inversion Hc; subst c; clear Hc.
  apply Rleb_false in Ew. apply Rleb_false in Eh.
  unfold toPixels in *. cbn [Crop.sx Crop.sy Crop.sw Crop.sh] in *.
  set (x0 := Box.minX (padded b)) in *. set (x1 := Box.maxX (padded b)) in *.
  set (y0 := Box.minY (padded b)) in *. set (y1 := Box.maxY (padded b)) in *.
  repeat split; try nra.
  destruct Hbox as [_ [_ [_ [_ Hall]]]].
  eapply Forall_impl; [| exact Hall]. cbv beta. intros p [Hx Hy]. split; nra.
Qed.

Lemma closedEyes_selects :
  selects (tabulate closedEyes 478) LEFT_EYE_INDICES
    [closedEyes 33; closedEyes 133; closedEyes 159; closedEyes 145].
Proof. repeat constructor; apply nth_error_tabulate; lia. Qed.

Lemma closedEyes_inUnit :
  Forall inUnit [closedEyes 33; closedEyes 133; closedEyes 159; closedEyes 145].
Proof. repeat constructor; cbn [closedEyes Nat.eqb Point.x Point.y]; lra. Qed.

(** The left eye of the closed-eyes face in a 1280 by 720 video. *)
Lemma crop_lies_in_frame_witness :
  let c := toPixels (padded (Box.mk 0.30 0.395 0.40 0.405)) 1280 720 in
  0 <= Crop.sx c /\ 0 < Crop.sw c /\ Crop.sx c + Crop.sw c <= 1280.
Proof.
  intros c.
  destruct (crop_lies_in_frame (tabulate closedEyes 478) LEFT_EYE_INDICES
              [closedEyes 33; closedEyes 133; closedEyes 159; closedEyes 145]
              1280 720 c closedEyes_selects) as [H1 [H2 [H3 _]]].
  - discriminate.
  - exact closedEyes_inUnit.
  - lra.
  - lra.
  - exact closedEyes_left_crop.
  - repeat split; assumption.
Defined.

(** X10. For landmarks in normalized coordinates and a video of positive
    width and height, [extractEye] returns [null] exactly when the eye
    landmarks all have the same x or all have the same y; the clamping to
    the unit square alone never empties the rectangle.  Without positive
    video dimensions it always returns [null]. *)
Theorem null_exactly_when_degenerate (landmarks : list Point) (indices : list nat)
  (pts : list Point) (width height : R) :
  selects landmarks indices pts -> pts <> [] -> Forall inUnit pts ->
  (width <= 0 \/ height <= 0 ->
   extractEye landmarks indices width height = Normal None) /\
  (0 < width -> 0 < height ->
   (extractEye landmarks indices width height = Normal None <->
    (forall p q, In p pts -> In q pts -> Point.x p = Point.x q) \/
    (forall p q, In p pts -> In q pts -> Point.y p = Point.y q))).
Proof.
  intros Hsel Hne Hunit.
  destruct (extractEye_box landmarks indices pts width height Hsel Hne Hunit)
    as [b [Hbox He]].
  rewrite He. clear He.
  destruct (boundingBox_unit b pts Hbox Hunit) as [Bx [Bx1 [By By1]]].
  destruct (padded_encloses b Bx Bx1 By By1) as [Px [Px1 [Py [Py1 [Dx Dy]]]]].
  unfold toPixels. cbn [Crop.sx Crop.sy Crop.sw Crop.sh].
  set (x0 := Box.minX (padded b)) in *. set (x1 := Box.maxX (padded b)) in *.
  set (y0 := Box.minY (padded b)) in *. set (y1 := Box.maxY (padded b)) in *.
  destruct Hbox as [A [B [C [D Hall]]]]. rewrite Forall_forall in Hall.
  assert (Hsame_x : Box.minX b = Box.maxX b <->
                    forall p q, In p pts -> In q pts -> Point.x p = Point.x q).
  { split.
    - intros E p q Hp Hq. destruct (Hall p Hp) as [Hpx _].
      destruct (Hall q Hq) as [Hqx _]. lra.
    - intros Hs. apply in_map_iff in A. destruct A as [pa [Ea Ia]].
      apply in_map_iff in B. destruct B as [pb [Eb Ib]].
      rewrite <- Ea, <- Eb. apply Hs; assumption. }
  assert (Hsame_y : Box.minY b = Box.maxY b <->
                    forall p q, In p pts -> In q pts -> Point.y p = Point.y q).
  { split.
    - intros E p q Hp Hq. destruct (Hall p Hp) as [_ Hpy].
      destruct (Hall q Hq) as [_ Hqy]. lra.
    - intros Hs. apply in_map_iff in C. destruct C as [pc [Ec Ic]].
      apply in_map_iff in D. destruct D as [pd [Ed Id]].
      rewrite <- Ec, <- Ed. apply Hs; assumption. }
  split.
  - intros [Hw | Hh].
    + replace (Rleb ((x1 - x0) * width) 0) with true
        by (symmetry; apply Rleb_true; nra).
      reflexivity.
    + replace (Rleb ((y1 - y0) * height) 0) with true
        by (symmetry; apply Rleb_true; nra).
      rewrite orb_true_r. reflexivity.
  - intros Hw Hh. rewrite <- Hsame_x, <- Hsame_y. split.
    + intros Hnone.
      destruct (Rleb ((x1 - x0) * width) 0) eqn:Ew.
      * apply Rleb_true in Ew. left. nra.
      * destruct (Rleb ((y1 - y0) * height) 0) eqn:Eh; [| discriminate].
        apply Rleb_true in Eh. right. nra.
    + intros [E | E].
      * specialize (Dx E).
        replace (Rleb ((x1 - x0) * width) 0) with true
          by (symmetry; apply Rleb_true; nra).
        reflexivity.
      * specialize (Dy E).
        replace (Rleb ((y1 - y0) * height) 0) with true
          by (symmetry; apply Rleb_true; nra).
        rewrite orb_true_r. reflexivity.
Qed.

(** The left eye of the pinched face gives [null] in a video of height 0. *)
Lemma null_exactly_when_degenerate_witness :
  extractEye (tabulate pinchedEye 478) LEFT_EYE_INDICES 1280 0 = Normal None.
Proof.
  destruct (null_exactly_when_degenerate (tabulate pinchedEye 478) LEFT_EYE_INDICES
              [pinchedEye 33; pinchedEye 133; pinchedEye 159; pinchedEye 145]
              1280 0 pinchedEye_selects) as [H _].
  - discriminate.
  - exact pinchedEye_inUnit.
  - apply H. right. lra.
Defined.

(** ** Faces with too few landmarks *)

Lemma at_normal {A : Type} (arr : list A) (i : nat) :
  (i < List.length arr)%nat -> exists a, at_ arr i = Normal a.
Proof.
  intros H. unfold at_. destruct (nth_error arr i) as [a |] eqn:E; [exists a; reflexivity |].
  apply nth_error_None in E. lia.
Qed.

Lemma at_throw {A : Type} (arr : list A) (i : nat) :
  (List.length arr <= i)%nat -> at_ arr i = Throw.
Proof.
  intros H. unfold at_. apply nth_error_None in H. rewrite H. reflexivity.
Qed.

Lemma calculateEAR_normal (landmarks : list Point) (i0 i1 i2 i3 : nat) :
  (i0 < List.length landmarks)%nat -> (i1 < List.length landmarks)%nat ->
  (i2 < List.length landmarks)%nat -> (i3 < List.length landmarks)%nat ->
  exists q, calculateEAR landmarks [i0; i1; i2; i3] = Normal q.
Proof.
  intros H0 H1 H2 H3.
  destruct (at_normal landmarks i0 H0) as [p0 E0].
  destruct (at_normal landmarks i1 H1) as [p1 E1].
  destruct (at_normal landmarks i2 H2) as [p2 E2].
  destruct (at_normal landmarks i3 H3) as [p3 E3].
  unfold calculateEAR. cbn [at_ nth_error bindC].
  rewrite E2, E3, E0, E1. cbn [bindC]. eexists. reflexivity.
Qed.

Lemma extractEye_normal (landmarks : list Point) (indices : list nat) (width height : R) :
  Forall (fun i => (i < List.length landmarks)%nat) indices ->
  exists e, extractEye landmarks indices width height = Normal e.
Proof.
  intros Hall. unfold extractEye.
  assert (H : forall b, exists b', forEachIndex landmarks indices b = Normal b').
  { induction Hall as [| i indices Hi _ IH]; intros b; [exists b; reflexivity |].
    cbn [forEachIndex]. destruct (at_normal landmarks i Hi) as [p Ep].
    rewrite Ep. cbn [bindC]. apply IH. }
  destruct (H (Box.mk 1 1 0 0)) as [b' Hb]. rewrite Hb. cbn [bindC].
  destruct (Rleb _ 0 || Rleb _ 0); eexists; reflexivity.
Qed.

(** X11. For a mounted component with a canvas, the number of landmarks of
    the face decides whether the tick completes.  With at least 387
    landmarks neither [calculateEAR] nor [extractEye] throws and a frame is
    rendered.  With fewer the callback throws before the [try] block:
    nothing is rendered, and the history buffer, the reset count, the
    cooldown and the smoothed head position stay as they were. *)
Theorem landmark_count_decides_completion (toString36 : R -> string) (t : Tick)
  (face : list Point) (s : Session) :
  isMounted t = true -> surface t = true -> firstFace t = Some face ->
  let s' := fst (onResults toString36 t s) in
  if (387 <=? List.length face)%nat then
    completes t = true /\
    (exists el er,
       extractEye face LEFT_EYE_INDICES (videoWidth t) (videoHeight t) = Normal el /\
       extractEye face RIGHT_EYE_INDICES (videoWidth t) (videoHeight t) = Normal er) /\
    exists frame, snd (onResults toString36 t s) = Some frame
  else
    completes t = false /\
    snd (onResults toString36 t s) = None /\
    historyRef s' = historyRef s /\ resets s' = resets s /\
    blinkCooldownRef s' = blinkCooldownRef s /\ headPosRef s' = headPosRef s.
Proof.
  intros Hm Hs Hf s'.
  destruct (Nat.leb_spec 387 (List.length face)) as [Hbig | Hsmall].
  - destruct (at_normal face HEAD_NOSE_INDEX) as [nose En];
      [unfold HEAD_NOSE_INDEX; lia |].
    destruct (calculateEAR_normal face 33 133 159 145) as [l El]; try lia.
    destruct (calculateEAR_normal face 362 263 386 374) as [r Er]; try lia.
    fold LEFT_EYE_INDICES in El. fold RIGHT_EYE_INDICES in Er.
    assert (Hc : completes t = true).
    { unfold completes, targetOf. rewrite Hm, Hs, Hf, En, El, Er. reflexivity. }
    split; [exact Hc |]. split.
    + destruct (extractEye_normal face LEFT_EYE_INDICES (videoWidth t) (videoHeight t))
        as [el Hel]; [unfold LEFT_EYE_INDICES; repeat constructor; lia |].
      destruct (extractEye_normal face RIGHT_EYE_INDICES (videoWidth t) (videoHeight t))
        as [er Her]; [unfold RIGHT_EYE_INDICES; repeat constructor; lia |].
      exists el, er. split; assumption.
    + unfold onResults. rewrite Hm, Hs, Hf, En, El, Er. cbn [negb].
      match goal with |- context [finish t ?x] =>
        destruct (finish_closed t x) as [_ [_ H]]
      end.
      exact H.
  - assert (Er : calculateEAR face RIGHT_EYE_INDICES = Throw).
    { unfold calculateEAR, RIGHT_EYE_INDICES. cbn [at_ nth_error bindC].
      rewrite (at_throw face 386) by lia. reflexivity. }
    assert (Hc : completes t = false).
    { unfold completes, targetOf. rewrite Hm, Hs, Hf, Er.
      destruct (at_ face HEAD_NOSE_INDEX);
        [destruct (calculateEAR face LEFT_EYE_INDICES) |]; reflexivity. }
    split; [exact Hc |].
    subst s'. unfold onResults. rewrite Hm, Hs, Hf, Er. cbn [negb].
    destruct (at_ face HEAD_NOSE_INDEX) as [nose |];
      [destruct (calculateEAR face LEFT_EYE_INDICES) |]; repeat split.
Qed.

(** A face with the 468 landmarks of the unrefined mesh has all the indices
    that are read: the tick completes and renders. *)
Lemma landmark_count_decides_completion_witness :
  let t := tickWith (Some [tabulate closedEyes 468]) in
  let s := initialSession sampleToString36 (constantDraws 0.5) in
  completes t = true /\
  exists frame, snd (onResults sampleToString36 t s) = Some frame.
Proof.
  intros t s.
  pose proof (landmark_count_decides_completion sampleToString36 t
                (tabulate closedEyes 468) s eq_refl eq_refl eq_refl) as H.
  cbv zeta in H. unfold tabulate in H. rewrite length_map, length_seq in H.
  change (387 <=? 468)%nat with true in H. cbv iota in H.
  destruct H as [H1 [_ H3]]. split; assumption.
Defined.

(** ** More on the scene generator *)

Lemma substring_length (n m : nat) (s : string) :
  (String.length (substring n m s) <= m)%nat.
Proof.
  revert n m. induction s as [| c s IH]; intros n m.
  - destruct n, m; cbn; lia.
  - destruct n as [| n].
    + destruct m as [| m]; cbn [substring String.length]; [lia |].
      specialize (IH 0%nat m). lia.
    + cbn [substring]. apply IH.
Qed.

Section SceneMore.

Variable toString36 : R -> string.
Variable draws : nat -> R.

(** What a shape takes from the stream. *)
Lemma newShape_draws (palette : Palette.t) (i m : nat) :
  snd (newShape toString36 palette i draws m) =
    (m + if Nat.eqb i 0 then 5 else 7)%nat /\
  GeometricFrame.id (fst (newShape toString36 palette i draws m)) =
    substring 2 9 (toString36 (draws m)) /\
  GeometricFrame.type (fst (newShape toString36 palette i draws m)) = rect /\
  GeometricFrame.rotation (fst (newShape toString36 palette i draws m)) = 0 /\
  GeometricFrame.rotationSpeed (fst (newShape toString36 palette i draws m)) = 0 /\
  (GeometricFrame.color (fst (newShape toString36 palette i draws m)) =
     Palette.primary palette \/
   GeometricFrame.color (fst (newShape toString36 palette i draws m)) = "#FFFFFF"%string).
Proof.
  unfold newShape, generateId, randomRange, random, bind, ret.
  destruct (Nat.eqb i 0); cbn [fst snd GeometricFrame.id GeometricFrame.type
    GeometricFrame.rotation GeometricFrame.rotationSpeed GeometricFrame.color];
    (repeat split; [lia |]);
    match goal with |- context [Rgtb ?a ?b] => destruct (Rgtb a b) end; tauto.
Qed.

Lemma pushShapes_plain (palette : Palette.t) (todo i m : nat) :
  Forall (fun shape =>
            GeometricFrame.type shape = rect /\
            GeometricFrame.rotation shape = 0 /\
            GeometricFrame.rotationSpeed shape = 0 /\
            (GeometricFrame.color shape = Palette.primary palette \/
             GeometricFrame.color shape = "#FFFFFF"%string))
    (fst (pushShapes toString36 palette todo i draws m)).
Proof.
  revert i m. induction todo as [| todo IH]; intros i m; [constructor |].
  rewrite pushShapes_cons. constructor; [| apply IH].
  destruct (newShape_draws palette i m) as [_ [_ H]]. exact H.
Qed.

End SceneMore.

(** X14. A generated scene is coherent: its background, primary and
    secondary colour are those of one entry of the palette table, its glitch
    mode is never [pixel-sort], and every shape is an unrotated, unrotating
    [rect] whose colour is the primary colour of the scene or white. *)
Theorem scene_is_coherent (toString36 : R -> string) (draws : nat -> R) (n : nat) :
  unitDraws draws ->
  let scene := fst (generateNewScene toString36 draws n) in
  (exists palette,
     In palette PALETTES /\
     SceneParams.backgroundColor scene = Palette.bg palette /\
     SceneParams.primaryColor scene = Palette.primary palette /\
     SceneParams.secondaryColor scene = Palette.secondary palette) /\
  SceneParams.glitchMode scene <> pixel_sort /\
  Forall (plain scene) (SceneParams.shapes scene).
Proof.
  intros Hd. cbv zeta.
  unfold generateNewScene, randomRange, random, bind, ret. cbn [fst snd].
  set (palette := paletteAt _).
  set (count := Z.to_nat _).
  pose proof (pushShapes_plain toString36 draws palette count 0 (S (S n))) as Hp.
  destruct (pushShapes toString36 palette count 0 draws (S (S n))) as [shapes n1].
  cbn [fst snd SceneParams.backgroundColor SceneParams.primaryColor
       SceneParams.secondaryColor SceneParams.glitchMode SceneParams.shapes] in *.
  split; [| split].
  - exists palette. split; [| repeat split].
    subst palette. unfold paletteAt. apply nth_In.
    apply palette_index_in_table. apply Hd.
  - destruct (Rgtb _ 0.5); discriminate.
  - unfold plain. cbn [SceneParams.primaryColor]. exact Hp.
Qed.

Lemma scene_is_coherent_witness :
  let scene := fst (generateNewScene sampleToString36 (constantDraws 0.5) 0%nat) in
  SceneParams.glitchMode scene <> pixel_sort /\
  Forall (plain scene) (SceneParams.shapes scene).
Proof.
  destruct (scene_is_coherent sampleToString36 (constantDraws 0.5) 0%nat
              constantDraws_unit) as [_ H].
  exact H.
Defined.

(** X16. Every shape count from 20 to 34 occurs: for each such c there is a
    stream of draws in [0,1) for which the scene has exactly c shapes. *)
Theorem every_shape_count_occurs (toString36 : R -> string) (c : nat) :
  (20 <= c < 35)%nat ->
  exists draws,
    unitDraws draws /\
    List.length (SceneParams.shapes (fst (generateNewScene toString36 draws 0%nat))) = c.
Proof.
  intros Hc. exists (constantDraws ((INR c - 20) / 15)).
  assert (H20 : 20 <= INR c) by (replace 20 with (INR 20) by (cbn; lra); apply le_INR; lia).
  assert (H35 : INR c < 35) by (replace 35 with (INR 35) by (cbn; lra); apply lt_INR; lia).
  split.
  - intros k. unfold constantDraws. split.
    + apply Rmult_le_pos; lra.
    + apply Rmult_lt_reg_r with 15; [lra |]. unfold Rdiv.
      rewrite Rmult_assoc, Rinv_l by lra. lra.
  - unfold generateNewScene, randomRange, random, bind, ret. cbn [fst snd].
    set (palette := paletteAt _).
    set (count := Z.to_nat _).
    pose proof (pushShapes_length toString36 (constantDraws ((INR c - 20) / 15))
                  palette count 0%nat 2%nat) as Hl.
    destruct (pushShapes toString36 palette count 0
                (constantDraws ((INR c - 20) / 15)) 2%nat) as [shapes n1].
    cbn [fst snd SceneParams.shapes] in *. rewrite Hl. subst count.
    unfold constantDraws.
    replace ((INR c - 20) / 15 * (35 - 20) + 20) with (INR c) by (field; lra).
    unfold floor. rewrite Int_part_INR. apply Nat2Z.id.
Qed.

Lemma every_shape_count_occurs_witness :
  exists draws,
    unitDraws draws /\
    List.length
      (SceneParams.shapes (fst (generateNewScene sampleToString36 draws 0%nat))) = 34%nat.
Proof.
  apply (every_shape_count_occurs sampleToString36 34). lia.
Defined.

(** ** Stage 3: connections *)

Lemma connect_spec (width height : R) (a b : RenderedShape.t) :
  match connect width height a b with
  | Some l => Link.s1 l = a /\ Link.s2 l = b /\ faint width height l
  | None => reach width height <= apart a b
  end.
Proof.
  unfold connect. fold (apart a b). fold (reach width height).
  destruct (Rltb (apart a b) (reach width height)) eqn:E.
  - apply Rltb_true in E.
    pose proof (distance_nonneg
                  (Point.mk (RenderedShape.x a) (RenderedShape.y a))
                  (Point.mk (RenderedShape.x b) (RenderedShape.y b))) as H0.
    fold (apart a b) in H0.
    assert (Hr : 0 < reach width height) by lra.
    unfold faint. cbn [Link.s1 Link.s2 Link.alpha].
    repeat split; try assumption.
    + assert (apart a b / reach width height < 1).
      { apply Rmult_lt_reg_r with (reach width height); [exact Hr |].
        unfold Rdiv. rewrite Rmult_assoc, Rinv_l by lra. lra. }
      lra.
    + assert (0 <= apart a b / reach width height).
      { apply Rmult_le_pos; [exact H0 |]. left. apply Rinv_0_lt_compat. exact Hr. }
      lra.
  - apply Rltb_false in E. exact E.
Qed.

Lemma connectFrom_spec (width height : R) (a : RenderedShape.t)
  (rest : list RenderedShape.t) :
  Forall (fun l => Link.s1 l = a /\ In (Link.s2 l) rest /\ faint width height l)
    (connectFrom width height a rest) /\
  (List.length (connectFrom width height a rest) <= List.length rest)%nat.
Proof.
  induction rest as [| b rest [IH1 IH2]]; [split; [constructor | cbn; lia] |].
  cbn [connectFrom]. pose proof (connect_spec width height a b) as H.
  assert (Hw : Forall (fun l => Link.s1 l = a /\ In (Link.s2 l) (b :: rest) /\
                               faint width height l)
                 (connectFrom width height a rest)).
  { eapply Forall_impl; [| exact IH1]. cbn beta. intros l [H1 [H2 H3]].
    split; [exact H1 |]. split; [right; exact H2 | exact H3]. }
  destruct (connect width height a b) as [l |].
  - destruct H as [H1 [H2 H3]]. split.
    + constructor; [| exact Hw].
      split; [exact H1 |]. split; [left; symmetry; exact H2 | exact H3].
    + cbn [List.length]. lia.
  - split; [exact Hw | cbn [List.length]; lia].
Qed.

Lemma connectFrom_complete (width height : R) (a b : RenderedShape.t)
  (rest : list RenderedShape.t) :
  In b rest -> apart a b < reach width height ->
  exists l, In l (connectFrom width height a rest) /\ Link.s1 l = a /\ Link.s2 l = b.
Proof.
  intros Hin Hd. induction rest as [| c rest IH]; [destruct Hin |].
  cbn [connectFrom]. destruct Hin as [-> | Hin].
  - pose proof (connect_spec width height a b) as H.
    destruct (connect width height a b) as [l |].
    + exists l. split; [left; reflexivity | tauto].
    + lra.
  - destruct (IH Hin) as [l [H1 H2]]. exists l. split; [| exact H2].
    destruct (connect width height a c); [right |]; exact H1.
Qed.

(** X17. Stage 3 strokes a line between two placed shapes only when their
    centres are closer than 0.4 times the shorter side of the canvas, and
    then the divisor of the opacity is positive and the alpha of the stroke
    lies in (0, 0.8].  The first shape of a link precedes the second in the
    list; every pair that close gets its line; n shapes give at most
    n(n-1)/2 lines, and a canvas without width or height gives none. *)
Theorem connections_are_guarded (width height : R) (items : list RenderedShape.t) :
  Forall (fun l => faint width height l /\
                   exists i j, (i < j)%nat /\
                     nth_error items i = Some (Link.s1 l) /\
                     nth_error items j = Some (Link.s2 l))
    (connections width height items) /\
  (forall i j a b,
     (i < j)%nat -> nth_error items i = Some a -> nth_error items j = Some b ->
     apart a b < reach width height ->
     exists l, In l (connections width height items) /\
               Link.s1 l = a /\ Link.s2 l = b) /\
  (2 * List.length (connections width height items) <=
   List.length items * (List.length items - 1))%nat /\
  (Rmin width height <= 0 -> connections width height items = []).
Proof.
  split; [| split; [| split]].
  - induction items as [| a rest IH]; [constructor |].
    cbn [connections]. apply Forall_app. split.
    + destruct (connectFrom_spec width height a rest) as [H _].
      eapply Forall_impl; [| exact H]. cbn. intros l [H1 [H2 H3]].
      split; [exact H3 |].
      apply In_nth_error in H2. destruct H2 as [j Hj].
      exists 0%nat, (S j). split; [lia |]. cbn [nth_error]. rewrite H1. tauto.
    + eapply Forall_impl; [| exact IH]. cbn. intros l [H1 [i [j [Hij [Hi Hj]]]]].
      split; [exact H1 |]. exists (S i), (S j). split; [lia |]. tauto.
  - induction items as [| c rest IH]; intros i j a b Hij Hi Hj Hd.
    + destruct i; discriminate.
    + cbn [connections]. destruct j as [| j]; [lia |]. cbn [nth_error] in Hj.
      destruct i as [| i].
      * cbn [nth_error] in Hi. injection Hi as ->.
        apply nth_error_In in Hj.
        destruct (connectFrom_complete width height a b rest Hj Hd) as [l [H1 H2]].
        exists l. split; [apply in_or_app; left; exact H1 | exact H2].
      * cbn [nth_error] in Hi.
        destruct (IH i j a b ltac:(lia) Hi Hj Hd) as [l [H1 H2]].
        exists l. split; [apply in_or_app; right; exact H1 | exact H2].
  - induction items as [| a rest IH]; [cbn; lia |].
    cbn [connections]. rewrite length_app.
    destruct (connectFrom_spec width height a rest) as [_ H].
    cbn [List.length]. rewrite Nat.sub_succ, Nat.sub_0_r.
    destruct rest as [| b rest']; [cbn in *; lia |].
    cbn [List.length] in *. rewrite Nat.sub_succ, Nat.sub_0_r in IH. nia.
  - intros Hm.
    assert (H : Forall (faint width height) (connections width height items)).
    { clear Hm. induction items as [| a rest IH]; [constructor |].
      cbn [connections]. apply Forall_app. split; [| exact IH].
      destruct (connectFrom_spec width height a rest) as [H _].
      eapply Forall_impl; [| exact H]. cbn. tauto. }
    destruct (connections width height items) as [| l ls]; [reflexivity |].
    inversion H as [| ? ? [Hr _] _]. unfold reach in Hr. lra.
Qed.

(** ** Stage 4: trail layers *)

Lemma Rabs_half (j g : R) : 0 <= j < 1 -> Rabs ((j - 0.5) * 6 * g) <= 3 * Rabs g.
Proof.
  intros Hj. rewrite Rabs_mult.
  assert (H : Rabs ((j - 0.5) * 6) <= 3).
  { unfold Rabs. destruct (Rcase_abs ((j - 0.5) * 6)); lra. }
  pose proof (Rabs_pos g). nra.
Qed.

Section Layers.

Variable draws : nat -> R.
Hypothesis inRange : unitDraws draws.

Ltac draw n :=
  let H := fresh "D" in pose proof (inRange n) as H.

(** The main layer. *)
Lemma layer_main (px py : R) (item : RenderedShape.t) (n : nat) :
  let l := fst (layer px py item 0 draws n) in
  Layer.k l = 0%nat /\ visible item l /\ onTop item l /\
  (n + 2 <= snd (layer px py item 0 draws n) <= n + 4)%nat.
Proof.
  cbv zeta. unfold layer, visible, onTop, bind, ret, random.
  cbn [Nat.eqb negb fst snd].
  draw (S n). draw (S (S n)). draw (S (S (S n))).
  destruct (Rltb (draws n) _);
    cbn [fst snd];
    match goal with |- context [Rltb (draws ?m) ?b] => destruct (Rltb (draws m) b) end;
    cbn [fst snd Layer.k Layer.alpha Layer.jitter Layer.tint Layer.lineWidth
         Layer.isMain Layer.x Layer.y];
    repeat split; try lia; try lra; try (left; reflexivity);
    try (apply Rabs_half; assumption); try nra.
Qed.

(** A trailing layer. *)
Lemma layer_trail (px py : R) (item : RenderedShape.t) (k n : nat) :
  let l := fst (layer px py item (S k) draws n) in
  Layer.k l = S k /\ visible item l /\ Layer.isMain l = false /\
  Layer.lineWidth l = 1 /\
  (n + 3 <= snd (layer px py item (S k) draws n) <= n + 6)%nat.
Proof.
  cbv zeta. unfold layer, visible, bind, ret, random.
  cbn [Nat.eqb negb fst snd].
  assert (Hk : 1 <= INR (S k)) by (rewrite S_INR; pose proof (pos_INR k); lra).
  assert (Ha : 0 < 0.4 / (INR (S k) + 0.5) <= 0.4).
  { split.
    - apply Rdiv_lt_0_compat; lra.
    - apply Rmult_le_reg_r with (INR (S k) + 0.5); [lra |].
      unfold Rdiv. rewrite Rmult_assoc, Rinv_l by lra. lra. }
  set (a := 0.4 / (INR (S k) + 0.5)) in *. clearbody a.
  draw n. draw (S n). draw (S (S n)). draw (S (S (S n))). draw (S (S (S (S n)))).
  draw (S (S (S (S (S n))))).
  destruct (Rltb (draws n) _); cbn [fst snd];
    repeat match goal with
    | |- context [Rgtb (draws ?m) ?b] => destruct (Rgtb (draws m) b); cbn [fst snd]
    | |- context [Rltb (draws ?m) ?b] => destruct (Rltb (draws m) b); cbn [fst snd]
    end;
    cbn [fst snd Layer.k Layer.alpha Layer.jitter Layer.tint Layer.lineWidth
         Layer.isMain Layer.x Layer.y];
    repeat split; try lia; try lra; try (left; reflexivity); try (right; reflexivity);
    try (apply Rabs_half; assumption); try nra.
Qed.

Lemma trail_cons (px py : R) (item : RenderedShape.t) (k n : nat) :
  trail px py item (S k) draws n =
    (fst (layer px py item (S k) draws n) ::
       fst (trail px py item k draws (snd (layer px py item (S k) draws n))),
     snd (trail px py item k draws (snd (layer px py item (S k) draws n)))).
Proof.
  cbn [trail]. unfold bind at 1.
  destruct (layer px py item (S k) draws n) as [l n1]. cbn [fst snd].
  unfold bind at 1.
  destruct (trail px py item k draws n1) as [rest n2]. reflexivity.
Qed.

Lemma trail_zero (px py : R) (item : RenderedShape.t) (n : nat) :
  trail px py item 0 draws n =
    ([fst (layer px py item 0 draws n)], snd (layer px py item 0 draws n)).
Proof.
  cbn [trail]. unfold bind, ret.
  destruct (layer px py item 0 draws n) as [l n1]. reflexivity.
Qed.

(** The three layers of one shape. *)
Lemma trail_spec (px py : R) (item : RenderedShape.t) (n : nat) :
  exists far near main,
    fst (trail px py item trailCount draws n) = [far; near; main] /\
    Layer.k far = 2%nat /\ Layer.k near = 1%nat /\ Layer.k main = 0%nat /\
    visible item far /\ visible item near /\ visible item main /\
    Layer.isMain far = false /\ Layer.isMain near = false /\
    onTop item main /\
    (n + 8 <= snd (trail px py item trailCount draws n) <= n + 16)%nat.
Proof.
  unfold trailCount. rewrite trail_cons.
  destruct (layer_trail px py item 1 n) as [F1 [F2 [F3 [_ F4]]]].
  set (n1 := snd (layer px py item 2 draws n)) in *.
  rewrite trail_cons.
  destruct (layer_trail px py item 0 n1) as [N1 [N2 [N3 [_ N4]]]].
  set (n2 := snd (layer px py item 1 draws n1)) in *.
  rewrite trail_zero.
  destruct (layer_main px py item n2) as [M1 [M2 [M3 M4]]].
  cbn [fst snd].
  eexists _, _, _. split; [reflexivity |].
  repeat (split; [assumption |]). lia.
Qed.

Lemma paintShapes_cons (px py : R) (item : RenderedShape.t) (b : ImageBitmap)
  (rest : list (RenderedShape.t * ImageBitmap)) (n : nat) :
  paintShapes px py ((item, b) :: rest) draws n =
    (fst (trail px py item trailCount draws n) ::
       fst (paintShapes px py rest draws (snd (trail px py item trailCount draws n))),
     snd (paintShapes px py rest draws (snd (trail px py item trailCount draws n)))).
Proof.
  cbn [paintShapes]. unfold bind at 1.
  destruct (trail px py item trailCount draws n) as [l n1]. cbn [fst snd].
  unfold bind at 1.
  destruct (paintShapes px py rest draws n1) as [more n2]. reflexivity.
Qed.

End Layers.

Lemma drawnAt_main (item : RenderedShape.t) (l : Layer.t) :
  visible item l -> onTop item l ->
  Rabs (fst (drawnAt l) - RenderedShape.x item)
    <= 3 * Rabs (GeometricFrame.glitchIntensity (RenderedShape.shape item)) /\
  snd (drawnAt l) = RenderedShape.y item /\
  (Layer.jitter l = None -> drawnAt l = (RenderedShape.x item, RenderedShape.y item)).
Proof.
  intros [_ [Hj _]] [_ [Hx [Hy _]]]. unfold drawnAt. cbn [fst snd].
  rewrite Hx, Hy.
  pose proof (Rabs_pos (GeometricFrame.glitchIntensity (RenderedShape.shape item))).
  destruct (Layer.jitter l) as [j |].
  - split; [| split; [reflexivity | discriminate]].
    replace (RenderedShape.x item + j - RenderedShape.x item) with j by ring.
    exact Hj.
  - split; [| split; [reflexivity | reflexivity]].
    replace (RenderedShape.x item - RenderedShape.x item) with 0 by ring.
    rewrite Rabs_R0. lra.
Qed.

(** The main layer of a shape at (100, 100) with glitch intensity 0.5, when
    every draw is 0.01: the jitter happens and the layer is drawn 1.47 to
    the left of the centre. *)
Lemma main_layer_can_jitter :
  let item := RenderedShape.mk 100 100 120 (sampleShape 0) in
  let main := fst (layer 0 0 item 0 (constantDraws 0.01) 0%nat) in
  Layer.isMain main = true /\ drawnAt main = (100 - 1.47, 100).
Proof.
  cbv zeta. unfold layer, bind, ret, random, constantDraws, sampleShape, drawnAt.
  cbn [Nat.eqb negb fst snd RenderedShape.shape RenderedShape.x RenderedShape.y
       GeometricFrame.glitchIntensity GeometricFrame.color].
  cmp. cbn [fst snd]. cmp.
  cbn [fst snd Layer.isMain Layer.jitter Layer.x Layer.y].
  split; [reflexivity |]. f_equal; lra.
Qed.

(** X18. Stage 4 paints every drawn shape in three layers, k = 2, 1, 0 in
    that order, whatever the random draws in [0,1) are.  Every layer, the
    main one too, has an alpha in (0,1] and a tint that is the colour of
    the shape or white, and may be shifted horizontally by a jitter of at
    most 3 times the glitch intensity.  The last layer is the main one: its
    first translate goes to the centre of the shape, so it is drawn at the
    height of the centre and horizontally within 3 times the glitch
    intensity of it, on the centre when no jitter happens; it has an alpha
    of at least 0.2, the colour of the shape as tint and a line width of 2.
    The three layers read between 8 and 16 draws. *)
Theorem trail_layers_stay_visible (draws : nat -> R) (px py : R)
  (item : RenderedShape.t) (n : nat) :
  unitDraws draws ->
  let layers := fst (trail px py item trailCount draws n) in
  let glitch := GeometricFrame.glitchIntensity (RenderedShape.shape item) in
  map Layer.k layers = [2; 1; 0]%nat /\
  map Layer.isMain layers = [false; false; true] /\
  Forall (visible item) layers /\
  (exists main,
     nth_error layers 2 = Some main /\ onTop item main /\
     Rabs (fst (drawnAt main) - RenderedShape.x item) <= 3 * Rabs glitch /\
     snd (drawnAt main) = RenderedShape.y item /\
     (Layer.jitter main = None ->
      drawnAt main = (RenderedShape.x item, RenderedShape.y item))) /\
  (n + 8 <= snd (trail px py item trailCount draws n) <= n + 16)%nat.
Proof.
  intros Hd. cbv zeta.
  destruct (trail_spec draws Hd px py item n)
    as [far [near [main [E [K1 [K2 [K3 [V1 [V2 [V3 [M1 [M2 [T B]]]]]]]]]]]]].
  rewrite E. cbn [map]. rewrite K1, K2, K3, M1, M2.
  pose proof (drawnAt_main item main V3 T) as D.
  destruct T as [T0 T]. rewrite T0.
  split; [reflexivity |]. split; [reflexivity |]. split; [| split; [| lia]].
  - repeat (constructor; [assumption |]). constructor.
  - exists main. split; [reflexivity |]. split; [split; assumption | exact D].
Qed.

Lemma trail_layers_stay_visible_witness :
  map Layer.k
    (fst (trail 0 0 (RenderedShape.mk 0 0 120 (sampleShape 0)) trailCount
            (constantDraws 0.5) 0%nat)) = [2; 1; 0]%nat.
Proof.
  destruct (trail_layers_stay_visible (constantDraws 0.5) 0 0
              (RenderedShape.mk 0 0 120 (sampleShape 0)) 0%nat constantDraws_unit)
    as [H _].
  exact H.
Defined.

(** ** Stage 5: the scramble overlay *)

Section Overlay.

Variable draws : nat -> R.
Hypothesis inRange : unitDraws draws.

Lemma strips_cons (height intensity : R) (todo n : nat) :
  strips height intensity (S todo) draws n =
    (let rest := fst (strips height intensity todo draws (S (S (S n)))) in
     if Rgtb (draws (S (S n))) 0.5
     then Strip.mk (draws (S n) * height) (draws n * 60 * intensity) :: rest
     else rest,
     snd (strips height intensity todo draws (S (S (S n))))).
Proof.
  cbn [strips]. unfold bind, ret, random.
  destruct (strips height intensity todo draws (S (S (S n)))) as [rest n1].
  reflexivity.
Qed.

Lemma strips_spec (height intensity : R) (todo n : nat) :
  0 <= height -> 0 <= intensity <= 1 ->
  Forall (thin height intensity) (fst (strips height intensity todo draws n)) /\
  (List.length (fst (strips height intensity todo draws n)) <= todo)%nat /\
  snd (strips height intensity todo draws n) = (n + 3 * todo)%nat.
Proof.
  intros Hh Hi. revert n. induction todo as [| todo IH]; intros n.
  - cbn. split; [constructor | split; lia].
  - rewrite strips_cons. cbv zeta. cbn [fst snd].
    destruct (IH (S (S (S n)))) as [I1 [I2 I3]].
    pose proof (inRange n) as D0. pose proof (inRange (S n)) as D1.
    assert (T : thin height intensity
                  (Strip.mk (draws (S n) * height) (draws n * 60 * intensity))).
    { unfold thin. cbn [Strip.y Strip.h]. repeat split; nra. }
    destruct (Rgtb (draws (S (S n))) 0.5).
    + split; [constructor; assumption |]. cbn [List.length]. split; lia.
    + split; [assumption |]. split; lia.
Qed.

Lemma scramble_spec (height : R) (params : SceneParams) (flash : R) (n : nat) :
  0 <= height -> 0 <= flash <= 1 ->
  match fst (scramble height params flash draws n) with
  | Some o =>
      0.001 < flash /\
      flashing height params flash n (snd (scramble height params flash draws n)) o
  | None => flash <= 0.001 /\ snd (scramble height params flash draws n) = n
  end.
Proof.
  intros Hh Hf. unfold scramble.
  destruct (Rgtb flash 0.001) eqn:E.
  - apply Rltb_true in E.
    destruct (strips_spec height flash numStrips n Hh Hf) as [S1 [S2 S3]].
    unfold bind, ret, random.
    destruct (strips height flash numStrips draws n) as [filled n1].
    cbn [fst snd] in *. subst n1. unfold numStrips in *.
    destruct (Rgtb flash 0.2) eqn:B; cbn [fst snd];
      (split; [exact E |]); unfold flashing;
      cbn [Scramble.screen Scramble.stripAlpha Scramble.filled Scramble.banner].
    + apply Rltb_true in B. repeat split; try assumption; try lia.
      match goal with |- context [Rgtb ?a 0.5] => destruct (Rgtb a 0.5) end;
        [left | right]; reflexivity.
    + apply Rltb_false in B. repeat split; try assumption; lia.
  - apply Rltb_false in E. cbn. split; [exact E | reflexivity].
Qed.

End Overlay.

Section Seen.

Variable toString36 : R -> string.

(** The flash that the compositor of a tick reads. *)
Lemma onResults_flash (t : Tick) (s : Session) (frame : Composite.t) :
  snd (onResults toString36 t s) = Some frame ->
  Composite.flash frame = (if fires t s then 1 else resetFlashRef s) /\
  sceneParamsRef (fst (onResults toString36 t s)) =
    (if fires t s then fst (generateNewScene toString36 (draws t) 0%nat)
     else sceneParamsRef s).
Proof.
  unfold fires, blinks, ears, onResults.
  destruct (isMounted t); cbn [andb negb]; [| discriminate].
  destruct (surface t); cbn [andb negb]; [| discriminate].
  destruct (firstFace t) as [landmarks |].
  - destruct (at_ landmarks HEAD_NOSE_INDEX) as [nose |]; [| discriminate].
    destruct (calculateEAR landmarks LEFT_EYE_INDICES) as [l |]; [| discriminate].
    destruct (calculateEAR landmarks RIGHT_EYE_INDICES) as [r |]; [| discriminate].
    intros H.
    match type of H with context [finish t ?x] =>
      destruct (finish_frame t x frame H) as [_ [_ [H3 [H4 _]]]];
      match x with context [capture t landmarks ?y] =>
        pose proof (capture_control t landmarks y) as Hc
      end
    end.
    apply control_eq in Hc. destruct Hc as [_ [Hc2 [_ [Hc4 _]]]].
    rewrite H3, H4, Hc2, Hc4. unfold detectBlink.
    destruct (lessThan l BLINK_THRESHOLD && lessThan r BLINK_THRESHOLD);
      cbn [andb setTargetHeadPos blinkCooldownRef resetFlashRef sceneParamsRef];
      [| split; reflexivity].
    destruct (blinkCooldownRef s <=? 0)%Z;
      cbn [resetScene setBlinkCooldown setTargetHeadPos blinkCooldownRef
           resetFlashRef sceneParamsRef];
      split; try reflexivity. lra.
  - intros H.
    match type of H with context [finish t ?x] =>
      destruct (finish_frame t x frame H) as [_ [_ [H3 [H4 _]]]]
    end.
    rewrite H3, H4. cbn [andb setTargetHeadPos resetFlashRef sceneParamsRef].
    split; reflexivity.
Qed.

Lemma run_flash_range (ticks : list Tick) (s : Session) :
  0 <= resetFlashRef s <= 0.85 ->
  0 <= resetFlashRef (run toString36 ticks s) <= 0.85.
Proof.
  revert s. induction ticks as [| t ticks IH]; intros s Hs; [exact Hs |].
  rewrite run_cons. apply IH.
  pose proof (onResults_blink_state toString36 t s) as H. cbv zeta in H.
  destruct (completes t).
  - destruct H as [_ [H2 _]]. rewrite H2.
    destruct (fires t s).
    + rewrite decayFlash_above by lra. lra.
    + pose proof (decayFlash_le (resetFlashRef s)). lra.
  - destruct H as [_ [H2 _]]. rewrite H2. exact Hs.
Qed.

End Seen.

(** X19. In every frame that a reachable session renders, stage 5 paints
    nothing and reads no random number when the flash it sees is at most
    0.001.  Otherwise it reads 24 draws for eight candidate strips, fills at
    most eight of them, each inside the canvas height and less than 60
    pixels high, and writes the banner, with one more draw, exactly when the
    flash exceeds 0.2.  On the tick of a reset the flash it sees is 1. *)
Theorem scramble_overlay_in_range (toString36 : R -> string) (draws0 stream : nat -> R)
  (ticks : list Tick) (t : Tick) (frame : Composite.t) (n : nat) :
  unitDraws stream ->
  0 <= canvasHeight t ->
  let s := run toString36 ticks (initialSession toString36 draws0) in
  let s' := fst (onResults toString36 t s) in
  snd (onResults toString36 t s) = Some frame ->
  let flash := Composite.flash frame in
  let painted := scramble (canvasHeight t) (sceneParamsRef s') flash stream n in
  flash = (if fires t s then 1 else resetFlashRef s) /\
  0 <= flash <= 1 /\
  match fst painted with
  | Some o =>
      0.001 < flash /\
      flashing (canvasHeight t) (sceneParamsRef s') flash n (snd painted) o
  | None => flash <= 0.001 /\ snd painted = n
  end.
Proof.
  intros Hd Hh s s' Hf flash painted.
  destruct (onResults_flash toString36 t s frame Hf) as [H1 _].
  assert (Hr : 0 <= flash <= 1).
  { subst flash. rewrite H1.
    pose proof (run_flash_range toString36 ticks (initialSession toString36 draws0)) as R0.
    fold s in R0. cbn [initialSession resetFlashRef] in R0.
    destruct (fires t s); lra. }
  split; [exact H1 |]. split; [exact Hr |].
  subst painted. apply scramble_spec; assumption.
Qed.

Lemma scramble_overlay_in_range_witness :
  let s := initialSession sampleToString36 (constantDraws 0.5) in
  exists frame,
    snd (onResults sampleToString36 closedEyesTick s) = Some frame /\
    0 <= Composite.flash frame <= 1.
Proof.
  destruct (closedEyesTick_renders sampleToString36
              (initialSession sampleToString36 (constantDraws 0.5)))
    as [[frame Hf] _].
  exists frame. split; [exact Hf |].
  assert (Hh : 0 <= canvasHeight closedEyesTick) by (cbn; lra).
  destruct (scramble_overlay_in_range sampleToString36 (constantDraws 0.5)
              (constantDraws 0.5) [] closedEyesTick frame 0%nat
              constantDraws_unit Hh Hf) as [_ [H _]].
  exact H.
Defined.

Lemma pow_085_9 : 0.2 < 0.85 ^ 9.
Proof.
  assert (H4 : 0.522 < 0.85 ^ 4) by (cbn [pow]; lra).
  replace (0.85 ^ 9) with (0.85 ^ 4 * 0.85 ^ 4 * 0.85) by (cbn [pow]; ring).
  nra.
Qed.

Lemma pow_085_10 : 0.85 ^ 10 < 0.2.
Proof.
  assert (H4 : 0.85 ^ 4 < 0.5221) by (cbn [pow]; lra).
  assert (H0 : 0 < 0.85 ^ 4) by (cbn [pow]; lra).
  replace (0.85 ^ 10) with (0.85 ^ 4 * 0.85 ^ 4 * (0.85 * 0.85)) by (cbn [pow]; ring).
  nra.
Qed.

(** The flash that the render [j] frames after a reset sees, as long as no
    other reset happens. *)
Lemma decay_pow (j : nat) : (j <= 43)%nat -> Nat.iter j decayFlash 1 = 0.85 ^ j.
Proof.
  intros Hj. destruct j as [| j]; [reflexivity |].
  rewrite (decay_alive 1 j); [ring | lra |].
  pose proof (pow_085_antitone j 42 ltac:(lia)). pose proof pow_085_42. lra.
Qed.

(** X20. After a reset the scramble overlay is painted in exactly 43
    consecutive frames and its banner is written in exactly the first ten
    of them, as long as no other reset intervenes: the frame j ticks after
    the reset sees the flash 0.85^j, which exceeds 0.2 up to j = 9 and
    0.001 up to j = 42. *)
Theorem banner_lasts_ten_frames (height : R) (params : SceneParams)
  (stream : nat -> R) (n j : nat) :
  let flash := Nat.iter j decayFlash 1 in
  let overlay := fst (scramble height params flash stream n) in
  (overlay <> None <-> (j <= 42)%nat) /\
  (bannered overlay <-> (j <= 9)%nat) /\
  (flash = if (j <=? 43)%nat then 0.85 ^ j else 0).
Proof.
  cbv zeta.
  assert (Hf : Nat.iter j decayFlash 1 = if (j <=? 43)%nat then 0.85 ^ j else 0).
  { destruct (j <=? 43)%nat eqn:E.
    - apply Nat.leb_le in E. apply decay_pow. exact E.
    - apply Nat.leb_gt in E. replace j with (44 + (j - 44))%nat by lia.
      apply decay_dies. lra. }
  assert (Hlow : (43 <= j)%nat -> Nat.iter j decayFlash 1 <= 0.001).
  { intros H. rewrite Hf. destruct (j <=? 43)%nat eqn:E; [| lra].
    apply Nat.leb_le in E. replace j with 43%nat by lia.
    pose proof pow_085_43. lra. }
  assert (Hhigh : (j <= 42)%nat -> 0.001 < Nat.iter j decayFlash 1).
  { intros H. rewrite decay_pow by lia.
    pose proof (pow_085_antitone j 42 H). pose proof pow_085_42. lra. }
  assert (H9 : (j <= 9)%nat -> 0.2 < Nat.iter j decayFlash 1).
  { intros H. rewrite decay_pow by lia.
    pose proof (pow_085_antitone j 9 H). pose proof pow_085_9. lra. }
  assert (H10 : (10 <= j)%nat -> Nat.iter j decayFlash 1 < 0.2).
  { intros H. destruct (Nat.le_gt_cases j 42) as [L | L].
    - rewrite decay_pow by lia.
      pose proof (pow_085_antitone 10 j H). pose proof pow_085_10. lra.
    - specialize (Hlow ltac:(lia)). lra. }
  split; [| split; [| exact Hf]].
  - unfold scramble. split.
    + intros H. destruct (Nat.le_gt_cases j 42) as [L | L]; [exact L |].
      exfalso. apply H.
      replace (Rgtb (Nat.iter j decayFlash 1) 0.001) with false; [reflexivity |].
      symmetry. apply Rltb_false. apply Hlow. lia.
    + intros L.
      replace (Rgtb (Nat.iter j decayFlash 1) 0.001) with true
        by (symmetry; apply Rltb_true; apply Hhigh; exact L).
      unfold bind, ret. destruct (strips _ _ _ _ _).
      destruct (Rgtb (Nat.iter j decayFlash 1) 0.2); cbn; discriminate.
  - unfold bannered, scramble. split.
    + intros [x [c [Hx Hc]]]. destruct (Nat.le_gt_cases j 9) as [L | L]; [exact L |].
      exfalso. destruct (Rgtb (Nat.iter j decayFlash 1) 0.001); [| discriminate].
      replace (Rgtb (Nat.iter j decayFlash 1) 0.2) with false in Hx
        by (symmetry; apply Rltb_false; left; apply H10; lia).
      unfold bind, ret in Hx. destruct (strips _ _ _ _ _) in Hx. cbn in Hx.
      injection Hx as <-. discriminate.
    + intros L.
      replace (Rgtb (Nat.iter j decayFlash 1) 0.001) with true
        by (symmetry; apply Rltb_true; apply Hhigh; lia).
      replace (Rgtb (Nat.iter j decayFlash 1) 0.2) with true
        by (symmetry; apply Rltb_true; apply H9; exact L).
      unfold bind, ret, random. destruct (strips _ _ _ _ _). cbn [fst snd].
      eexists _, _. split; reflexivity.
Qed.

(** ** Stages 4 and 5 on one stream *)

Lemma strips_cursor (draws : nat -> R) (height intensity : R) (todo n : nat) :
  snd (strips height intensity todo draws n) = (n + 3 * todo)%nat.
Proof.
  revert n. induction todo as [| todo IH]; intros n; [cbn; lia |].
  rewrite strips_cons. cbn [snd]. rewrite IH. lia.
Qed.

Lemma scramble_cursor (draws : nat -> R) (height : R) (params : SceneParams)
  (flash : R) (n : nat) :
  snd (scramble height params flash draws n) =
    (if Rgtb flash 0.001 then if Rgtb flash 0.2 then n + 25 else n + 24 else n)%nat.
Proof.
  unfold scramble. destruct (Rgtb flash 0.001); [| reflexivity].
  unfold bind, ret, random.
  pose proof (strips_cursor draws height flash numStrips n) as H.
  destruct (strips height flash numStrips draws n) as [filled n1].
  cbn [snd] in H. subst n1. unfold numStrips.
  destruct (Rgtb flash 0.2); cbn [snd]; lia.
Qed.

Lemma paintShapes_spec (draws : nat -> R) (px py : R)
  (drawn : list (RenderedShape.t * ImageBitmap)) (n : nat) :
  unitDraws draws ->
  Forall2 layered drawn (fst (paintShapes px py drawn draws n)) /\
  (n + 8 * List.length drawn <= snd (paintShapes px py drawn draws n)
   <= n + 16 * List.length drawn)%nat.
Proof.
  intros Hd. revert n. induction drawn as [| [item b] rest IH]; intros n.
  - cbn. split; [constructor | lia].
  - rewrite paintShapes_cons. cbn [fst snd List.length].
    destruct (trail_spec draws Hd px py item n)
      as [far [near [main [E [K1 [K2 [K3 [V1 [V2 [V3 [_ [_ [T B]]]]]]]]]]]]].
    destruct (IH (snd (trail px py item trailCount draws n))) as [I1 I2].
    split; [| lia].
    constructor; [| exact I1].
    rewrite E. unfold layered. cbn [fst map]. rewrite K1, K2, K3.
    split; [reflexivity |]. split.
    + repeat (constructor; [assumption |]). constructor.
    + exists main. split; [reflexivity | exact T].
Qed.

(** X21. One call of the compositor paints, for every shape it draws and in
    drawing order, the three layers 2, 1, 0 with the main layer last, then
    the scramble overlay.  With d drawn shapes it reads between 8d and
    16d + 25 random numbers: 8 to 16 for each shape, then none, 24 or 25
    for the overlay according to whether the flash exceeds 0.001 and 0.2. *)
Theorem render_reads_bounded_randomness (stream : nat -> R) (width height : R)
  (s : Session) (drawn : list (RenderedShape.t * ImageBitmap)) (n : nat) :
  unitDraws stream ->
  let painted := paint width height s drawn stream n in
  let d := List.length drawn in
  Forall2 layered drawn (fst (fst painted)) /\
  snd (fst painted) =
    fst (scramble height (sceneParamsRef s) (resetFlashRef s) stream
           (snd (paintShapes ((Point.x (headPosRef s) - 0.5) * width)
                   ((Point.y (headPosRef s) - 0.5) * height) drawn stream n))) /\
  (n + 8 * d <= snd painted <= n + 16 * d + 25)%nat /\
  (resetFlashRef s <= 0.001 -> (snd painted <= n + 16 * d)%nat).
Proof.
  intros Hd. cbv zeta. unfold paint, bind, ret.
  set (px := (Point.x (headPosRef s) - 0.5) * width).
  set (py := (Point.y (headPosRef s) - 0.5) * height).
  destruct (paintShapes_spec stream px py drawn n Hd) as [P1 P2].
  destruct (paintShapes px py drawn stream n) as [layers n1]. cbn [fst snd] in *.
  pose proof (scramble_cursor stream height (sceneParamsRef s) (resetFlashRef s) n1)
    as C.
  destruct (scramble height (sceneParamsRef s) (resetFlashRef s) stream n1)
    as [overlay n2].
  cbn [fst snd] in *.
  split; [exact P1 |]. split; [reflexivity |]. split.
  - destruct (Rgtb (resetFlashRef s) 0.001); [destruct (Rgtb (resetFlashRef s) 0.2) |];
      lia.
  - intros Hlow.
    replace (Rgtb (resetFlashRef s) 0.001) with false in C
      by (symmetry; apply Rltb_false; exact Hlow).
    lia.
Qed.

Lemma render_reads_bounded_randomness_witness :
  let s := initialSession sampleToString36 (constantDraws 0.5) in
  let item := RenderedShape.mk 0 0 120 (sampleShape 0) in
  (0 + 8 * 1 <= snd (paint 1280 720 s [(item, 0%nat)] (constantDraws 0.5) 0%nat)
   <= 0 + 16 * 1 + 25)%nat.
Proof.
  destruct (render_reads_bounded_randomness (constantDraws 0.5) 1280 720
              (initialSession sampleToString36 (constantDraws 0.5))
              [(RenderedShape.mk 0 0 120 (sampleShape 0), 0%nat)] 0%nat
              constantDraws_unit) as [_ [_ [H _]]].
  exact H.
Defined.

(** ** The frame counter *)

Lemma countFrame_spec (now : R) (m : Meter.t) :
  match snd (countFrame now m) with
  | Some shown =>
      1000 <= now - Meter.lastTime m /\ shown = Meter.frameCount m /\
      Meter.frameCount (fst (countFrame now m)) = 1%Z /\
      Meter.lastTime (fst (countFrame now m)) = now
  | None =>
      now - Meter.lastTime m < 1000 /\
      Meter.frameCount (fst (countFrame now m)) = (Meter.frameCount m + 1)%Z /\
      Meter.lastTime (fst (countFrame now m)) = Meter.lastTime m
  end.
Proof.
  unfold countFrame. destruct (Rleb 1000 (now - Meter.lastTime m)) eqn:E;
    cbn [fst snd Meter.frameCount Meter.lastTime].
  - apply Rleb_true in E. repeat split. exact E.
  - apply Rleb_false in E. repeat split. exact E.
Qed.

Lemma last_default {A : Type} (x : A) (l : list A) (a b : A) :
  last (x :: l) a = last (x :: l) b.
Proof.
  revert x. induction l as [| y l IH]; intros x; [reflexivity |].
  change (last (y :: l) a = last (y :: l) b). apply IH.
Qed.

Lemma countFrames_cons (now : R) (rest : list R) (m : Meter.t) :
  countFrames (now :: rest) m =
    (fst (countFrames rest (fst (countFrame now m))),
     match snd (countFrame now m) with
     | Some shown => (now, shown) :: snd (countFrames rest (fst (countFrame now m)))
     | None => snd (countFrames rest (fst (countFrame now m)))
     end).
Proof.
  cbn [countFrames]. destruct (countFrame now m) as [m1 shown]. cbn [fst snd].
  destruct (countFrames rest m1) as [m2 reports]. reflexivity.
Qed.

(** X22. The frame counter loses no callback: after any sequence of
    callbacks, the numbers passed to [setFps] and the pending count add up
    to the count at the start plus the number of callbacks.  Two updates of
    the display are at least 1000 ms apart on the clock of the callbacks,
    the first one at least 1000 ms after the last recorded time; the time
    recorded at the end is that of the last update; every update but the
    first shows at least 1, and the pending count is at least 1 after a
    callback. *)
Theorem fps_counts_every_callback (nows : list R) (m : Meter.t) :
  let m' := fst (countFrames nows m) in
  let reports := snd (countFrames nows m) in
  (total (map snd reports) + Meter.frameCount m' =
   Meter.frameCount m + Z.of_nat (List.length nows))%Z /\
  spaced (Meter.lastTime m) (map fst reports) /\
  Meter.lastTime m' = last (map fst reports) (Meter.lastTime m) /\
  Forall (fun shown => (1 <= shown)%Z) (tl (map snd reports)) /\
  (nows <> [] -> (0 <= Meter.frameCount m)%Z -> (1 <= Meter.frameCount m')%Z) /\
  (forall shown, hd_error (map snd reports) = Some shown ->
                 (Meter.frameCount m <= shown)%Z).
Proof.
  cbv zeta. revert m. induction nows as [| now rest IH]; intros m.
  - cbn. repeat split; try lia; try constructor.
    + intros H. contradiction.
    + intros shown H. discriminate.
  - rewrite countFrames_cons. cbn [fst snd].
    pose proof (countFrame_spec now m) as H.
    destruct (IH (fst (countFrame now m))) as [I1 [I2 [I3 [I4 [I5 I6]]]]].
    set (m1 := fst (countFrame now m)) in *.
    set (rs := snd (countFrames rest m1)) in *.
    assert (Hpos : (0 <= Meter.frameCount m)%Z -> (1 <= Meter.frameCount (fst (countFrames rest m1)))%Z).
    { intros H0. destruct rest as [| x rest'].
      - cbn [countFrames fst]. destruct (snd (countFrame now m)); lia.
      - apply I5; [discriminate |]. destruct (snd (countFrame now m)); lia. }
    destruct (snd (countFrame now m)) as [shown |].
    + destruct H as [H1 [H2 [H3 H4]]].
      cbn [map fst snd total fold_right List.length tl hd_error].
      fold (total (map snd rs)). rewrite H4 in I2, I3.
      repeat split.
      * rewrite Nat2Z.inj_succ. lia.
      * exact H1.
      * exact I2.
      * rewrite I3. destruct (map fst rs) as [| r l]; [reflexivity |].
        change (last (r :: l) now = last (r :: l) (Meter.lastTime m)).
        apply last_default.
      * destruct (map snd rs) as [| z zs] eqn:E; [constructor |].
        constructor; [| exact I4].
        specialize (I6 z eq_refl). lia.
      * intros _. exact Hpos.
      * intros x Hx. injection Hx as <-. lia.
    + destruct H as [H1 [H2 H3]]. rewrite H3 in I2, I3.
      repeat split.
      * cbn [List.length]. rewrite Nat2Z.inj_succ. lia.
      * exact I2.
      * exact I3.
      * exact I4.
      * intros _. exact Hpos.
      * intros x Hx. specialize (I6 x Hx). lia.
Qed.

(** ** The order of the history buffer *)

Lemma falling_weaken (top top' : R) (times : list R) :
  top <= top' -> falling top times -> falling top' times.
Proof.
  intros H. destruct times as [| time rest]; [trivial |].
  cbn [falling]. intros [H1 H2]. split; [lra | exact H2].
Qed.

Lemma falling_firstn (top : R) (times : list R) (n : nat) :
  falling top times -> falling top (firstn n times).
Proof.
  revert top n. induction times as [| time rest IH]; intros top n H.
  - destruct n; exact H.
  - destruct n as [| n]; [exact I |]. cbn [firstn falling] in *.
    destruct H as [H1 H2]. split; [exact H1 | apply IH; exact H2].
Qed.

Lemma firstn_incl {A : Type} (n : nat) (l : list A) (x : A) :
  In x (firstn n l) -> In x l.
Proof.
  revert n. induction l as [| y l IH]; intros n H.
  - destruct n; exact H.
  - destruct n as [| n]; [destruct H |]. cbn [firstn] in H.
    destruct H as [H | H]; [left; exact H | right; apply (IH n); exact H].
Qed.

Lemma stamps_firstn (history : list FrameHistory) (n : nat) :
  stamps (firstn n history) = firstn n (stamps history).
Proof. unfold stamps. symmetry. apply firstn_map. Qed.

Section Stamps.

Variable toString36 : R -> string.

Lemma capture_step (t : Tick) (face : list Point) (s : Session) :
  (List.length (historyRef s) <= MAX_HISTORY)%nat ->
  historyRef (capture t face s) = historyRef s \/
  exists l r,
    historyRef (capture t face s) =
      newFrame t l r :: firstn (MAX_HISTORY - 1) (historyRef s).
Proof.
  intros Hlen. unfold capture.
  destruct (extractEye face LEFT_EYE_INDICES (videoWidth t) (videoHeight t))
    as [[cl |] |];
    destruct (extractEye face RIGHT_EYE_INDICES (videoWidth t) (videoHeight t))
      as [[cr |] |];
    cbn [settle];
    repeat match goal with
           | |- context [resolves t ?c] => destruct (resolves t c)
           end;
    cbn [historyRef]; try (left; reflexivity).
  right. eexists _, _. rewrite pushHistory_firstn by exact Hlen. reflexivity.
Qed.

Lemma onResults_step (t : Tick) (s : Session) :
  (List.length (historyRef s) <= MAX_HISTORY)%nat ->
  historyRef (fst (onResults toString36 t s)) = historyRef s \/
  exists l r,
    historyRef (fst (onResults toString36 t s)) =
      newFrame t l r :: firstn (MAX_HISTORY - 1) (historyRef s).
Proof.
  intros Hlen. destruct (ears t) as [[l r] |] eqn:He.
  - destruct (onResults_capture toString36 t l r s He)
      as [face [s1 [_ [Hh1 [_ [_ [Hh _]]]]]]].
    rewrite Hh, <- Hh1. apply capture_step. rewrite Hh1. exact Hlen.
  - destruct (onResults_no_ears toString36 t s He) as [Hh _]. left. exact Hh.
Qed.

Lemma run_stamps (ticks : list Tick) (s : Session) (top : R) :
  bounded s ->
  falling top (stamps (historyRef s)) ->
  Forall (fun t => top <= now t) ticks ->
  ascending (map now ticks) ->
  exists top',
    falling top' (stamps (historyRef (run toString36 ticks s))) /\
    forall f, In f (historyRef (run toString36 ticks s)) ->
              In f (historyRef s) \/ exists t, In t ticks /\ stamped (now t) f.
Proof.
  revert s top. induction ticks as [| t ticks IH]; intros s top Hb Hf Ht Ha.
  - exists top. split; [exact Hf |]. intros f H. left. exact H.
  - rewrite run_cons. cbn [map ascending] in Ha. destruct Ha as [Ha1 Ha2].
    inversion Ht as [| ? ? Ht1 Ht2]; subst.
    assert (Hb' : bounded (fst (onResults toString36 t s))).
    { change (bounded (run toString36 [t] s)). apply run_bounded. exact Hb. }
    destruct Hb as [Hlen _].
    assert (Hlater : Forall (fun u => now t <= now u) ticks).
    { rewrite Forall_map in Ha1. exact Ha1. }
    destruct (onResults_step t s Hlen) as [E | [l [r E]]].
    + destruct (IH (fst (onResults toString36 t s)) top Hb') as [top' [I1 I2]];
        [rewrite E; exact Hf | exact Ht2 | exact Ha2 |].
      exists top'. split; [exact I1 |]. intros f H.
      destruct (I2 f H) as [H0 | [u [Hu Hs]]].
      * left. rewrite E in H0. exact H0.
      * right. exists u. split; [right; exact Hu | exact Hs].
    + destruct (IH (fst (onResults toString36 t s)) (now t) Hb') as [top' [I1 I2]];
        [| exact Hlater | exact Ha2 |].
      * rewrite E. cbn [stamps map falling newFrame FrameHistory.leftEye
                        EyeData.timestamp].
        split; [lra |]. fold (stamps (firstn (MAX_HISTORY - 1) (historyRef s))).
        rewrite stamps_firstn. apply falling_firstn.
        apply falling_weaken with top; assumption.
      * exists top'. split; [exact I1 |]. intros f H.
        destruct (I2 f H) as [H0 | [u [Hu Hs]]].
        -- rewrite E in H0. destruct H0 as [<- | H0].
           ++ right. exists t. split; [left; reflexivity |].
              unfold stamped. cbn. repeat split.
           ++ left. apply (firstn_incl _ _ _ H0).
        -- right. exists u. split; [right; exact Hu | exact Hs].
Qed.

End Stamps.

(** X23. When the clock of the callbacks never goes back, the history
    buffer is ordered newest first: no stored frame has a later time stamp
    than the frame before it.  Every stored frame was written by one of the
    ticks, carries the time of that tick on both eyes, and has bounds that
    are all zero: the crop rectangle is never recorded. *)
Theorem history_is_newest_first (toString36 : R -> string) (draws0 : nat -> R)
  (ticks : list Tick) :
  ascending (map now ticks) ->
  let s := run toString36 ticks (initialSession toString36 draws0) in
  (exists top, falling top (stamps (historyRef s))) /\
  Forall (fun f => exists t, In t ticks /\ stamped (now t) f) (historyRef s).
Proof.
  intros Ha s.
  destruct ticks as [| t0 ticks].
  - cbn. split; [exists 0; exact I | constructor].
  - destruct (run_stamps toString36 (t0 :: ticks) (initialSession toString36 draws0)
                (now t0)) as [top [H1 H2]].
    + apply initial_bounded.
    + exact I.
    + cbn [map ascending] in Ha. destruct Ha as [Ha _].
      constructor; [lra |]. rewrite Forall_map in Ha. exact Ha.
    + exact Ha.
    + split; [exists top; exact H1 |].
      apply Forall_forall. intros f Hf.
      destruct (H2 f Hf) as [H0 | H0]; [destruct H0 | exact H0].
Qed.

Lemma history_is_newest_first_witness :
  let s := run sampleToString36 [closedEyesTick; closedEyesTick]
             (initialSession sampleToString36 (constantDraws 0.5)) in
  exists top, falling top (stamps (historyRef s)).
Proof.
  assert (Ha : ascending (map now [closedEyesTick; closedEyesTick])).
  { cbn. repeat split; try constructor; try lra; constructor. }
  destruct (history_is_newest_first sampleToString36 (constantDraws 0.5)
              [closedEyesTick; closedEyesTick] Ha) as [H _].
  exact H.
Defined.

(** ** Remainders in stages 1 and 6 *)

Lemma trunc_spec (r : R) :
  Rabs (IZR (trunc r)) <= Rabs r /\ Rabs (r - IZR (trunc r)) < 1 /\
  (0 <= r -> 0 <= IZR (trunc r) <= r) /\ (r <= 0 -> r <= IZR (trunc r) <= 0).
Proof.
  unfold trunc. destruct (Rleb 0 r) eqn:E.
  - apply Rleb_true in E. destruct (base_Int_part r) as [H1 H2].
    assert (H0 : 0 <= IZR (Int_part r)).
    { apply IZR_le. apply Z.lt_succ_r. apply lt_IZR. rewrite succ_IZR. lra. }
    rewrite (Rabs_pos_eq r), (Rabs_pos_eq (IZR (Int_part r))) by assumption.
    rewrite Rabs_pos_eq by lra.
    repeat split; lra.
  - apply Rleb_false in E. destruct (base_Int_part (- r)) as [H1 H2].
    rewrite opp_IZR.
    assert (H0 : 0 <= IZR (Int_part (- r))).
    { apply IZR_le. apply Z.lt_succ_r. apply lt_IZR. rewrite succ_IZR. lra. }
    rewrite (Rabs_left r) by lra.
    rewrite Rabs_left1 by lra. rewrite Rabs_left1 by lra.
    repeat split; lra.
Qed.

Lemma remainder_spec (a b : R) :
  b <> 0 ->
  exists r (q : Z),
    remainder a b = Finite r /\ a = r + b * IZR q /\ Rabs r < Rabs b /\
    (0 <= a -> 0 < b -> 0 <= r) /\ (a <= 0 -> 0 < b -> r <= 0).
Proof.
  intros Hb. unfold remainder.
  replace (Reqb b 0) with false by (symmetry; apply Reqb_false; exact Hb).
  exists (a - b * IZR (trunc (a / b))), (trunc (a / b)).
  destruct (trunc_spec (a / b)) as [_ [T2 [T3 T4]]].
  assert (E : a - b * IZR (trunc (a / b)) = b * (a / b - IZR (trunc (a / b)))).
  { field. exact Hb. }
  split; [reflexivity |]. split; [ring |]. split; [| split].
  - rewrite E, Rabs_mult. pose proof (Rabs_pos_lt b Hb).
    rewrite <- (Rmult_1_r (Rabs b)) at 2. apply Rmult_lt_compat_l; assumption.
  - intros Ha Hp. rewrite E.
    assert (0 <= a / b) by (apply Rmult_le_pos; [exact Ha | left; apply Rinv_0_lt_compat; exact Hp]).
    specialize (T3 H). apply Rmult_le_pos; lra.
  - intros Ha Hp. rewrite E.
    assert (a / b <= 0).
    { unfold Rdiv. pose proof (Rinv_0_lt_compat b Hp). nra. }
    specialize (T4 H). nra.
Qed.

(** X24. The moving bar of stage 6 starts between one bar height above the
    canvas and its bottom edge, whenever the canvas has a height and the
    clock is not negative; on a canvas of height 0 its position is [NaN].
    The first grid line of stage 1 lies less than 100 pixels from 0, on the
    side of the parallax, and differs from a tenth of the parallax by a
    multiple of 100. *)
Theorem bar_and_grid_positions (clock height parallax : R) :
  0 <= clock ->
  (0 < height ->
   exists y, barTop clock height = Finite y /\ - (height * 0.25) <= y < height) /\
  barTop clock 0 = NaN /\
  exists x (q : Z),
    gridStart parallax = Finite x /\ Rabs x < 100 /\
    parallax * 0.1 = x + 100 * IZR q /\
    (0 <= parallax -> 0 <= x) /\ (parallax <= 0 -> x <= 0).
Proof.
  intros Hc. split; [| split].
  - intros Hh. unfold barTop. cbv zeta.
    destruct (remainder_spec (clock * 0.0003 * height * 0.8) (height + height * 0.25))
      as [r [q [E [_ [H1 [H2 _]]]]]]; [lra |].
    rewrite E. cbn [minus]. exists (r - height * 0.25). split; [reflexivity |].
    assert (0 <= r) by (apply H2; nra).
    rewrite (Rabs_pos_eq r) in H1 by assumption.
    rewrite (Rabs_pos_eq (height + height * 0.25)) in H1 by lra. lra.
  - unfold barTop, remainder. cbv zeta.
    replace (Reqb (0 + 0 * 0.25) 0) with true; [reflexivity |].
    symmetry. apply Reqb_true. lra.
  - unfold gridStart. cbv zeta.
    destruct (remainder_spec (parallax * 0.1) 100) as [r [q [E [H0 [H1 [H2 H3]]]]]];
      [lra |].
    exists r, q. rewrite (Rabs_pos_eq 100) in H1 by lra.
    repeat split; try assumption.
    + intros Hp. apply H2; lra.
    + intros Hp. apply H3; lra.
Qed.

Lemma bar_and_grid_positions_witness :
  exists y, barTop 1000 720 = Finite y /\ - (720 * 0.25) <= y < 720.
Proof.
  assert (Hc : 0 <= 1000) by lra.
  assert (Hh : 0 < 720) by lra.
  destruct (bar_and_grid_positions 1000 720 0 Hc) as [H _].
  exact (H Hh).
Defined.

(** * Binary64 arithmetic *)

(** ** Shifting a mantissa to the right *)

Lemma iter_pos_nat {A : Type} (f : A -> A) (p : positive) (x : A) :
  SpecFloat.iter_pos f p x = Nat.iter (Pos.to_nat p) f x.
Proof.
  revert x. induction p as [p IH | p IH |]; intros x; cbn [SpecFloat.iter_pos].
  - rewrite !IH. rewrite Pos2Nat.inj_xI.
    replace (S (2 * Pos.to_nat p)) with (Pos.to_nat p + (Pos.to_nat p + 1))%nat by lia.
    rewrite !Nat.iter_add. reflexivity.
  - rewrite !IH. rewrite Pos2Nat.inj_xO.
    replace (2 * Pos.to_nat p)%nat with (Pos.to_nat p + Pos.to_nat p)%nat by lia.
    rewrite Nat.iter_add. reflexivity.
  - reflexivity.
Qed.

Lemma shr_1_nonneg (m : Z) (r s : bool) :
  (0 <= m)%Z ->
  shr_1 (Build_shr_record m r s) = Build_shr_record (m / 2) (Z.odd m) (r || s).
Proof.
  intros Hm. destruct m as [| p | p]; [reflexivity | | lia].
  destruct p as [p | p |]; cbn [shr_1].
  - replace (Z.pos p~1 / 2)%Z with (Z.pos p); [reflexivity |].
    rewrite Pos2Z.inj_xI. apply Z.div_unique with 1%Z; lia.
  - replace (Z.pos p~0 / 2)%Z with (Z.pos p); [reflexivity |].
    rewrite Pos2Z.inj_xO. apply Z.div_unique with 0%Z; lia.
  - reflexivity.
Qed.


Lemma half_S (n : nat) : half (S n) = (2 ^ Z.of_nat n)%Z.
Proof.
  unfold half. rewrite Nat2Z.inj_succ, Z.pow_succ_r by lia.
  rewrite Z.mul_comm, Z.div_mul by lia. reflexivity.
Qed.

Lemma half_0 : half 0 = 0%Z.
Proof. reflexivity. Qed.

(** What [n] shifts keep of [m0]: the quotient, the bit below it and
    whether anything lies below that bit. *)
Lemma shr_iter (m0 : Z) (n : nat) :
  (0 <= m0)%Z ->
  exists m r s t,
    Nat.iter n shr_1 (Build_shr_record m0 false false) = Build_shr_record m r s /\
    (0 <= m)%Z /\
    m0 = (m * 2 ^ Z.of_nat n + (if r then half n else 0) + t)%Z /\
    (0 <= t)%Z /\ (t = 0 \/ t < half n)%Z /\ s = negb (t =? 0)%Z /\
    (r = true -> (0 < n)%nat).
Proof.
  intros H0. induction n as [| n IH].
  - exists m0, false, false, 0%Z. cbn. repeat split; lia.
  - destruct IH as [m [r [s [t [E [Hm [Hv [Ht [Hlt [Hs Hr]]]]]]]]]].
    rewrite Nat.iter_succ, E, shr_1_nonneg by exact Hm.
    exists (m / 2)%Z, (Z.odd m), (r || s)%bool, ((if r then half n else 0) + t)%Z.
    assert (Hh : (0 <= half n)%Z).
    { unfold half. apply Z.div_pos; [apply Z.pow_nonneg |]; lia. }
    assert (Hp : (0 < 2 ^ Z.of_nat n)%Z) by (apply Z.pow_pos_nonneg; lia).
    split; [reflexivity |]. split; [apply Z.div_pos; lia |].
    rewrite half_S. split; [| split; [| split; [| split]]].
    + rewrite Nat2Z.inj_succ, Z.pow_succ_r by lia.
      pose proof (Zdiv2_odd_eqn m) as Hd. rewrite Z.div2_div in Hd.
      rewrite Hv at 1. rewrite Hd at 1.
      destruct (Z.odd m); destruct r; lia.
    + destruct r; lia.
    + right.
      destruct n as [| n'].
      * rewrite half_0 in *. destruct r; [specialize (Hr eq_refl); lia |].
        cbn. lia.
      * rewrite half_S in *. rewrite Nat2Z.inj_succ, Z.pow_succ_r by lia.
        assert (0 < 2 ^ Z.of_nat n')%Z by (apply Z.pow_pos_nonneg; lia).
        destruct r; lia.
    + subst s. destruct r.
      * specialize (Hr eq_refl). destruct n as [| n']; [lia |].
        rewrite half_S in *.
        assert (0 < 2 ^ Z.of_nat n')%Z by (apply Z.pow_pos_nonneg; lia).
        cbn [orb]. symmetry. apply negb_true_iff. apply Z.eqb_neq. lia.
      * cbn [orb]. rewrite Z.add_0_l. reflexivity.
    + intros _. lia.
Qed.

(** Rounding to the nearest integer, ties to even, of [m0 / 2^n]. *)
Lemma round_shr (m0 : Z) (n : nat) :
  (0 <= m0)%Z ->
  let mrs := Nat.iter n shr_1 (Build_shr_record m0 false false) in
  let m1 := round_nearest_even (shr_m mrs) (loc_of_shr_record mrs) in
  (0 <= m1)%Z /\
  (2 * Z.abs (m1 * 2 ^ Z.of_nat n - m0) <= 2 ^ Z.of_nat n)%Z /\
  ((2 * Z.abs (m1 * 2 ^ Z.of_nat n - m0) = 2 ^ Z.of_nat n)%Z ->
   (0 < n)%nat /\ Z.even m1 = true).
Proof.
  intros H0 mrs m1.
  destruct (shr_iter m0 n H0) as [m [r [s [t [E [Hm [Hv [Ht [Hlt [Hs Hr]]]]]]]]]].
  subst mrs m1. rewrite E. cbn [shr_m loc_of_shr_record].
  assert (Hp : (0 < 2 ^ Z.of_nat n)%Z) by (apply Z.pow_pos_nonneg; lia).
  destruct n as [| n'].
  - rewrite half_0 in *. assert (t = 0)%Z by lia. subst t.
    destruct r; [specialize (Hr eq_refl); lia |]. subst s.
    change (2 ^ Z.of_nat 0)%Z with 1%Z in *.
    cbn [negb Z.eqb round_nearest_even].
    split; [lia |]. split; [lia |]. intros H. lia.
  - rewrite half_S in *. rewrite Nat2Z.inj_succ, Z.pow_succ_r in * by lia.
    assert (Hq : (0 < 2 ^ Z.of_nat n')%Z) by (apply Z.pow_pos_nonneg; lia).
    set (h := (2 ^ Z.of_nat n')%Z) in *.
    destruct r; subst s.
    + destruct (Z.eqb_spec t 0) as [Et | Hne]; cbn [negb round_nearest_even].
      * destruct (Z.even m) eqn:Ev.
        -- split; [lia |]. split; [lia |]. intros _. split; [lia | exact Ev].
        -- split; [lia |]. split; [lia |]. intros _. split; [lia |].
           rewrite Z.even_add, Ev. reflexivity.
      * split; [lia |]. split; [lia |]. intros H. lia.
    + destruct (Z.eqb_spec t 0) as [Et | Hne]; cbn [negb round_nearest_even].
      * split; [lia |]. split; [lia |]. intros H. lia.
      * split; [lia |]. split; [lia |]. intros H. lia.
Qed.


Lemma bpow_pos (e : Z) : 0 < bpow e.
Proof. apply powerRZ_lt. lra. Qed.

Lemma bpow_add (a b : Z) : bpow (a + b) = bpow a * bpow b.
Proof. apply powerRZ_add. lra. Qed.

Lemma bpow_IZR (n : Z) : (0 <= n)%Z -> bpow n = IZR (2 ^ n).
Proof.
  intros Hn. unfold bpow. destruct n as [| p | p]; [reflexivity | | lia].
  rewrite <- Z.pow_pos_fold. rewrite Zpower_pos_powerRZ. reflexivity.
Qed.

Lemma bpow_ge_1 (n : Z) : (0 <= n)%Z -> 1 <= bpow n.
Proof.
  intros Hn. rewrite bpow_IZR by exact Hn. apply IZR_le.
  assert (0 < 2 ^ n)%Z by (apply Z.pow_pos_nonneg; lia). lia.
Qed.

Lemma bpow_le (a b : Z) : (a <= b)%Z -> bpow a <= bpow b.
Proof.
  intros H. replace b with (a + (b - a))%Z by lia. rewrite bpow_add.
  pose proof (bpow_pos a). pose proof (bpow_ge_1 (b - a) ltac:(lia)). nra.
Qed.

Lemma bpow_succ (e : Z) : bpow (e + 1) = 2 * bpow e.
Proof. rewrite bpow_add. change (bpow 1) with (2 * 1). ring. Qed.

Lemma bpow_lt (a b : Z) : (a < b)%Z -> bpow a < bpow b.
Proof.
  intros H. pose proof (bpow_le (a + 1) b ltac:(lia)) as H1.
  rewrite bpow_succ in H1. pose proof (bpow_pos a). lra.
Qed.

Lemma bpow_lt_inv (a b : Z) : bpow a < bpow b -> (a < b)%Z.
Proof.
  intros H. destruct (Z.lt_ge_cases a b) as [L | L]; [exact L |].
  pose proof (bpow_le b a L). lra.
Qed.


Lemma fexp_fexp64 (e : Z) : fexp prec emax e = fexp64 e.
Proof. reflexivity. Qed.


(** ** Digits *)

Lemma digits2_size (p : positive) : digits2_pos p = Pos.size p.
Proof. induction p as [p IH | p IH |]; cbn; rewrite ?IH; reflexivity. Qed.

Lemma digits2_bounds (p : positive) :
  (2 ^ (Z.pos (digits2_pos p) - 1) <= Z.pos p < 2 ^ Z.pos (digits2_pos p))%Z.
Proof.
  rewrite digits2_size. split.
  - pose proof (Pos.size_le p) as H.
    assert (H2 : (2 ^ Z.pos (Pos.size p) <= 2 * Z.pos p)%Z).
    { rewrite <- Pos2Z.inj_pow. change (2 * Z.pos p)%Z with (Z.pos p~0).
      apply Pos2Z.pos_le_pos. exact H. }
    replace (Z.pos (Pos.size p)) with (Z.pos (Pos.size p) - 1 + 1)%Z in H2 by lia.
    rewrite Z.pow_add_r in H2 by lia. lia.
  - pose proof (Pos.size_gt p) as H.
    rewrite <- Pos2Z.inj_pow. apply Pos2Z.pos_lt_pos. exact H.
Qed.

Lemma digits2_unique (p : positive) (n : Z) :
  (2 ^ (n - 1) <= Z.pos p < 2 ^ n)%Z -> Z.pos (digits2_pos p) = n.
Proof.
  intros [H1 H2]. pose proof (digits2_bounds p) as [B1 B2].
  set (d := Z.pos (digits2_pos p)) in *.
  assert (Hd : (0 < d)%Z) by (subst d; lia).
  assert (Hn : (0 < n)%Z).
  { destruct (Z.lt_ge_cases 0 n) as [L | L]; [exact L |].
    destruct (Z.eq_dec n 0) as [-> | Hz]; [cbn in H2; lia |].
    rewrite (Z.pow_neg_r 2 n) in H2 by lia. lia. }
  destruct (Z.lt_trichotomy d n) as [L | [E | L]]; [| exact E |].
  - assert (2 ^ d <= 2 ^ (n - 1))%Z by (apply Z.pow_le_mono_r; lia). lia.
  - assert (2 ^ n <= 2 ^ (d - 1))%Z by (apply Z.pow_le_mono_r; lia). lia.
Qed.

(** The binade of a positive mantissa with an exponent. *)
Lemma mag_bounds (m : positive) (e : Z) :
  bpow (Z.pos (digits2_pos m) + e - 1) <= IZR (Z.pos m) * bpow e
    < bpow (Z.pos (digits2_pos m) + e).
Proof.
  pose proof (digits2_bounds m) as [B1 B2].
  set (d := Z.pos (digits2_pos m)) in *.
  assert (Hd : (0 < d)%Z) by (subst d; lia).
  replace (d + e - 1)%Z with ((d - 1) + e)%Z by lia.
  rewrite !bpow_add, (bpow_IZR (d - 1)), (bpow_IZR d) by lia.
  pose proof (bpow_pos e). apply IZR_le in B1. apply IZR_lt in B2.
  split; nra.
Qed.

Lemma mag_unique (v : R) (a b : Z) :
  bpow (a - 1) <= v < bpow a -> bpow (b - 1) <= v < bpow b -> a = b.
Proof.
  intros [A1 A2] [B1 B2].
  assert (a - 1 < b)%Z by (apply bpow_lt_inv; lra).
  assert (b - 1 < a)%Z by (apply bpow_lt_inv; lra).
  lia.
Qed.

(** ** Rounding to nearest, ties to even *)


Lemma shr_fexp_exact (m e : Z) :
  let k := (fexp64 (Zdigits2 m + e) - e)%Z in
  shr_fexp prec emax m e loc_Exact =
    (Nat.iter (Z.to_nat k) shr_1 (Build_shr_record m false false),
     (e + Z.max k 0)%Z).
Proof.
  intros k. unfold shr_fexp, shr. rewrite fexp_fexp64. fold k.
  cbn [shr_record_of_loc].
  destruct k as [| p | p] eqn:E.
  - cbn [Z.to_nat Nat.iter]. f_equal; lia.
  - rewrite iter_pos_nat. cbn [Z.to_nat]. f_equal; lia.
  - cbn [Z.to_nat Nat.iter]. f_equal; lia.
Qed.

Lemma Zdigits2_pos (p : positive) : Zdigits2 (Z.pos p) = Z.pos (digits2_pos p).
Proof. reflexivity. Qed.

Lemma two_53 : (2 ^ 53 = 9007199254740992)%Z.
Proof. reflexivity. Qed.

Lemma two_52 : (2 ^ 52 = 4503599627370496)%Z.
Proof. reflexivity. Qed.

(** The mantissa after the first rounding fits, up to a carry. *)
Lemma round_fits (M : positive) (k m1 : Z) :
  let d := Z.pos (digits2_pos M) in
  (0 <= k)%Z -> (0 <= m1)%Z ->
  (2 * Z.abs (m1 * 2 ^ k - Z.pos M) <= 2 ^ k)%Z ->
  ((k = d - 53)%Z -> (2 ^ 52 <= m1 <= 2 ^ 53)%Z) /\
  ((d - 53 < k)%Z -> (m1 <= 2 ^ 52)%Z).
Proof.
  intros d Hk Hm H. pose proof (digits2_bounds M) as [B1 B2]. fold d in B1, B2.
  assert (Hd : (0 < d)%Z) by (subst d; lia).
  assert (HK : (0 < 2 ^ k)%Z) by (apply Z.pow_pos_nonneg; lia).
  split.
  - intros E.
    assert (E1 : (2 ^ (d - 1) = 2 ^ 52 * 2 ^ k)%Z).
    { rewrite <- Z.pow_add_r by lia. f_equal. lia. }
    assert (E2 : (2 ^ d = 2 ^ 53 * 2 ^ k)%Z).
    { rewrite <- Z.pow_add_r by lia. f_equal. lia. }
    rewrite E1 in B1. rewrite E2 in B2. rewrite two_52, two_53 in *.
    set (K := (2 ^ k)%Z) in *. split; nia.
  - intros L.
    assert (E2 : (2 ^ d <= 2 ^ 52 * 2 ^ k)%Z).
    { rewrite <- Z.pow_add_r by lia. apply Z.pow_le_mono_r; lia. }
    rewrite two_52 in *. set (K := (2 ^ k)%Z) in *. nia.
Qed.

Lemma digits2_le (p : positive) (n : Z) :
  (0 <= n)%Z -> (Z.pos p <= 2 ^ n)%Z -> (Z.pos (digits2_pos p) <= n + 1)%Z.
Proof.
  intros Hn H. pose proof (digits2_bounds p) as [B1 _].
  destruct (Z.le_gt_cases (Z.pos (digits2_pos p)) (n + 1)) as [L | L]; [exact L |].
  assert (2 ^ (n + 1) <= 2 ^ (Z.pos (digits2_pos p) - 1))%Z
    by (apply Z.pow_le_mono_r; lia).
  rewrite Z.pow_add_r in H0 by lia. change (2 ^ 1)%Z with 2%Z in H0.
  assert (0 < 2 ^ n)%Z by (apply Z.pow_pos_nonneg; lia). lia.
Qed.

(** The core of multiplication and addition: the rounding of a positive
    mantissa that is at least as fine as the format asks. *)
Lemma round_aux (M : positive) (e : Z) :
  let d := Z.pos (digits2_pos M) in
  (e <= fexp64 (d + e))%Z -> (d + e <= 1023)%Z ->
  let f := binary_round_aux prec emax false (Z.pos M) e loc_Exact in
  (f = S754_zero false \/ exists m2 e2, f = S754_finite false m2 e2) /\
  rounded (IZR (Z.pos M) * bpow e) (SF2R f).
Proof.
  intros d He Hmax f.
  set (e1 := fexp64 (d + e)) in *.
  set (k := (e1 - e)%Z).
  assert (Hk : (0 <= k)%Z) by (subst k; lia).
  pose proof (shr_fexp_exact (Z.pos M) e) as S1. cbv zeta in S1.
  rewrite Zdigits2_pos in S1. fold d in S1. fold e1 in S1. fold k in S1.
  replace (e + Z.max k 0)%Z with e1 in S1 by lia.
  pose proof (round_shr (Z.pos M) (Z.to_nat k) ltac:(lia)) as [R0 [R1 R2]].
  rewrite Z2Nat.id in R1, R2 by exact Hk.
  set (mrs := Nat.iter (Z.to_nat k) shr_1 _) in *.
  set (m1 := round_nearest_even (shr_m mrs) (loc_of_shr_record mrs)) in *.
  destruct (round_fits M k m1 Hk R0 R1) as [F1 F2]. fold d in F1, F2.
  assert (Hunit : bpow e1 = IZR (2 ^ k) * bpow e).
  { replace e1 with (k + e)%Z by (subst k; lia).
    rewrite bpow_add, bpow_IZR by lia. reflexivity. }
  assert (Hval : IZR m1 * bpow e1 - IZR (Z.pos M) * bpow e =
                 IZR (m1 * 2 ^ k - Z.pos M) * bpow e).
  { rewrite Hunit, minus_IZR, mult_IZR. ring. }
  assert (Hr : forall r, r = IZR m1 * bpow e1 ->
                         rounded (IZR (Z.pos M) * bpow e) r).
  { intros r ->. exists (d + e)%Z, m1. fold e1.
    split; [apply mag_bounds |]. split; [exact R0 |]. split; [reflexivity |].
    pose proof (bpow_pos e) as Hpe.
    rewrite Hval, Rabs_mult, (Rabs_pos_eq (bpow e)), <- abs_IZR, Hunit by lra.
    split.
    - apply IZR_le in R1. rewrite mult_IZR in R1. nra.
    - intros Heq. apply R2. apply eq_IZR. rewrite mult_IZR.
      apply Rmult_eq_reg_r with (bpow e); lra. }
  assert (Hfe : (fexp64 e1 <= e1)%Z) by (subst e1; unfold fexp64; lia).
  assert (Hge : (-1074 <= e1 <= 970)%Z) by (subst e1; unfold fexp64; lia).
  subst f. unfold binary_round_aux. rewrite S1. cbv beta iota zeta.
  fold m1.
  pose proof (shr_fexp_exact m1 e1) as S2. cbv zeta in S2.
  destruct m1 as [| p1 | p1] eqn:Em; [| | lia].
  - cbn [Zdigits2] in S2. rewrite Z.add_0_l in S2.
    replace (Z.to_nat (fexp64 e1 - e1)) with 0%nat in S2 by lia.
    rewrite S2. unfold Nat.iter. cbn [nat_rect shr_m]. split; [left; reflexivity |].
    apply Hr. cbn [SF2R]. rewrite Rmult_0_l. reflexivity.
  - rewrite Zdigits2_pos in S2.
    assert (Hcases :
      (Z.pos p1 = 2 ^ 53 /\ e1 = d + e - 53)%Z \/
      (Z.pos (digits2_pos p1) + e1 - 53 <= e1 /\ (Z.pos p1 < 2 ^ 53))%Z).
    { destruct (Z.le_gt_cases (-1074) (d + e - 53)) as [Hn | Hs].
      - assert (E1 : e1 = (d + e - 53)%Z) by (subst e1; unfold fexp64; lia).
        destruct (F1 ltac:(lia)) as [L U].
        destruct (Z.eq_dec (Z.pos p1) (2 ^ 53)) as [Ec | Hnc]; [left; lia |].
        right. split; [| lia].
        rewrite (digits2_unique p1 53); [lia |].
        change (53 - 1)%Z with 52%Z. lia.
      - assert (E1 : e1 = (-1074)%Z) by (subst e1; unfold fexp64; lia).
        specialize (F2 ltac:(lia)). right.
        pose proof (digits2_le p1 52 ltac:(lia) F2). rewrite two_52 in F2.
        rewrite two_53. lia. }
    destruct Hcases as [[Ec E1] | [Hd1 Hlt]].
    + rewrite two_53 in Ec. injection Ec as Ec. subst p1.
      replace (fexp64 (Z.pos (digits2_pos 9007199254740992) + e1) - e1)%Z
        with 1%Z in S2.
      2:{ change (Z.pos (digits2_pos 9007199254740992)) with 54%Z.
          unfold fexp64. lia. }
      change (Nat.iter (Z.to_nat 1) shr_1
                {| shr_m := 9007199254740992; shr_r := false; shr_s := false |})
        with {| shr_m := 4503599627370496; shr_r := false; shr_s := false |} in S2.
      rewrite S2. cbn [shr_m].
      replace (Z.leb (e1 + Z.max 1 0) (Z.sub emax prec)) with true.
      2:{ symmetry. apply Z.leb_le. change (Z.sub emax prec) with 971%Z. lia. }
      split; [right; eexists _, _; reflexivity |].
      apply Hr. cbn [SF2R].
      replace (e1 + Z.max 1 0)%Z with (e1 + 1)%Z by lia.
      rewrite bpow_succ. rewrite Rmult_1_l.
      change 9007199254740992%Z with (2 * 4503599627370496)%Z.
      rewrite mult_IZR. ring.
    + replace (Z.to_nat (fexp64 (Z.pos (digits2_pos p1) + e1) - e1)) with 0%nat in S2.
      2:{ unfold fexp64. lia. }
      replace (Z.max (fexp64 (Z.pos (digits2_pos p1) + e1) - e1) 0) with 0%Z in S2.
      2:{ unfold fexp64. lia. }
      rewrite S2. unfold Nat.iter. cbn [nat_rect shr_m]. rewrite Z.add_0_r.
      replace (Z.leb e1 (Z.sub emax prec)) with true.
      2:{ symmetry. apply Z.leb_le. change (Z.sub emax prec) with 971%Z. lia. }
      split; [right; eexists _, _; reflexivity |].
      apply Hr. cbn [SF2R]. ring.
Qed.

Lemma fexp64_mono (a b : Z) : (a <= b)%Z -> (fexp64 a <= fexp64 b)%Z.
Proof. unfold fexp64. lia. Qed.

(** An integer below a half-integer. *)
Lemma IZR_half_le (N K : Z) : IZR N < IZR K + 1 -> (N <= K)%Z.
Proof.
  intros H. apply Z.lt_succ_r. apply lt_IZR. rewrite succ_IZR. exact H.
Qed.

(** Rounding never passes the ends of the binade. *)
Lemma rounded_binade (v r : R) (mag : Z) :
  rounded v r -> bpow (mag - 1) <= v < bpow mag ->
  r <= bpow mag /\ ((-1074 < fexp64 mag)%Z -> bpow (mag - 1) <= r).
Proof.
  intros [mag' [N [Hm [HN [-> [He _]]]]]] Hv.
  rewrite (mag_unique v mag' mag Hm Hv) in *. clear Hm mag'.
  set (u := bpow (fexp64 mag)) in *.
  assert (Hu : 0 < u) by apply bpow_pos.
  assert (Hb : - (u / 2) <= IZR N * u - v <= u / 2).
  { unfold Rabs in He. destruct (Rcase_abs (IZR N * u - v)); lra. }
  split.
  - destruct (Z.le_gt_cases (fexp64 mag) mag) as [L | L].
    + assert (E : bpow mag = IZR (2 ^ (mag - fexp64 mag)) * u).
      { unfold u. rewrite <- bpow_IZR, <- bpow_add by lia. f_equal. lia. }
      rewrite E. apply Rmult_le_compat_r; [lra |]. apply IZR_le.
      apply IZR_half_le. rewrite E in Hv. nra.
    + assert (bpow mag <= u / 2).
      { assert (Hu2 : u = 2 * bpow (fexp64 mag - 1)).
        { unfold u. rewrite <- bpow_succ. f_equal. lia. }
        pose proof (bpow_le mag (fexp64 mag - 1) ltac:(lia)). lra. }
      assert (IZR N < 0 + 1) by nra.
      apply IZR_half_le in H0. assert (IZR N <= 0) by (apply IZR_le; exact H0).
      pose proof (bpow_pos mag). nra.
  - intros Hn.
    assert (Ef : fexp64 mag = (mag - 53)%Z) by (unfold fexp64 in *; lia).
    assert (E : bpow (mag - 1) = IZR (2 ^ 52) * u).
    { unfold u. rewrite <- bpow_IZR, <- bpow_add by lia. f_equal. lia. }
    rewrite E. apply Rmult_le_compat_r; [lra |]. apply IZR_le.
    rewrite E in Hv.
    assert (IZR (2 ^ 52 - 1) < IZR N).
    { rewrite minus_IZR. nra. }
    apply lt_IZR in H. lia.
Qed.

(** Rounding is monotone. *)
Lemma rounded_mono (v v' r r' : R) :
  rounded v r -> rounded v' r' -> v <= v' -> r <= r'.
Proof.
  intros Hr Hr' Hle.
  pose proof Hr as [mag [N [Hm [HN [Er [He Ht]]]]]].
  pose proof Hr' as [mag' [N' [Hm' [HN' [Er' [He' Ht']]]]]].
  assert (Hmag : (mag <= mag')%Z).
  { assert (H0 : bpow (mag - 1) < bpow mag') by lra.
    apply bpow_lt_inv in H0. lia. }
  destruct (Z.eq_dec (fexp64 mag) (fexp64 mag')) as [Eu | Hu].
  - rewrite <- Eu in *. set (u := bpow (fexp64 mag)) in *.
    assert (Hu : 0 < u) by apply bpow_pos.
    destruct (Rle_lt_dec r r') as [L | L]; [exact L | exfalso].
    assert (HNN : (N' + 1 <= N)%Z).
    { assert (IZR N' < IZR N) by (subst r r'; nra). apply lt_IZR in H. lia. }
    apply IZR_le in HNN. rewrite plus_IZR in HNN.
    assert (Hb : - (u / 2) <= r - v <= u / 2).
    { unfold Rabs in He. destruct (Rcase_abs (r - v)); lra. }
    assert (Hb' : - (u / 2) <= r' - v' <= u / 2).
    { unfold Rabs in He'. destruct (Rcase_abs (r' - v')); lra. }
    assert (E1 : r - v = u / 2) by (subst r r'; nra).
    assert (E2 : r' - v' = - (u / 2)) by (subst r r'; nra).
    assert (E3 : IZR N = IZR N' + 1) by (subst r r'; nra).
    assert (T1 : Z.even N = true).
    { apply Ht. rewrite E1. rewrite Rabs_pos_eq by lra. lra. }
    assert (T2 : Z.even N' = true).
    { apply Ht'. rewrite E2. rewrite Rabs_left1 by lra. lra. }
    rewrite <- plus_IZR in E3. apply eq_IZR in E3. subst N.
    rewrite Z.even_add, T2 in T1. discriminate.
  - assert (Hlt : (mag < mag')%Z).
    { destruct (Z.eq_dec mag mag') as [-> | Hne]; [contradiction | lia]. }
    assert (Hn : (-1074 < fexp64 mag')%Z).
    { pose proof (fexp64_mono mag mag' Hmag). unfold fexp64 in *. lia. }
    destruct (rounded_binade v r mag Hr Hm) as [U _].
    destruct (rounded_binade v' r' mag' Hr' Hm') as [_ L].
    specialize (L Hn). pose proof (bpow_le mag (mag' - 1) ltac:(lia)). lra.
Qed.

Lemma rounded_unique (v r r' : R) : rounded v r -> rounded v r' -> r = r'.
Proof.
  intros H H'. apply Rle_antisym.
  - apply (rounded_mono v v r r' H H'). lra.
  - apply (rounded_mono v v r' r H' H). lra.
Qed.

(** The rounding error below a power of two. *)
Lemma rounded_error (v r : R) (g : Z) :
  rounded v r -> v < bpow g -> 2 * Rabs (r - v) <= bpow (fexp64 g).
Proof.
  intros [mag [N [[Hv _] [_ [_ [He _]]]]]] Hg.
  assert (mag - 1 < g)%Z by (apply bpow_lt_inv; lra).
  pose proof (bpow_le (fexp64 mag) (fexp64 g) (fexp64_mono mag g ltac:(lia))).
  lra.
Qed.

(** ** Valid numbers *)

Lemma valid_finite (s : bool) (m : positive) (e : Z) :
  valid_binary (S754_finite s m e) = true ->
  fexp64 (Z.pos (digits2_pos m) + e) = e /\ (e <= 971)%Z.
Proof.
  cbn [SpecFloat.valid_binary]. unfold SpecFloat.bounded, canonical_mantissa.
  rewrite fexp_fexp64. intros H. apply andb_true_iff in H. destruct H as [H1 H2].
  apply Z.eqb_eq in H1. apply Z.leb_le in H2. split; [exact H1 | exact H2].
Qed.

(** A number of the format is its own rounding. *)
Lemma rounded_self (m : positive) (e : Z) :
  fexp64 (Z.pos (digits2_pos m) + e) = e ->
  rounded (IZR (Z.pos m) * bpow e) (IZR (Z.pos m) * bpow e).
Proof.
  intros H. exists (Z.pos (digits2_pos m) + e)%Z, (Z.pos m). rewrite H.
  split; [apply mag_bounds |]. split; [lia |]. split; [reflexivity |].
  rewrite Rminus_diag, Rabs_R0, Rmult_0_r. pose proof (bpow_pos e).
  split; [lra |]. intros E. lra.
Qed.


Lemma nonneg_value (f : spec_float) : nonneg f -> 0 <= SF2R f.
Proof.
  destruct f as [s | s | | s m e]; cbn; try lra; try tauto.
  destruct s; [tauto |]. intros _. pose proof (bpow_pos e).
  assert (0 < IZR (Z.pos m)) by (apply IZR_lt; lia). nra.
Qed.

Lemma finite_value (m : positive) (e : Z) : 0 < IZR (Z.pos m) * bpow e.
Proof.
  pose proof (bpow_pos e). assert (0 < IZR (Z.pos m)) by (apply IZR_lt; lia). nra.
Qed.

(** ** Multiplication *)

Lemma digits2_mul (mx my : positive) :
  (Z.pos (digits2_pos mx) + Z.pos (digits2_pos my) - 1
   <= Z.pos (digits2_pos (mx * my)))%Z.
Proof.
  pose proof (digits2_bounds mx) as [X1 _]. pose proof (digits2_bounds my) as [Y1 _].
  pose proof (digits2_bounds (mx * my)) as [_ P2].
  set (dx := Z.pos (digits2_pos mx)) in *. set (dy := Z.pos (digits2_pos my)) in *.
  set (d := Z.pos (digits2_pos (mx * my))) in *.
  assert (Hdx : (0 < dx)%Z) by (subst dx; lia).
  assert (Hdy : (0 < dy)%Z) by (subst dy; lia).
  assert (Hd : (0 < d)%Z) by (subst d; lia).
  rewrite Pos2Z.inj_mul in P2.
  assert (H : (2 ^ (dx - 1 + (dy - 1)) < 2 ^ d)%Z).
  { rewrite Z.pow_add_r by lia.
    assert (0 < 2 ^ (dx - 1))%Z by (apply Z.pow_pos_nonneg; lia).
    assert (0 < 2 ^ (dy - 1))%Z by (apply Z.pow_pos_nonneg; lia). nia. }
  apply Z.pow_lt_mono_r_iff in H; lia.
Qed.

Lemma SFmul_nonneg (x y : spec_float) :
  valid_binary x = true -> valid_binary y = true -> nonneg x -> nonneg y ->
  SF2R x * SF2R y < bpow 1023 ->
  nonneg (SF64mul x y) /\
  (SF2R x * SF2R y = 0 -> SF2R (SF64mul x y) = 0) /\
  (0 < SF2R x * SF2R y -> rounded (SF2R x * SF2R y) (SF2R (SF64mul x y))).
Proof.
  intros Vx Vy Nx Ny Hb. unfold SF64mul.
  destruct x as [sx | sx | | sx mx ex]; try contradiction;
    destruct y as [sy | sy | | sy my ey]; try contradiction;
    cbn [SFmul SF2R nonneg] in *.
  - split; [exact I |]. split; [reflexivity | lra].
  - split; [exact I |]. split; [reflexivity | lra].
  - split; [exact I |]. split; [reflexivity | lra].
  - destruct sx; [contradiction |]. destruct sy; [contradiction |].
    cbn [xorb]. rewrite !Rmult_1_l in *.
    destruct (valid_finite _ _ _ Vx) as [Cx _].
    destruct (valid_finite _ _ _ Vy) as [Cy _].
    pose proof (digits2_mul mx my) as Hd.
    pose proof (digits2_bounds mx) as [_ X2].
    pose proof (digits2_bounds my) as [_ Y2].
    assert (Ev : IZR (Z.pos mx) * bpow ex * (IZR (Z.pos my) * bpow ey) =
                 IZR (Z.pos (mx * my)) * bpow (ex + ey)).
    { rewrite Pos2Z.inj_mul, mult_IZR, bpow_add. ring. }
    rewrite Ev in *.
    pose proof (mag_bounds (mx * my) (ex + ey)) as [M1 M2].
    assert (Hmax : (Z.pos (digits2_pos (mx * my)) + (ex + ey) <= 1023)%Z).
    { assert (H : bpow (Z.pos (digits2_pos (mx * my)) + (ex + ey) - 1) < bpow 1023)
        by lra.
      apply bpow_lt_inv in H. lia. }
    assert (Hfine : (ex + ey <=
                     fexp64 (Z.pos (digits2_pos (mx * my)) + (ex + ey)))%Z).
    { unfold fexp64 in *. lia. }
    destruct (round_aux (mx * my) (ex + ey) Hfine Hmax) as [Hshape Hrnd].
    split; [| split].
    + destruct Hshape as [-> | [m2 [e2 ->]]]; exact I.
    + intros E. pose proof (finite_value (mx * my) (ex + ey)). lra.
    + intros _. exact Hrnd.
Qed.

(** ** Addition *)

Lemma iter_xO (m d : positive) : Z.pos (Pos.iter xO m d) = (Z.pos m * 2 ^ Z.pos d)%Z.
Proof.
  revert m. induction d as [| d IH] using Pos.peano_ind; intros m.
  - cbn [Pos.iter]. rewrite Pos2Z.inj_xO. change (2 ^ 1)%Z with 2%Z. lia.
  - rewrite Pos.iter_succ, Pos2Z.inj_xO, IH, Pos2Z.inj_succ, Z.pow_succ_r by lia. lia.
Qed.

Lemma shl_align_spec (m : positive) (e e' : Z) :
  let r := shl_align m e e' in
  (snd r = Z.min e e') /\ (Z.pos (fst r) = Z.pos m * 2 ^ (e - snd r))%Z.
Proof.
  unfold shl_align. destruct (e' - e)%Z as [| d | d] eqn:E; cbn [fst snd].
  - split; [lia |]. rewrite Z.sub_diag. lia.
  - split; [lia |]. rewrite Z.sub_diag. lia.
  - split; [lia |]. rewrite iter_xO. f_equal. f_equal. lia.
Qed.

Lemma digits2_shift (m m' : positive) (n : Z) :
  (0 <= n)%Z -> (Z.pos m' = Z.pos m * 2 ^ n)%Z ->
  Z.pos (digits2_pos m') = (Z.pos (digits2_pos m) + n)%Z.
Proof.
  intros Hn E. apply digits2_unique. rewrite E.
  pose proof (digits2_bounds m) as [B1 B2].
  set (d := Z.pos (digits2_pos m)) in *.
  assert (Hd : (0 < d)%Z) by (subst d; lia).
  replace (d + n - 1)%Z with (d - 1 + n)%Z by lia.
  rewrite !Z.pow_add_r by lia.
  assert (0 < 2 ^ n)%Z by (apply Z.pow_pos_nonneg; lia). nia.
Qed.

(** The rounding of a positive mantissa with any exponent. *)
Lemma round_any (M : positive) (e : Z) :
  IZR (Z.pos M) * bpow e < bpow 1023 ->
  let f := binary_round prec emax false M e in
  (f = S754_zero false \/ exists m2 e2, f = S754_finite false m2 e2) /\
  rounded (IZR (Z.pos M) * bpow e) (SF2R f).
Proof.
  intros Hb f. subst f. unfold binary_round. rewrite fexp_fexp64.
  set (e1 := fexp64 (Z.pos (digits2_pos M) + e)).
  destruct (shl_align_spec M e e1) as [S1 S2].
  destruct (shl_align M e e1) as [mz ez]. cbn [fst snd] in *.
  assert (Hn : (0 <= e - ez)%Z) by lia.
  pose proof (digits2_shift M mz (e - ez) Hn S2) as Hd.
  assert (Ev : IZR (Z.pos mz) * bpow ez = IZR (Z.pos M) * bpow e).
  { rewrite S2, mult_IZR, <- bpow_IZR by lia.
    replace e with ((e - ez) + ez)%Z at 2 by lia. rewrite bpow_add. ring. }
  rewrite <- Ev in *.
  pose proof (mag_bounds mz ez) as [M1 M2].
  assert (Hmax : (Z.pos (digits2_pos mz) + ez <= 1023)%Z).
  { assert (H : bpow (Z.pos (digits2_pos mz) + ez - 1) < bpow 1023) by lra.
    apply bpow_lt_inv in H. lia. }
  assert (Hfine : (ez <= fexp64 (Z.pos (digits2_pos mz) + ez))%Z).
  { rewrite Hd. replace (Z.pos (digits2_pos M) + (e - ez) + ez)%Z
      with (Z.pos (digits2_pos M) + e)%Z by lia. fold e1. lia. }
  exact (round_aux mz ez Hfine Hmax).
Qed.

Lemma SFadd_nonneg (x y : spec_float) :
  valid_binary x = true -> valid_binary y = true -> nonneg x -> nonneg y ->
  SF2R x + SF2R y < bpow 1023 ->
  nonneg (SF64add x y) /\
  (SF2R x + SF2R y = 0 -> SF2R (SF64add x y) = 0) /\
  (0 < SF2R x + SF2R y -> rounded (SF2R x + SF2R y) (SF2R (SF64add x y))).
Proof.
  intros Vx Vy Nx Ny Hb. unfold SF64add.
  destruct x as [sx | sx | | sx mx ex]; try contradiction;
    destruct y as [sy | sy | | sy my ey]; try contradiction;
    cbn [SFadd SF2R nonneg] in *.
  - split; [| split].
    + destruct sx, sy; exact I.
    + intros _. destruct sx, sy; reflexivity.
    + lra.
  - destruct sy; [contradiction |]. split; [exact I |]. split.
    + intros E. pose proof (finite_value my ey). lra.
    + intros _. rewrite Rplus_0_l, Rmult_1_l.
      apply rounded_self. apply (valid_finite _ _ _ Vy).
  - destruct sx; [contradiction |]. split; [exact I |]. split.
    + intros E. pose proof (finite_value mx ex). lra.
    + intros _. rewrite Rplus_0_r, Rmult_1_l.
      apply rounded_self. apply (valid_finite _ _ _ Vx).
  - destruct sx; [contradiction |]. destruct sy; [contradiction |].
    cbn [cond_Zopp]. rewrite !Rmult_1_l in *.
    set (ez := Z.min ex ey).
    destruct (shl_align_spec mx ex ez) as [X1 X2].
    destruct (shl_align_spec my ey ez) as [Y1 Y2].
    replace (snd (shl_align mx ex ez)) with ez in X2 by (rewrite X1; lia).
    replace (snd (shl_align my ey ez)) with ez in Y2 by (rewrite Y1; lia).
    rewrite X2, Y2.
    assert (Hx : (0 <= ex - ez)%Z) by lia. assert (Hy : (0 <= ey - ez)%Z) by lia.
    assert (Px : (0 < 2 ^ (ex - ez))%Z) by (apply Z.pow_pos_nonneg; lia).
    assert (Py : (0 < 2 ^ (ey - ez))%Z) by (apply Z.pow_pos_nonneg; lia).
    destruct (Z.pos mx * 2 ^ (ex - ez) + Z.pos my * 2 ^ (ey - ez))%Z
      as [| M | M] eqn:EM; [lia | | lia].
    cbn [binary_normalize].
    assert (Ev : IZR (Z.pos M) * bpow ez =
                 IZR (Z.pos mx) * bpow ex + IZR (Z.pos my) * bpow ey).
    { rewrite <- EM, plus_IZR, !mult_IZR, <- !bpow_IZR by lia.
      replace ex with ((ex - ez) + ez)%Z at 2 by lia.
      replace ey with ((ey - ez) + ez)%Z at 2 by lia.
      rewrite !bpow_add. ring. }
    rewrite <- Ev in *.
    destruct (round_any M ez Hb) as [Hshape Hrnd].
    split; [| split].
    + destruct Hshape as [-> | [m2 [e2 ->]]]; exact I.
    + intros E. pose proof (finite_value M ez). lra.
    + intros _. exact Hrnd.
Qed.

(** ** Comparison *)

Lemma canonical_lt (m1 m2 : positive) (e1 e2 : Z) :
  fexp64 (Z.pos (digits2_pos m1) + e1) = e1 ->
  fexp64 (Z.pos (digits2_pos m2) + e2) = e2 ->
  (e1 < e2)%Z ->
  IZR (Z.pos m1) * bpow e1 < IZR (Z.pos m2) * bpow e2.
Proof.
  intros C1 C2 Hlt.
  pose proof (digits2_bounds m1) as [_ B1]. pose proof (digits2_bounds m2) as [B2 _].
  assert (D2 : Z.pos (digits2_pos m2) = 53%Z) by (unfold fexp64 in *; lia).
  assert (D1 : (Z.pos (digits2_pos m1) <= 53)%Z) by (unfold fexp64 in *; lia).
  rewrite D2 in B2. change (53 - 1)%Z with 52%Z in B2.
  assert (H1 : (Z.pos m1 < 2 ^ 53)%Z).
  { eapply Z.lt_le_trans; [exact B1 |]. apply Z.pow_le_mono_r; lia. }
  rewrite two_53 in H1. rewrite two_52 in B2.
  apply IZR_lt in H1. apply IZR_le in B2.
  pose proof (bpow_le (e1 + 1) e2 ltac:(lia)) as Hb. rewrite bpow_succ in Hb.
  pose proof (bpow_pos e1). nra.
Qed.

Lemma SFcompare_nonneg (x y : spec_float) :
  valid_binary x = true -> valid_binary y = true -> nonneg x -> nonneg y ->
  SFcompare x y =
    Some (if Rlt_dec (SF2R x) (SF2R y) then Lt
          else if Rlt_dec (SF2R y) (SF2R x) then Gt else Eq).
Proof.
  intros Vx Vy Nx Ny.
  destruct x as [sx | sx | | sx mx ex]; try contradiction;
    destruct y as [sy | sy | | sy my ey]; try contradiction;
    cbn [SFcompare SF2R nonneg] in *.
  - destruct (Rlt_dec 0 0); [lra | reflexivity].
  - destruct sy; [contradiction |]. rewrite Rmult_1_l.
    pose proof (finite_value my ey).
    destruct (Rlt_dec 0 (IZR (Z.pos my) * bpow ey)); [reflexivity | lra].
  - destruct sx; [contradiction |]. rewrite Rmult_1_l.
    pose proof (finite_value mx ex).
    destruct (Rlt_dec (IZR (Z.pos mx) * bpow ex) 0); [lra |].
    destruct (Rlt_dec 0 (IZR (Z.pos mx) * bpow ex)); [reflexivity | lra].
  - destruct sx; [contradiction |]. destruct sy; [contradiction |].
    rewrite !Rmult_1_l.
    destruct (valid_finite _ _ _ Vx) as [Cx _].
    destruct (valid_finite _ _ _ Vy) as [Cy _].
    f_equal. destruct (Z.compare_spec ex ey) as [E | L | L].
    + subst ey. change (Pos.compare_cont Eq mx my) with (Pos.compare mx my).
      pose proof (bpow_pos ex).
      destruct (Pos.compare_spec mx my) as [E | L | L].
      * subst my. destruct (Rlt_dec _ _); [lra | reflexivity].
      * assert (IZR (Z.pos mx) < IZR (Z.pos my)) by (apply IZR_lt; lia).
        destruct (Rlt_dec _ _); [reflexivity | nra].
      * assert (IZR (Z.pos my) < IZR (Z.pos mx)) by (apply IZR_lt; lia).
        destruct (Rlt_dec (IZR (Z.pos mx) * bpow ex) (IZR (Z.pos my) * bpow ex));
          [nra |].
        destruct (Rlt_dec _ _); [reflexivity | nra].
    + pose proof (canonical_lt mx my ex ey Cx Cy L).
      destruct (Rlt_dec _ _); [reflexivity | lra].
    + pose proof (canonical_lt my mx ey ex Cy Cx L).
      destruct (Rlt_dec (IZR (Z.pos mx) * bpow ex) (IZR (Z.pos my) * bpow ey));
        [lra |].
      destruct (Rlt_dec _ _); [reflexivity | lra].
Qed.

Lemma SFleb_nonneg (x y : spec_float) :
  valid_binary x = true -> valid_binary y = true -> nonneg x -> nonneg y ->
  (SFleb x y = true <-> SF2R x <= SF2R y) /\
  (SFltb x y = true <-> SF2R x < SF2R y).
Proof.
  intros Vx Vy Nx Ny. unfold SFleb, SFltb.
  rewrite (SFcompare_nonneg x y Vx Vy Nx Ny).
  destruct (Rlt_dec (SF2R x) (SF2R y)); [| destruct (Rlt_dec (SF2R y) (SF2R x))];
    (split; split; intros H; try reflexivity; try discriminate; try lra).
Qed.

(** What is not below zero and is below a finite bound is finite. *)
Lemma SFleb_zero (x : spec_float) :
  SFleb (S754_zero false) x = true ->
  nonneg x \/ x = S754_infinity false.
Proof.
  destruct x as [s | s | | s m e]; cbn; try discriminate.
  - intros _. left. exact I.
  - destruct s; [discriminate |]. intros _. right. reflexivity.
  - destruct s; [discriminate |]. intros _. left. exact I.
Qed.

(** ** Integer part *)


Lemma SFfloor_spec (f : spec_float) :
  nonneg f -> IZR (SFfloor f) <= SF2R f < IZR (SFfloor f) + 1.
Proof.
  destruct f as [s | s | | s m e]; cbn [nonneg SFfloor SF2R]; try tauto;
    try (intros _; lra).
  destruct s; [tauto |]. intros _. cbn [cond_Zopp]. rewrite Rmult_1_l.
  destruct (Z.le_gt_cases 0 e) as [L | L].
  - rewrite Z.shiftl_mul_pow2 by exact L.
    rewrite mult_IZR, <- bpow_IZR by exact L. lra.
  - rewrite <- Z.shiftr_opp_r, Z.shiftr_div_pow2 by lia.
    assert (Hp : (0 < 2 ^ (- e))%Z) by (apply Z.pow_pos_nonneg; lia).
    pose proof (Z.div_mod (Z.pos m) (2 ^ (- e)) ltac:(lia)) as Hd.
    pose proof (Z.mod_pos_bound (Z.pos m) (2 ^ (- e)) Hp) as Hm.
    set (q := (Z.pos m / 2 ^ (- e))%Z) in *.
    set (t := (Z.pos m mod 2 ^ (- e))%Z) in *.
    assert (Eb : bpow e * IZR (2 ^ (- e)) = 1).
    { rewrite <- bpow_IZR by lia. rewrite <- bpow_add.
      replace (e + - e)%Z with 0%Z by lia. reflexivity. }
    assert (Hv : IZR (Z.pos m) * bpow e = IZR q + IZR t * bpow e).
    { rewrite Hd at 1. rewrite plus_IZR, mult_IZR.
      replace ((IZR (2 ^ (- e)) * IZR q + IZR t) * bpow e)
        with (IZR q * (bpow e * IZR (2 ^ (- e))) + IZR t * bpow e) by ring.
      rewrite Eb. ring. }
    rewrite Hv. pose proof (bpow_pos e).
    destruct Hm as [Hm1 Hm2]. apply IZR_le in Hm1. apply IZR_lt in Hm2.
    split; [nra |].
    assert (IZR t * bpow e < 1); [| lra].
    rewrite <- Eb. rewrite (Rmult_comm (bpow e)). apply Rmult_lt_compat_r; lra.
Qed.

(** ** Doubles *)



Lemma good_value (x : float) : Double.good x -> 0 <= Double.B2R x.
Proof. apply nonneg_value. Qed.

Lemma double_leb (a b : float) :
  Double.good a -> Double.good b -> ((a <=? b)%float = true <-> Double.B2R a <= Double.B2R b).
Proof.
  intros Ga Gb. rewrite leb_spec.
  apply (SFleb_nonneg _ _ (Prim2SF_valid a) (Prim2SF_valid b) Ga Gb).
Qed.

Lemma double_ltb (a b : float) :
  Double.good a -> Double.good b -> ((a <? b)%float = true <-> Double.B2R a < Double.B2R b).
Proof.
  intros Ga Gb. rewrite ltb_spec.
  apply (SFleb_nonneg _ _ (Prim2SF_valid a) (Prim2SF_valid b) Ga Gb).
Qed.

(** A number between zero and a finite bound is finite. *)
Lemma double_good (x c : float) :
  Double.good c -> (0 <=? x)%float = true ->
  (x <=? c)%float = true \/ (x <? c)%float = true -> Double.good x.
Proof.
  intros Gc H0 Hc. rewrite leb_spec in H0.
  change (Prim2SF 0) with (S754_zero false) in H0.
  destruct (SFleb_zero _ H0) as [G | E]; [exact G | exfalso].
  rewrite leb_spec, ltb_spec, E in Hc. unfold Double.good in Gc.
  destruct (Prim2SF c) as [s | s | | s m e]; try contradiction;
    destruct Hc as [Hc | Hc]; cbn in Hc; try discriminate;
    destruct s; discriminate || contradiction.
Qed.

Lemma bpow_1023 : 1000000 < bpow 1023.
Proof.
  pose proof (bpow_le 20 1023 ltac:(lia)) as H.
  rewrite (bpow_IZR 20) in H by lia.
  change (2 ^ 20)%Z with 1048576%Z in H. lra.
Qed.

Lemma double_mul (a b : float) :
  Double.good a -> Double.good b -> Double.B2R a * Double.B2R b < bpow 1023 ->
  Double.good (a * b) /\
  (Double.B2R a * Double.B2R b = 0 -> Double.B2R (a * b) = 0) /\
  (0 < Double.B2R a * Double.B2R b -> rounded (Double.B2R a * Double.B2R b) (Double.B2R (a * b))).
Proof.
  intros Ga Gb Hb. unfold Double.good, Double.B2R. rewrite mul_spec.
  apply SFmul_nonneg; try apply Prim2SF_valid; assumption.
Qed.

Lemma double_add (a b : float) :
  Double.good a -> Double.good b -> Double.B2R a + Double.B2R b < bpow 1023 ->
  Double.good (a + b) /\
  (Double.B2R a + Double.B2R b = 0 -> Double.B2R (a + b) = 0) /\
  (0 < Double.B2R a + Double.B2R b -> rounded (Double.B2R a + Double.B2R b) (Double.B2R (a + b))).
Proof.
  intros Ga Gb Hb. unfold Double.good, Double.B2R. rewrite add_spec.
  apply SFadd_nonneg; try apply Prim2SF_valid; assumption.
Qed.

(** Multiplication and addition are monotone on the finite numbers that are
    not negative. *)
Lemma double_mul_mono (a a' b b' : float) :
  Double.good a -> Double.good a' -> Double.good b -> Double.good b' ->
  Double.B2R a <= Double.B2R a' -> Double.B2R b <= Double.B2R b' -> Double.B2R a' * Double.B2R b' < bpow 1023 ->
  Double.B2R (a * b) <= Double.B2R (a' * b').
Proof.
  intros Ga Ga' Gb Gb' Ha Hb Hmax.
  pose proof (good_value a Ga). pose proof (good_value b Gb).
  pose proof (good_value a' Ga'). pose proof (good_value b' Gb').
  assert (Hle : Double.B2R a * Double.B2R b <= Double.B2R a' * Double.B2R b') by nra.
  destruct (double_mul a b Ga Gb ltac:(lra)) as [G1 [Z1 R1]].
  destruct (double_mul a' b' Ga' Gb' Hmax) as [G2 [Z2 R2]].
  destruct (Req_dec (Double.B2R a * Double.B2R b) 0) as [E | N].
  - rewrite (Z1 E). apply good_value. exact G2.
  - assert (P : 0 < Double.B2R a * Double.B2R b) by nra.
    apply (rounded_mono _ _ _ _ (R1 P) (R2 ltac:(lra)) Hle).
Qed.

Lemma double_add_mono (a a' b b' : float) :
  Double.good a -> Double.good a' -> Double.good b -> Double.good b' ->
  Double.B2R a <= Double.B2R a' -> Double.B2R b <= Double.B2R b' -> Double.B2R a' + Double.B2R b' < bpow 1023 ->
  Double.B2R (a + b) <= Double.B2R (a' + b').
Proof.
  intros Ga Ga' Gb Gb' Ha Hb Hmax.
  pose proof (good_value a Ga). pose proof (good_value b Gb).
  assert (Hle : Double.B2R a + Double.B2R b <= Double.B2R a' + Double.B2R b') by lra.
  destruct (double_add a b Ga Gb ltac:(lra)) as [G1 [Z1 R1]].
  destruct (double_add a' b' Ga' Gb' Hmax) as [G2 [Z2 R2]].
  destruct (Req_dec (Double.B2R a + Double.B2R b) 0) as [E | N].
  - rewrite (Z1 E). apply good_value. exact G2.
  - assert (P : 0 < Double.B2R a + Double.B2R b) by lra.
    apply (rounded_mono _ _ _ _ (R1 P) (R2 ltac:(lra)) Hle).
Qed.

Lemma double_floor (x : float) :
  Double.good x -> IZR (Double.floor x) <= Double.B2R x < IZR (Double.floor x) + 1.
Proof. apply SFfloor_spec. Qed.

Lemma bpow_neg (p : positive) : bpow (Z.neg p) = / IZR (2 ^ Z.pos p).
Proof.
  change (Z.neg p) with (- Z.pos p)%Z. unfold bpow. rewrite powerRZ_neg'.
  fold (bpow (Z.pos p)). rewrite bpow_IZR by lia. reflexivity.
Qed.

(** The value of a literal below [2^52], as a fraction. *)
Ltac value c :=
  let sf := eval vm_compute in (Prim2SF c) in
  lazymatch sf with
  | S754_finite false ?m (Z.neg ?p) =>
      let k := eval vm_compute in (2 ^ Z.pos p)%Z in
      let H := fresh "V" in
      assert (H : Double.B2R c = IZR (Z.pos m) / IZR k)
        by (unfold Double.B2R; replace (Prim2SF c) with sf by (vm_compute; reflexivity);
            cbn [SF2R]; rewrite (bpow_neg p);
            replace (2 ^ Z.pos p)%Z with k by (vm_compute; reflexivity);
            unfold Rdiv; ring)
  | S754_zero _ =>
      let H := fresh "V" in
      assert (H : Double.B2R c = 0)
        by (unfold Double.B2R; replace (Prim2SF c) with sf by (vm_compute; reflexivity);
            reflexivity)
  end.

Lemma B2R_one : Double.B2R 1 = 1.
Proof. value 1%float. rewrite V. lra. Qed.

Lemma good_one : Double.good 1.
Proof. vm_compute. exact I. Qed.

Lemma good_zero : Double.good 0.
Proof. vm_compute. exact I. Qed.

Lemma B2R_zero : Double.B2R 0 = 0.
Proof. reflexivity. Qed.


Lemma good_pred1 : Double.good Double.pred1.
Proof. vm_compute. exact I. Qed.

Lemma B2R_pred1 : Double.B2R Double.pred1 = 1 - bpow (-53).
Proof.
  unfold Double.pred1. value 0x1.fffffffffffffp-1%float. rewrite V.
  rewrite (bpow_neg 53). change (2 ^ 53)%Z with 9007199254740992%Z. lra.
Qed.

(** No number of the format lies strictly between [Double.pred1] and 1. *)
Lemma below_one (x : float) : Double.good x -> Double.B2R x < 1 -> Double.B2R x <= Double.B2R Double.pred1.
Proof.
  intros G H. rewrite B2R_pred1. unfold Double.good, Double.B2R in *.
  pose proof (Prim2SF_valid x) as V.
  destruct (Prim2SF x) as [s | s | | s m e]; try contradiction; cbn [SF2R] in *.
  - pose proof (bpow_lt (-53) 0 ltac:(lia)). change (bpow 0) with 1 in H0. lra.
  - destruct s; [contradiction |]. rewrite Rmult_1_l in *.
    destruct (valid_finite _ _ _ V) as [C _].
    pose proof (mag_bounds m e) as [M1 M2].
    set (d := Z.pos (digits2_pos m)) in *.
    assert (Hd : (d + e <= 0)%Z).
    { assert (L : bpow (d + e - 1) < bpow 0) by (change (bpow 0) with 1; lra).
      apply bpow_lt_inv in L. lia. }
    destruct (Z.eq_dec (d + e) 0) as [E0 | N0].
    + assert (Ee : e = (-53)%Z) by (unfold fexp64 in C; lia).
      rewrite Ee in *.
      assert (Hm : (Z.pos m < 2 ^ 53)%Z).
      { apply lt_IZR. rewrite (bpow_neg 53) in H.
        assert (0 < IZR (2 ^ 53)) by (apply IZR_lt; reflexivity).
        apply Rmult_lt_reg_r with (/ IZR (2 ^ 53)).
        - apply Rinv_0_lt_compat. exact H0.
        - rewrite Rinv_r by lra. exact H. }
      assert (Hm' : IZR (Z.pos m) <= IZR (2 ^ 53) - 1).
      { rewrite <- minus_IZR. apply IZR_le. lia. }
      rewrite (bpow_neg 53) in *.
      assert (0 < / IZR (2 ^ 53)).
      { apply Rinv_0_lt_compat. apply IZR_lt. reflexivity. }
      assert (IZR (2 ^ 53) * / IZR (2 ^ 53) = 1).
      { apply Rinv_r. apply not_0_IZR. discriminate. }
      nra.
    + pose proof (bpow_le (d + e) (-1) ltac:(lia)) as L1.
      pose proof (bpow_lt (-53) (-1) ltac:(lia)) as L2.
      assert (E1 : bpow (-1) = / 2).
      { rewrite (bpow_neg 1). change (2 ^ 1)%Z with 2%Z. reflexivity. }
      assert (E2 : bpow (-53) <= / 4).
      { pose proof (bpow_le (-53) (-2) ltac:(lia)) as L3.
        rewrite (bpow_neg 2) in L3. change (2 ^ 2)%Z with 4%Z in L3. exact L3. }
      lra.
Qed.

(** * The scene generator on doubles *)

Lemma rounded_le_twice (v r : R) : rounded v r -> r <= 2 * v.
Proof.
  intros H. pose proof H as [mag [N [Hm _]]].
  destruct (rounded_binade v r mag H Hm) as [U _].
  replace mag with (mag - 1 + 1)%Z in U by lia. rewrite bpow_succ in U. lra.
Qed.

Lemma double_mul_bound (a b : float) :
  Double.good a -> Double.good b -> Double.B2R a * Double.B2R b < bpow 1023 ->
  Double.B2R (a * b) <= 2 * (Double.B2R a * Double.B2R b).
Proof.
  intros Ga Gb Hb. destruct (double_mul a b Ga Gb Hb) as [_ [Z1 R1]].
  pose proof (good_value a Ga). pose proof (good_value b Gb).
  destruct (Req_dec (Double.B2R a * Double.B2R b) 0) as [E | N].
  - rewrite (Z1 E). nra.
  - apply rounded_le_twice. apply R1. nra.
Qed.

Lemma B2R_1000 : Double.B2R 1000 = 1000.
Proof. value 1000%float. rewrite V. lra. Qed.

(** The numbers that [Math.random()] returns. *)
Lemma unit_draw (x : float) :
  (0 <=? x)%float = true -> (x <? 1)%float = true ->
  Double.good x /\ 0 <= Double.B2R x <= Double.B2R Double.pred1 /\
  Double.B2R Double.pred1 < 1.
Proof.
  intros H0 H1.
  assert (G : Double.good x).
  { apply (double_good x 1 good_one H0). right. exact H1. }
  split; [exact G |].
  apply (double_ltb x 1 G good_one) in H1. rewrite B2R_one in H1.
  pose proof (good_value x G). pose proof (below_one x G H1).
  rewrite B2R_pred1 in *. pose proof (bpow_pos (-53)). lra.
Qed.

Section Spread.

Variables min max : float.
Hypothesis good_min : Double.good min.
Hypothesis good_width : Double.good (max - min).
Hypothesis small_min : (min <=? 1000)%float = true.
Hypothesis small_width : (max - min <=? 1000)%float = true.

Lemma spread_mono (x x' : float) :
  Double.good x -> Double.good x' ->
  Double.B2R x <= Double.B2R x' -> Double.B2R x' <= 1 ->
  Double.good (Double.spread min max x) /\
  Double.good (Double.spread min max x') /\
  Double.B2R (Double.spread min max x) <= Double.B2R (Double.spread min max x').
Proof.
  intros Gx Gx' Hle H1. unfold Double.spread.
  assert (G1000 : Double.good 1000) by (vm_compute; exact I).
  apply (double_leb _ _ good_min G1000) in small_min.
  apply (double_leb _ _ good_width G1000) in small_width.
  rewrite B2R_1000 in *.
  pose proof (good_value x Gx). pose proof (good_value _ good_width).
  pose proof (good_value _ good_min). pose proof bpow_1023.
  assert (P' : Double.B2R x' * Double.B2R (max - min) < bpow 1023) by nra.
  assert (P : Double.B2R x * Double.B2R (max - min) < bpow 1023) by nra.
  destruct (double_mul x (max - min) Gx good_width P) as [G1 _].
  destruct (double_mul x' (max - min) Gx' good_width P') as [G1' _].
  pose proof (double_mul_bound x' (max - min) Gx' good_width P') as B'.
  pose proof (double_mul_mono x x' (max - min) (max - min) Gx Gx' good_width
                good_width Hle ltac:(lra) P') as M.
  pose proof (good_value _ G1).
  assert (S' : Double.B2R (x' * (max - min)) + Double.B2R min < bpow 1023) by nra.
  assert (S0 : Double.B2R (x * (max - min)) + Double.B2R min < bpow 1023) by nra.
  destruct (double_add _ min G1 good_min S0) as [G2 _].
  destruct (double_add _ min G1' good_min S') as [G2' _].
  split; [exact G2 |]. split; [exact G2' |].
  apply double_add_mono; try assumption. lra.
Qed.

(** [randomRange] is monotone in its draw, so that its values lie between
    those at the least and at the greatest draw. *)
Lemma spread_range (x : float) :
  (0 <=? x)%float = true -> (x <? 1)%float = true ->
  Double.good (Double.spread min max x) /\
  Double.B2R (Double.spread min max 0) <= Double.B2R (Double.spread min max x) /\
  Double.B2R (Double.spread min max x) <= Double.B2R (Double.spread min max Double.pred1).
Proof.
  intros H0 H1. destruct (unit_draw x H0 H1) as [G [[L U] P]].
  destruct (spread_mono 0 x good_zero G) as [_ [Gx Lo]];
    [rewrite B2R_zero; exact L | lra |].
  destruct (spread_mono x Double.pred1 G good_pred1 U ltac:(lra)) as [_ [_ Hi]].
  split; [exact Gx |]. split; assumption.
Qed.

Lemma spread_above (lo x : float) :
  Double.good lo -> Double.good (Double.spread min max 0) ->
  (lo <=? Double.spread min max 0)%float = true ->
  (0 <=? x)%float = true -> (x <? 1)%float = true ->
  (lo <=? Double.spread min max x)%float = true.
Proof.
  intros Gl G0 Hl H0 H1. destruct (spread_range x H0 H1) as [G [Lo _]].
  apply (double_leb _ _ Gl G). apply (double_leb _ _ Gl G0) in Hl. lra.
Qed.

Lemma spread_below (hi x : float) :
  Double.good hi -> Double.good (Double.spread min max Double.pred1) ->
  (Double.spread min max Double.pred1 <? hi)%float = true ->
  (0 <=? x)%float = true -> (x <? 1)%float = true ->
  (Double.spread min max x <? hi)%float = true.
Proof.
  intros Gh Gp Hh H0 H1. destruct (spread_range x H0 H1) as [G [_ Hi]].
  apply (double_ltb _ _ G Gh). apply (double_ltb _ _ Gp Gh) in Hh. lra.
Qed.

Lemma spread_upto (hi x : float) :
  Double.good hi -> Double.good (Double.spread min max Double.pred1) ->
  (Double.spread min max Double.pred1 <=? hi)%float = true ->
  (0 <=? x)%float = true -> (x <? 1)%float = true ->
  (Double.spread min max x <=? hi)%float = true.
Proof.
  intros Gh Gp Hh H0 H1. destruct (spread_range x H0 H1) as [G [_ Hi]].
  apply (double_leb _ _ G Gh). apply (double_leb _ _ Gp Gh) in Hh. lra.
Qed.

End Spread.

Ltac evaluated := first [ vm_compute; exact I | vm_compute; reflexivity ].

(** The shape count and the delay. *)
Lemma count_range (x : float) :
  (0 <=? x)%float = true -> (x <? 1)%float = true ->
  (20 <= Double.floor (Double.spread 20 35 x) <= 35)%Z.
Proof.
  intros H0 H1.
  destruct (spread_range 20 35 ltac:(evaluated) ltac:(evaluated) ltac:(evaluated)
              ltac:(evaluated) x H0 H1) as [G [Lo Hi]].
  value (Double.spread 20 35 0). value (Double.spread 20 35 Double.pred1).
  rewrite V in Lo. rewrite V0 in Hi.
  pose proof (double_floor _ G) as [F1 F2].
  split.
  - apply Z.lt_succ_r. apply Z.succ_lt_mono. apply lt_IZR.
    rewrite !succ_IZR. lra.
  - apply le_IZR. lra.
Qed.

Lemma delay_range (x : float) :
  (0 <=? x)%float = true -> (x <? 1)%float = true ->
  (2 <= Double.floor (Double.spread 2 45 x) < 45)%Z.
Proof.
  intros H0 H1.
  destruct (spread_range 2 45 ltac:(evaluated) ltac:(evaluated) ltac:(evaluated)
              ltac:(evaluated) x H0 H1) as [G [Lo Hi]].
  value (Double.spread 2 45 0). value (Double.spread 2 45 Double.pred1).
  rewrite V in Lo. rewrite V0 in Hi.
  pose proof (double_floor _ G) as [F1 F2].
  split.
  - apply Z.lt_succ_r. apply Z.succ_lt_mono. apply lt_IZR.
    rewrite !succ_IZR. lra.
  - apply lt_IZR. lra.
Qed.

Section Scene64.

Variable toString36 : float -> string.
Variable draws : nat -> float.
Hypothesis draws_unit : Double.unitDraws draws.

Ltac draw k :=
  let H0 := fresh "D" in let H1 := fresh "D" in
  destruct (draws_unit k) as [H0 H1].

Lemma newShape64_spec (palette : Palette.t) (i n : nat) :
  let shape := fst (Double.newShape toString36 palette i draws n) in
  Double.delayed shape /\
  (if Nat.eqb i 0 then Double.focal shape
   else Double.fragment shape /\ ~ Double.focal shape).
Proof.
  unfold Double.newShape, Double.generateId, Double.randomRange, Double.random,
    Double.bind, Double.ret.
  destruct (Nat.eqb i 0); cbn [fst snd]; unfold Double.delayed, Double.focal,
    Double.fragment;
    cbn [Double.GeometricFrame.delayFrames Double.GeometricFrame.glitchIntensity
         Double.GeometricFrame.x Double.GeometricFrame.y
         Double.GeometricFrame.scale].
  - draw (S n). draw (S (S n)). draw (S (S (S (S n)))).
    split; [split; [| split] | split; [| split; [| split]]].
    + apply (delay_range _ D D0).
    + apply (spread_above 0.1 0.9); try evaluated; assumption.
    + apply (spread_below 0.1 0.9); try evaluated; assumption.
    + reflexivity.
    + reflexivity.
    + apply (spread_above 1.8 2.5); try evaluated; assumption.
    + apply (spread_upto 1.8 2.5); try evaluated; assumption.
  - draw (S n). draw (S (S n)). draw (S (S (S n))). draw (S (S (S (S n)))).
    draw (S (S (S (S (S (S n)))))).
    assert (Hs : ((draws (S (S (S (S n)))) * (1.4 - 0.3) + 0.3 <? 1.4)%float = true)).
    { apply (spread_below 0.3 1.4); try evaluated; assumption. }
    split; [split; [| split] | split; [repeat split |]].
    + apply (delay_range _ D D0).
    + apply (spread_above 0.1 0.9); try evaluated; assumption.
    + apply (spread_below 0.1 0.9); try evaluated; assumption.
    + apply (spread_above 0.05 0.95); try evaluated; assumption.
    + apply (spread_below 0.05 0.95); try evaluated; assumption.
    + apply (spread_above 0.05 0.95); try evaluated; assumption.
    + apply (spread_below 0.05 0.95); try evaluated; assumption.
    + apply (spread_above 0.3 1.4); try evaluated; assumption.
    + exact Hs.
    + intros [_ [_ [Hf _]]].
      destruct (spread_range 0.3 1.4 ltac:(evaluated) ltac:(evaluated)
                  ltac:(evaluated) ltac:(evaluated) _ D5 D6) as [G _].
      fold (Double.spread 0.3 1.4 (draws (S (S (S (S n)))))) in Hs, Hf.
      assert (G14 : Double.good 1.4) by evaluated.
      assert (G18 : Double.good 1.8) by evaluated.
      apply (double_ltb _ _ G G14) in Hs. apply (double_leb _ _ G18 G) in Hf.
      assert (L : (1.4 <? 1.8)%float = true) by evaluated.
      apply (double_ltb _ _ G14 G18) in L. lra.
Qed.

Lemma newShape64_draws (palette : Palette.t) (i n : nat) :
  snd (Double.newShape toString36 palette i draws n) =
    (n + if Nat.eqb i 0 then 5 else 7)%nat /\
  Double.GeometricFrame.id (fst (Double.newShape toString36 palette i draws n)) =
    substring 2 9 (toString36 (draws n)).
Proof.
  unfold Double.newShape, Double.generateId, Double.randomRange, Double.random,
    Double.bind, Double.ret.
  destruct (Nat.eqb i 0); cbn [fst snd Double.GeometricFrame.id]; split;
    first [lia | reflexivity].
Qed.

Lemma pushShapes64_cons (palette : Palette.t) (todo i n : nat) :
  Double.pushShapes toString36 palette (S todo) i draws n =
    (fst (Double.newShape toString36 palette i draws n) ::
       fst (Double.pushShapes toString36 palette todo (S i) draws
              (snd (Double.newShape toString36 palette i draws n))),
     snd (Double.pushShapes toString36 palette todo (S i) draws
            (snd (Double.newShape toString36 palette i draws n)))).
Proof.
  cbn [Double.pushShapes]. unfold Double.bind at 1.
  destruct (Double.newShape toString36 palette i draws n) as [shape n1].
  cbn [fst snd]. unfold Double.bind at 1.
  destruct (Double.pushShapes toString36 palette todo (S i) draws n1) as [rest n2].
  reflexivity.
Qed.

Lemma pushShapes64_length (palette : Palette.t) (todo i n : nat) :
  List.length (fst (Double.pushShapes toString36 palette todo i draws n)) = todo.
Proof.
  revert i n. induction todo as [| todo IH]; intros i n; [reflexivity |].
  rewrite pushShapes64_cons. cbn [fst List.length]. rewrite IH. reflexivity.
Qed.

Lemma pushShapes64_delayed (palette : Palette.t) (todo i n : nat) :
  Forall Double.delayed (fst (Double.pushShapes toString36 palette todo i draws n)).
Proof.
  revert i n. induction todo as [| todo IH]; intros i n; [constructor |].
  rewrite pushShapes64_cons. cbn [fst]. constructor; [| apply IH].
  apply (newShape64_spec palette i n).
Qed.

Lemma pushShapes64_fragments (palette : Palette.t) (todo i n : nat) :
  Forall (fun shape => Double.fragment shape /\ ~ Double.focal shape)
    (fst (Double.pushShapes toString36 palette todo (S i) draws n)).
Proof.
  revert i n. induction todo as [| todo IH]; intros i n; [constructor |].
  rewrite pushShapes64_cons. cbn [fst]. constructor; [| apply IH].
  apply (newShape64_spec palette (S i) n).
Qed.

(** From the second shape on, every shape takes seven draws, the first of
    them for its id. *)
Lemma pushShapes64_tail (palette : Palette.t) (todo i m : nat) :
  snd (Double.pushShapes toString36 palette todo (S i) draws m) = (m + 7 * todo)%nat /\
  forall k shape,
    nth_error (fst (Double.pushShapes toString36 palette todo (S i) draws m)) k =
      Some shape ->
    Double.GeometricFrame.id shape =
      substring 2 9 (toString36 (draws (m + 7 * k)%nat)).
Proof.
  revert i m. induction todo as [| todo IH]; intros i m.
  - split; [cbn; lia |]. intros k shape H. destruct k; discriminate.
  - destruct (newShape64_draws palette (S i) m) as [Hn Hid]. cbn [Nat.eqb] in Hn.
    destruct (IH (S i) (m + 7)%nat) as [IH1 IH2].
    rewrite pushShapes64_cons. cbn [fst snd]. rewrite Hn. split.
    + rewrite IH1. lia.
    + intros k shape H. destruct k as [| k].
      * cbn [nth_error] in H. injection H as H; subst shape.
        etransitivity; [exact Hid |]. do 3 f_equal. lia.
      * cbn [nth_error] in H. rewrite (IH2 k shape H). do 3 f_equal. lia.
Qed.

Lemma generateNewScene64_shapes (n : nat) :
  let shapes :=
    Double.SceneParams.shapes (fst (Double.generateNewScene toString36 draws n)) in
  shapes =
    fst (Double.pushShapes toString36
           (paletteAt (Double.floor (draws n * 8)))
           (Z.to_nat (Double.floor (Double.spread 20 35 (draws (S n))))) 0
           draws (S (S n))) /\
  snd (Double.generateNewScene toString36 draws n) =
    S (snd (Double.pushShapes toString36
              (paletteAt (Double.floor (draws n * 8)))
              (Z.to_nat (Double.floor (Double.spread 20 35 (draws (S n))))) 0
              draws (S (S n)))) /\
  (20 <= List.length shapes <= 35)%nat.
Proof.
  cbv zeta.
  unfold Double.generateNewScene, Double.randomRange, Double.random, Double.bind,
    Double.ret. cbn [fst snd].
  fold (Double.spread 20 35 (draws (S n))).
  set (palette := paletteAt _).
  set (count := Z.to_nat _).
  assert (Hcount : (20 <= count <= 35)%nat).
  { destruct (draws_unit (S n)) as [D0 D1].
    pose proof (count_range _ D0 D1). subst count. lia. }
  pose proof (pushShapes64_length palette count 0 (S (S n))) as Hl.
  destruct (Double.pushShapes toString36 palette count 0 draws (S (S n)))
    as [shapes n1].
  cbn [fst snd Double.SceneParams.shapes] in *.
  split; [reflexivity |]. split; [reflexivity |]. rewrite Hl. exact Hcount.
Qed.

End Scene64.

(** C5. On doubles, for every stream of draws in [0,1), the scene generator
    yields between 20 and 35 shapes; the shape at index 0 is the focal one,
    at (0.5, 0.5) with scale in [1.8, 2.5]; every other shape has both
    position components in [0.05, 0.95) and scale in [0.3, 1.4), so that none
    of them is focal; and every shape has an integer [delayFrames] in
    [2, 45) and a [glitchIntensity] in [0.1, 0.9).  The bounds are the
    doubles that the literals of the source denote. *)
Theorem scene_ranges_on_doubles (toString36 : float -> string)
  (draws : nat -> float) (n : nat) :
  Double.unitDraws draws ->
  let shapes :=
    Double.SceneParams.shapes (fst (Double.generateNewScene toString36 draws n)) in
  (20 <= List.length shapes <= 35)%nat /\
  exists first others,
    shapes = first :: others /\
    Double.focal first /\
    Forall Double.fragment others /\
    Forall (fun shape => ~ Double.focal shape) others /\
    Forall Double.delayed shapes.
Proof.
  intros Hd shapes.
  destruct (generateNewScene64_shapes toString36 draws Hd n) as [Hs [_ Hlen]].
  fold shapes in Hs, Hlen. split; [exact Hlen |].
  set (palette := paletteAt _) in Hs.
  set (count := Z.to_nat _) in Hs.
  assert (Hc : (20 <= count)%nat).
  { rewrite Hs, pushShapes64_length in Hlen. lia. }
  destruct count as [| todo]; [lia |].
  pose proof (pushShapes64_delayed toString36 draws Hd palette (S todo) 0 (S (S n)))
    as Hall.
  rewrite <- Hs in Hall.
  rewrite pushShapes64_cons in Hs. cbn [fst] in Hs.
  eexists. eexists. split; [exact Hs |].
  pose proof (pushShapes64_fragments toString36 draws Hd palette todo 0
                (snd (Double.newShape toString36 palette 0 draws (S (S n)))))
    as Hfr.
  split; [| split; [| split]].
  - apply (newShape64_spec toString36 draws Hd palette 0 (S (S n))).
  - eapply Forall_impl; [| exact Hfr]. cbn. tauto.
  - eapply Forall_impl; [| exact Hfr]. cbn. tauto.
  - exact Hall.
Qed.

Lemma constantDraws64_unit : Double.unitDraws (Double.constantDraws 0.5).
Proof. intros k. split; vm_compute; reflexivity. Qed.

Lemma scene_ranges_on_doubles_witness :
  let shapes :=
    Double.SceneParams.shapes
      (fst (Double.generateNewScene Double.sampleToString36
              (Double.constantDraws 0.5) 0%nat)) in
  (20 <= List.length shapes <= 35)%nat /\
  exists first others,
    shapes = first :: others /\
    Double.focal first /\
    Forall Double.fragment others /\
    Forall (fun shape => ~ Double.focal shape) others /\
    Forall Double.delayed shapes.
Proof.
  exact (scene_ranges_on_doubles Double.sampleToString36 (Double.constantDraws 0.5)
           0%nat constantDraws64_unit).
Defined.

(** The greatest draw of an engine that returns multiples of [2^-52] gives
    35 shapes and a focal scale of 2.5: the ranges of the count and of the
    focal scale are not open at the top. *)
Lemma top_draw_reaches_the_upper_bounds :
  let draws := Double.constantDraws 0x1.ffffffffffffep-1 in
  let shapes :=
    Double.SceneParams.shapes
      (fst (Double.generateNewScene Double.sampleToString36 draws 0%nat)) in
  Double.unitDraws draws /\
  List.length shapes = 35%nat /\
  ~ (20 <= List.length shapes < 35)%nat /\
  exists first others,
    shapes = first :: others /\
    Double.GeometricFrame.scale first = 2.5%float /\
    (Double.GeometricFrame.scale first <? 2.5)%float = false.
Proof.
  cbv zeta.
  assert (E : List.length
                (Double.SceneParams.shapes
                   (fst (Double.generateNewScene Double.sampleToString36
                           (Double.constantDraws 0x1.ffffffffffffep-1) 0%nat)))
              = 35%nat) by (vm_compute; reflexivity).
  split; [intros k; split; vm_compute; reflexivity |].
  split; [exact E |]. split; [rewrite E; lia |].
  eexists. eexists. split; [vm_compute; reflexivity |].
  split; vm_compute; reflexivity.
Qed.

(** X15. On doubles, generating a scene of c shapes reads exactly 7c + 1
    draws, between 141 and 246: one for the palette, one for the count, five
    for the focal shape, seven for every other shape and one for the glitch
    mode.  The id of a shape is cut from the base-36 rendering of one draw,
    the third of the call for the focal shape and draw 7k for shape k, and
    has at most nine characters. *)
Theorem scene_draw_budget_on_doubles (toString36 : float -> string)
  (draws : nat -> float) (n k : nat) :
  Double.unitDraws draws ->
  let scene := fst (Double.generateNewScene toString36 draws n) in
  let c := List.length (Double.SceneParams.shapes scene) in
  snd (Double.generateNewScene toString36 draws n) = (n + 7 * c + 1)%nat /\
  (141 <= 7 * c + 1 <= 246)%nat /\
  match nth_error (Double.SceneParams.shapes scene) k with
  | Some shape =>
      Double.GeometricFrame.id shape =
        substring 2 9 (toString36 (draws (idDraw n k))) /\
      (String.length (Double.GeometricFrame.id shape) <= 9)%nat
  | None => (c <= k)%nat
  end.
Proof.
  intros Hd scene c.
  destruct (generateNewScene64_shapes toString36 draws Hd n) as [Hs [Hn Hlen]].
  fold scene in Hs, Hlen. fold c in Hlen. rewrite Hn. clear Hn.
  set (palette := paletteAt _) in *.
  set (count := Z.to_nat _) in *.
  assert (Hc : c = count).
  { subst c. rewrite Hs. apply pushShapes64_length. }
  destruct count as [| todo]; [lia |].
  rewrite pushShapes64_cons in Hs |- *. cbn [fst snd] in Hs |- *.
  destruct (newShape64_draws toString36 draws palette 0 (S (S n))) as [Hcur Hid].
  cbn [Nat.eqb] in Hcur. rewrite Hcur in Hs |- *.
  destruct (pushShapes64_tail toString36 draws palette todo 0 (S (S n) + 5))
    as [T1 T2].
  rewrite T1. split; [lia |]. split; [lia |].
  destruct (nth_error (Double.SceneParams.shapes scene) k) as [shape |] eqn:E.
  - assert (Hi : Double.GeometricFrame.id shape =
                 substring 2 9 (toString36 (draws (idDraw n k)))).
    { rewrite Hs in E. destruct k as [| k'].
      - cbn [nth_error] in E. injection E as E; subst shape.
        etransitivity; [exact Hid |]. unfold idDraw. do 3 f_equal. lia.
      - cbn [nth_error] in E. rewrite (T2 k' shape E).
        unfold idDraw. do 3 f_equal. lia. }
    split; [exact Hi | rewrite Hi; apply substring_length].
  - apply nth_error_None in E. exact E.
Qed.

Lemma scene_draw_budget_on_doubles_witness :
  let scene :=
    fst (Double.generateNewScene Double.sampleToString36
           (Double.constantDraws 0.5) 0%nat) in
  snd (Double.generateNewScene Double.sampleToString36
         (Double.constantDraws 0.5) 0%nat) =
    (0 + 7 * List.length (Double.SceneParams.shapes scene) + 1)%nat.
Proof.
  destruct (scene_draw_budget_on_doubles Double.sampleToString36
              (Double.constantDraws 0.5) 0%nat 0%nat constantDraws64_unit)
    as [H _].
  exact H.
Defined.

(** * The smoothing of the head position on doubles *)

Lemma double_mul_error (a b : float) (g : Z) :
  Double.good a -> Double.good b -> (g <= 1023)%Z ->
  Double.B2R a * Double.B2R b < bpow g ->
  2 * Rabs (Double.B2R (a * b) - Double.B2R a * Double.B2R b) <= bpow (fexp64 g).
Proof.
  intros Ga Gb Hg Hb. pose proof (bpow_le g 1023 Hg).
  destruct (double_mul a b Ga Gb ltac:(lra)) as [_ [Z1 R1]].
  pose proof (good_value a Ga). pose proof (good_value b Gb).
  destruct (Req_dec (Double.B2R a * Double.B2R b) 0) as [E | N].
  - rewrite (Z1 E), E, Rminus_diag, Rabs_R0, Rmult_0_r. left. apply bpow_pos.
  - apply rounded_error; [apply R1; nra | exact Hb].
Qed.

Lemma double_add_error (a b : float) (g : Z) :
  Double.good a -> Double.good b -> (g <= 1023)%Z ->
  Double.B2R a + Double.B2R b < bpow g ->
  2 * Rabs (Double.B2R (a + b) - (Double.B2R a + Double.B2R b)) <= bpow (fexp64 g).
Proof.
  intros Ga Gb Hg Hb. pose proof (bpow_le g 1023 Hg).
  destruct (double_add a b Ga Gb ltac:(lra)) as [_ [Z1 R1]].
  pose proof (good_value a Ga). pose proof (good_value b Gb).
  destruct (Req_dec (Double.B2R a + Double.B2R b) 0) as [E | N].
  - rewrite (Z1 E), E, Rminus_diag, Rabs_R0, Rmult_0_r. left. apply bpow_pos.
  - apply rounded_error; [apply R1; lra | exact Hb].
Qed.

Lemma Rabs_within (x a : R) : Rabs x <= a <-> - a <= x <= a.
Proof. unfold Rabs. destruct (Rcase_abs x); split; intros H; lra. Qed.

Lemma inUnit_value (x : float) :
  Double.inUnit x -> Double.good x /\ 0 <= Double.B2R x <= 1.
Proof.
  intros [H0 H1].
  assert (G : Double.good x).
  { apply (double_good x 1 good_one H0). left. exact H1. }
  split; [exact G |].
  apply (double_leb x 1 G good_one) in H1. rewrite B2R_one in H1.
  pose proof (good_value x G). lra.
Qed.

Lemma bpow_m51 : bpow (-51) = / 2251799813685248.
Proof. rewrite (bpow_neg 51). reflexivity. Qed.

(** One tick on one axis: the double that the source computes, against the
    exact value of the formula. *)
Lemma smooth_spec (target current : float) :
  Double.inUnit target -> Double.inUnit current ->
  Double.inUnit (Double.smooth target current) /\
  Rabs (Double.B2R (Double.smooth target current) -
        (0.92 * Double.B2R current + 0.08 * Double.B2R target)) <= bpow (-51).
Proof.
  intros Ht Hc.
  destruct (inUnit_value target Ht) as [Gt [T0 T1]].
  destruct (inUnit_value current Hc) as [Gc [C0 C1]].
  unfold Double.smooth, Double.lerp.
  set (A := (1 - 0.08)%float). set (a := 0.08%float).
  assert (GA : Double.good A) by evaluated.
  assert (Ga : Double.good a) by evaluated.
  value A. value a. fold A in V. fold a in V0.
  pose proof bpow_1023 as Hbig.
  (* the two products *)
  assert (B1 : Double.B2R current * Double.B2R A < bpow 0).
  { change (bpow 0) with 1. rewrite V. nra. }
  assert (B2 : Double.B2R target * Double.B2R a < bpow (-3)).
  { rewrite (bpow_neg 3). change (2 ^ 3)%Z with 8%Z. rewrite V0. nra. }
  pose proof (double_mul_error current A 0 Gc GA ltac:(lia) B1) as E1.
  pose proof (double_mul_error target a (-3) Gt Ga ltac:(lia) B2) as E2.
  change (fexp64 0) with (-53)%Z in E1. change (fexp64 (-3)) with (-56)%Z in E2.
  rewrite (bpow_neg 53) in E1. rewrite (bpow_neg 56) in E2.
  change (2 ^ 53)%Z with 9007199254740992%Z in E1.
  change (2 ^ 56)%Z with 72057594037927936%Z in E2.
  change (bpow 0) with 1 in B1. rewrite (bpow_neg 3) in B2.
  change (2 ^ 3)%Z with 8%Z in B2.
  destruct (double_mul current A Gc GA ltac:(lra)) as [G1 _].
  destruct (double_mul target a Gt Ga ltac:(lra)) as [G2 _].
  set (p1 := Double.B2R (current * A)) in *.
  set (p2 := Double.B2R (target * a)) in *.
  assert (P1 : 0 <= p1) by (apply good_value; exact G1).
  assert (P2 : 0 <= p2) by (apply good_value; exact G2).
  assert (Q1 : Rabs (p1 - Double.B2R current * Double.B2R A)
               <= / 18014398509481984) by lra.
  assert (Q2 : Rabs (p2 - Double.B2R target * Double.B2R a)
               <= / 144115188075855872) by lra.
  apply Rabs_within in Q1. apply Rabs_within in Q2.
  (* the sum *)
  assert (B3 : p1 + p2 < bpow 1).
  { change (bpow 1) with (2 * 1). rewrite V, V0 in *. nra. }
  pose proof (double_add_error _ _ 1 G1 G2 ltac:(lia) B3) as E3.
  change (fexp64 1) with (-52)%Z in E3. rewrite (bpow_neg 52) in E3.
  change (2 ^ 52)%Z with 4503599627370496%Z in E3.
  fold p1 p2 in E3.
  set (n := Double.B2R (current * A + target * a)) in *.
  assert (Q3 : Rabs (n - (p1 + p2)) <= / 9007199254740992) by lra.
  apply Rabs_within in Q3.
  split.
  - (* the result stays in the unit interval *)
    assert (B4 : p1 + p2 < bpow 1023).
    { change (bpow 1) with (2 * 1) in B3. lra. }
    destruct (double_add _ _ G1 G2 B4) as [G3 _].
    assert (M1 : Double.B2R (current * A) <= Double.B2R (1 * A)).
    { apply double_mul_mono; try assumption; try apply good_one.
      - rewrite B2R_one. lra.
      - lra.
      - rewrite B2R_one, V. lra. }
    assert (M2 : Double.B2R (target * a) <= Double.B2R (1 * a)).
    { apply double_mul_mono; try assumption; try apply good_one.
      - rewrite B2R_one. lra.
      - lra.
      - rewrite B2R_one, V0. lra. }
    assert (G1' : Double.good (1 * A)) by evaluated.
    assert (G2' : Double.good (1 * a)) by evaluated.
    assert (M3 : Double.B2R (current * A + target * a)
                 <= Double.B2R (1 * A + 1 * a)).
    { apply double_add_mono; try assumption.
      value (1 * A)%float. value (1 * a)%float. rewrite V1, V2. lra. }
    value (1 * A + 1 * a)%float. rewrite V1 in M3.
    split.
    + apply (double_leb 0 _ good_zero G3). rewrite B2R_zero.
      apply good_value. exact G3.
    + apply (double_leb _ 1 G3 good_one). rewrite B2R_one. fold n. fold n in M3. lra.
  - rewrite bpow_m51. apply Rabs_within. rewrite V, V0 in *. split; nra.
Qed.

Lemma smoothed_succ (target current : float) (k : nat) :
  Double.smoothed target current (S k) =
    Double.smooth target (Double.smoothed target current k).
Proof. unfold Double.smoothed. apply Nat.iter_succ. Qed.

Lemma smoothed_spec (target current : float) (k : nat) :
  Double.inUnit target -> Double.inUnit current ->
  Double.inUnit (Double.smoothed target current k) /\
  Rabs (Double.B2R (Double.smoothed target current k) - Double.B2R target)
    <= 0.92 ^ k * Rabs (Double.B2R current - Double.B2R target)
       + 25 / 2 * bpow (-51).
Proof.
  intros Ht Hc. pose proof (bpow_pos (-51)) as He.
  induction k as [| k [IH1 IH2]].
  - split; [exact Hc |].
    change (Double.smoothed target current 0) with current.
    change (0.92 ^ 0) with 1.
    pose proof (Rabs_pos (Double.B2R current - Double.B2R target)). lra.
  - rewrite smoothed_succ.
    destruct (smooth_spec target (Double.smoothed target current k) Ht IH1)
      as [S1 S2].
    split; [exact S1 |].
    set (x := Double.B2R (Double.smoothed target current k)) in *.
    set (y := Double.B2R (Double.smooth target (Double.smoothed target current k)))
      in *.
    set (t := Double.B2R target) in *.
    set (d := Rabs (Double.B2R current - t)) in *.
    apply Rabs_within in S2. apply Rabs_within in IH2. apply Rabs_within.
    assert (Hp : 0 <= 0.92 ^ k * d).
    { apply Rmult_le_pos; [apply pow_le; lra | apply Rabs_pos]. }
    cbn [pow]. split; nra.
Qed.

Lemma smooth_bounds (target current : float) :
  Double.inUnit target -> Double.inUnit current ->
  let t := Double.B2R target in
  let c := Double.B2R current in
  let n := Double.B2R (Double.smooth target current) in
  let eps := bpow (-51) in
  Rmin c t - eps <= n <= Rmax c t + eps /\
  Rabs (n - t) <= 0.92 * Rabs (c - t) + eps /\
  (current = target -> Rabs (n - t) <= eps).
Proof.
  intros Ht Hc t c n eps.
  destruct (smooth_spec target current Ht Hc) as [_ S2].
  fold t c n eps in S2. apply Rabs_within in S2.
  split; [| split].
  - unfold Rmin, Rmax. destruct (Rle_dec c t); lra.
  - unfold Rabs. destruct (Rcase_abs (n - t)); destruct (Rcase_abs (c - t)); lra.
  - intros E. assert (Ec : c = t) by (subst c t; rewrite E; reflexivity).
    apply Rabs_within. lra.
Qed.

Lemma smoothHead_axis (axis : Double.Point.t -> float) (target head : Double.Point.t) :
  axis = Double.Point.x \/ axis = Double.Point.y ->
  axis (Double.smoothHead target head) = Double.smooth (axis target) (axis head).
Proof. intros [-> | ->]; reflexivity. Qed.

Lemma smoothedHead_axis (axis : Double.Point.t -> float) (target head : Double.Point.t)
  (k : nat) :
  axis = Double.Point.x \/ axis = Double.Point.y ->
  axis (Double.smoothedHead target head k) =
    Double.smoothed (axis target) (axis head) k.
Proof.
  intros Ha. induction k as [| k IH]; [reflexivity |].
  unfold Double.smoothedHead, Double.smoothed in *.
  rewrite !Nat.iter_succ. rewrite (smoothHead_axis axis _ _ Ha), IH. reflexivity.
Qed.

(** C6. On doubles, for a head position and a target in [0,1] on an axis,
    one tick of smoothing stays in [0,1] on that axis and gives the exact
    value 0.92 current + 0.08 target up to 2^-51.  So the new position lies
    between the old one and the target up to 2^-51, its distance to the
    target is at most 0.92 times the old one plus 2^-51, a position at the
    target stays within 2^-51 of it, and after k ticks with the target held
    fixed the distance is at most 0.92^k times the first one plus
    12.5 * 2^-51. *)
Theorem head_smoothing_on_doubles (target head : Double.Point.t)
  (axis : Double.Point.t -> float) (k : nat) :
  axis = Double.Point.x \/ axis = Double.Point.y ->
  Double.inUnit (axis target) -> Double.inUnit (axis head) ->
  let t := Double.B2R (axis target) in
  let c := Double.B2R (axis head) in
  let n := Double.B2R (axis (Double.smoothHead target head)) in
  let after := axis (Double.smoothedHead target head k) in
  let eps := bpow (-51) in
  Double.inUnit (axis (Double.smoothHead target head)) /\
  Rabs (n - (0.92 * c + 0.08 * t)) <= eps /\
  Rmin c t - eps <= n <= Rmax c t + eps /\
  Rabs (n - t) <= 0.92 * Rabs (c - t) + eps /\
  (axis head = axis target -> Rabs (n - t) <= eps) /\
  Double.inUnit after /\
  Rabs (Double.B2R after - t) <= 0.92 ^ k * Rabs (c - t) + 25 / 2 * eps.
Proof.
  intros Ha Ht Hc t c n after eps. subst n after.
  rewrite (smoothHead_axis axis target head Ha).
  rewrite (smoothedHead_axis axis target head k Ha).
  destruct (smooth_spec (axis target) (axis head) Ht Hc) as [S1 S2].
  destruct (smoothed_spec (axis target) (axis head) k Ht Hc) as [K1 K2].
  destruct (smooth_bounds (axis target) (axis head) Ht Hc) as [B1 [B2 B3]].
  split; [exact S1 |]. split; [exact S2 |]. split; [exact B1 |].
  split; [exact B2 |]. split; [exact B3 |]. split; [exact K1 | exact K2].
Qed.

Lemma inUnit_03 : Double.inUnit 0.3.
Proof. split; vm_compute; reflexivity. Qed.

Lemma head_smoothing_on_doubles_witness :
  let p := Double.Point.mk 0.3 0.3 in
  Rabs (Double.B2R (Double.Point.x (Double.smoothHead p p)) - Double.B2R 0.3)
    <= bpow (-51).
Proof.
  intros p.
  destruct (head_smoothing_on_doubles p p Double.Point.x 0
              (or_introl eq_refl) inUnit_03 inUnit_03)
    as [_ [_ [_ [_ [H _]]]]].
  exact (H eq_refl).
Defined.

(** A head position at its target leaves it: [lerp(0.3, 0.3, 0.08)] is
    0.30000000000000004, above both the old position and the target.  From
    0.5 toward the target 0.6 the position reaches 0.6 after 389 ticks and
    is above it after 390. *)
Lemma smoothing_leaves_its_target :
  let p := Double.Point.mk 0.3 0.3 in
  let target := Double.Point.mk 0.6 0.5 in
  let head := Double.Point.mk 0.5 0.5 in
  Double.inUnit 0.3 /\
  Double.smoothHead p p <> p /\
  (0.3 <? Double.Point.x (Double.smoothHead p p))%float = true /\
  Double.Point.x (Double.smoothedHead target head 389) = 0.6%float /\
  (0.6 <? Double.Point.x (Double.smoothedHead target head 390))%float = true.
Proof.
  intros p target head.
  split; [exact inUnit_03 |]. split; [| split; [| split]].
  - intros E.
    apply (f_equal (fun q => (Double.Point.x q =? 0.3)%float)) in E.
    vm_compute in E. discriminate.
  - vm_compute. reflexivity.
  - vm_compute. reflexivity.
  - vm_compute. reflexivity.
Qed.

(** ** The distance on doubles *)

Lemma round_aux_opp (s : bool) (m e : Z) (l : location) :
  binary_round_aux prec emax (negb s) m e l =
    SFopp (binary_round_aux prec emax s m e l).
Proof.
  unfold binary_round_aux.
  destruct (shr_fexp prec emax m e l) as [mrs e1].
  destruct (shr_fexp prec emax _ e1 loc_Exact) as [mrs2 e2].
  destruct (shr_m mrs2); [reflexivity | | reflexivity].
  destruct (Z.leb e2 (emax - prec)); reflexivity.
Qed.

Lemma round_opp (s : bool) (m : positive) (e : Z) :
  binary_round prec emax (negb s) m e = SFopp (binary_round prec emax s m e).
Proof.
  unfold binary_round.
  destruct (shl_align m e _) as [mz ez]. apply round_aux_opp.
Qed.

Lemma round_aux_sign (m e : Z) (l : location) :
  signless (binary_round_aux prec emax false m e l).
Proof.
  unfold binary_round_aux.
  destruct (shr_fexp prec emax m e l) as [mrs e1].
  destruct (shr_fexp prec emax _ e1 loc_Exact) as [mrs2 e2].
  destruct (shr_m mrs2); [reflexivity | | exact I].
  destruct (Z.leb e2 (emax - prec)); reflexivity.
Qed.

Lemma round_sign (m : positive) (e : Z) : signless (binary_round prec emax false m e).
Proof.
  unfold binary_round. destruct (shl_align m e _) as [mz ez]. apply round_aux_sign.
Qed.

(** Swapping the operands of a subtraction changes the sign of the result
    at most. *)
Lemma SFsub_swap (x y : spec_float) :
  alike (SFsub prec emax y x) (SFsub prec emax x y).
Proof.
  destruct x as [sx | sx | | sx mx ex], y as [sy | sy | | sy my ey];
    try (left; reflexivity);
    try (destruct sx, sy; (left; reflexivity) || (right; reflexivity));
    try (destruct sx; (left; reflexivity) || (right; reflexivity));
    try (destruct sy; (left; reflexivity) || (right; reflexivity)).
  unfold SFsub. rewrite (Z.min_comm ey ex).
  set (ez := Z.min ex ey).
  set (a := cond_Zopp sx (Z.pos (fst (shl_align mx ex ez)))).
  set (b := cond_Zopp sy (Z.pos (fst (shl_align my ey ez)))).
  replace (b - a)%Z with (- (a - b))%Z by ring.
  destruct (a - b)%Z as [| d | d]; cbn [Z.opp binary_normalize].
  - left. reflexivity.
  - right. apply (round_opp false).
  - right. change false with (negb true). rewrite round_opp.
    destruct (binary_round prec emax true d ez) as [[] | [] | | [] ? ?];
      reflexivity.
Qed.

Lemma SFmul_opp (f : spec_float) :
  SFmul prec emax (SFopp f) (SFopp f) = SFmul prec emax f f.
Proof. destruct f as [[] | [] | | [] m e]; reflexivity. Qed.

Lemma SFmul_alike (f g : spec_float) :
  alike f g -> SFmul prec emax f f = SFmul prec emax g g.
Proof. intros [-> | ->]; [reflexivity | apply SFmul_opp]. Qed.

Lemma SFmul_square (f : spec_float) : signless (SFmul prec emax f f).
Proof.
  destruct f as [[] | [] | | [] m e]; try reflexivity; try exact I;
    apply round_aux_sign.
Qed.

Lemma SFadd_signless (f g : spec_float) :
  signless f -> signless g -> signless (SFadd prec emax f g).
Proof.
  destruct f as [sf | sf | | sf mf ef], g as [sg | sg | | sg mg eg];
    cbn [signless]; intros Hf Hg; subst; try reflexivity; try exact I.
  unfold SFadd, cond_Zopp. cbn [Z.add binary_normalize]. apply round_sign.
Qed.

Lemma SFsqrt_signless (f : spec_float) : signless f -> signless (SFsqrt prec emax f).
Proof.
  destruct f as [s | s | | s m e]; cbn [signless]; intros Hf; subst;
    try reflexivity; try exact I.
  unfold SFsqrt. destruct (SFsqrt_core_binary prec emax (Z.pos m) e) as [[mz ez] lz].
  apply round_aux_sign.
Qed.

Lemma SFltb_signless (f : spec_float) : signless f -> SFltb f (S754_zero false) = false.
Proof.
  destruct f as [s | s | | s m e]; cbn [signless]; intros Hf; subst; reflexivity.
Qed.

(** The square of a difference does not depend on the order of the operands. *)
Lemma square_swap (a b : float) :
  ((a - b) * (a - b) = (b - a) * (b - a))%float.
Proof.
  apply Prim2SF_inj. rewrite !mul_spec, !sub_spec.
  apply SFmul_alike. apply SFsub_swap.
Qed.

Lemma finite_self (a : float) :
  Double.finite a -> Prim2SF ((a - a) * (a - a))%float = S754_zero false.
Proof.
  unfold Double.finite. rewrite ltb_spec, abs_spec, mul_spec, sub_spec.
  destruct (Prim2SF a) as [[] | [] | | s m e]; cbn; try discriminate;
    try reflexivity.
  intros _. rewrite Z.sub_diag. reflexivity.
Qed.

(** X12. On doubles, [distance] is symmetric and never negative, whatever
    its arguments are, and the distance from a point with finite
    coordinates to itself is 0.  It is no metric: from (0, 0.5) over
    (0.2, 0.5) to (0.9, 0.5) the two legs add up to 0.8999999999999999, less
    than the distance 0.9 between the ends, and the distance between the
    distinct points (1e-200, 0) and (0, 0) is 0, as the square underflows. *)
Theorem distance_on_doubles (p q : Double.Point.t) :
  Double.distance p q = Double.distance q p /\
  (Double.distance p q <? 0)%float = false /\
  (Double.finite (Double.Point.x p) -> Double.finite (Double.Point.y p) ->
   Double.distance p p = 0%float) /\
  (let a := Double.Point.mk 0 0.5 in
   let b := Double.Point.mk 0.2 0.5 in
   let c := Double.Point.mk 0.9 0.5 in
   (Double.distance a b + Double.distance b c <? Double.distance a c)%float = true) /\
  Double.distance (Double.Point.mk 1e-200 0) (Double.Point.mk 0 0) = 0%float.
Proof.
  split; [| split; [| split; [| split]]].
  - unfold Double.distance. cbv zeta.
    rewrite (square_swap (Double.Point.x p)), (square_swap (Double.Point.y p)).
    reflexivity.
  - unfold Double.distance. cbv zeta.
    rewrite ltb_spec, sqrt_spec, add_spec, !mul_spec.
    apply SFltb_signless, SFsqrt_signless, SFadd_signless; apply SFmul_square.
  - intros Hx Hy. apply Prim2SF_inj. unfold Double.distance. cbv zeta.
    rewrite sqrt_spec, add_spec, (finite_self _ Hx), (finite_self _ Hy).
    reflexivity.
  - vm_compute. reflexivity.
  - vm_compute. reflexivity.
Qed.

Lemma SFdiv_signless (f g : spec_float) :
  signless f -> signless g -> signless (SFdiv prec emax f g).
Proof.
  destruct f as [sf | sf | | sf mf ef], g as [sg | sg | | sg mg eg];
    cbn [signless]; intros Hf Hg; subst; try reflexivity; try exact I.
  unfold SFdiv.
  destruct (SFdiv_core_binary prec emax (Z.pos mf) ef (Z.pos mg) eg) as [[mz ez] lz].
  apply round_aux_sign.
Qed.

Lemma distance_signless (p q : Double.Point.t) :
  signless (Prim2SF (Double.distance p q)).
Proof.
  unfold Double.distance. cbv zeta. rewrite sqrt_spec, add_spec, !mul_spec.
  apply SFsqrt_signless, SFadd_signless; apply SFmul_square.
Qed.

(** A ratio of two numbers that are not negative is below a positive
    finite bound only if the denominator is above 0; the ratio is then
    finite. *)
Lemma ratio_below (v h t : float) :
  signless (Prim2SF v) -> signless (Prim2SF h) ->
  (v / h <? t)%float = true ->
  (0 <? h)%float = true /\ Double.finite (v / h).
Proof.
  unfold Double.finite. rewrite !ltb_spec, abs_spec, div_spec.
  change (Prim2SF 0) with (S754_zero false).
  change (Prim2SF infinity) with (S754_infinity false).
  intros Hv Hh.
  pose proof (SFdiv_signless _ _ Hv Hh) as Hq. unfold SF64div in *.
  destruct (Prim2SF h) as [sh | sh | | sh mh eh]; cbn [signless] in Hh; subst.
  - destruct (Prim2SF v) as [sv | sv | | sv mv ev]; cbn [signless] in Hv; subst;
      cbn; destruct (Prim2SF t) as [[] | [] | | [] ? ?]; cbn; discriminate.
  - intros Hlt. split; [reflexivity |].
    destruct (Prim2SF v) as [sv | sv | | sv mv ev]; cbn [signless] in Hv; subst;
      cbn in Hlt |- *; try reflexivity; discriminate.
  - destruct (Prim2SF v) as [sv | sv | | sv mv ev]; cbn; discriminate.
  - intros Hlt. split; [reflexivity |].
    destruct (SFdiv prec emax (Prim2SF v) (S754_finite false mh eh))
      as [sq | sq | | sq mq eq]; cbn [signless] in Hq; subst;
      try reflexivity; cbn in Hlt.
    + destruct (Prim2SF t) as [[] | [] | | [] ? ?]; cbn in Hlt; discriminate.
    + discriminate.
Qed.

(** X13. On doubles, [calculateEAR] throws exactly when one of its four
    landmarks is missing, and is otherwise the height of the eye divided by
    its width.  The ratio is never negative.  It is below the blink
    threshold only if the width is above 0, and it is then finite: an eye
    of width 0 has the ratio [Infinity] or [NaN] and never counts as
    closed. *)
Theorem ear_on_doubles (landmarks : list Double.Point.t) (indices : list nat) :
  match Double.calculateEAR landmarks indices with
  | Normal ear =>
      exists p0 p1 p2 p3,
        Double.corner landmarks indices 0 = Some p0 /\
        Double.corner landmarks indices 1 = Some p1 /\
        Double.corner landmarks indices 2 = Some p2 /\
        Double.corner landmarks indices 3 = Some p3 /\
        ear = (Double.distance p2 p3 / Double.distance p0 p1)%float /\
        (ear <? 0)%float = false /\
        ((ear <? Double.BLINK_THRESHOLD)%float = true ->
         (0 <? Double.distance p0 p1)%float = true /\ Double.finite ear)
  | Throw => exists k, (k < 4)%nat /\ Double.corner landmarks indices k = None
  end.
Proof.
  unfold Double.calculateEAR, Double.corner, at_, bindC.
  destruct (nth_error indices 2) as [i2 |] eqn:E2;
    [| exists 2%nat; rewrite E2; split; [lia | reflexivity]].
  destruct (nth_error indices 3) as [i3 |] eqn:E3;
    [| exists 3%nat; rewrite E3; split; [lia | reflexivity]].
  destruct (nth_error landmarks i2) as [p2 |] eqn:L2;
    [| exists 2%nat; rewrite E2; split; [lia | exact L2]].
  destruct (nth_error landmarks i3) as [p3 |] eqn:L3;
    [| exists 3%nat; rewrite E3; split; [lia | exact L3]].
  destruct (nth_error indices 0) as [i0 |] eqn:E0;
    [| exists 0%nat; rewrite E0; split; [lia | reflexivity]].
  destruct (nth_error indices 1) as [i1 |] eqn:E1;
    [| exists 1%nat; rewrite E1; split; [lia | reflexivity]].
  destruct (nth_error landmarks i0) as [p0 |] eqn:L0;
    [| exists 0%nat; rewrite E0; split; [lia | exact L0]].
  destruct (nth_error landmarks i1) as [p1 |] eqn:L1;
    [| exists 1%nat; rewrite E1; split; [lia | exact L1]].
  exists p0, p1, p2, p3.
  split; [reflexivity |]. split; [reflexivity |]. split; [reflexivity |].
  split; [reflexivity |]. split; [reflexivity |].
  pose proof (distance_signless p2 p3) as Hv.
  pose proof (distance_signless p0 p1) as Hh.
  split.
  - rewrite ltb_spec, div_spec. apply SFltb_signless, SFdiv_signless; assumption.
  - apply ratio_below; assumption.
Qed.
